(** * swift-lint.js: a shallow embedding of the CodeMirror Swift linter

    The linter (addon/lint/swift-lint.js) recovers function and type bodies
    from raw text by brace counting, runs regex-based, function-based and
    type-based rules and resolves offsets to line/column positions.

    JavaScript strings are sequences of UTF-16 code units: a text is a list
    of code units ([N]).  Regular expressions are given as syntax trees and
    run by a backtracking matcher that follows the ECMAScript matcher
    semantics (continuation passing, greedy and lazy quantifiers, capture
    groups, anchors and word boundaries). *)

From Stdlib Require Import String Ascii List ZArith NArith Lia Bool Arith Sorted.
Import ListNotations.

Set Implicit Arguments.

(* ------------------------------------------------------------------ *)
(** ** Code units and strings *)

Definition char := N.
Definition jsstring := list char.

Definition chr (a : ascii) : char := N_of_ascii a.
Definition str (s : string) : jsstring := map N_of_ascii (list_ascii_of_string s).

Definition LF : char := 10%N.
Definition TAB : char := 9%N.
Definition CR : char := 13%N.
Definition FF : char := 12%N.

Definition in_range (lo hi c : char) : bool := (N.leb lo c && N.leb c hi)%bool.

(** [\w] *)
Definition is_word (c : char) : bool :=
  in_range (chr "a") (chr "z") c || in_range (chr "A") (chr "Z") c
  || in_range (chr "0") (chr "9") c || N.eqb c (chr "_").

(** LineTerminator: LF, CR, LS, PS *)
Definition is_line_terminator (c : char) : bool :=
  (N.eqb c 10 || N.eqb c 13 || N.eqb c 8232 || N.eqb c 8233)%N.

(** [\s]: WhiteSpace and LineTerminator code units *)
Definition is_space (c : char) : bool :=
  (in_range 9 13 c || N.eqb c 32 || N.eqb c 160 || N.eqb c 5760
   || in_range 8192 8202 c || N.eqb c 8232 || N.eqb c 8233 || N.eqb c 8239
   || N.eqb c 8287 || N.eqb c 12288 || N.eqb c 65279)%N.

Fixpoint string_eqb (a b : jsstring) : bool :=
  match a, b with
  | [], [] => true
  | x :: a', y :: b' => N.eqb x y && string_eqb a' b'
  | _, _ => false
  end.

(** JavaScript values that reach a property access in the linter. *)
Inductive jsval :=
| VUndefined
| VNull
| VStr (s : jsstring).

Definition ToString (v : jsval) : jsstring :=
  match v with
  | VUndefined => str "undefined"
  | VNull => str "null"
  | VStr s => s
  end.

(** ToBoolean on these values: undefined, null and the empty string are falsy *)
Definition truthy (v : jsval) : bool :=
  match v with
  | VStr (_ :: _) => true
  | _ => false
  end.

(** Numbers that may be NaN (arithmetic with [undefined]). *)
Inductive number :=
| Num (z : Z)
| NaN.

(** Outcome of running a piece of the program: a value, a thrown TypeError,
    or a loop that never exits. *)
Inductive outcome (A : Type) :=
| Ok (a : A)
| Throw
| Diverge.
Arguments Ok {A} a.
Arguments Throw {A}.
Arguments Diverge {A}.

Definition bind {A B} (o : outcome A) (f : A -> outcome B) : outcome B :=
  match o with
  | Ok a => f a
  | Throw => Throw
  | Diverge => Diverge
  end.

Notation "x <- c1 ;; c2" := (bind c1 (fun x => c2))
  (at level 61, c1 at next level, right associativity).

Fixpoint mapM {A B} (f : A -> outcome B) (l : list A) : outcome (list B) :=
  match l with
  | [] => Ok []
  | a :: l' => b <- f a ;; bs <- mapM f l' ;; Ok (b :: bs)
  end.

(* ------------------------------------------------------------------ *)
(** ** String methods *)

Module JSString.

(** clamp a number into [0, len] as [substring] does *)
Definition clamp (len : nat) (z : Z) : nat :=
  Nat.min (Z.to_nat z) len.

Definition slice (s : jsstring) (a b : nat) : jsstring :=
  firstn (b - a) (skipn a s).

(** [s.substring(a, b)]: both ends clamped, swapped when a > b *)
Definition substring (s : jsstring) (a b : Z) : jsstring :=
  let a' := clamp (length s) a in
  let b' := clamp (length s) b in
  slice s (Nat.min a' b') (Nat.max a' b').

(** [s.substring(a)] *)
Definition substring_from (s : jsstring) (a : Z) : jsstring :=
  skipn (clamp (length s) a) s.

(** [s.charAt(i)]: the empty string out of range *)
Definition charAt (s : jsstring) (i : Z) : jsstring :=
  if (i <? 0)%Z then []
  else match nth_error s (Z.to_nat i) with
       | Some c => [c]
       | None => []
       end.

Fixpoint starts_with (p s : jsstring) : bool :=
  match p, s with
  | [], _ => true
  | x :: p', y :: s' => N.eqb x y && starts_with p' s'
  | _ :: _, [] => false
  end.

Fixpoint indexOf_from (p s : jsstring) (i : nat) : Z :=
  if starts_with p s then Z.of_nat i
  else match s with
       | [] => (-1)%Z
       | _ :: s' => indexOf_from p s' (S i)
       end.

(** [s.indexOf(p)] *)
Definition indexOf (s p : jsstring) : Z := indexOf_from p s 0.

(** [s.split(sep)] for a one-unit separator; [cur] is the piece being read,
    reversed *)
Fixpoint split_aux (sep : char) (s : jsstring) (cur : jsstring)
  : list jsstring :=
  match s with
  | [] => [rev cur]
  | c :: s' =>
      if N.eqb c sep then rev cur :: split_aux sep s' []
      else split_aux sep s' (c :: cur)
  end.

Definition split (s : jsstring) (sep : char) : list jsstring :=
  split_aux sep s [].

(** Number.prototype.toString for integers, radix 10 *)
Fixpoint digits (fuel : nat) (n : N) (acc : jsstring) : jsstring :=
  match fuel with
  | O => acc
  | S f =>
      let d := (chr "0" + N.modulo n 10)%N in
      if N.ltb n 10 then d :: acc else digits f (N.div n 10) (d :: acc)
  end.

Definition intToString (z : Z) : jsstring :=
  let n := Z.to_N (Z.abs z) in
  let ds := digits (S (N.to_nat (N.log2 n))) n [] in
  if (z <? 0)%Z then chr "-" :: ds else ds.

End JSString.

(* ------------------------------------------------------------------ *)
(** ** Regular expressions *)

Module RegExp.

Inductive ClassAtom :=
| CChar (c : char)
| CRange (lo hi : char)
| CSpace          (* \s *)
| CNonSpace       (* \S *)
| CWord.          (* \w *)

Inductive regex :=
| Eps
| Lit (c : char)
| Dot
| Cls (neg : bool) (atoms : list ClassAtom)
| Seq (r1 r2 : regex)
| Alt (r1 r2 : regex)
| Rep (r : regex) (min : nat) (max : option nat) (greedy : bool)
| Grp (n : nat) (r : regex)
| Bol
| Eol
| WordB.

(** derived forms *)
Definition Star r := Rep r 0 None true.
Definition Plus r := Rep r 1 None true.
Definition Opt r := Rep r 0 (Some 1) true.
Definition StarLazy r := Rep r 0 None false.
Definition PlusLazy r := Rep r 1 None false.
Definition Times n r := Rep r n (Some n) true.
Definition AtLeast n r := Rep r n None true.
Definition Between n k r := Rep r n (Some k) true.

Fixpoint Lits (s : jsstring) : regex :=
  match s with
  | [] => Eps
  | [c] => Lit c
  | c :: s' => Seq (Lit c) (Lits s')
  end.
Definition Word (s : string) : regex := Lits (str s).

Fixpoint Seqs (rs : list regex) : regex :=
  match rs with
  | [] => Eps
  | [r] => r
  | r :: rs' => Seq r (Seqs rs')
  end.

Fixpoint Alts (rs : list regex) : regex :=
  match rs with
  | [] => Eps
  | [r] => r
  | r :: rs' => Alt r (Alts rs')
  end.

Definition space := Cls false [CSpace].
Definition nonspace := Cls false [CNonSpace].
Definition word := Cls false [CWord].

Definition atom_matches (a : ClassAtom) (c : char) : bool :=
  match a with
  | CChar c' => N.eqb c c'
  | CRange lo hi => in_range lo hi c
  | CSpace => is_space c
  | CNonSpace => negb (is_space c)
  | CWord => is_word c
  end.

Definition class_matches (neg : bool) (atoms : list ClassAtom) (c : char)
  : bool :=
  xorb neg (existsb (fun a => atom_matches a c) atoms).

(** capture groups that occur inside a regex *)
Fixpoint groups (r : regex) : list nat :=
  match r with
  | Seq r1 r2 | Alt r1 r2 => groups r1 ++ groups r2
  | Rep r' _ _ _ => groups r'
  | Grp n r' => n :: groups r'
  | _ => []
  end.

(** The matcher state: the end index reached and the captures, one slot
    per group (slot 0 is not used by the matcher). *)
Record MatchState := mkState {
  endIndex : nat;
  captures : list (option (nat * nat))
}.

Fixpoint set_nth {A} (n : nat) (v : A) (l : list A) : list A :=
  match l, n with
  | [], _ => []
  | _ :: t, O => v :: t
  | h :: t, S n' => h :: set_nth n' v t
  end.

Definition set_capture (n : nat) (v : option (nat * nat)) (x : MatchState)
  : MatchState :=
  mkState (endIndex x) (set_nth n v (captures x)).

Definition clear_captures (gs : list nat) (x : MatchState) : MatchState :=
  fold_left (fun y g => set_capture g None y) gs x.

Definition advance (x : MatchState) : MatchState :=
  mkState (S (endIndex x)) (captures x).

Definition Cont := MatchState -> option MatchState.

Definition pred_max (max : option nat) : option nat :=
  match max with
  | Some k => Some (pred k)
  | None => None
  end.

Definition is_zero_max (max : option nat) : bool :=
  match max with
  | Some O => true
  | _ => false
  end.

(** RepeatMatcher of the ECMAScript specification.  [mr] matches the
    quantified atom; [gs] are the groups inside it, cleared before each
    iteration; an iteration past [min] that consumes nothing fails. *)
Fixpoint RepeatMatcher (mr : MatchState -> Cont -> option MatchState)
  (gs : list nat) (fuel : nat) (min : nat) (max : option nat)
  (greedy : bool) (x : MatchState) (c : Cont) : option MatchState :=
  match fuel with
  | O => None
  | S fuel' =>
      if is_zero_max max then c x
      else
        let d := fun y : MatchState =>
          if (Nat.eqb min 0 && Nat.eqb (endIndex y) (endIndex x))%bool
          then None
          else RepeatMatcher mr gs fuel' (pred min) (pred_max max) greedy y c
        in
        let xr := clear_captures gs x in
        if negb (Nat.eqb min 0) then mr xr d
        else if greedy then
          match mr xr d with
          | Some z => Some z
          | None => c x
          end
        else
          match c x with
          | Some z => Some z
          | None => mr xr d
          end
  end.

Section Matcher.
Variable input : jsstring.

Definition char_at (i : nat) : option char := nth_error input i.

Definition word_at (i : nat) : bool :=
  match char_at i with
  | Some c => is_word c
  | None => false
  end.

(** IsWordChar(e - 1) and IsWordChar(e) differ *)
Definition at_word_boundary (e : nat) : bool :=
  let a := match e with
           | O => false
           | S e' => word_at e'
           end in
  xorb a (word_at e).

Definition match_char (p : char -> bool) (x : MatchState) (c : Cont)
  : option MatchState :=
  match char_at (endIndex x) with
  | Some ch => if p ch then c (advance x) else None
  | None => None
  end.

Fixpoint m (r : regex) (x : MatchState) (c : Cont) {struct r}
  : option MatchState :=
  match r with
  | Eps => c x
  | Lit ch => match_char (N.eqb ch) x c
  | Dot => match_char (fun ch => negb (is_line_terminator ch)) x c
  | Cls neg atoms => match_char (class_matches neg atoms) x c
  | Seq r1 r2 => m r1 x (fun y => m r2 y c)
  | Alt r1 r2 =>
      match m r1 x c with
      | Some z => Some z
      | None => m r2 x c
      end
  | Rep r' min max greedy =>
      RepeatMatcher (m r') (groups r')
        (S (min + (length input - endIndex x))) min max greedy x c
  | Grp n r' =>
      m r' x (fun y =>
        c (set_capture n (Some (endIndex x, endIndex y)) y))
  | Bol => if Nat.eqb (endIndex x) 0 then c x else None
  | Eol => if Nat.eqb (endIndex x) (length input) then c x else None
  | WordB => if at_word_boundary (endIndex x) then c x else None
  end.

(** number of capture slots: groups are numbered from 1 *)
Definition slots (r : regex) : nat := S (fold_right Nat.max 0 (groups r)).

Definition initial (r : regex) (i : nat) : MatchState :=
  mkState i (repeat None (slots r)).

(** the result of a successful [exec]: where the match starts and the
    final matcher state (its end index is the new [lastIndex]) *)
Record MatchResult := mkResult {
  index : nat;
  final : MatchState
}.

Definition lastIndex (mr : MatchResult) : nat := endIndex (final mr).

(** try the positions [i], [i+1], ... in turn *)
Fixpoint exec_from (r : regex) (fuel : nat) (i : nat)
  : option MatchResult :=
  match fuel with
  | O => None
  | S f =>
      match m r (initial r i) Some with
      | Some y => Some (mkResult i y)
      | None => exec_from r f (S i)
      end
  end.

(** [re.exec(input)] for a regex whose [lastIndex] is [li] *)
Definition exec (r : regex) (li : nat) : option MatchResult :=
  if Nat.ltb (length input) li then None
  else exec_from r (S (length input - li)) li.

(** [match[n]] *)
Definition group (mr : MatchResult) (n : nat) : jsval :=
  match n with
  | O => VStr (JSString.slice input (index mr) (lastIndex mr))
  | _ =>
      match nth n (captures (final mr)) None with
      | Some (a, b) => VStr (JSString.slice input a b)
      | None => VUndefined
      end
  end.

(** [match[0]], always a string *)
Definition matched (mr : MatchResult) : jsstring :=
  JSString.slice input (index mr) (lastIndex mr).

(** [while ((match = re.exec(input)) != null) { ... }] on a global
    regex, collecting the matches; the loop never exits when a match
    leaves [lastIndex] where it was *)
Fixpoint exec_loop (r : regex) (fuel : nat) (li : nat)
  : outcome (list MatchResult) :=
  match fuel with
  | O => Diverge
  | S f =>
      match exec r li with
      | None => Ok []
      | Some mr =>
          rest <- exec_loop r f (lastIndex mr) ;;
          Ok (mr :: rest)
      end
  end.

Definition exec_all (r : regex) : outcome (list MatchResult) :=
  exec_loop r (length input + 2) 0.

(** [re.test(input)] on a regex without the global flag *)
Definition test (r : regex) : bool :=
  match exec r 0 with
  | Some _ => true
  | None => false
  end.

(** The matches a regex allows, without the order in which the matcher
    tries them: [Matches r x y] when [r] can take the state [x] to [y]. *)
Inductive Matches : regex -> MatchState -> MatchState -> Prop :=
| MEps x : Matches Eps x x
| MLit ch x :
    char_at (endIndex x) = Some ch -> Matches (Lit ch) x (advance x)
| MDot ch x :
    char_at (endIndex x) = Some ch -> is_line_terminator ch = false ->
    Matches Dot x (advance x)
| MCls neg atoms ch x :
    char_at (endIndex x) = Some ch -> class_matches neg atoms ch = true ->
    Matches (Cls neg atoms) x (advance x)
| MSeq r1 r2 x y z :
    Matches r1 x y -> Matches r2 y z -> Matches (Seq r1 r2) x z
| MAltL r1 r2 x y : Matches r1 x y -> Matches (Alt r1 r2) x y
| MAltR r1 r2 x y : Matches r2 x y -> Matches (Alt r1 r2) x y
| MRepZero r min max g x :
    is_zero_max max = true -> Matches (Rep r min max g) x x
| MRepStop r max g x : Matches (Rep r 0 max g) x x
| MRepStep r min max g x y z :
    is_zero_max max = false ->
    Matches r (clear_captures (groups r) x) y ->
    (min = 0 -> endIndex y <> endIndex x) ->
    Matches (Rep r (pred min) (pred_max max) g) y z ->
    Matches (Rep r min max g) x z
| MGrp n r x y :
    Matches r x y ->
    Matches (Grp n r) x (set_capture n (Some (endIndex x, endIndex y)) y)
| MBol x : endIndex x = 0 -> Matches Bol x x
| MEol x : endIndex x = length input -> Matches Eol x x
| MWordB x : at_word_boundary (endIndex x) = true -> Matches WordB x x.

End Matcher.

(** [nullable r = false]: no match of [r] is empty *)
Fixpoint nullable (r : regex) : bool :=
  match r with
  | Eps | Bol | Eol | WordB => true
  | Lit _ | Dot | Cls _ _ => false
  | Seq r1 r2 => nullable r1 && nullable r2
  | Alt r1 r2 => nullable r1 || nullable r2
  | Rep r' min max _ => is_zero_max max || Nat.eqb min 0 || nullable r'
  | Grp _ r' => nullable r'
  end.

End RegExp.

Import RegExp.

(* ------------------------------------------------------------------ *)
(** ** Results processing: the position index *)

Inductive Severity := warning | error.

(** A raw error as the rules return it.  [index] is a number: it is
    [LINE_NUMBERS[i]] in the line-length rule, which is [undefined] (NaN in
    every comparison and sum) past the end of that array. *)
Record RawError := mkRaw {
  raw_code : jsstring;
  raw_index : number;
  raw_severity : Severity;
  raw_message : jsstring
}.

(** [CodeMirror.Pos(line, ch)] *)
Record Pos := mkPos {
  line : Z;
  ch : number
}.

(** A processed error, as CodeMirror's lint addon takes it. *)
Record LintError := mkLint {
  severity : Severity;
  message : jsstring;
  from : Pos;
  to : Pos
}.

(** The module-level variables [LINE_NUMBERS] and [TEXT_LENGTH]. *)
Record Globals := mkGlobals {
  LINE_NUMBERS : list Z;
  TEXT_LENGTH : Z
}.

Definition initial_globals : Globals := mkGlobals [] (-1).

Fixpoint lineNumbers_loop (lineArray : list jsstring) (currentIndex : Z)
  : list Z :=
  match lineArray with
  | [] => []
  | line :: rest =>
      currentIndex
        :: lineNumbers_loop rest (currentIndex + Z.of_nat (length line) + 1)
  end.

(** [obtainLineNumbers(text)]: overwrites both globals *)
Definition obtainLineNumbers (g : Globals) (text : jsstring) : Globals :=
  let lineArray := JSString.split text LF in
  mkGlobals (lineNumbers_loop lineArray 0) (Z.of_nat (length text)).

(** [LINE_NUMBERS[i]]: [undefined] out of range *)
Definition line_number (g : Globals) (i : Z) : number :=
  if (i <? 0)%Z then NaN
  else match nth_error (LINE_NUMBERS g) (Z.to_nat i) with
       | Some s => Num s
       | None => NaN
       end.

Definition number_sub (a b : number) : number :=
  match a, b with
  | Num x, Num y => Num (x - y)
  | _, _ => NaN
  end.

Definition number_add (a b : number) : number :=
  match a, b with
  | Num x, Num y => Num (x + y)
  | _, _ => NaN
  end.

(** the [for] loop of [getLinePos], from iteration [i] on; [rest] holds
    [LINE_NUMBERS[i..]] *)
Fixpoint getLinePos_loop (g : Globals) (index : Z) (i : Z) (rest : list Z)
  : option Pos :=
  match rest with
  | [] => None
  | ln :: rest' =>
      if (index <? ln)%Z then
        Some (mkPos (i - 1) (number_sub (Num index) (line_number g (i - 1))))
      else if (index =? ln)%Z then
        Some (mkPos i (number_sub (Num index) (line_number g i)))
      else if ((i =? Z.of_nat (length (LINE_NUMBERS g)) - 1)
               && (index <=? TEXT_LENGTH g))%Z%bool then
        Some (mkPos i (number_sub (Num index) (line_number g i)))
      else getLinePos_loop g index (i + 1) rest'
  end.

(** [getLinePos(index)]: [None] is [null].  With a NaN index every
    comparison of the loop is false and the loop runs to its end. *)
Definition getLinePos (g : Globals) (index : number) : option Pos :=
  match index with
  | Num z => getLinePos_loop g z 0 (LINE_NUMBERS g)
  | NaN => None
  end.

(** one iteration of the loop of [processRawErrors] *)
Definition processRawError (g : Globals) (rawError : RawError)
  : list LintError :=
  let lengthOfErrorCode := Z.of_nat (length (raw_code rawError)) in
  match getLinePos g (raw_index rawError),
        getLinePos g (number_add (raw_index rawError) (Num lengthOfErrorCode))
  with
  | Some errPos, Some errPosEnd =>
      [mkLint (raw_severity rawError) (raw_message rawError) errPos errPosEnd]
  | _, _ => []
  end.

Fixpoint processRawErrors (g : Globals) (rawErrors : list RawError)
  : list LintError :=
  match rawErrors with
  | [] => []
  | rawError :: rest => processRawError g rawError ++ processRawErrors g rest
  end.

(* ------------------------------------------------------------------ *)
(** ** Regex-based rules *)

Definition L (a : ascii) : regex := Lit (chr a).
Definition C (a : ascii) : ClassAtom := CChar (chr a).

Record RegexRule := mkRule {
  rePatterns : list regex;
  exceptions : option (list regex);
  rule_severity : Severity;
  rule_message : jsstring
}.

(** [/\}[ \t]+\)/g] *)
Definition closingBraceRule : RegexRule :=
  mkRule [Seqs [L "}"; Plus (Cls false [C " "; CChar TAB]); L ")"]]
    None warning
    (str "Closing brace with closing parenthesis should not have any whitespace in the middle.").

(** [/(\w)(?:\s+:\s*|:(?:\s{0}))([\[|\(]*\S)/g] *)
Definition colonRule : RegexRule :=
  mkRule
    [Seqs [Grp 1 word;
           Alt (Seqs [Plus space; L ":"; Star space])
               (Seq (L ":") (Times 0 space));
           Grp 2 (Seq (Star (Cls false [C "["; C "|"; C "("])) nonspace)]]
    None warning
    (str "Colons should be next to the identifier when specifying a type and the type should not be immediately next to the colon.").

(** [[\s\t\p{Z}]]: without the unicode flag [\p] is the letter p, and the
    braces and Z are members of the class *)
Definition commaSpace : regex :=
  Cls false [CSpace; CChar TAB; C "p"; C "{"; C "Z"; C "}"].

(** [/\S(\s+,[\s\t\p{Z}]*|,(?:[\s\t\p{Z}]{0}|[\s\t\p{Z}]{2,}))(\S)/g] *)
Definition commaRule : RegexRule :=
  mkRule
    [Seqs [nonspace;
           Grp 1 (Alt (Seqs [Plus space; L ","; Star commaSpace])
                      (Seq (L ",")
                           (Alt (Times 0 commaSpace) (AtLeast 2 commaSpace))));
           Grp 2 nonspace]]
    None warning
    (str "There should be no space before and one after any comma.").

(** [/(guard|if)[^\n]*return[^\n]\n*/g] *)
Definition conditionalReturnsOnNewlineRule : RegexRule :=
  mkRule
    [Seqs [Grp 1 (Alt (Word "guard") (Word "if"));
           Star (Cls true [CChar LF]); Word "return";
           Cls true [CChar LF]; Star (Lit LF)]]
    None warning
    (str "Conditional statements should always return on the next line.").

(** [keyword\s*\([^,{]*\)\s*\{] *)
Definition controlStatement (keyword : string) : regex :=
  Seqs [Word keyword; Star space; L "("; Star (Cls true [C ","; C "{"]);
        L ")"; Star space; L "{"].

Definition controlStatementRule : RegexRule :=
  mkRule
    [ (* /guard\s*\([^,{]*\)\s*else\s*\s{/g *)
      Seqs [Word "guard"; Star space; L "("; Star (Cls true [C ","; C "{"]);
            L ")"; Star space; Word "else"; Star space; space; L "{"];
      controlStatement "if";
      controlStatement "for";
      controlStatement "switch";
      controlStatement "while" ]
    None warning
    (str "Conditional statements should not wrap their conditionals in parentheses.").

(** [/\.count\s*(==|!=|<|<=|>|>=)\s*0/g] *)
Definition emptyCountRule : RegexRule :=
  mkRule
    [Seqs [Word ".count"; Star space;
           Grp 1 (Alts [Word "=="; Word "!="; Word "<"; Word "<=";
                        Word ">"; Word ">="]);
           Star space; L "0"]]
    None error
    (str "Prefer checking 'isEmpty' over comparing 'count' to zero.").

Definition forceCastRule : RegexRule :=
  mkRule [Word "as!"] None error (str "Force casts should be avoided.").

Definition forceTryRule : RegexRule :=
  mkRule [Word "try!"] None error (str "Force tries should be avoided.").

(** [/^[\s]+/g] *)
Definition leadingWhitespaceRule : RegexRule :=
  mkRule [Seq Bol (Plus (Cls false [CSpace]))] None warning
    (str "Files should not contain leading whitespace.").

Definition legacyNSGeometryFunctions : list string :=
  ["NSWidth"; "NSHeight"; "NSMinX"; "NSMidX"; "NSMaxX"; "NSMinY";
   "NSMidY"; "NSMaxY"; "NSEqualRects"; "NSEqualSizes"; "NSEqualPoints";
   "NSEdgeInsetsEqual"; "NSIsEmptyRect"; "NSIntegralRect";
   "NSInsetRect"; "NSOffsetRect"; "NSUnionRect"; "NSIntersectionRect";
   "NSContainsRect"; "NSPointInRect"; "NSIntersectsRect"]%string.

Definition legacyNSGeometryFunctionsRule : RegexRule :=
  mkRule
    [Seqs [WordB; Grp 1 (Alts (map Word legacyNSGeometryFunctions)); WordB]]
    None warning
    (str "Struct extension properties and methods are preferred over legacy functions.").

(** [/((?:[^\( ]|[\s\(][\s]+)\{)/g] *)
Definition openingBracePattern : regex :=
  Grp 1 (Seq (Alt (Cls true [C "("; C " "])
                  (Seq (Cls false [CSpace; C "("])
                       (Plus (Cls false [CSpace]))))
             (L "{")).

(** [/(?:if|guard|while)\n[^\{]+?[\s\t\n]\{/g] *)
Definition openingBraceException : regex :=
  Seqs [Alts [Word "if"; Word "guard"; Word "while"]; Lit LF;
        PlusLazy (Cls true [C "{"]);
        Cls false [CSpace; CChar TAB; CChar LF]; L "{"].

Definition openingBraceRule : RegexRule :=
  mkRule [openingBracePattern] (Some [openingBraceException]) warning
    (str "Opening braces should be preceded by a single space and on the same line as the declaration.").

(** [/\?\?\s*nil\b/g] *)
Definition redundantNilCoalescingRule : RegexRule :=
  mkRule [Seqs [Word "??"; Star space; Word "nil"; WordB]] None warning
    (str "nil coalescing operator is only evaluated if the left hand side is nil; coalescing operator with nil as right hand side is redundant.").

(** [[ \f\r\t]] *)
Definition spaceRegex : regex := Cls false [C " "; CChar FF; CChar CR; CChar TAB].

(** [([ \f\r\t]{0}|[ \f\r\t]{2,})], as group [n] *)
Definition incorrectSpaceRegex (n : nat) : regex :=
  Grp n (Alt (Times 0 spaceRegex) (AtLeast 2 spaceRegex)).

Definition returnArrowPatterns : list regex :=
  [ Grp 2 (Seqs [incorrectSpaceRegex 3; Word "->"; Star spaceRegex]);
    Grp 4 (Seqs [spaceRegex; Word "->"; incorrectSpaceRegex 5]);
    Seqs [Lit LF; Star spaceRegex; Word "->"; incorrectSpaceRegex 6];
    Seqs [incorrectSpaceRegex 7; Word "->"; Lit LF; Star spaceRegex] ].

(** [\)(p1|p2|p3|p4)\S+] *)
Definition returnArrowWhiteSpaceRule : RegexRule :=
  mkRule [Seqs [L ")"; Grp 1 (Alts returnArrowPatterns); Plus nonspace]]
    None warning
    (str "Return arrow and return type should be separated by a single space or on a separate line.").

(** [/[^\n]+$|\n{2,}$/g] *)
Definition trailingNewlineRule : RegexRule :=
  mkRule [Alt (Seq (Plus (Cls true [CChar LF])) Eol)
              (Seq (AtLeast 2 (Lit LF)) Eol)]
    None warning (str "Files should have a single trailing newline.").

(** [/;\n|;$/g] *)
Definition trailingSemicolonRule : RegexRule :=
  mkRule [Alt (Seq (L ";") (Lit LF)) (Seq (L ";") Eol)] None warning
    (str "Lines should not end with a trailing semicolon.").

(** [/[^\S\n](?:\n|$)/g] *)
Definition trailingWhitespaceRule : RegexRule :=
  mkRule [Seq (Cls true [CNonSpace; CChar LF]) (Alt (Lit LF) Eol)]
    None warning (str "Lines should not end with trailing whitespace.").

(** [/\n(?:[^\S\n]*\n){2,}/g] *)
Definition verticalWhitespaceRule : RegexRule :=
  mkRule
    [Seq (Lit LF)
         (AtLeast 2 (Seq (Star (Cls true [CNonSpace; CChar LF])) (Lit LF)))]
    None warning
    (str "Vertical whitespace should not be longer than one line.").

Definition allRegexRules : list RegexRule :=
  [closingBraceRule; colonRule; commaRule; conditionalReturnsOnNewlineRule;
   controlStatementRule; emptyCountRule; forceCastRule; forceTryRule;
   leadingWhitespaceRule; legacyNSGeometryFunctionsRule; openingBraceRule;
   redundantNilCoalescingRule; returnArrowWhiteSpaceRule; trailingNewlineRule;
   trailingSemicolonRule; trailingWhitespaceRule; verticalWhitespaceRule].

(** An exception range [{start, end}]. *)
Record Range := mkRange {
  range_start : Z;
  range_end : Z
}.

(** all matches of each regex of the list, in turn *)
Fixpoint exec_each (text : jsstring) (res : list regex)
  : outcome (list MatchResult) :=
  match res with
  | [] => Ok []
  | re :: rest =>
      ms <- exec_all text re ;;
      ms' <- exec_each text rest ;;
      Ok (ms ++ ms')
  end.

Definition processExceptions (text : jsstring)
  (exceptions : option (list regex)) : outcome (list Range) :=
  match exceptions with
  | None => Ok []
  | Some es =>
      ms <- exec_each text es ;;
      Ok (map (fun mr =>
                 mkRange (Z.of_nat (index mr))
                   (Z.of_nat (index mr) + Z.of_nat (length (matched text mr))))
              ms)
  end.

Fixpoint regexException (matchIndex : Z) (exceptionRanges : list Range)
  : bool :=
  match exceptionRanges with
  | [] => false
  | range :: rest =>
      if ((range_start range <=? matchIndex)
          && (range_end range >? matchIndex))%Z%bool
      then true
      else regexException matchIndex rest
  end.

(** the raw error pushed for a match *)
Definition finding_of (text : jsstring) (rule : RegexRule) (mr : MatchResult)
  : RawError :=
  mkRaw (matched text mr) (Num (Z.of_nat (index mr)))
    (rule_severity rule) (rule_message rule).

Definition regexRule (text : jsstring) (rule : RegexRule)
  : outcome (list RawError) :=
  exceptionRanges <- processExceptions text (exceptions rule) ;;
  ms <- exec_each text (rePatterns rule) ;;
  Ok (flat_map (fun mr =>
        if negb (regexException (Z.of_nat (index mr)) exceptionRanges)
        then [finding_of text rule mr]
        else [])
      ms).

(* ------------------------------------------------------------------ *)
(** ** Extraction of function and type bodies *)

(** A body declaration.  [paramCount] and [params] are absent
    ([undefined]) until [getFunctionParameters] sets them. *)
Record Body := mkBody {
  code : jsstring;
  name : jsval;
  body_index : nat;
  type : jsstring;
  maxDepth : Z;
  paramCount : option Z;
  params : jsval
}.

(** [new RegExp('(?:^|\\b)' + type + '\\s+(\\w+)', 'g')], for a [type]
    without regex metacharacters: the code passes [func], [enum], [struct]
    and [class] only, the [declaration_keywords] below *)
Definition searchRegex (type : jsstring) : regex :=
  Seqs [Alt Bol WordB; Lits type; Plus space; Grp 1 (Plus word)].

(** [/[^\}]*?\{|[^\{]*?\}/g] *)
Definition braceRegex : regex :=
  Alt (Seq (StarLazy (Cls true [C "}"])) (L "{"))
      (Seq (StarLazy (Cls true [C "{"])) (L "}")).

Definition last_char (s : jsstring) : jsstring :=
  JSString.charAt s (Z.of_nat (length s) - 1).

(** the [while] loop over [braceRegex.exec(codeToCheck)]; returns the final
    [depth], [code] and [maxDepth] *)
Fixpoint brace_loop (codeToCheck : jsstring) (fuel : nat) (li : nat)
  (depth : Z) (code : jsstring) (maxDepth : Z)
  : outcome (Z * jsstring * Z) :=
  match fuel with
  | O => Diverge
  | S f =>
      match exec codeToCheck braceRegex li with
      | None => Ok (depth, code, maxDepth)
      | Some mr =>
          let matchStr := matched codeToCheck mr in
          let depth :=
            if string_eqb (last_char matchStr) (str "{") then (depth + 1)%Z
            else if string_eqb (last_char matchStr) (str "}") then (depth - 1)%Z
            else depth in
          let code := code ++ matchStr in
          let maxDepth := if (depth >? maxDepth)%Z then depth else maxDepth in
          if (depth <=? 0)%Z then Ok (depth, code, maxDepth)
          else brace_loop codeToCheck f (lastIndex mr) depth code maxDepth
      end
  end.

(** the body of the second loop of [extractBodies]: the declaration when it
    is valid *)
Definition captureBody (text : jsstring) (type : jsstring)
  (dec : MatchResult) : outcome (list Body) :=
  let codeToCheck := JSString.substring_from text (Z.of_nat (index dec)) in
  res <- brace_loop codeToCheck (S (length codeToCheck)) 0 0 [] 0 ;;
  let '(depth, code, maxDepth) := res in
  if ((depth =? 0)%Z && negb (string_eqb code []))%bool
  then Ok [mkBody code (group text dec 1) (index dec) type maxDepth
             None VUndefined]
  else Ok [].

Fixpoint captureBodies (text : jsstring) (type : jsstring)
  (bodyDecs : list MatchResult) : outcome (list Body) :=
  match bodyDecs with
  | [] => Ok []
  | dec :: rest =>
      b <- captureBody text type dec ;;
      bs <- captureBodies text type rest ;;
      Ok (b ++ bs)
  end.

Definition extractBodies (text : jsstring) (type : jsstring)
  : outcome (list Body) :=
  bodyDecs <- exec_all text (searchRegex type) ;;
  captureBodies text type bodyDecs.

Definition extractFunctions (text : jsstring) : outcome (list Body) :=
  extractBodies text (str "func").

Definition extractTypes (text : jsstring) : outcome (list Body) :=
  enums <- extractBodies text (str "enum") ;;
  structs <- extractBodies text (str "struct") ;;
  classes <- extractBodies text (str "class") ;;
  Ok ((enums ++ structs) ++ classes).

(** the keywords that [extractFunctions] and [extractTypes] pass to
    [extractBodies] *)
Definition declaration_keywords : list jsstring :=
  [str "func"; str "enum"; str "struct"; str "class"].

(* ------------------------------------------------------------------ *)
(** ** Function parameters *)

(** [/^func\s+\w+\s*\(\s*\)/] *)
Definition noParamRegex : regex :=
  Seqs [Bol; Word "func"; Plus space; Plus word; Star space; L "(";
        Star space; L ")"].

(** [/^func\s+\w+(.*?)\{/] *)
Definition paramRegex : regex :=
  Seqs [Bol; Word "func"; Plus space; Plus word; Grp 1 (StarLazy Dot);
        L "{"].

(** The state of the counting loop after an iteration. *)
Inductive ParamStep :=
| Break (paramCount paramEndIndex : Z)
| Continue (depth paramCount : Z).

(** one iteration, reading [currentChar = functionInfo.charAt(i)] *)
Definition param_step (currentChar : jsstring) (i depth paramCount : Z)
  : ParamStep :=
  let depth :=
    if string_eqb currentChar (str "(") then (depth + 1)%Z else depth in
  let depth :=
    if string_eqb currentChar (str ")") then (depth - 1)%Z else depth in
  let paramCount :=
    if ((depth =? 1)%Z && string_eqb currentChar (str ","))%bool
    then (paramCount + 1)%Z else paramCount in
  if (depth =? 0)%Z then Break paramCount (i + 1)
  else Continue depth paramCount.

(** the [for] loop over the characters still to visit; when [i] reaches
    [functionInfo.length] the loop ends with [paramEndIndex] at -1 *)
Fixpoint param_loop (visit : list jsstring) (i depth paramCount : Z)
  : Z * Z :=
  match visit with
  | [] => (paramCount, (-1)%Z)
  | currentChar :: rest =>
      match param_step currentChar i depth paramCount with
      | Break pc pe => (pc, pe)
      | Continue d pc => param_loop rest (i + 1) d pc
      end
  end.

(** the characters [functionInfo.charAt(i)] for [i] from [paramStartIndex]
    to [functionInfo.length - 1]; [charAt(-1)] is the empty string *)
Definition visited (functionInfo : jsstring) (paramStartIndex : Z)
  : list jsstring :=
  let units := map (fun c => [c]) in
  if (paramStartIndex <? 0)%Z then [] :: units functionInfo
  else units (skipn (Z.to_nat paramStartIndex) functionInfo).

(** [paramCount] and [paramEndIndex] after the loop *)
Definition countParameters (functionInfo : jsstring) : Z * Z :=
  let paramStartIndex := JSString.indexOf functionInfo (str "(") in
  param_loop (visited functionInfo paramStartIndex) paramStartIndex 0 1.

Definition set_params (f : Body) (pc : Z) (ps : jsval) : Body :=
  mkBody (code f) (name f) (body_index f) (type f) (maxDepth f) (Some pc) ps.

(** [getFunctionParameters(functionObj)]: the object after the call *)
Definition getFunctionParameters (functionObj : Body) : outcome Body :=
  if test (code functionObj) noParamRegex then
    Ok (set_params functionObj 0 VNull)
  else
    match exec (code functionObj) paramRegex 0 with
    | Some mr =>
        match group (code functionObj) mr 1 with
        | VStr functionInfo =>
            let paramStartIndex := JSString.indexOf functionInfo (str "(") in
            let '(paramCount, paramEndIndex) := countParameters functionInfo in
            Ok (set_params functionObj paramCount
                  (VStr (JSString.substring functionInfo
                           (paramStartIndex + 1) (paramEndIndex - 1))))
        | _ => Throw
        end
    | None => Ok functionObj
    end.

(* ------------------------------------------------------------------ *)
(** ** Function-based rules *)

Definition keywords : list string :=
  ["if"; "func"; "while"; "for"; "guard"; "case"; "switch";
   "fallthrough"]%string.

(** [/\b(if|func|while|for|guard|case|switch|fallthrough)\b/g] *)
Definition keyRegex : regex :=
  Seqs [WordB; Grp 1 (Alts (map Word keywords)); WordB].

(** The object [keywordCount]: its keys with their counts. *)
Definition KeywordCount := list (jsstring * Z).

Definition keywordCount_init : KeywordCount :=
  map (fun k => (str k, 0%Z)) keywords.

(** [keywordCount[key] += 1]; a key that is not one of the eight would get
    a property of its own, which no later lookup reads *)
Fixpoint increment (key : jsstring) (kc : KeywordCount) : KeywordCount :=
  match kc with
  | [] => []
  | (k, n) :: rest =>
      if string_eqb k key then (k, (n + 1)%Z) :: rest
      else (k, n) :: increment key rest
  end.

(** [keywordCount[key]] for one of the eight keys *)
Fixpoint lookup (key : jsstring) (kc : KeywordCount) : Z :=
  match kc with
  | [] => 0%Z
  | (k, n) :: rest => if string_eqb k key then n else lookup key rest
  end.

Definition countKeywords (funcBody : jsstring) : outcome KeywordCount :=
  ms <- exec_all funcBody keyRegex ;;
  Ok (fold_left (fun kc mr => increment (matched funcBody mr) kc) ms
        keywordCount_init).

(** [keywordCount['if']] and the like *)
Definition count_of (keywordCount : KeywordCount) (k : string) : Z :=
  lookup (str k) keywordCount.

Definition complexityOf (keywordCount : KeywordCount) : Z :=
  let get := count_of keywordCount in
  let currentComplexity :=
    (0 + get "if" + get "func" + get "while" + get "for"
     + get "guard")%string%Z
  in
  if (get "switch"%string >? 0)%Z then
    let switchComplexity :=
      (get "case"%string - get "fallthrough"%string)%Z in
    if (switchComplexity >? 0)%Z
    then (currentComplexity + switchComplexity)%Z
    else currentComplexity
  else currentComplexity.

Definition fnIndex (f : Body) : number := Num (Z.of_nat (body_index f)).

(** the finding of the complexity rule for one function, if any *)
Definition cyclomaticComplexityError (f : Body) (currentComplexity : Z)
  : list RawError :=
  let baseMessage := str "Cyclomatic complexity should have complexity of 10 or less; the current complexity of the function " in
  if (currentComplexity >? 10)%Z then
    [mkRaw (code f) (fnIndex f)
       (if (currentComplexity >? 20)%Z then error else warning)
       (baseMessage ++ ToString (name f) ++ str " is "
          ++ JSString.intToString currentComplexity ++ str ".")]
  else [].

Fixpoint cyclomaticComplexityRule (text : jsstring) (functions : list Body)
  : outcome (list RawError) :=
  match functions with
  | [] => Ok []
  | f :: rest =>
      keywordCount <- countKeywords (code f) ;;
      errs <- cyclomaticComplexityRule text rest ;;
      Ok (cyclomaticComplexityError f (complexityOf keywordCount) ++ errs)
  end.

Definition functionBodyLengthRule (text : jsstring) (functions : list Body)
  : list RawError :=
  let baseMessage := str "Functions bodies should not span too many lines. The function " in
  flat_map (fun f =>
    let lineArray := JSString.split (code f) LF in
    let n := Z.of_nat (length lineArray) in
    if (n >? 40)%Z then
      [mkRaw (code f) (fnIndex f)
         (if (n >? 100)%Z then error else warning)
         (baseMessage ++ ToString (name f) ++ str " currently has "
            ++ JSString.intToString n ++ str " lines.")]
    else [])
  functions.

(** [undefined > 5] is false *)
Definition functionParameterCountRule (text : jsstring)
  (functions : list Body) : list RawError :=
  let baseMessage := str "Number of function parameters should be low. The function " in
  flat_map (fun f =>
    match paramCount f with
    | Some n =>
        if (n >? 5)%Z then
          [mkRaw (code f) (fnIndex f)
             (if (n >? 8)%Z then error else warning)
             (baseMessage ++ ToString (name f) ++ str " currently has "
                ++ JSString.intToString n ++ str " parameters.")]
        else []
    | None => []
    end)
  functions.

(** the loop of [lineLengthRule] from line [i] on *)
Fixpoint lineLength_loop (g : Globals) (splitLines : list jsstring) (i : Z)
  : list RawError :=
  let baseMessage := str "Lines should not span too many characters. This line currently has " in
  match splitLines with
  | [] => []
  | currentLine :: rest =>
      let n := Z.of_nat (length currentLine) in
      (if (n >? 100)%Z then
         [mkRaw currentLine (line_number g i)
            (if (n >? 200)%Z then error else warning)
            (baseMessage ++ JSString.intToString n ++ str " characters.")]
       else [])
      ++ lineLength_loop g rest (i + 1)
  end.

(** [lineLengthRule(text)]; reads the global [LINE_NUMBERS] *)
Definition lineLengthRule (g : Globals) (text : jsstring) : list RawError :=
  lineLength_loop g (JSString.split text LF) 0.

Definition nestingFuncRule (text : jsstring) (functions : list Body)
  : list RawError :=
  let baseMessage := str "Functions should not be nested more than five levels deep. The function " in
  flat_map (fun f =>
    if (maxDepth f >? 5)%Z then
      [mkRaw (code f) (fnIndex f) warning
         (baseMessage ++ ToString (name f) ++ str " has a maximum depth of "
            ++ JSString.intToString (maxDepth f) ++ str " levels.")]
    else [])
  functions.

(** A declared variable or a function parameter. *)
Record Variable_ := mkVar {
  var_name : jsstring;
  staticImmutable : bool;
  var_index : Z
}.

(** [/\w+/g] *)
Definition varRegex : regex := Plus word.

(** [getVariablesFromTuples(tuple, tupleIndex, staticImmutable)]; [exec]
    converts its argument to a string *)
Definition getVariablesFromTuples (tuple : jsval) (tupleIndex : Z)
  (staticImmutable : bool) : outcome (list Variable_) :=
  let tuple := ToString tuple in
  ms <- exec_all tuple varRegex ;;
  Ok (map (fun mr =>
             mkVar (matched tuple mr) staticImmutable
               (Z.of_nat (index mr) + tupleIndex))
          ms).

Definition alnum : regex :=
  Cls false [CRange (chr "A") (chr "Z"); CRange (chr "a") (chr "z");
             CRange (chr "0") (chr "9")].

(** [/^_?(?:[a-z][A-Za-z0-9]*|[A-Z0-9]+)$/] *)
Definition immutableTest : regex :=
  Seqs [Bol; Opt (L "_");
        Alt (Seq (Cls false [CRange (chr "a") (chr "z")]) (Star alnum))
            (Plus (Cls false [CRange (chr "A") (chr "Z");
                              CRange (chr "0") (chr "9")]));
        Eol].

(** [/^_?[A-Za-z][A-Za-z0-9]*$/] *)
Definition mutableTest : regex :=
  Seqs [Bol; Opt (L "_");
        Cls false [CRange (chr "A") (chr "Z"); CRange (chr "a") (chr "z")];
        Star alnum; Eol].

Definition tooShortMessage : jsstring :=
  str "Variable names should be at least three characters long.".
Definition tooLongMessage : jsstring :=
  str "Variable names should not be more than 40 characters long.".
Definition malformedMessage : jsstring :=
  str "Variable names should only contain alphanumeric characters. Mutable variable names should either start with a lowercase letter or only contain capital letters.".
Definition malformedStaticMessage : jsstring :=
  str "Variable names should only contain alphanumeric characters.".

(** [testVariableName(variable)]: [None] is [null] *)
Definition testVariableName (variable : Variable_) : option RawError :=
  let errorObject sev msg :=
    mkRaw (var_name variable) (Num (var_index variable)) sev msg in
  let len := length (var_name variable) in
  if len <? 3 then
    Some (errorObject (if len <? 2 then error else warning) tooShortMessage)
  else if 40 <? len then
    Some (errorObject (if 60 <? len then error else warning) tooLongMessage)
  else if negb (staticImmutable variable) then
    if negb (test (var_name variable) immutableTest)
    then Some (errorObject warning malformedMessage)
    else None
  else
    if negb (test (var_name variable) mutableTest)
    then Some (errorObject warning malformedStaticMessage)
    else None.

(** [/(static)?\s*(var|let)\s+(?:(\w+)|\(((?:\w+(?:\,\s+)?)+)\))/g] *)
Definition variableRegex : regex :=
  Seqs [Opt (Grp 1 (Word "static")); Star space;
        Grp 2 (Alt (Word "var") (Word "let")); Plus space;
        Alt (Grp 3 (Plus word))
            (Seqs [L "(";
                   Grp 4 (Plus (Seq (Plus word)
                                    (Opt (Seq (L ",") (Plus space)))));
                   L ")"])].

(** [match[2] == 'let'] *)
Definition is_let (v : jsval) : bool :=
  match v with
  | VStr s => string_eqb s (str "let")
  | _ => false
  end.

(** the body of the first loop of [variableNameRule]: the variables one
    match adds; [matchText.charAt(0)] throws when [matchText] is not a
    string *)
Definition declaredVariables (text : jsstring) (mr : MatchResult)
  : outcome (list Variable_) :=
  let staticImmutable := (truthy (group text mr 1) && is_let (group text mr 2))%bool in
  let matchText :=
    if truthy (group text mr 4) then group text mr 4 else group text mr 3 in
  let varIndex :=
    (JSString.indexOf (JSString.substring_from text (Z.of_nat (index mr)))
       (ToString matchText) + Z.of_nat (index mr))%Z in
  match matchText with
  | VStr matchText =>
      let '(matchText, varIndex) :=
        if string_eqb (JSString.charAt matchText 0) (str "_")
        then (JSString.substring_from matchText 1, (varIndex + 1)%Z)
        else (matchText, varIndex) in
      if truthy (group text mr 4)
      then getVariablesFromTuples (VStr matchText) varIndex staticImmutable
      else Ok [mkVar matchText staticImmutable varIndex]
  | _ => Throw
  end.

Fixpoint concatM {A B} (f : A -> outcome (list B)) (l : list A)
  : outcome (list B) :=
  match l with
  | [] => Ok []
  | a :: l' => bs <- f a ;; bs' <- concatM f l' ;; Ok (bs ++ bs')
  end.

(** the second loop of [variableNameRule]: the parameters of a function *)
Definition parameterVariables (currentFunc : Body)
  : outcome (list Variable_) :=
  let paramsIndex :=
    (Z.of_nat (body_index currentFunc)
     + JSString.indexOf (code currentFunc) (str "(") + 1)%Z in
  getVariablesFromTuples (params currentFunc) paramsIndex false.

Definition variableNameRule (text : jsstring) (functions : list Body)
  : outcome (list RawError) :=
  ms <- exec_all text variableRegex ;;
  declared <- concatM (declaredVariables text) ms ;;
  parameters <- concatM parameterVariables functions ;;
  let allVariables := declared ++ parameters in
  Ok (flat_map (fun v =>
                  match testVariableName v with
                  | Some currentVarError => [currentVarError]
                  | None => []
                  end)
               allVariables).

(* ------------------------------------------------------------------ *)
(** ** Type-based rules *)

Definition nestingTypeRule (text : jsstring) (types : list Body)
  : list RawError :=
  let baseMessage := str "Types should not be nested more than one level deep. The " in
  flat_map (fun t =>
    if (maxDepth t >? 1)%Z then
      [mkRaw (code t) (fnIndex t) warning
         (baseMessage ++ type t ++ str " " ++ ToString (name t)
            ++ str " has a maximum depth of "
            ++ JSString.intToString (maxDepth t) ++ str " levels.")]
    else [])
  types.

Definition typeBodyLengthRule (text : jsstring) (types : list Body)
  : list RawError :=
  let baseMessage := str "Type bodies should not span too many lines. The " in
  flat_map (fun t =>
    let lineArray := JSString.split (code t) LF in
    let n := Z.of_nat (length lineArray) in
    if (n >? 200)%Z then
      [mkRaw (code t) (fnIndex t)
         (if (n >? 350)%Z then error else warning)
         (baseMessage ++ type t ++ str " " ++ ToString (name t)
            ++ str " currently has " ++ JSString.intToString n
            ++ str " lines.")]
    else [])
  types.

(** [/typealias\s+(\w+)/g] *)
Definition typealiasRegex : regex :=
  Seqs [Word "typealias"; Plus space; Grp 1 (Plus word)].

(** [/^[A-Z][A-Za-z0-9]{2,39}$/] *)
Definition typeNameRegex : regex :=
  Seqs [Bol; Cls false [CRange (chr "A") (chr "Z")]; Between 2 39 alnum; Eol].

(** What [typeNameRule] reads of a type or a typealias. *)
Record NamedType := mkNamed {
  named_code : jsstring;
  named_index : nat;
  named_name : jsval
}.

Definition typeNameRule (text : jsstring) (types : list Body)
  : outcome (list RawError) :=
  let baseMessage := str "Type names should contain only alphanumeric characters, begin with an uppercase letter and span between 3 and 40 characters in length." in
  ms <- exec_all text typealiasRegex ;;
  let typealiases :=
    map (fun mr => mkNamed (matched text mr) (index mr) (group text mr 1)) ms in
  let allTypes :=
    map (fun t => mkNamed (code t) (body_index t) (name t)) types
    ++ typealiases in
  Ok (flat_map (fun t =>
        let typeName := ToString (named_name t) in
        if negb (test typeName typeNameRegex) then
          [mkRaw (named_code t) (Num (Z.of_nat (named_index t))) warning
             baseMessage]
        else [])
      allTypes).

(* ------------------------------------------------------------------ *)
(** ** The main linting function *)

Fixpoint foldM {A B} (f : A -> B -> outcome A) (l : list B) (a : A)
  : outcome A :=
  match l with
  | [] => Ok a
  | b :: l' => a' <- f a b ;; foldM f l' a'
  end.

Section Lint.

(** the types of the [opts] and [cm] arguments *)
Variables Options Editor : Type.

(** A function-based or type-based rule as [applyRule] calls it:
    [rule(text, structures, opts, cm)], with the globals it may read. *)
Definition Rule : Type :=
  Globals -> jsstring -> list Body -> Options -> Editor
  -> outcome (list RawError).

(** A function declared with the parameters [(text, structures)] ignores
    the further arguments of a call. *)
Definition declared2 (f : jsstring -> list Body -> outcome (list RawError))
  : Rule :=
  fun _ text structures _ _ => f text structures.

Definition declared2_pure (f : jsstring -> list Body -> list RawError)
  : Rule :=
  fun _ text structures _ _ => Ok (f text structures).

(** [lineLengthRule] is declared with the parameter [(text)] only. *)
Definition declared1_global (f : Globals -> jsstring -> list RawError)
  : Rule :=
  fun g text _ _ _ => Ok (f g text).

Definition allFunctionRules : list Rule :=
  [declared2 cyclomaticComplexityRule;
   declared2_pure functionBodyLengthRule;
   declared2_pure functionParameterCountRule;
   declared1_global lineLengthRule;
   declared2_pure nestingFuncRule;
   declared2 variableNameRule].

Definition allTypeRules : list Rule :=
  [declared2_pure nestingTypeRule;
   declared2_pure typeBodyLengthRule;
   declared2 typeNameRule].

(** [applyRuleBuilder(text, structures, opts, cm)] *)
Definition applyRuleBuilder (g : Globals) (text : jsstring)
  (structures : list Body) (opts : Options) (cm : Editor)
  : list LintError -> Rule -> outcome (list LintError) :=
  fun foundErrors rule =>
    results <- rule g text structures opts cm ;;
    let errors := processRawErrors g results in
    Ok (foundErrors ++ errors).

(** one iteration of the loop over [allRegexRules] *)
Definition applyRegexRule (g : Globals) (text : jsstring)
  (foundErrors : list LintError) (currentRule : RegexRule)
  : outcome (list LintError) :=
  results <- regexRule text currentRule ;;
  let errors := processRawErrors g results in
  Ok (foundErrors ++ errors).

(** [swiftLint(text, opts, cm)], started with the globals [g0] *)
Definition swiftLint (g0 : Globals) (text : jsstring) (opts : Options)
  (cm : Editor) : outcome (list LintError) :=
  let foundErrors := [] in
  let g := obtainLineNumbers g0 text in
  allFunctions <- extractFunctions text ;;
  allFunctions <- mapM getFunctionParameters allFunctions ;;
  let applyFuncRule := applyRuleBuilder g text allFunctions opts cm in
  allTypes <- extractTypes text ;;
  let applyTypeRule := applyRuleBuilder g text allTypes opts cm in
  foundErrors <- foldM (applyRegexRule g text) allRegexRules foundErrors ;;
  foundErrors <- foldM applyFuncRule allFunctionRules foundErrors ;;
  foundErrors <- foldM applyTypeRule allTypeRules foundErrors ;;
  Ok foundErrors.

End Lint.

(* ------------------------------------------------------------------ *)
(** ** The linting function over what it calls

    [swiftLint] and [applyRule] hold no [try]: what a call throws reaches
    the caller of [swiftLint].  The matcher above follows ECMAScript, where
    a search always ends with a match or without one; an engine may also
    fail a search, with a RangeError when its stack is exhausted.  To state
    what the code does then, the calls of [swiftLint] are parameters
    here. *)



Section Callees.

Variables Options Editor : Type.




End Callees.

(* ------------------------------------------------------------------ *)
(** ** The parameter count, as the spec words it

    A paren-depth counter goes up on an opening and down on a closing
    parenthesis; a comma read at depth exactly 1 is a parameter boundary;
    the scan ends the first time the depth is back at 0. *)

Definition paren_delta (c : jsstring) : Z :=
  if string_eqb c (str "(") then 1%Z
  else if string_eqb c (str ")") then (-1)%Z
  else 0%Z.

(** the depth after each character read, from the depth [d] *)
Fixpoint depths (d : Z) (visit : list jsstring) : list Z :=
  match visit with
  | [] => []
  | c :: rest => (d + paren_delta c)%Z :: depths (d + paren_delta c)%Z rest
  end.

(** the position of the first depth 0 *)
Fixpoint first_zero (ds : list Z) : option nat :=
  match ds with
  | [] => None
  | d :: rest => if (d =? 0)%Z then Some 0 else option_map S (first_zero rest)
  end.

(** the characters read, each with the depth after it: all of them up to
    and including the first return to depth 0 *)
Definition scanned (d : Z) (visit : list jsstring) : list (jsstring * Z) :=
  let ds := depths d visit in
  match first_zero ds with
  | Some k => firstn (S k) (combine visit ds)
  | None => combine visit ds
  end.

Definition is_boundary (cd : jsstring * Z) : bool :=
  ((snd cd =? 1)%Z && string_eqb (fst cd) (str ","))%bool.

Definition spec_paramCount (visit : list jsstring) : Z :=
  (1 + Z.of_nat (length (filter is_boundary (scanned 0 visit))))%Z.

Definition spec_paramEndIndex (paramStartIndex : Z) (visit : list jsstring)
  : Z :=
  match first_zero (depths 0 visit) with
  | Some k => (paramStartIndex + Z.of_nat k + 1)%Z
  | None => (-1)%Z
  end.

(** the function of the spec's example, as [extractBodies] returns it *)
Definition example_function : Body :=
  mkBody (str "func f(a: Int, b: (Int, Int) -> Int, c: String) { }")
    (VStr (str "f")) 0 (str "func") 1 None VUndefined.

(** the [paramCount] of every function of a text, after
    [getFunctionParameters] *)
Definition paramCountsOf (text : jsstring) : outcome (list (option Z)) :=
  allFunctions <- extractFunctions text ;;
  allFunctions <- mapM getFunctionParameters allFunctions ;;
  Ok (map paramCount allFunctions).

(* ------------------------------------------------------------------ *)
(** ** Brace balance, as the spec words it *)

Definition is_brace (c : char) : bool :=
  (N.eqb c (chr "{") || N.eqb c (chr "}"))%bool.

Definition brace_delta (c : char) : Z :=
  if N.eqb c (chr "{") then 1%Z
  else if N.eqb c (chr "}") then (-1)%Z
  else 0%Z.

(** opening minus closing braces *)
Fixpoint brace_depth (s : jsstring) : Z :=
  match s with
  | [] => 0%Z
  | c :: s' => (brace_delta c + brace_depth s')%Z
  end.

(** the [k]-th character of [s] is a brace and the depth is 0 after it *)
Definition returns_to_zero_at (s : jsstring) (k : nat) : Prop :=
  0 < k <= length s
  /\ brace_depth (firstn k s) = 0%Z
  /\ exists b, nth_error s (k - 1) = Some b /\ is_brace b = true.

(** the depth, having left 0, is back at 0 somewhere in [s] *)
Definition returns_to_zero (s : jsstring) : Prop :=
  exists k, returns_to_zero_at s k.

(* ------------------------------------------------------------------ *)
(** ** Exception ranges, as the spec words them *)

(** the half-open test [start <= o < end] *)
Definition in_range_of (o : Z) (r : Range) : Prop :=
  (range_start r <= o < range_end r)%Z.

(** the offset of the last character of a raw error's code (the opening
    brace, for the opening-brace rule) *)
Definition last_offset (f : RawError) : number :=
  number_add (raw_index f) (Num (Z.of_nat (length (raw_code f)) - 1)).

(** a rule without its exceptions *)
Definition without_exceptions (rule : RegexRule) : RegexRule :=
  mkRule (rePatterns rule) None (rule_severity rule) (rule_message rule).

(** [if], a line break, a condition, a line break and the brace *)
Definition multiline_if : jsstring :=
  str "if" ++ [LF] ++ str "  x > 1" ++ [LF] ++ str "{ }".
Definition multiline_guard : jsstring :=
  str "guard" ++ [LF] ++ str "  x else" ++ [LF] ++ str "{ }".
Definition multiline_while : jsstring :=
  str "while" ++ [LF] ++ str "  x  { }".

(* ------------------------------------------------------------------ *)
(** ** The complexity score, as the spec words it *)

(** the matches the [exec] loop of a global regex collects *)
Definition matches_of (re : regex) (s : jsstring) : list MatchResult :=
  match exec_all s re with
  | Ok ms => ms
  | _ => []
  end.

(** a word character stands right before the offset [i] *)
Definition word_before (s : jsstring) (i : nat) : bool :=
  match i with
  | O => false
  | S i' => word_at s i'
  end.

(** [k] occurs as a whole word at the offset [i] of [s]: [k] is read from
    [i] on, and no word character stands right before it or right after
    it *)
Definition occurs_at (s : jsstring) (k : jsstring) (i : nat) : bool :=
  (negb (word_before s i)
   && JSString.starts_with k (skipn i s)
   && negb (word_at s (i + length k)))%bool.

(** the occurrences of a keyword in a body: the offsets at which it occurs
    as a whole word *)
Definition occurrences (k : string) (funcBody : jsstring) : Z :=
  Z.of_nat (length (filter (occurs_at funcBody (str k))
                      (seq 0 (length funcBody)))).

Definition spec_complexity (funcBody : jsstring) : Z :=
  let switchComplexity :=
    (occurrences "case" funcBody - occurrences "fallthrough" funcBody)%Z in
  (occurrences "if" funcBody + occurrences "func" funcBody
   + occurrences "while" funcBody + occurrences "for" funcBody
   + occurrences "guard" funcBody
   + (if ((0 <? occurrences "switch" funcBody) && (0 <? switchComplexity))%bool
      then switchComplexity else 0))%Z.

(** above 10 a warning, above 20 an error *)
Definition spec_severity (score : Z) : option Severity :=
  if (20 <? score)%Z then Some error
  else if (10 <? score)%Z then Some warning
  else None.

Definition complexityMessage (f : Body) (score : Z) : jsstring :=
  str "Cyclomatic complexity should have complexity of 10 or less; the current complexity of the function "
  ++ ToString (name f) ++ str " is " ++ JSString.intToString score ++ str ".".

Definition spec_complexityError (f : Body) : list RawError :=
  match spec_severity (spec_complexity (code f)) with
  | Some sev =>
      [mkRaw (code f) (fnIndex f) sev
         (complexityMessage f (spec_complexity (code f)))]
  | None => []
  end.

(** the severities of the complexity findings of a text *)
Definition complexitySeverities (text : jsstring) : outcome (list Severity) :=
  allFunctions <- extractFunctions text ;;
  errors <- cyclomaticComplexityRule text allFunctions ;;
  Ok (map raw_severity errors).

Fixpoint repeat_string (n : nat) (s : jsstring) : jsstring :=
  match n with
  | O => []
  | S n' => s ++ repeat_string n' s
  end.

(** a function whose code holds the keyword [func] once and [if] [n]
    times, and no other keyword *)
Definition function_with_ifs (n : nat) : jsstring :=
  str "func f() { " ++ repeat_string n (str "if a { } ") ++ str "}".

(* ------------------------------------------------------------------ *)
(** ** Long lines *)

(** the offset at which line [i] of [lines] starts: each earlier line and
    its line break *)
Fixpoint line_offset (lines : list jsstring) (i : nat) : Z :=
  match i, lines with
  | S i', l :: ls => (Z.of_nat (length l) + 1 + line_offset ls i')%Z
  | _, _ => 0%Z
  end.

Definition lineLengthMessage (n : Z) : jsstring :=
  str "Lines should not span too many characters. This line currently has "
  ++ JSString.intToString n ++ str " characters.".

(** the error expected for line [i], of [n] characters *)
Definition lineLengthError (i : nat) (n : nat) : LintError :=
  mkLint (if 200 <? n then error else warning)
    (lineLengthMessage (Z.of_nat n))
    (mkPos (Z.of_nat i) (Num 0)) (mkPos (Z.of_nat i) (Num (Z.of_nat n))).

(** a line of 101 characters after a short line *)
Definition text_with_long_line : jsstring :=
  str "let a = 1" ++ [LF] ++ repeat_string 101 (str "x").

(* ------------------------------------------------------------------ *)
(** ** Auxiliary definitions of the proofs *)

(** what the matcher of the quantified atom must satisfy *)
Definition sound_for (input : jsstring) (r : regex) : Prop :=
  forall x c z, m input r x c = Some z ->
                exists y, Matches input r x y /\ c y = Some z.

(** the array [exec] returns on [s]: [match[0]] to [match[n]] *)
Definition exec_array (r : regex) (s : string) (n : nat)
  : option (list jsval) :=
  match exec (str s) r 0 with
  | Some mr => Some (map (group (str s) mr) (seq 0 (S n)))
  | None => None
  end.

Definition strings (l : list string) : list jsval :=
  map (fun s => VStr (str s)) l.

(** two continuations agree on the states a match from [x] can reach *)
Definition agree_from (input : jsstring) (x : MatchState) (c c' : Cont)
  : Prop :=
  forall y, endIndex x <= endIndex y <= length input -> c y = c' y.

(** a matcher that calls its continuation on such states only *)
Definition local (input : jsstring)
  (mr : MatchState -> Cont -> option MatchState) : Prop :=
  forall x c c',
    endIndex x <= length input -> agree_from input x c c' -> mr x c = mr x c'.

(** where a lazy run of characters other than [avoid], then [target],
    ends when read from position [k] *)
Fixpoint lazy_scan (avoid target : char) (rest : jsstring) (k : nat)
  : option nat :=
  match rest with
  | [] => None
  | ch :: rest' =>
      if N.eqb target ch then Some (S k)
      else if N.eqb ch avoid then None
      else lazy_scan avoid target rest' (S k)
  end.

(** the end of the first brace from position [k] on *)
Fixpoint find_brace (rest : jsstring) (k : nat) : option nat :=
  match rest with
  | [] => None
  | ch :: rest' =>
      if is_brace ch then Some (S k) else find_brace rest' (S k)
  end.

(** no brace up to position [li] brings the depth back to 0 *)
Definition no_return_before (input : jsstring) (li : nat) : Prop :=
  forall j, 0 < j <= li -> ~ returns_to_zero_at input j.

(** the matches of [keyRegex] that are the keyword [k] *)
Definition match_count (k : string) (funcBody : jsstring) : Z :=
  Z.of_nat (length (filter (fun mr => string_eqb (matched funcBody mr) (str k))
                      (matches_of keyRegex funcBody))).

(** the first of the words [ks] that [m] reads at [x] with the
    continuation [c] succeeding *)
Fixpoint first_alt (s : jsstring) (x : MatchState) (c : Cont)
  (ks : list jsstring) : option MatchState :=
  match ks with
  | [] => None
  | k :: ks' =>
      match m s (Lits k) x c with
      | Some z => Some z
      | None => first_alt s x c ks'
      end
  end.

(** the keyword [keyRegex] matches at the offset [e], if any *)
Definition keyword_at (s : jsstring) (e : nat) : option jsstring :=
  if at_word_boundary s e then
    find (fun k => (JSString.starts_with k (skipn e s)
                    && at_word_boundary s (e + length k))%bool)
         (map str keywords)
  else None.

(** the first offset from [i] on with a keyword, among [fuel] offsets *)
Fixpoint first_keyword (s : jsstring) (fuel i : nat)
  : option (nat * jsstring) :=
  match fuel with
  | O => None
  | S f =>
      match keyword_at s i with
      | Some k => Some (i, k)
      | None => first_keyword s f (S i)
      end
  end.

(** the keyword at an offset, as a list *)
Definition keyword_here (s : jsstring) (p : nat) : list (nat * jsstring) :=
  match keyword_at s p with
  | Some k => [(p, k)]
  | None => []
  end.

(** a non-empty string of word characters *)
Definition a_word (k : jsstring) : bool :=
  (negb (Nat.eqb (length k) 0) && forallb is_word k)%bool.

(** [key] is a key of the object *)
Definition has_key (key : jsstring) (kc : KeywordCount) : bool :=
  existsb (fun e => string_eqb (fst e) key) kc.

(** no pattern and no exception pattern of the catalog matches the empty
    string *)
Definition consuming (rule : RegexRule) : bool :=
  (forallb (fun re => negb (nullable re)) (rePatterns rule)
   && match exceptions rule with
      | Some es => forallb (fun re => negb (nullable re)) es
      | None => true
      end)%bool.


(* ------------------------------------------------------------------ *)
(** ** Definitions of the further properties *)

(** *** Raw errors and findings within the text *)

(** a raw error whose code lies within a text of [len] code units *)
Definition within_text (len : nat) (r : RawError) : Prop :=
  exists i : nat,
    raw_index r = Num (Z.of_nat i) /\ i + length (raw_code r) <= len.

(** a raw error and the processed error made from it *)
Definition processed_from (g : Globals) (r : RawError) (e : LintError) : Prop :=
  severity e = raw_severity r
  /\ message e = raw_message r
  /\ getLinePos g (raw_index r) = Some (from e)
  /\ getLinePos g (number_add (raw_index r)
                     (Num (Z.of_nat (length (raw_code r))))) = Some (to e).

(** the code of [a] ends before the code of [b] starts *)
Definition ends_before (a b : RawError) : Prop :=
  exists i j : nat,
    raw_index a = Num (Z.of_nat i) /\ raw_index b = Num (Z.of_nat j)
    /\ i + length (raw_code a) <= j.

(** *** The nesting depth of a body *)

(** the deepest brace nesting the prefixes of [s] reach, read from the
    depth [d], with [m] the deepest seen so far *)
Fixpoint deepest (d m : Z) (s : jsstring) : Z :=
  match s with
  | [] => m
  | c :: s' => deepest (d + brace_delta c) (Z.max m (d + brace_delta c)) s'
  end.

Definition max_brace_depth (s : jsstring) : Z := deepest 0 0 s.

(** the finding of a nesting rule for a declaration that is too deep *)
Definition nestingFuncError (f : Body) : RawError :=
  mkRaw (code f) (fnIndex f) warning
    (str "Functions should not be nested more than five levels deep. The function "
     ++ ToString (name f) ++ str " has a maximum depth of "
     ++ JSString.intToString (max_brace_depth (code f)) ++ str " levels.").

Definition nestingTypeError (t : Body) : RawError :=
  mkRaw (code t) (fnIndex t) warning
    (str "Types should not be nested more than one level deep. The "
     ++ type t ++ str " " ++ ToString (name t)
     ++ str " has a maximum depth of "
     ++ JSString.intToString (max_brace_depth (code t)) ++ str " levels.").

(** [allFunctions] of [swiftLint]: the functions of the text, with their
    parameters *)
Definition allFunctionsOf (text : jsstring) : outcome (list Body) :=
  allFunctions <- extractFunctions text ;;
  mapM getFunctionParameters allFunctions.

(** *** Greedy quantifiers and the words of a tuple *)

(** the maximal runs of word characters of [s], each with its offset;
    [i] is the offset of [s] and [cur] the run being read, reversed, with
    the offset at which it started *)
Fixpoint words_from (s : jsstring) (i : nat) (cur : option (nat * jsstring))
  : list (nat * jsstring) :=
  match s with
  | [] =>
      match cur with
      | Some (j, w) => [(j, rev w)]
      | None => []
      end
  | c :: s' =>
      if is_word c then
        words_from s' (S i)
          (Some (match cur with
                 | Some (j, w) => (j, c :: w)
                 | None => (i, [c])
                 end))
      else
        match cur with
        | Some (j, w) => (j, rev w) :: words_from s' (S i) None
        | None => words_from s' (S i) None
        end
  end.

Definition words (s : jsstring) : list (nat * jsstring) := words_from s 0 None.

(** the length of the run of characters that satisfy [p] at the start of
    [s] *)
Fixpoint run_length (p : char -> bool) (s : jsstring) : nat :=
  match s with
  | c :: s' => if p c then S (run_length p s') else 0
  | [] => 0
  end.

(** what a greedy quantifier with the upper bound [max] takes of a run *)
Definition take_max (max : option nat) (run : nat) : nat :=
  match max with
  | Some k => Nat.min k run
  | None => run
  end.

(** *** The shapes of names *)

Definition is_upper (c : char) : bool := in_range (chr "A") (chr "Z") c.
Definition is_lower (c : char) : bool := in_range (chr "a") (chr "z") c.
Definition is_digit (c : char) : bool := in_range (chr "0") (chr "9") c.
Definition is_alnum (c : char) : bool := is_upper c || is_lower c || is_digit c.

(** a name without one leading underscore *)
Definition without_underscore (name : jsstring) : jsstring :=
  match name with
  | c :: rest => if N.eqb c (chr "_") then rest else name
  | [] => []
  end.

(** the names [mutableTest] accepts: after one optional underscore, a
    letter, then letters and digits *)
Definition mutableTest_shape (name : jsstring) : bool :=
  match without_underscore name with
  | c :: rest => (is_upper c || is_lower c) && forallb is_alnum rest
  | [] => false
  end.

(** the names [immutableTest] accepts: after one optional underscore, a
    lowercase letter, then letters and digits; or capitals and digits only *)
Definition immutableTest_shape (name : jsstring) : bool :=
  match without_underscore name with
  | c :: rest =>
      (is_lower c && forallb is_alnum rest)
      || forallb (fun c => is_upper c || is_digit c) (c :: rest)
  | [] => false
  end.

(** the names [typeNameRule] accepts: a capital, then 2 to 39 letters and
    digits *)
Definition typeName_shape (name : jsstring) : bool :=
  match name with
  | c :: rest =>
      is_upper c && forallb is_alnum rest
      && (2 <=? length rest) && (length rest <=? 39)
  | [] => false
  end.

(** the finding of [typeNameRule] for a declaration *)
Definition typeNameError (t : NamedType) : RawError :=
  mkRaw (named_code t) (Num (Z.of_nat (named_index t))) warning
    (str "Type names should contain only alphanumeric characters, begin with an uppercase letter and span between 3 and 40 characters in length.").

(** the matcher of [r] succeeds from [x] with the continuation [c] *)
Definition accepts (s : jsstring) (r : regex) (x : MatchState) (c : Cont)
  : Prop :=
  exists z, m s r x c = Some z.

(** *** The header of a declaration *)

(** a declaration header at the start of [s]: the keyword, whitespace, and
    the name as the whole run of word characters that follows *)
Definition header_of (keyword s : jsstring) (ws n : jsstring) : Prop :=
  exists rest,
    s = keyword ++ ws ++ n ++ rest
    /\ ws <> [] /\ forallb is_space ws = true
    /\ n <> [] /\ forallb is_word n = true
    /\ run_length is_word rest = 0.

(** *** The parameter text of a header *)

(** the text [getFunctionParameters] keeps as [params]: what stands
    strictly between the first opening parenthesis of [functionInfo] and the
    parenthesis that closes it; when no parenthesis closes it, the start of
    [functionInfo] up to and including that opening parenthesis; nothing
    when there is no parenthesis *)
Definition params_text (functionInfo : jsstring) : jsstring :=
  let paramStartIndex := JSString.indexOf functionInfo (str "(") in
  if (paramStartIndex <? 0)%Z then []
  else
    let start := Z.to_nat paramStartIndex in
    match first_zero (depths 0 (visited functionInfo paramStartIndex)) with
    | Some k => JSString.slice functionInfo (start + 1) (start + k)
    | None => firstn (start + 1) functionInfo
    end.

(** *** The header of a function *)

(** where the header of a function ends: the offset of the first opening
    brace of [rest], counted from [k], when no line terminator comes before
    it *)
Fixpoint header_end (rest : jsstring) (k : nat) : option nat :=
  match rest with
  | [] => None
  | ch :: rest' =>
      if N.eqb ch (chr "{") then Some k
      else if is_line_terminator ch then None
      else header_end rest' (S k)
  end.

(** [s] without the whitespace it starts with *)
Definition skip_spaces (s : jsstring) : jsstring :=
  skipn (run_length is_space s) s.

(** [rest] reads: optional whitespace, an opening parenthesis, optional
    whitespace, a closing parenthesis *)
Definition empty_parentheses (rest : jsstring) : bool :=
  match skip_spaces rest with
  | c :: r1 =>
      N.eqb c (chr "(")
      && match skip_spaces r1 with
         | c' :: _ => N.eqb c' (chr ")")
         | [] => false
         end
  | [] => false
  end.

(** what [getFunctionParameters] makes of a function whose code reads
    [func], whitespace, the name and then [rest] *)
Definition parameters_of_header (functionObj : Body) (rest : jsstring) : Body :=
  if empty_parentheses rest then set_params functionObj 0 VNull
  else
    match header_end rest 0 with
    | Some q =>
        let functionInfo := firstn q rest in
        set_params functionObj (fst (countParameters functionInfo))
          (VStr (params_text functionInfo))
    | None => functionObj
    end.

(** the first state, from [x] on, at which the continuation [c] succeeds,
    as long as the characters passed satisfy [p] *)
Fixpoint lazy_first (p : char -> bool) (c : Cont) (rest : jsstring)
  (x : MatchState) : option MatchState :=
  match c x with
  | Some z => Some z
  | None =>
      match rest with
      | ch :: rest' => if p ch then lazy_first p c rest' (advance x) else None
      | [] => None
      end
  end.

(** *** The parameter count of a function *)

(** the [paramCount] of a function whose code reads [func], whitespace, the
    name and then [rest] *)
Definition paramCount_of_header (rest : jsstring) : option Z :=
  if empty_parentheses rest then Some 0%Z
  else option_map (fun q => fst (countParameters (firstn q rest)))
         (header_end rest 0).

(** the severities of the findings of the parameter-count rule on a text *)
Definition parameterCountSeverities (text : jsstring) : outcome (list Severity) :=
  allFunctions <- allFunctionsOf text ;;
  Ok (map raw_severity (functionParameterCountRule text allFunctions)).

(** a function of nine parameters, its header on one line *)
Definition nine_parameters : jsstring :=
  str "func f(a: Int, b: Int, c: Int, d: Int, e: Int, f: Int, g: Int, h: Int, i: Int) { }".

(** the same function, with a line break in its parameter list *)
Definition nine_parameters_two_lines : jsstring :=
  str "func f(a: Int, b: Int, c: Int, d: Int," ++ [LF]
  ++ str "       e: Int, f: Int, g: Int, h: Int, i: Int) { }".

(** *** Parameters as variables, body lengths, leading whitespace *)

(** the lines of a code: one more than its line feeds *)
Definition line_count (s : jsstring) : Z :=
  Z.of_nat (S (count_occ N.eq_dec s LF)).

(** the finding of [functionBodyLengthRule] for a function that is too
    long *)
Definition functionBodyLengthError (f : Body) : RawError :=
  mkRaw (code f) (fnIndex f)
    (if (100 <? line_count (code f))%Z then error else warning)
    (str "Functions bodies should not span too many lines. The function "
     ++ ToString (name f) ++ str " currently has "
     ++ JSString.intToString (line_count (code f)) ++ str " lines.").

(** the finding of [typeBodyLengthRule] for a type that is too long *)
Definition typeBodyLengthError (t : Body) : RawError :=
  mkRaw (code t) (fnIndex t)
    (if (350 <? line_count (code t))%Z then error else warning)
    (str "Type bodies should not span too many lines. The "
     ++ type t ++ str " " ++ ToString (name t)
     ++ str " currently has " ++ JSString.intToString (line_count (code t))
     ++ str " lines.").

(** the offset in the text that [variableNameRule] gives the parameters of
    a function *)
Definition paramsIndex_of (currentFunc : Body) : Z :=
  (Z.of_nat (body_index currentFunc)
   + JSString.indexOf (code currentFunc) (str "(") + 1)%Z.

(** the whitespace a text starts with *)
Definition leading_whitespace (text : jsstring) : jsstring :=
  firstn (run_length is_space text) text.

(** *** The variables of a declaration *)

(** a variable whose name stands in the text at its index, between the
    offsets [lo] and [hi] *)
Definition quoted_in (text : jsstring) (lo hi : nat) (v : Variable_) : Prop :=
  exists i : nat,
    var_index v = Z.of_nat i
    /\ lo <= i /\ i + length (var_name v) <= hi
    /\ JSString.slice text i (i + length (var_name v)) = var_name v.

(** a declaration whose name also occurs in its keyword, and its match *)
Definition short_declaration : jsstring := str "var v = 1".

Definition short_declaration_match : MatchResult :=
  mkResult 0 (mkState 5 [None; None; Some (0, 3); Some (4, 5); None]).

(** captures that lie between [lo] and [hi] *)
Definition caps_in (lo hi : nat) (caps : list (option (nat * nat))) : Prop :=
  Forall (fun c => match c with
                   | Some (a, b) => lo <= a /\ a <= b /\ b <= hi
                   | None => True
                   end) caps.

(** *** The diagnostics of a text *)

(** a position of the editor that lies in the text: a line of the text and
    a column of that line, or the column just after its last character *)
Definition in_text (text : jsstring) (p : Pos) : Prop :=
  exists (i : nat) (l : jsstring) (c : nat),
    nth_error (JSString.split text LF) i = Some l
    /\ p = mkPos (Z.of_nat i) (Num (Z.of_nat c))
    /\ c <= length l.

(** a raw error whose index is an offset counted from the start of a text *)
Definition has_offset (r : RawError) : Prop :=
  exists i : nat, raw_index r = Num (Z.of_nat i).

(** *** No match is passed over *)

(** the pattern [re] matches the text from the offset [i] on *)
Definition matches_at (text : jsstring) (re : regex) (i : nat) : Prop :=
  exists y, m text re (initial re i) Some = Some y.

(** *** The rules of the line ends *)

(** the character at [i] is the last of its line, or of the text *)
Definition ends_line (text : jsstring) (i : nat) : Prop :=
  nth_error text (S i) = Some LF \/ S i = length text.

(** a raw error at the offset [i] is among the findings *)
Definition reported_at (findings : list RawError) (i : nat) : Prop :=
  exists f, In f findings /\ raw_index f = Num (Z.of_nat i).

(** *** The trailing newline *)

(** a text that ends with one line feed, and not with two *)
Definition single_trailing_newline (text : jsstring) : Prop :=
  nth_error text (length text - 1) = Some LF
  /\ (2 <= length text -> nth_error text (length text - 2) <> Some LF).

(** *** Long lines and literal patterns *)

(** the lines of a text, each with its number *)
Definition numbered_lines (text : jsstring) : list (nat * jsstring) :=
  let lines := JSString.split text LF in
  combine (seq 0 (length lines)) lines.

(** the string [k] stands in the text at the offset [i] *)
Definition stands_at (k text : jsstring) (i : nat) : Prop :=
  JSString.starts_with k (skipn i text) = true.

(* ================================================================== *)
(** * Properties *)

(* ------------------------------------------------------------------ *)
(** ** The matcher *)

Module RegExpFacts.

Ltac inv H := inversion H; subst; clear H.

(** invert the matches of the regex constructors other than [Rep] *)
Ltac inv_matches :=
  repeat match goal with
  | H : Matches _ (Seq _ _) _ _ |- _ => inv H
  | H : Matches _ (Alt _ _) _ _ |- _ => inv H
  | H : Matches _ (Grp _ _) _ _ |- _ => inv H
  | H : Matches _ (Lit _) _ _ |- _ => inv H
  | H : Matches _ (Cls _ _) _ _ |- _ => inv H
  | H : Matches _ Dot _ _ |- _ => inv H
  | H : Matches _ Eps _ _ |- _ => inv H
  | H : Matches _ Bol _ _ |- _ => inv H
  | H : Matches _ Eol _ _ |- _ => inv H
  | H : Matches _ WordB _ _ |- _ => inv H
  end.

Lemma length_set_nth {A} n (v : A) l : length (set_nth n v l) = length l.
Proof.
  revert n. induction l as [|a l IH]; intros [|n]; simpl; auto.
Qed.

Lemma nth_set_nth {A} n (v d : A) l :
  n < length l -> nth n (set_nth n v l) d = v.
Proof.
  revert n. induction l as [|a l IH]; intros [|n] H; simpl in *; try lia; auto.
  apply IH. lia.
Qed.

Lemma captures_clear_length gs x :
  length (captures (clear_captures gs x)) = length (captures x).
Proof.
  unfold clear_captures. revert x.
  induction gs as [|g gs IH]; intros x; simpl; [reflexivity|].
  rewrite IH. simpl. apply length_set_nth.
Qed.

Lemma endIndex_set_capture n v x :
  endIndex (set_capture n v x) = endIndex x.
Proof. reflexivity. Qed.

Lemma endIndex_clear_captures gs x :
  endIndex (clear_captures gs x) = endIndex x.
Proof.
  unfold clear_captures. revert x.
  induction gs as [|g gs IH]; intros x; simpl; [reflexivity|].
  rewrite IH. reflexivity.
Qed.

Lemma char_at_lt input i ch : char_at input i = Some ch -> i < length input.
Proof.
  unfold char_at. intros H. apply nth_error_Some. congruence.
Qed.

Section Soundness.
Variable input : jsstring.

Lemma match_char_sound p x c z :
  match_char input p x c = Some z ->
  exists ch, char_at input (endIndex x) = Some ch /\ p ch = true
             /\ c (advance x) = Some z.
Proof.
  unfold match_char. destruct (char_at input (endIndex x)) as [ch|]; [|discriminate].
  destruct (p ch) eqn:Hp; [|discriminate].
  intros H. exists ch. auto.
Qed.

Lemma RepeatMatcher_sound r g :
  sound_for input r ->
  forall fuel min max x c z,
    RepeatMatcher (m input r) (groups r) fuel min max g x c = Some z ->
    exists y, Matches input (Rep r min max g) x y /\ c y = Some z.
Proof.
  intros Hr. induction fuel as [|fuel IH]; intros min max x c z H; [discriminate|].
  simpl in H.
  destruct (is_zero_max max) eqn:Hmax.
  { exists x. split; [apply MRepZero; assumption | assumption]. }
  assert (Hstep : forall z',
    m input r (clear_captures (groups r) x)
      (fun y => if (Nat.eqb min 0 && Nat.eqb (endIndex y) (endIndex x))%bool
                then None
                else RepeatMatcher (m input r) (groups r) fuel (pred min)
                       (pred_max max) g y c) = Some z' ->
    exists y, Matches input (Rep r min max g) x y /\ c y = Some z').
  { intros z' Hm. apply Hr in Hm. destruct Hm as (y & Hy & Hd).
    destruct (Nat.eqb min 0 && Nat.eqb (endIndex y) (endIndex x))%bool eqn:He;
      [discriminate|].
    apply IH in Hd. destruct Hd as (y' & Hy' & Hc).
    exists y'. split; [|assumption].
    eapply MRepStep; eauto.
    intros Hmin Heq. subst min. rewrite Heq in He. simpl in He.
    rewrite Nat.eqb_refl in He. discriminate. }
  destruct (Nat.eqb min 0) eqn:Hmin; simpl in H.
  - apply Nat.eqb_eq in Hmin. subst min.
    destruct g.
    + destruct (m input r (clear_captures (groups r) x) _) eqn:Hm.
      * inversion H; subst. apply Hstep. reflexivity.
      * exists x. split; [apply MRepStop | assumption].
    + destruct (c x) eqn:Hc.
      * inversion H; subst. exists x. split; [apply MRepStop | assumption].
      * apply Hstep. exact H.
  - apply Hstep. exact H.
Qed.

Lemma m_sound r : sound_for input r.
Proof.
  induction r as [| ch | | neg atoms | r1 IH1 r2 IH2 | r1 IH1 r2 IH2
                 | r IH min max g | n r IH | | |];
    intros x c z H; simpl in H.
  - exists x. split; [constructor | assumption].
  - apply match_char_sound in H. destruct H as (ch' & Hc & Hp & Hk).
    apply N.eqb_eq in Hp. subst ch'.
    exists (advance x). split; [constructor; assumption | assumption].
  - apply match_char_sound in H. destruct H as (ch' & Hc & Hp & Hk).
    exists (advance x). split; [|assumption].
    apply MDot with ch'; [assumption|]. apply negb_true_iff. exact Hp.
  - apply match_char_sound in H. destruct H as (ch' & Hc & Hp & Hk).
    exists (advance x). split; [|assumption].
    apply MCls with ch'; assumption.
  - apply IH1 in H. destruct H as (y & Hy & H).
    apply IH2 in H. destruct H as (y' & Hy' & H).
    exists y'. split; [econstructor; eauto | assumption].
  - destruct (m input r1 x c) eqn:H1.
    + inversion H; subst. apply IH1 in H1. destruct H1 as (y & Hy & Hc).
      exists y. split; [apply MAltL; assumption | assumption].
    + apply IH2 in H. destruct H as (y & Hy & Hc).
      exists y. split; [apply MAltR; assumption | assumption].
  - exact (@RepeatMatcher_sound r g IH
             (S (min + (length input - endIndex x))) min max x c z H).
  - apply IH in H. destruct H as (y & Hy & Hc).
    eexists. split; [apply MGrp; eassumption | assumption].
  - destruct (Nat.eqb (endIndex x) 0) eqn:E; [|discriminate].
    apply Nat.eqb_eq in E. exists x. split; [constructor; assumption | assumption].
  - destruct (Nat.eqb (endIndex x) (length input)) eqn:E; [|discriminate].
    apply Nat.eqb_eq in E. exists x. split; [constructor; assumption | assumption].
  - destruct (at_word_boundary input (endIndex x)) eqn:E; [|discriminate].
    exists x. split; [constructor; assumption | assumption].
Qed.

(** a match never moves backwards and stays inside the input *)
Lemma Matches_mono r x y :
  Matches input r x y -> endIndex x <= endIndex y.
Proof.
  induction 1; simpl; try lia.
  - rewrite endIndex_clear_captures in *. lia.
Qed.

Lemma Matches_bound r x y :
  Matches input r x y -> endIndex x <= length input ->
  endIndex y <= length input.
Proof.
  induction 1; simpl; intros Hx; auto;
    try (apply char_at_lt in H; lia).
  - apply IHMatches2. apply IHMatches1.
    rewrite endIndex_clear_captures. assumption.
Qed.

(** a regex that is not nullable consumes input *)
Lemma Matches_progress r x y :
  Matches input r x y -> nullable r = false -> endIndex x < endIndex y.
Proof.
  induction 1; simpl; intros Hn; try discriminate; try lia.
  - apply andb_false_iff in Hn.
    apply Matches_mono in H as M1. apply Matches_mono in H0 as M2.
    destruct Hn as [Hn|Hn]; [specialize (IHMatches1 Hn) | specialize (IHMatches2 Hn)]; lia.
  - apply orb_false_iff in Hn. destruct Hn. auto.
  - apply orb_false_iff in Hn. destruct Hn. auto.
  - rewrite H in Hn. discriminate.
  - apply orb_false_iff in Hn. destruct Hn as [Hn1 Hn2].
    apply IHMatches1 in Hn2. rewrite endIndex_clear_captures in Hn2.
    apply Matches_mono in H2. lia.
  - auto.
Qed.

(** a match keeps the number of capture slots *)
Lemma Matches_captures_length r x y :
  Matches input r x y -> length (captures y) = length (captures x).
Proof.
  induction 1; simpl; try reflexivity; try congruence.
  - rewrite IHMatches2, IHMatches1. apply captures_clear_length.
  - rewrite length_set_nth. assumption.
Qed.

Lemma exec_from_sound r fuel i mr :
  exec_from input r fuel i = Some mr ->
  i <= index mr /\ index mr < i + fuel
  /\ Matches input r (initial r (index mr)) (final mr).
Proof.
  revert i. induction fuel as [|fuel IH]; intros i H; [discriminate|].
  simpl in H. destruct (m input r (initial r i) Some) as [y|] eqn:Hm.
  - inversion H; subst; simpl.
    apply m_sound in Hm. destruct Hm as (y' & Hy & Heq).
    inversion Heq; subst. repeat split; [lia | lia | assumption].
  - apply IH in H. destruct H as (H1 & H2 & H3).
    repeat split; [lia | lia | assumption].
Qed.

Lemma exec_sound r li mr :
  exec input r li = Some mr ->
  li <= index mr /\ index mr <= length input
  /\ Matches input r (initial r (index mr)) (final mr).
Proof.
  unfold exec. destruct (Nat.ltb (length input) li) eqn:E; [discriminate|].
  apply Nat.ltb_ge in E. intros H. apply exec_from_sound in H.
  destruct H as (H1 & H2 & H3). repeat split; [lia | lia | assumption].
Qed.

Lemma exec_lastIndex r li mr :
  exec input r li = Some mr ->
  index mr <= lastIndex mr /\ lastIndex mr <= length input.
Proof.
  intros H. apply exec_sound in H. destruct H as (H1 & H2 & H3).
  unfold lastIndex. split.
  - apply Matches_mono in H3. exact H3.
  - apply Matches_bound in H3; [exact H3 | exact H2].
Qed.

(** the final state of [exec] has the capture slots of the regex *)
Lemma exec_captures_length r li mr :
  exec input r li = Some mr -> length (captures (final mr)) = slots r.
Proof.
  intros H. apply exec_sound in H. destruct H as (_ & _ & H).
  apply Matches_captures_length in H. rewrite H. unfold initial.
  cbn [captures]. apply repeat_length.
Qed.

Lemma exec_progress r li mr :
  nullable r = false -> exec input r li = Some mr ->
  index mr < lastIndex mr.
Proof.
  intros Hn H. apply exec_sound in H. destruct H as (H1 & H2 & H3).
  apply Matches_progress in H3; [exact H3 | exact Hn].
Qed.

(** the [exec] loop of a regex that is not nullable ends *)
Lemma exec_loop_total r :
  nullable r = false ->
  forall fuel li,
    1 <= fuel -> length input + 2 <= fuel + li ->
    exists ms, exec_loop input r fuel li = Ok ms.
Proof.
  intros Hn. induction fuel as [|fuel IH]; intros li H1 H2; [lia|].
  simpl. destruct (exec input r li) as [mr|] eqn:He.
  - pose proof (@exec_progress r li mr Hn He) as Hp.
    pose proof (@exec_lastIndex r li mr He) as [_ Hl].
    pose proof (@exec_sound r li mr He) as (Hi & _ & _).
    destruct (IH (lastIndex mr)) as (ms & Hms); [lia | lia |].
    rewrite Hms. simpl. eauto.
  - eauto.
Qed.

(** a loop that has ended ends with more fuel too *)
Lemma exec_loop_more_fuel r fuel :
  forall li ms k,
    exec_loop input r fuel li = Ok ms ->
    exec_loop input r (fuel + k) li = Ok ms.
Proof.
  induction fuel as [|fuel IH]; intros li ms k H; [discriminate|].
  simpl in *. destruct (exec input r li) as [mr|]; [|exact H].
  destruct (exec_loop input r fuel (lastIndex mr)) as [rest| |] eqn:E;
    try discriminate.
  rewrite (IH _ _ k E). exact H.
Qed.

(** the fuel of the loop runs out only when some match leaves [lastIndex]
    where it was, and then every later [exec] returns that match again *)
Lemma exec_loop_Diverge r fuel :
  forall li,
    1 <= fuel -> length input + 2 <= fuel + li ->
    exec_loop input r fuel li = Diverge ->
    exists li' mr, exec input r li' = Some mr /\ lastIndex mr = li'.
Proof.
  induction fuel as [|fuel IH]; intros li H1 H2 H; [lia|].
  simpl in H. destruct (exec input r li) as [mr|] eqn:He; [|discriminate].
  pose proof (@exec_lastIndex r li mr He) as [Hi Hl].
  pose proof (@exec_sound r li mr He) as (Hli & _ & _).
  destruct (Nat.eq_dec (lastIndex mr) li) as [Heq|Hne].
  - exists li, mr. auto.
  - apply (IH (lastIndex mr)); [lia | lia |].
    destruct (exec_loop input r fuel (lastIndex mr)); try discriminate.
    reflexivity.
Qed.

Lemma exec_all_total r :
  nullable r = false -> exists ms, exec_all input r = Ok ms.
Proof.
  intros Hn. unfold exec_all. apply exec_loop_total; [assumption | lia | lia].
Qed.

(** every match the loop collects is a result of [exec] *)
Lemma exec_loop_Forall r fuel li ms :
  exec_loop input r fuel li = Ok ms ->
  Forall (fun mr => exists li', exec input r li' = Some mr) ms.
Proof.
  revert li ms. induction fuel as [|fuel IH]; intros li ms H; [discriminate|].
  simpl in H. destruct (exec input r li) as [mr|] eqn:He.
  - destruct (exec_loop input r fuel (lastIndex mr)) as [rest| |] eqn:Hl;
      try discriminate.
    simpl in H. inversion H; subst. constructor; eauto.
  - inversion H; subst. constructor.
Qed.

Lemma exec_all_Forall r ms :
  exec_all input r = Ok ms ->
  Forall (fun mr => exists li', exec input r li' = Some mr) ms.
Proof. apply exec_loop_Forall. Qed.

End Soundness.

(** *** The fuel of [RepeatMatcher] never runs out *)

Section Fuel.
Variable input : jsstring.

Lemma match_char_local p : local input (match_char input p).
Proof.
  intros x c c' Hx Hagree. unfold match_char.
  destruct (char_at input (endIndex x)) as [ch|] eqn:E; [|reflexivity].
  destruct (p ch); [|reflexivity].
  apply Hagree. apply char_at_lt in E. simpl. lia.
Qed.

Lemma agree_from_later x y c c' :
  endIndex x <= endIndex y -> agree_from input x c c' ->
  agree_from input y c c'.
Proof. intros Hxy H z Hz. apply H. lia. Qed.

Lemma RepeatMatcher_local mr gs :
  local input mr ->
  forall fuel min max g, local input (RepeatMatcher mr gs fuel min max g).
Proof.
  intros Hmr. induction fuel as [|fuel IH]; intros min max g x c c' Hx Hagree;
    [reflexivity|].
  cbn [RepeatMatcher].
  assert (Hcx : c x = c' x) by (apply Hagree; lia).
  assert (Hstep :
    mr (clear_captures gs x)
      (fun y => if (Nat.eqb min 0 && Nat.eqb (endIndex y) (endIndex x))%bool
                then None
                else RepeatMatcher mr gs fuel (pred min) (pred_max max) g y c)
    = mr (clear_captures gs x)
        (fun y => if (Nat.eqb min 0 && Nat.eqb (endIndex y) (endIndex x))%bool
                  then None
                  else RepeatMatcher mr gs fuel (pred min) (pred_max max) g y c')).
  { apply Hmr; [rewrite endIndex_clear_captures; assumption|].
    intros y Hy. rewrite endIndex_clear_captures in Hy.
    destruct (Nat.eqb min 0 && Nat.eqb (endIndex y) (endIndex x))%bool;
      [reflexivity|].
    apply IH; [lia|]. apply agree_from_later with x; [lia | assumption]. }
  rewrite Hcx, Hstep. reflexivity.
Qed.

Lemma m_local r : local input (m input r).
Proof.
  induction r as [| ch | | neg atoms | r1 IH1 r2 IH2 | r1 IH1 r2 IH2
                 | r IH min max g | n r IH | | |];
    intros x c c' Hx Hagree; cbn [m];
    try apply match_char_local; try assumption.
  - apply Hagree. lia.
  - apply IH1; [assumption|]. intros y Hy.
    apply IH2; [lia|]. apply agree_from_later with x; [lia | assumption].
  - rewrite (IH1 x c c'), (IH2 x c c') by assumption. reflexivity.
  - apply RepeatMatcher_local; assumption.
  - apply IH; [assumption|]. intros y Hy. apply Hagree. simpl. exact Hy.
  - destruct (Nat.eqb (endIndex x) 0); [apply Hagree; lia | reflexivity].
  - destruct (Nat.eqb (endIndex x) (length input));
      [apply Hagree; lia | reflexivity].
  - destruct (at_word_boundary input (endIndex x));
      [apply Hagree; lia | reflexivity].
Qed.

(** with [min] iterations due and the rest of the input to read, any fuel
    above their sum gives the same result *)
Lemma RepeatMatcher_fuel mr gs :
  local input mr ->
  forall fuel fuel' min max g x c,
    endIndex x <= length input ->
    min + (length input - endIndex x) < fuel ->
    min + (length input - endIndex x) < fuel' ->
    RepeatMatcher mr gs fuel min max g x c
    = RepeatMatcher mr gs fuel' min max g x c.
Proof.
  intros Hmr. induction fuel as [|fuel IH];
    intros fuel' min max g x c Hx Hf Hf'; [lia|].
  destruct fuel' as [|fuel']; [lia|].
  cbn [RepeatMatcher].
  assert (Hstep :
    mr (clear_captures gs x)
      (fun y => if (Nat.eqb min 0 && Nat.eqb (endIndex y) (endIndex x))%bool
                then None
                else RepeatMatcher mr gs fuel (pred min) (pred_max max) g y c)
    = mr (clear_captures gs x)
        (fun y => if (Nat.eqb min 0 && Nat.eqb (endIndex y) (endIndex x))%bool
                  then None
                  else RepeatMatcher mr gs fuel' (pred min) (pred_max max) g y c)).
  { apply Hmr; [rewrite endIndex_clear_captures; assumption|].
    intros y Hy. rewrite endIndex_clear_captures in Hy.
    destruct (Nat.eqb min 0 && Nat.eqb (endIndex y) (endIndex x))%bool eqn:E;
      [reflexivity|].
    apply IH; [lia | |].
    - apply andb_false_iff in E. destruct E as [E|E]; apply Nat.eqb_neq in E; lia.
    - apply andb_false_iff in E. destruct E as [E|E]; apply Nat.eqb_neq in E; lia. }
  rewrite Hstep. reflexivity.
Qed.

(** the fuel [m] gives to a quantifier is enough *)
Lemma m_Rep_fuel r min max g x c fuel :
  endIndex x <= length input ->
  min + (length input - endIndex x) < fuel ->
  m input (Rep r min max g) x c
  = RepeatMatcher (m input r) (groups r) fuel min max g x c.
Proof.
  intros Hx Hf. cbn [m].
  apply RepeatMatcher_fuel; [apply m_local | assumption | lia | assumption].
Qed.

End Fuel.

End RegExpFacts.

(** *** The matcher on the examples of the ECMAScript specification

    The notes of the specification on alternatives, quantifiers and the
    clearing of captures give the results of [exec] on these patterns. *)

Module Conformance.

(** [/a|ab/.exec("abc")] is ["a"] *)
Example alternative_order :
  exec_array (Alt (L "a") (Word "ab")) "abc" 0 = Some (strings ["a"%string]).
Proof. reflexivity. Qed.

(** [/((a)|(ab))((c)|(bc))/.exec("abc")] is
    ["abc", "a", "a", undefined, "bc", undefined, "bc"] *)
Example alternative_captures :
  exec_array
    (Seq (Grp 1 (Alt (Grp 2 (L "a")) (Grp 3 (Word "ab"))))
         (Grp 4 (Alt (Grp 5 (L "c")) (Grp 6 (Word "bc")))))
    "abc" 6
  = Some [VStr (str "abc"); VStr (str "a"); VStr (str "a"); VUndefined;
          VStr (str "bc"); VUndefined; VStr (str "bc")].
Proof. reflexivity. Qed.

(** [/a[a-z]{2,4}/.exec("abcdefghi")] is ["abcde"] and
    [/a[a-z]{2,4}?/.exec("abcdefghi")] is ["abc"] *)
Example greedy_and_lazy :
  exec_array
    (Seq (L "a") (Rep (Cls false [CRange (chr "a") (chr "z")]) 2 (Some 4) true))
    "abcdefghi" 0 = Some (strings ["abcde"%string])
  /\ exec_array
       (Seq (L "a")
            (Rep (Cls false [CRange (chr "a") (chr "z")]) 2 (Some 4) false))
       "abcdefghi" 0 = Some (strings ["abc"%string]).
Proof. split; reflexivity. Qed.

(** [/(aa|aabaac|ba|b|c)*/.exec("aabaac")] is ["aaba", "ba"] *)
Example quantified_alternatives :
  exec_array
    (Star (Grp 1 (Alts [Word "aa"; Word "aabaac"; Word "ba"; Word "b";
                        Word "c"])))
    "aabaac" 1 = Some (strings ["aaba"; "ba"]%string).
Proof. reflexivity. Qed.

(** [/(z)((a+)?(b+)?(c))*/.exec("zaacbbbcac")] is
    ["zaacbbbcac", "z", "ac", "a", undefined, "c"]: the captures of a
    quantified atom are cleared before each iteration *)
Example captures_cleared :
  exec_array
    (Seq (Grp 1 (L "z"))
         (Star (Grp 2 (Seqs [Opt (Grp 3 (Plus (L "a")));
                             Opt (Grp 4 (Plus (L "b")));
                             Grp 5 (L "c")]))))
    "zaacbbbcac" 5
  = Some [VStr (str "zaacbbbcac"); VStr (str "z"); VStr (str "ac");
          VStr (str "a"); VUndefined; VStr (str "c")].
Proof. reflexivity. Qed.

(** the star of a group holding the star of [a], run on [b], gives the
    empty string and an undefined capture: an iteration that consumes
    nothing is not taken *)
Example empty_iteration :
  exec_array (Star (Grp 1 (Star (L "a")))) "b" 1
  = Some [VStr []; VUndefined].
Proof. reflexivity. Qed.

End Conformance.

(* ------------------------------------------------------------------ *)
(** ** The position index *)

Module PositionIndex.

Lemma split_aux_nonempty sep s cur : JSString.split_aux sep s cur <> [].
Proof.
  revert cur. induction s as [|c s IH]; intros cur; simpl; [discriminate|].
  destruct (N.eqb c sep); [discriminate | apply IH].
Qed.

Lemma lineNumbers_loop_length lineArray start :
  length (lineNumbers_loop lineArray start) = length lineArray.
Proof.
  revert start. induction lineArray as [|l ls IH]; intros start; simpl; auto.
Qed.

Lemma lineNumbers_first text g0 :
  exists rest, LINE_NUMBERS (obtainLineNumbers g0 text) = 0%Z :: rest.
Proof.
  unfold obtainLineNumbers, JSString.split. simpl.
  pose proof (split_aux_nonempty LF text []) as Hne.
  destruct (JSString.split_aux LF text []) as [|l ls]; [congruence|].
  simpl. eauto.
Qed.

Lemma line_number_app g pre ln rest :
  LINE_NUMBERS g = pre ++ ln :: rest ->
  line_number g (Z.of_nat (length pre)) = Num ln.
Proof.
  intros H. unfold line_number.
  destruct (Z.of_nat (length pre) <? 0)%Z eqn:E; [apply Z.ltb_lt in E; lia|].
  rewrite Nat2Z.id, H, nth_error_app2 by lia.
  rewrite Nat.sub_diag. reflexivity.
Qed.

(** The loop of [getLinePos], entered at iteration [length pre] with every
    earlier line start below the index, finds a line whose start is at most
    the index. *)
Lemma getLinePos_loop_spec g o :
  (o <= TEXT_LENGTH g)%Z ->
  forall rest pre,
    LINE_NUMBERS g = pre ++ rest ->
    rest <> [] ->
    (forall x, In x pre -> (x < o)%Z) ->
    (pre = [] -> forall ln rest', rest = ln :: rest' -> (ln <= o)%Z) ->
    exists l s,
      getLinePos_loop g o (Z.of_nat (length pre)) rest
        = Some (mkPos l (Num (o - s)))
      /\ (0 <= l < Z.of_nat (length (LINE_NUMBERS g)))%Z
      /\ line_number g l = Num s /\ (s <= o)%Z.
Proof.
  intros Hlen. induction rest as [|ln rest IH]; intros pre Heq Hne Hpre Hfirst;
    [congruence|].
  assert (Hn : length (LINE_NUMBERS g) = length pre + S (length rest)).
  { rewrite Heq, length_app. reflexivity. }
  pose proof (line_number_app _ _ _ _ Heq) as Hln.
  simpl. destruct (o <? ln)%Z eqn:E1.
  - apply Z.ltb_lt in E1.
    destruct (exists_last (l := pre)) as (pre' & s & Hp).
    { intros ->. specialize (Hfirst eq_refl ln rest eq_refl). lia. }
    subst pre. rewrite <- app_assoc in Heq. simpl in Heq.
    pose proof (line_number_app _ _ _ _ Heq) as Hs.
    rewrite length_app in *. simpl in *.
    replace (Z.of_nat (length pre' + 1) - 1)%Z with (Z.of_nat (length pre'))
      by lia.
    assert (s < o)%Z by (apply Hpre, in_or_app; right; left; reflexivity).
    rewrite Hs. simpl. exists (Z.of_nat (length pre')), s.
    repeat split; try lia. exact Hs.
  - apply Z.ltb_ge in E1. destruct (o =? ln)%Z eqn:E2.
    + apply Z.eqb_eq in E2. rewrite Hln. simpl.
      exists (Z.of_nat (length pre)), ln. repeat split; try lia; exact Hln.
    + apply Z.eqb_neq in E2.
      destruct ((Z.of_nat (length pre) =? Z.of_nat (length (LINE_NUMBERS g)) - 1)
                && (o <=? TEXT_LENGTH g))%Z%bool eqn:E3.
      * rewrite Hln. simpl.
        exists (Z.of_nat (length pre)), ln. repeat split; try lia; exact Hln.
      * apply andb_false_iff in E3. destruct E3 as [E3|E3];
          [|apply Z.leb_gt in E3; lia].
        apply Z.eqb_neq in E3.
        destruct rest as [|ln' rest']; [simpl in Hn; lia|].
        specialize (IH (pre ++ [ln])).
        rewrite length_app in IH. simpl in IH.
        replace (Z.of_nat (length pre + 1))%Z with (Z.of_nat (length pre) + 1)%Z
          in IH by lia.
        apply IH.
        -- rewrite <- app_assoc. exact Heq.
        -- discriminate.
        -- intros x Hx. apply in_app_or in Hx. destruct Hx as [Hx|[Hx|[]]];
             [auto | subst; lia].
        -- intros Hnil. destruct pre; discriminate.
Qed.

End PositionIndex.

(** C6: every offset [o] with [0 <= o <= length text] resolves through the
    position index built from [text], to a line [l] of the index and a
    column [c >= 0] such that the start of line [l] plus [c] is [o]. *)
Theorem offset_round_trip (g0 : Globals) (text : jsstring) (o : Z) :
  (0 <= o <= Z.of_nat (length text))%Z ->
  let g := obtainLineNumbers g0 text in
  exists l c s,
    getLinePos g (Num o) = Some (mkPos l (Num c))
    /\ line_number g l = Num s
    /\ (s + c = o)%Z /\ (0 <= c)%Z.
Proof.
  intros Ho g.
  destruct (PositionIndex.lineNumbers_first text g0) as (rest & Hrest).
  fold g in Hrest.
  destruct (@PositionIndex.getLinePos_loop_spec g o) with
    (rest := LINE_NUMBERS g) (pre := @nil Z) as (l & s & Hl & Hrange & Hs & Hle).
  - simpl. lia.
  - reflexivity.
  - rewrite Hrest. discriminate.
  - intros x [].
  - intros _ ln rest' Heq. rewrite Hrest in Heq. inversion Heq; subst. lia.
  - exists l, (o - s)%Z, s. simpl in Hl. unfold getLinePos.
    repeat split; [exact Hl | exact Hs | lia | lia].
Qed.

Lemma offset_round_trip_witness :
  exists l c s,
    getLinePos (obtainLineNumbers initial_globals (str "ab" ++ [LF] ++ str "c"))
      (Num 3) = Some (mkPos l (Num c))
    /\ line_number (obtainLineNumbers initial_globals (str "ab" ++ [LF] ++ str "c")) l
       = Num s
    /\ (s + c = 3)%Z /\ (0 <= c)%Z.
Proof.
  apply (@offset_round_trip initial_globals (str "ab" ++ [LF] ++ str "c") 3).
  simpl. lia.
Defined.

(* ------------------------------------------------------------------ *)
(** ** Variable names *)

(** C5, as the spec states it, fails on the code: the two-character name
    [ab] does not yield a finding of severity [error]. *)
Lemma two_character_name_not_error :
  ~ (exists r, testVariableName (mkVar (str "ab") false 0) = Some r
               /\ raw_severity r = error).
Proof.
  intros (r & Hr & Hs). vm_compute in Hr. inversion Hr; subst r.
  simpl in Hs. discriminate.
Qed.

(** C5, amended: a name of exactly two characters yields the too-short
    finding with severity [warning]; the severity is [error] only below two
    characters; a name of exactly three characters yields no finding from
    the length checks (a finding, if any, is a warning of the shape test). *)
Theorem naming_length_boundary (variable : Variable_) :
  (length (var_name variable) = 2 ->
   testVariableName variable
   = Some (mkRaw (var_name variable) (Num (var_index variable)) warning
             tooShortMessage))
  /\ (length (var_name variable) < 2 ->
      testVariableName variable
      = Some (mkRaw (var_name variable) (Num (var_index variable)) error
                tooShortMessage))
  /\ (length (var_name variable) = 3 ->
      forall r, testVariableName variable = Some r ->
                raw_severity r = warning
                /\ (raw_message r = malformedMessage
                    \/ raw_message r = malformedStaticMessage)).
Proof.
  unfold testVariableName. repeat split.
  - intros ->. reflexivity.
  - intros H.
    destruct (length (var_name variable) <? 3) eqn:E3;
      [|apply Nat.ltb_ge in E3; lia].
    destruct (length (var_name variable) <? 2) eqn:E2;
      [reflexivity | apply Nat.ltb_ge in E2; lia].
  - rewrite H in H0. simpl in H0.
    destruct (staticImmutable variable); simpl in H0;
      match type of H0 with
      | (if negb ?t then _ else _) = _ => destruct t
      end; simpl in H0; inversion H0; reflexivity.
  - rewrite H in H0. simpl in H0.
    destruct (staticImmutable variable); simpl in H0;
      match type of H0 with
      | (if negb ?t then _ else _) = _ => destruct t
      end; simpl in H0; inversion H0; auto.
Qed.

Lemma naming_length_boundary_witness :
  testVariableName (mkVar (str "ab") false 7)
  = Some (mkRaw (str "ab") (Num 7) warning tooShortMessage)
  /\ testVariableName (mkVar (str "a") false 7)
     = Some (mkRaw (str "a") (Num 7) error tooShortMessage)
  /\ testVariableName (mkVar (str "abc") false 7) = None.
Proof.
  pose proof (naming_length_boundary (mkVar (str "ab") false 7)) as (H2 & _ & _).
  pose proof (naming_length_boundary (mkVar (str "a") false 7)) as (_ & H1 & _).
  split; [|split].
  - apply H2. reflexivity.
  - apply H1. simpl. lia.
  - reflexivity.
Defined.

(** C4, as the spec states it, fails on the code: the binding [ABC] that is
    not constant-eligible yields no finding. *)
Lemma all_caps_ordinary_binding_passes :
  ~ (exists r, testVariableName (mkVar (str "ABC") false 0) = Some r
               /\ raw_severity r = warning).
Proof.
  intros (r & Hr & _). vm_compute in Hr. discriminate.
Qed.

(** C4, amended: for a name of 3 to 40 characters the shape test is the
    one the code assigns.  A binding that is not constant-eligible must
    match [immutableTest] (an optional underscore, then a lowercase letter
    followed by letters and digits, or only capitals and digits): [ABC]
    passes with no finding and [Abc] yields a warning.  A constant-eligible
    binding must match [mutableTest] (an optional underscore, a letter, then
    letters and digits): [ABC] passes with no finding. *)
Theorem naming_shape_test :
  (forall variable,
     3 <= length (var_name variable) <= 40 ->
     testVariableName variable =
       if staticImmutable variable
       then if test (var_name variable) mutableTest then None
            else Some (mkRaw (var_name variable) (Num (var_index variable))
                         warning malformedStaticMessage)
       else if test (var_name variable) immutableTest then None
            else Some (mkRaw (var_name variable) (Num (var_index variable))
                         warning malformedMessage))
  /\ (forall i, testVariableName (mkVar (str "ABC") false i) = None)
  /\ (forall i, testVariableName (mkVar (str "ABC") true i) = None)
  /\ (forall i, testVariableName (mkVar (str "Abc") false i)
                = Some (mkRaw (str "Abc") (Num i) warning malformedMessage)).
Proof.
  repeat split; try (intros i; reflexivity).
  intros variable [H3 H40]. unfold testVariableName.
  destruct (length (var_name variable) <? 3) eqn:E3;
    [apply Nat.ltb_lt in E3; lia|].
  destruct (40 <? length (var_name variable)) eqn:E40;
    [apply Nat.ltb_lt in E40; lia|].
  destruct (staticImmutable variable); simpl;
    match goal with
    | |- (if negb ?t then _ else _) = _ => destruct t
    end; reflexivity.
Qed.

Lemma naming_shape_test_witness :
  3 <= length (str "Swift") <= 40
  /\ testVariableName (mkVar (str "Swift") true 4) = None
  /\ testVariableName (mkVar (str "Swift") false 4)
     = Some (mkRaw (str "Swift") (Num 4) warning malformedMessage).
Proof.
  assert (H : 3 <= length (str "Swift") <= 40) by (simpl; lia).
  split; [exact H|]. split.
  - rewrite (proj1 naming_shape_test (mkVar (str "Swift") true 4) H).
    reflexivity.
  - rewrite (proj1 naming_shape_test (mkVar (str "Swift") false 4) H).
    reflexivity.
Defined.

(* ------------------------------------------------------------------ *)
(** ** Function parameters *)

Module Parameters.

Lemma string_eqb_eq a b : string_eqb a b = true <-> a = b.
Proof.
  revert b. induction a as [|x a IH]; intros [|y b]; simpl;
    try (split; [discriminate | congruence]); [tauto|].
  rewrite andb_true_iff, N.eqb_eq, IH. split.
  - intros [-> ->]. reflexivity.
  - intros H. inversion H. auto.
Qed.

(** the two depth updates of an iteration add [paren_delta] *)
Lemma param_step_depth c i d pc :
  param_step c i d pc =
    let d' := (d + paren_delta c)%Z in
    let pc' := if is_boundary (c, d') then (pc + 1)%Z else pc in
    if (d' =? 0)%Z then Break pc' (i + 1) else Continue d' pc'.
Proof.
  unfold param_step, paren_delta, is_boundary. simpl.
  destruct (string_eqb c (str "(")) eqn:E1.
  - apply string_eqb_eq in E1. subst c. simpl.
    replace (d + 1 - 0)%Z with (d + 1)%Z by lia. reflexivity.
  - destruct (string_eqb c (str ")")) eqn:E2.
    + replace (d + -1)%Z with (d - 1)%Z by lia. reflexivity.
    + replace (d + 0)%Z with d by lia. reflexivity.
Qed.

Lemma param_loop_spec visit :
  forall i d pc,
    param_loop visit i d pc =
      ((pc + Z.of_nat (length (filter is_boundary (scanned d visit))))%Z,
       match first_zero (depths d visit) with
       | Some k => (i + Z.of_nat k + 1)%Z
       | None => (-1)%Z
       end).
Proof.
  induction visit as [|c rest IH]; intros i d pc.
  - simpl. f_equal. lia.
  - cbn [param_loop]. rewrite param_step_depth. cbv zeta.
    unfold scanned. cbn [depths first_zero].
    destruct (d + paren_delta c =? 0)%Z eqn:E0.
    + cbn [combine firstn filter].
      assert (Hb : is_boundary (c, (d + paren_delta c)%Z) = false).
      { unfold is_boundary. simpl. apply Z.eqb_eq in E0. rewrite E0.
        reflexivity. }
      rewrite Hb. simpl. f_equal; lia.
    + rewrite IH. unfold scanned.
      destruct (first_zero (depths (d + paren_delta c) rest)) as [k|];
        cbn [option_map combine firstn filter];
        destruct (is_boundary (c, (d + paren_delta c)%Z));
        cbn [length]; f_equal; lia.
Qed.

End Parameters.

(** C2: the counting loop of [getFunctionParameters] counts one more than
    the commas read at paren depth exactly 1, reads up to the first return
    of the depth to 0 and records the offset after it (-1 when the depth
    never returns to 0); this count becomes the [paramCount] of a function
    that is not of the zero-parameter shape; the function of
    [func f(a: Int, b: (Int, Int) -> Int, c: String) { }] gets
    [paramCount] 3. *)
Theorem parameter_count :
  (forall functionInfo,
     let paramStartIndex := JSString.indexOf functionInfo (str "(") in
     let visit := visited functionInfo paramStartIndex in
     countParameters functionInfo
     = (spec_paramCount visit, spec_paramEndIndex paramStartIndex visit))
  /\ (forall functionObj mr functionInfo,
        test (code functionObj) noParamRegex = false ->
        exec (code functionObj) paramRegex 0 = Some mr ->
        group (code functionObj) mr 1 = VStr functionInfo ->
        exists f,
          getFunctionParameters functionObj = Ok f
          /\ paramCount f
             = Some (spec_paramCount
                       (visited functionInfo
                          (JSString.indexOf functionInfo (str "(")))))
  /\ paramCountsOf
       (str "func f(a: Int, b: (Int, Int) -> Int, c: String) { }")
     = Ok [Some 3%Z].
Proof.
  assert (Hcount : forall functionInfo,
    countParameters functionInfo
    = (spec_paramCount
         (visited functionInfo (JSString.indexOf functionInfo (str "("))),
       spec_paramEndIndex (JSString.indexOf functionInfo (str "("))
         (visited functionInfo (JSString.indexOf functionInfo (str "("))))).
  { intros functionInfo.
    unfold countParameters, spec_paramCount, spec_paramEndIndex.
    rewrite Parameters.param_loop_spec. reflexivity. }
  split; [exact Hcount|]. split.
  - intros functionObj mr functionInfo Htest Hexec Hgroup.
    unfold getFunctionParameters. rewrite Htest, Hexec, Hgroup, Hcount.
    eexists. split; reflexivity.
  - vm_compute. reflexivity.
Qed.

Lemma parameter_count_witness :
  extractFunctions (code example_function) = Ok [example_function]
  /\ exists f,
       getFunctionParameters example_function = Ok f
       /\ paramCount f = Some 3%Z.
Proof.
  split; [vm_compute; reflexivity|].
  pose (mr := match exec (code example_function) paramRegex 0 with
              | Some mr => mr
              | None => mkResult 0 (mkState 0 [])
              end).
  destruct (proj1 (proj2 parameter_count) example_function mr
              (str "(a: Int, b: (Int, Int) -> Int, c: String) "))
    as (f & Hf & Hc).
  - vm_compute. reflexivity.
  - vm_compute. reflexivity.
  - vm_compute. reflexivity.
  - exists f. split; [exact Hf|]. rewrite Hc. vm_compute. reflexivity.
Defined.

(* ------------------------------------------------------------------ *)
(** ** Extraction of bodies *)

Module Bodies.

Import RegExpFacts.

Lemma skipn_cons_nth {A} (l : list A) e ch rest :
  skipn e l = ch :: rest -> nth_error l e = Some ch /\ skipn (S e) l = rest.
Proof.
  revert l. induction e as [|e IH]; intros l H.
  - destruct l; simpl in H; inversion H; subst. auto.
  - destruct l as [|a l]; [discriminate|]. simpl in H. apply IH in H.
    simpl. exact H.
Qed.

Lemma skipn_nil_nth {A} (l : list A) e :
  skipn e l = [] -> nth_error l e = None.
Proof.
  revert l. induction e as [|e IH]; intros l H.
  - destruct l; simpl in H; [reflexivity | discriminate].
  - destruct l as [|a l]; [reflexivity|]. simpl in *. auto.
Qed.

Section Scan.
Variable input : jsstring.

(** [[^a]*?t] stops at the first [t], unless an [a] comes before it *)
Lemma lazy_scan_correct avoid target :
  forall rest fuel x,
    skipn (endIndex x) input = rest ->
    length rest < fuel ->
    RepeatMatcher (m input (Cls true [CChar avoid])) [] fuel 0 None false x
      (fun y => m input (Lit target) y Some)
    = option_map (fun k => mkState k (captures x))
        (lazy_scan avoid target rest (endIndex x)).
Proof.
  induction rest as [|ch rest IH]; intros fuel x Hskip Hfuel;
    (destruct fuel as [|fuel]; [simpl in Hfuel; lia|]).
  - apply skipn_nil_nth in Hskip.
    simpl. unfold match_char, char_at. rewrite Hskip. reflexivity.
  - apply skipn_cons_nth in Hskip. destruct Hskip as [Hnth Hrest].
    cbn [RepeatMatcher is_zero_max Nat.eqb negb andb m lazy_scan].
    unfold match_char at 1. unfold char_at. rewrite Hnth.
    destruct (N.eqb target ch) eqn:Et.
    + destruct x; reflexivity.
    + unfold clear_captures. cbn [fold_left].
      unfold match_char, char_at. rewrite Hnth.
      unfold class_matches. cbn [existsb atom_matches].
      rewrite orb_false_r. cbn [xorb].
      destruct (N.eqb ch avoid) eqn:Ea; cbn [negb]; [reflexivity|].
      cbn [advance endIndex].
      replace (Nat.eqb (S (endIndex x)) (endIndex x)) with false
        by (symmetry; apply Nat.eqb_neq; lia).
      cbn [pred pred_max].
      specialize (IH fuel (advance x)). cbn [advance endIndex captures] in IH.
      apply IH; [exact Hrest | simpl in Hfuel; lia].
Qed.

Lemma lazy_scan_braces rest k :
  match lazy_scan (chr "}") (chr "{") rest k with
  | Some j => Some j
  | None => lazy_scan (chr "{") (chr "}") rest k
  end = find_brace rest k.
Proof.
  revert k. induction rest as [|ch rest IH]; intros k; [reflexivity|].
  cbn [lazy_scan find_brace]. unfold is_brace.
  rewrite (N.eqb_sym (chr "{") ch), (N.eqb_sym (chr "}") ch).
  destruct (N.eqb ch (chr "{")) eqn:E1; [reflexivity|].
  destruct (N.eqb ch (chr "}")) eqn:E2; [reflexivity|].
  simpl. apply IH.
Qed.

(** [braceRegex] at a position matches up to the first brace after it *)
Lemma m_braceRegex x :
  m input braceRegex x Some
  = option_map (fun k => mkState k (captures x))
      (find_brace (skipn (endIndex x) input) (endIndex x)).
Proof.
  rewrite <- lazy_scan_braces.
  assert (Hfuel : length (skipn (endIndex x) input)
                  < S (0 + (length input - endIndex x))).
  { rewrite length_skipn. lia. }
  change (m input braceRegex x Some) with
    (match RepeatMatcher (m input (Cls true [CChar (chr "}")])) []
             (S (0 + (length input - endIndex x))) 0 None false x
             (fun y => m input (Lit (chr "{")) y Some) with
     | Some z => Some z
     | None =>
         RepeatMatcher (m input (Cls true [CChar (chr "{")])) []
           (S (0 + (length input - endIndex x))) 0 None false x
           (fun y => m input (Lit (chr "}")) y Some)
     end).
  rewrite !(@lazy_scan_correct _ _ (skipn (endIndex x) input)) by auto.
  destruct (lazy_scan (chr "}") (chr "{") _ _); reflexivity.
Qed.

Lemma find_brace_None rest k :
  find_brace rest k = None -> Forall (fun c => is_brace c = false) rest.
Proof.
  revert k. induction rest as [|ch rest IH]; intros k H; [constructor|].
  simpl in H. destruct (is_brace ch) eqn:E; [discriminate|].
  constructor; eauto.
Qed.

Lemma find_brace_free rest k :
  Forall (fun c => is_brace c = false) rest -> find_brace rest k = None.
Proof.
  intros H. revert k. induction H as [|ch rest Hc _ IH]; intros k;
    [reflexivity|].
  simpl. rewrite Hc. apply IH.
Qed.

Lemma find_brace_Some rest k j :
  find_brace rest k = Some j ->
  exists u b rest',
    rest = u ++ b :: rest'
    /\ Forall (fun c => is_brace c = false) u
    /\ is_brace b = true /\ j = k + length u + 1.
Proof.
  revert k. induction rest as [|ch rest IH]; intros k H; [discriminate|].
  simpl in H. destruct (is_brace ch) eqn:E.
  - inversion H; subst. exists [], ch, rest. simpl.
    repeat split; [constructor | assumption | lia].
  - apply IH in H. destruct H as (u & b & rest' & -> & Hu & Hb & ->).
    exists (ch :: u), b, rest'. simpl.
    repeat split; [constructor; assumption | assumption | lia].
Qed.

Lemma Forall_skipn {A} (P : A -> Prop) n (l : list A) :
  Forall P l -> Forall P (skipn n l).
Proof.
  intros H. rewrite <- (firstn_skipn n l) in H.
  apply Forall_app in H. tauto.
Qed.

Lemma exec_from_brace_none fuel :
  forall i j,
    i <= j ->
    find_brace (skipn i input) i = None ->
    exec_from input braceRegex fuel j = None.
Proof.
  induction fuel as [|fuel IH]; intros i j Hij Hnone; [reflexivity|].
  cbn [exec_from]. rewrite m_braceRegex. unfold initial. cbn [endIndex].
  rewrite (@find_brace_free (skipn j input) j).
  - simpl. apply (IH i); [lia | assumption].
  - apply find_brace_None in Hnone.
    replace j with ((j - i) + i) by lia. rewrite <- skipn_skipn.
    apply Forall_skipn. assumption.
Qed.

(** [braceRegex.exec] finds the first brace at or after [lastIndex], and
    the match starts at [lastIndex] *)
Lemma exec_brace li :
  li <= length input ->
  exec input braceRegex li
  = option_map (fun k => mkResult li (mkState k [None]))
      (find_brace (skipn li input) li).
Proof.
  intros Hli. unfold exec.
  destruct (Nat.ltb (length input) li) eqn:E; [apply Nat.ltb_lt in E; lia|].
  cbn [exec_from]. rewrite m_braceRegex. unfold initial.
  cbn [endIndex captures].
  change (repeat None (slots braceRegex)) with [@None (nat * nat)].
  destruct (find_brace (skipn li input) li) as [k|] eqn:Hf; [reflexivity|].
  simpl. apply (@exec_from_brace_none _ li); [lia | assumption].
Qed.

Lemma brace_depth_app a b :
  brace_depth (a ++ b) = (brace_depth a + brace_depth b)%Z.
Proof. induction a as [|c a IH]; simpl; [reflexivity | rewrite IH; lia]. Qed.

Lemma brace_depth_free u :
  Forall (fun c => is_brace c = false) u -> brace_depth u = 0%Z.
Proof.
  induction 1 as [|c u Hc _ IH]; [reflexivity|]. simpl. rewrite IH.
  unfold is_brace in Hc. apply orb_false_iff in Hc. destruct Hc as [H1 H2].
  unfold brace_delta. rewrite H1, H2. reflexivity.
Qed.

(** one successful [exec] of the loop: a run without braces, then a brace *)
Lemma brace_step li mr :
  li <= length input ->
  exec input braceRegex li = Some mr ->
  exists u b,
    lastIndex mr = li + length u + 1
    /\ lastIndex mr <= length input
    /\ matched input mr = u ++ [b]
    /\ Forall (fun c => is_brace c = false) u
    /\ is_brace b = true
    /\ firstn (lastIndex mr) input = firstn li input ++ u ++ [b]
    /\ nth_error input (li + length u) = Some b.
Proof.
  intros Hli H. rewrite exec_brace in H by assumption.
  destruct (find_brace (skipn li input) li) as [k|] eqn:Hf; [|discriminate].
  inversion H; subst mr. clear H.
  apply find_brace_Some in Hf. destruct Hf as (u & b & rest' & Hs & Hu & Hb & ->).
  exists u, b. unfold lastIndex, matched, JSString.slice. cbn [final endIndex index lastIndex].
  assert (Hin : input = firstn li input ++ u ++ b :: rest').
  { rewrite <- Hs. symmetry. apply firstn_skipn. }
  assert (Hl : length (firstn li input) = li) by (apply firstn_length_le; lia).
  assert (Hlen : length input = li + length u + S (length rest')).
  { rewrite Hin at 1. rewrite !length_app, Hl. simpl. lia. }
  repeat split; try assumption.
  - lia.
  - rewrite Hs. replace (li + length u + 1 - li) with (length (u ++ [b]))
      by (rewrite length_app; simpl; lia).
    replace (u ++ b :: rest') with ((u ++ [b]) ++ rest')
      by (rewrite <- app_assoc; reflexivity).
    rewrite firstn_app, firstn_all, Nat.sub_diag. simpl. apply app_nil_r.
  - rewrite Hin at 1.
    replace (firstn li input ++ u ++ b :: rest')
      with ((firstn li input ++ u ++ [b]) ++ rest')
      by (rewrite <- !app_assoc; reflexivity).
    replace (li + length u + 1) with (length (firstn li input ++ u ++ [b]))
      by (rewrite !length_app, Hl; simpl; lia).
    rewrite firstn_app, firstn_all, Nat.sub_diag. simpl. apply app_nil_r.
  - rewrite Hin.
    rewrite nth_error_app2 by lia. rewrite Hl.
    replace (li + length u - li) with (length u) by lia.
    rewrite nth_error_app2 by lia. rewrite Nat.sub_diag. reflexivity.
Qed.

Lemma last_char_snoc u b : last_char (u ++ [b]) = [b].
Proof.
  unfold last_char, JSString.charAt. rewrite length_app. simpl.
  destruct (Z.of_nat (length u + 1) - 1 <? 0)%Z eqn:E;
    [apply Z.ltb_lt in E; lia|].
  replace (Z.to_nat (Z.of_nat (length u + 1) - 1)) with (length u) by lia.
  rewrite nth_error_app2 by lia. rewrite Nat.sub_diag. reflexivity.
Qed.

Lemma depth_update b depth :
  is_brace b = true ->
  (if string_eqb [b] (str "{") then (depth + 1)%Z
   else if string_eqb [b] (str "}") then (depth - 1)%Z
   else depth)
  = (depth + brace_delta b)%Z
  /\ (brace_delta b = 1 \/ brace_delta b = -1)%Z.
Proof.
  intros Hb. unfold is_brace in Hb. unfold brace_delta.
  change (string_eqb [b] (str "{")) with (N.eqb b (chr "{") && true)%bool.
  change (string_eqb [b] (str "}")) with (N.eqb b (chr "}") && true)%bool.
  rewrite !andb_true_r.
  destruct (N.eqb b (chr "{")); [split; [reflexivity | auto]|].
  destruct (N.eqb b (chr "}")); [split; [lia | auto] | discriminate].
Qed.

Lemma no_return_extend li u b depth :
  no_return_before input li ->
  li + length u + 1 <= length input ->
  firstn (li + length u + 1) input = firstn li input ++ u ++ [b] ->
  Forall (fun c => is_brace c = false) u ->
  brace_depth (firstn (li + length u + 1) input) = depth ->
  depth <> 0%Z ->
  no_return_before input (li + length u + 1).
Proof.
  intros Hbefore Hlen Hfirst Hu Hdepth Hnz j Hj (_ & Hd & c & Hc & Hbrace).
  destruct (Nat.le_gt_cases j li) as [Hle|Hgt].
  - apply (Hbefore j); [lia|]. repeat split; try lia; eauto.
  - destruct (Nat.eq_dec j (li + length u + 1)) as [->|Hne];
      [congruence|].
    assert (Hl : length (firstn li input) = li)
      by (apply firstn_length_le; lia).
    assert (Hnth : nth_error (firstn (li + length u + 1) input) (j - 1)
                   = Some c).
    { rewrite nth_error_firstn.
      destruct (Nat.ltb_spec (j - 1) (li + length u + 1)); [exact Hc | lia]. }
    rewrite Hfirst in Hnth.
    rewrite nth_error_app2 in Hnth by lia. rewrite Hl in Hnth.
    rewrite nth_error_app1 in Hnth by lia.
    apply nth_error_In in Hnth.
    rewrite Forall_forall in Hu. apply Hu in Hnth. congruence.
Qed.

(** The loop of [extractBodies] over the braces of [input]: it ends, its
    [code] is a prefix of [input], and when it ends at depth 0 with a
    non-empty [code], that prefix ends at the first brace that brings the
    depth back to 0 and [maxDepth] is at least 1. *)
Lemma brace_loop_spec fuel :
  forall li depth md,
    li <= length input -> length input - li < fuel ->
    brace_depth (firstn li input) = depth ->
    (depth <= md)%Z ->
    (depth = 0%Z /\ li = 0) \/ (1 <= depth)%Z ->
    no_return_before input li ->
    exists depth' n md',
      brace_loop input fuel li depth (firstn li input) md
      = Ok (depth', firstn n input, md')
      /\ n <= length input
      /\ (depth' = 0%Z -> n <> 0 ->
          returns_to_zero_at input n /\ (1 <= md')%Z
          /\ no_return_before input (n - 1))
      /\ (depth' <> 0%Z \/ n = 0 -> no_return_before input n).
Proof.
  induction fuel as [|fuel IH]; intros li depth md Hli Hfuel Hd Hmd Hstate Hfree;
    [lia|].
  cbn [brace_loop].
  destruct (exec input braceRegex li) as [mr|] eqn:He.
  - destruct (@brace_step li mr Hli He) as (u & b & Hlast & Hbound & Hm & Hu & Hb & Hfirst & Hnth).
    rewrite Hm, last_char_snoc.
    destruct (@depth_update b depth Hb) as [-> Hdelta].
    rewrite <- Hfirst.
    assert (Hd1 : brace_depth (firstn (lastIndex mr) input)
                  = (depth + brace_delta b)%Z).
    { rewrite Hfirst, !brace_depth_app, (@brace_depth_free u Hu), Hd.
      simpl. lia. }
    set (depth1 := (depth + brace_delta b)%Z) in *.
    set (md1 := if (depth1 >? md)%Z then depth1 else md).
    assert (Hmd1 : (depth1 <= md1)%Z /\ (md <= md1)%Z).
    { unfold md1. destruct (depth1 >? md)%Z eqn:E; lia. }
    rewrite Hlast in Hfirst, Hd1.
    destruct (depth1 <=? 0)%Z eqn:Hexit.
    + apply Z.leb_le in Hexit.
      exists depth1, (lastIndex mr), md1. split; [reflexivity|].
      split; [assumption|]. split.
      * intros Hz _. rewrite Hlast.
        split; [|split; [lia|]].
        -- repeat split; try lia; try assumption.
           exists b. replace (li + length u + 1 - 1) with (li + length u) by lia.
           auto.
        -- replace (li + length u + 1 - 1) with (li + length u) by lia.
           intros j Hj (_ & Hdj & c & Hc & Hbrace).
           destruct (Nat.le_gt_cases j li) as [Hle|Hgt].
           ++ apply (Hfree j); [lia|]. repeat split; try lia; eauto.
           ++ assert (Hl : length (firstn li input) = li)
                by (apply firstn_length_le; lia).
              assert (Hn : nth_error (firstn (li + length u + 1) input) (j - 1)
                           = Some c).
              { rewrite nth_error_firstn.
                destruct (Nat.ltb_spec (j - 1) (li + length u + 1));
                  [exact Hc | lia]. }
              rewrite Hfirst in Hn.
              rewrite nth_error_app2 in Hn by lia. rewrite Hl in Hn.
              rewrite nth_error_app1 in Hn by lia.
              apply nth_error_In in Hn.
              rewrite Forall_forall in Hu. apply Hu in Hn. congruence.
      * intros [Hnz|Hn0]; [|lia]. rewrite Hlast.
        eapply no_return_extend; eauto. lia.
    + apply Z.leb_gt in Hexit.
      destruct (IH (lastIndex mr) depth1 md1) as (depth' & n & md' & Hloop & Hrest);
        try lia.
      * rewrite Hlast. exact Hd1.
      * rewrite Hlast. eapply no_return_extend; eauto; lia.
      * exists depth', n, md'. split; [exact Hloop | exact Hrest].
  - exists depth, li, md. split; [reflexivity|]. split; [assumption|]. split.
    + intros Hz Hn. destruct Hstate as [[_ H0]|H1]; lia.
    + intros _. assumption.
Qed.

End Scan.

Lemma string_eqb_nil (code : jsstring) :
  negb (string_eqb code []) = true <-> code <> [].
Proof. destruct code; simpl; split; congruence. Qed.

(** what [captureBody] keeps of a candidate *)
Lemma captureBody_spec text type dec :
  let s := JSString.substring_from text (Z.of_nat (index dec)) in
  exists bs,
    captureBody text type dec = Ok bs
    /\ forall b, In b bs ->
         body_index b = index dec
         /\ code b = firstn (length (code b)) s
         /\ returns_to_zero_at s (length (code b))
         /\ no_return_before s (length (code b) - 1)
         /\ (1 <= maxDepth b)%Z.
Proof.
  intros s. unfold captureBody. fold s.
  destruct (@brace_loop_spec s (S (length s)) 0 0%Z 0%Z)
    as (depth' & n & md' & Hloop & Hn & Hzero & _); try lia; auto.
  { intros j Hj. lia. }
  simpl firstn in Hloop. rewrite Hloop. cbn [bind].
  destruct ((depth' =? 0)%Z && negb (string_eqb (firstn n s) []))%bool eqn:E.
  - apply andb_true_iff in E. destruct E as [E1 E2].
    apply Z.eqb_eq in E1. apply string_eqb_nil in E2.
    assert (Hn0 : n <> 0) by (intros ->; apply E2; reflexivity).
    destruct (Hzero E1 Hn0) as (Hret & Hmd & Hfirst).
    eexists. split; [reflexivity|].
    intros b [<-|[]]. cbn [body_index code maxDepth].
    rewrite firstn_length_le by assumption. auto.
  - exists []. split; [reflexivity|]. intros b [].
Qed.

Lemma captureBodies_spec text type bodyDecs :
  exists bodies,
    captureBodies text type bodyDecs = Ok bodies
    /\ forall b, In b bodies ->
         let s := JSString.substring_from text (Z.of_nat (body_index b)) in
         code b = firstn (length (code b)) s
         /\ returns_to_zero_at s (length (code b))
         /\ no_return_before s (length (code b) - 1)
         /\ (1 <= maxDepth b)%Z.
Proof.
  induction bodyDecs as [|dec rest IH].
  - exists []. split; [reflexivity|]. intros b [].
  - destruct (captureBody_spec text type dec) as (bs & Hbs & Hspec).
    destruct IH as (bodies & Hbodies & Hrest).
    exists (bs ++ bodies). cbn [captureBodies]. rewrite Hbs, Hbodies.
    split; [reflexivity|].
    intros b Hin. apply in_app_or in Hin. destruct Hin as [Hin|Hin].
    + destruct (Hspec b Hin) as (-> & H). exact H.
    + apply Hrest. exact Hin.
Qed.

Lemma searchRegex_not_nullable type : nullable (searchRegex type) = false.
Proof.
  unfold searchRegex. cbn [Seqs nullable]. simpl.
  rewrite andb_false_r. reflexivity.
Qed.

End Bodies.

(** the nested function of the spec's examples has its whole text as code
    and depth 2; the truncated one gives no declaration *)
Example extraction_examples :
  (exists b,
     extractFunctions (str "func f() { if (x) { y() } }") = Ok [b]
     /\ code b = str "func f() { if (x) { y() } }" /\ maxDepth b = 2%Z)
  /\ extractFunctions (str "func g() { if (x) {") = Ok [].
Proof. split; [eexists; split; [reflexivity|split; reflexivity] | reflexivity]. Qed.

(** C1: body extraction returns, for every text and declaration keyword,
    and each declaration it returns has a [code] that is a prefix of the
    text from the declaration's offset, is brace-balanced (depth 0 at its
    end, which is a brace, and at no brace before) and has a [maxDepth] of
    at least 1; when the brace depth of the text from an offset never
    returns to 0, no declaration at that offset is returned (the result
    carries declarations only, no diagnostic). *)
Theorem extracted_bodies_balanced (text type : jsstring) :
  exists bodies,
    extractBodies text type = Ok bodies
    /\ (forall b, In b bodies ->
          let s := JSString.substring_from text (Z.of_nat (body_index b)) in
          code b = firstn (length (code b)) s
          /\ brace_depth (code b) = 0%Z
          /\ returns_to_zero_at s (length (code b))
          /\ (forall j, 0 < j < length (code b) -> ~ returns_to_zero_at s j)
          /\ (1 <= maxDepth b)%Z)
    /\ (forall i,
          ~ returns_to_zero (JSString.substring_from text (Z.of_nat i)) ->
          forall b, In b bodies -> body_index b <> i).
Proof.
  unfold extractBodies.
  destruct (@RegExpFacts.exec_all_total text (searchRegex type)
              (Bodies.searchRegex_not_nullable type)) as (bodyDecs & Hdecs).
  rewrite Hdecs. cbn [bind].
  destruct (Bodies.captureBodies_spec text type bodyDecs)
    as (bodies & Hbodies & Hspec).
  exists bodies. split; [exact Hbodies|]. split.
  - intros b Hin. destruct (Hspec b Hin) as (Hcode & Hret & Hfirst & Hmd).
    split; [exact Hcode|]. split.
    + rewrite Hcode. apply Hret.
    + split; [exact Hret|]. split; [|exact Hmd].
      intros j Hj. apply Hfirst. lia.
  - intros i Hnever b Hin <-.
    destruct (Hspec b Hin) as (_ & Hret & _).
    apply Hnever. eexists. exact Hret.
Qed.

Lemma extracted_bodies_balanced_witness :
  exists b,
    extractBodies (str "func f() { if (x) { y() } }") (str "func") = Ok [b]
    /\ code b = str "func f() { if (x) { y() } }"
    /\ brace_depth (code b) = 0%Z /\ (1 <= maxDepth b)%Z.
Proof.
  destruct (extracted_bodies_balanced (str "func f() { if (x) { y() } }")
              (str "func")) as (bodies & Hbodies & Hall & _).
  vm_compute in Hbodies. inversion Hbodies as [Heq].
  rewrite <- Heq in Hall.
  match type of Hall with
  | forall b, In b [?b0] -> _ =>
      exists b0; destruct (Hall b0 (or_introl eq_refl)) as (_ & Hd & _ & _ & Hm)
  end.
  split; [vm_compute; reflexivity|]. split; [reflexivity|].
  split; [exact Hd | exact Hm].
Defined.

(* ------------------------------------------------------------------ *)
(** ** Exception ranges of the regex rules *)

Module Exceptions.

Import RegExpFacts.

Lemma regexException_iff o ranges :
  regexException o ranges = true <-> exists r, In r ranges /\ in_range_of o r.
Proof.
  unfold in_range_of. induction ranges as [|r rest IH]; simpl.
  - split; [discriminate | intros (r & [] & _)].
  - destruct ((range_start r <=? o)%Z && (range_end r >? o)%Z)%bool eqn:E.
    + split; [|reflexivity]. intros _. exists r.
      apply andb_true_iff in E. destruct E as [E1 E2].
      apply Z.leb_le in E1. apply Z.gtb_lt in E2. split; [auto | lia].
    + rewrite IH. split.
      * intros (r' & Hin & Hr). exists r'. auto.
      * intros (r' & [->|Hin] & Hr); [|exists r'; auto].
        apply andb_false_iff in E.
        destruct E as [E|E];
          [apply Z.leb_gt in E | rewrite Z.gtb_ltb in E; apply Z.ltb_ge in E];
          lia.
Qed.

Lemma flat_map_filter {A B} (f : A -> B) (p : A -> bool) (l : list A) :
  flat_map (fun a => if p a then [f a] else []) l = map f (filter p l).
Proof.
  induction l as [|a l IH]; simpl; [reflexivity|].
  destruct (p a); simpl; rewrite IH; reflexivity.
Qed.

Lemma exec_each_Forall text res ms :
  exec_each text res = Ok ms ->
  Forall (fun mr => exists re li, In re res /\ exec text re li = Some mr) ms.
Proof.
  revert ms. induction res as [|re rest IH]; intros ms H; simpl in H.
  - inv H. constructor.
  - destruct (exec_all text re) as [ms1| |] eqn:H1; try discriminate.
    destruct (exec_each text rest) as [ms2| |] eqn:H2; try discriminate.
    simpl in H. inv H. apply Forall_app. split.
    + apply exec_all_Forall in H1. eapply Forall_impl; [|exact H1].
      intros mr (li & He). exists re, li. split; [left; reflexivity | auto].
    + eapply Forall_impl; [|apply IH; reflexivity].
      intros mr (re' & li & Hin & He). exists re', li. split; [right|]; auto.
Qed.

Lemma exec_each_total text res :
  forallb (fun re => negb (nullable re)) res = true ->
  exists ms, exec_each text res = Ok ms.
Proof.
  induction res as [|re rest IH]; intros H; simpl in *; [eauto|].
  apply andb_true_iff in H. destruct H as [H1 H2].
  apply negb_true_iff in H1.
  destruct (@exec_all_total text re H1) as (ms1 & ->).
  destruct (IH H2) as (ms2 & ->). simpl. eauto.
Qed.

Lemma matched_length text re li mr :
  exec text re li = Some mr ->
  length (matched text mr) = lastIndex mr - index mr.
Proof.
  intros H. pose proof (@exec_lastIndex text re li mr H) as [H1 H2].
  unfold matched, JSString.slice.
  rewrite length_firstn, length_skipn. lia.
Qed.

Section Shapes.
Variable text : jsstring.

(** the positions a quantified class crosses hold characters of the class *)
Lemma Matches_Rep_class neg atoms r0 x y :
  Matches text r0 x y ->
  forall min max g,
    r0 = Rep (Cls neg atoms) min max g ->
    forall j, endIndex x <= j < endIndex y ->
    exists c, char_at text j = Some c /\ class_matches neg atoms c = true.
Proof.
  induction 1; intros min' max' g' Heq j Hj; try discriminate.
  - lia.
  - lia.
  - inv Heq. inv H0. unfold clear_captures in *.
    cbn [groups fold_left advance endIndex] in *.
    destruct (Nat.eq_dec j (endIndex x)) as [->|Hne]; [eauto|].
    eapply IHMatches2; [reflexivity | lia].
Qed.

(** a match of the opening-brace pattern: at least two characters, the
    last one the brace, only whitespace strictly between the first and the
    last *)
Lemma openingBracePattern_shape x y :
  Matches text openingBracePattern x y ->
  endIndex x + 2 <= endIndex y
  /\ char_at text (endIndex y - 1) = Some (chr "{")
  /\ forall j, endIndex x < j < endIndex y - 1 ->
               exists c, char_at text j = Some c /\ is_space c = true.
Proof.
  unfold openingBracePattern, L, C. intros H. inv_matches;
    cbn [set_capture advance endIndex] in *.
  - repeat split; [lia | | lia].
    replace (S (S (endIndex x)) - 1) with (S (endIndex x)) by lia.
    assumption.
  - match goal with
    | HR : Matches _ (Plus _) _ ?y0 |- _ =>
        pose proof (Matches_mono HR) as Hmono; cbn [advance endIndex] in Hmono;
        replace (S (endIndex y0) - 1) with (endIndex y0) by lia;
        repeat split; [lia | assumption |];
        intros j Hj;
        destruct (@Matches_Rep_class false [CSpace] _ _ _ HR 1 None true
                    eq_refl j) as (c & Hc & Hcls); [cbn [advance endIndex]; lia|]
    end.
    exists c. split; [assumption|].
    unfold class_matches in Hcls. simpl in Hcls.
    rewrite orb_false_r in Hcls. exact Hcls.
Qed.

(** a match of the exception pattern starts with the first letter of
    [if], [guard] or [while] *)
Lemma openingBraceException_shape x y :
  Matches text openingBraceException x y ->
  exists c, char_at text (endIndex x) = Some c
            /\ is_space c = false /\ c <> chr "{".
Proof.
  unfold openingBraceException. cbn [Seqs Alts Word Lits str map
    list_ascii_of_string]. intros H.
  inv H.
  match goal with
  | HA : Matches _ (Alt _ _) _ _ |- _ => clear - HA; inv_matches
  end;
    (eexists; split; [eassumption|]; split; [reflexivity | discriminate]).
Qed.

(** an opening-brace match whose brace lies in an exception match starts
    in that exception match *)
Lemma header_covers em pm li1 li2 :
  exec text openingBraceException li1 = Some em ->
  exec text openingBracePattern li2 = Some pm ->
  index em <= lastIndex pm - 1 < lastIndex em ->
  index em <= index pm < lastIndex em.
Proof.
  intros He Hp Hin.
  apply exec_sound in He. destruct He as (_ & _ & He).
  apply exec_sound in Hp. destruct Hp as (_ & _ & Hp).
  apply openingBraceException_shape in He. destruct He as (c & Hc & Hsp & Hbr).
  apply openingBracePattern_shape in Hp. destruct Hp as (Hlen & Hlast & Hmid).
  unfold initial in *. cbn [endIndex] in *. fold (lastIndex pm) in *.
  split; [|lia].
  destruct (Nat.le_gt_cases (index em) (index pm)) as [Hle|Hgt]; [assumption|].
  exfalso.
  destruct (Nat.eq_dec (index em) (lastIndex pm - 1)) as [Heq|Hne].
  - rewrite Heq in Hc. congruence.
  - destruct (Hmid (index em)) as (c' & Hc' & Hsp'); [lia|]. congruence.
Qed.

End Shapes.

End Exceptions.

(** C7: a match of a pattern rule is suppressed exactly when its start
    offset [o] lies in some exception range under the half-open test
    [start <= o < end], and the raw errors of the rule are those of the
    matches that are not suppressed.  For the opening-brace rule no raw
    error has its brace inside an exception range (a multi-line
    [if]/[guard]/[while] header matched by the exception pattern): the three
    multi-line headers below yield no raw error, though the pattern alone
    matches in each; the single-line [if (x){], with no exception range,
    yields one. *)
Theorem exception_suppression :
  (forall o ranges,
     regexException o ranges = true
     <-> exists r, In r ranges /\ in_range_of o r)
  /\ (forall text rule ranges ms,
        processExceptions text (exceptions rule) = Ok ranges ->
        exec_each text (rePatterns rule) = Ok ms ->
        regexRule text rule
        = Ok (map (finding_of text rule)
                (filter (fun mr =>
                           negb (regexException (Z.of_nat (index mr)) ranges))
                        ms)))
  /\ (forall text,
        exists ranges findings,
          processExceptions text (exceptions openingBraceRule) = Ok ranges
          /\ regexRule text openingBraceRule = Ok findings
          /\ forall f r o,
               In f findings -> In r ranges -> last_offset f = Num o ->
               ~ in_range_of o r)
  /\ (regexRule multiline_if openingBraceRule = Ok []
      /\ regexRule multiline_guard openingBraceRule = Ok []
      /\ regexRule multiline_while openingBraceRule = Ok []
      /\ map raw_index
           (match regexRule multiline_if (without_exceptions openingBraceRule)
            with Ok l => l | _ => [] end) = [Num 10]
      /\ map raw_index
           (match regexRule multiline_guard
                    (without_exceptions openingBraceRule)
            with Ok l => l | _ => [] end) = [Num 14]
      /\ map raw_index
           (match regexRule multiline_while
                    (without_exceptions openingBraceRule)
            with Ok l => l | _ => [] end) = [Num 9])
  /\ processExceptions (str "if (x){") (exceptions openingBraceRule) = Ok []
  /\ regexRule (str "if (x){") openingBraceRule
     = Ok [mkRaw (str "){") (Num 5) warning (rule_message openingBraceRule)].
Proof.
  split; [exact Exceptions.regexException_iff|].
  split.
  { intros text rule ranges ms Hr Hm. unfold regexRule.
    rewrite Hr, Hm. cbn [bind]. rewrite Exceptions.flat_map_filter.
    reflexivity. }
  split.
  { intros text.
    destruct (@Exceptions.exec_each_total text [openingBraceException] eq_refl)
      as (ems & Hems).
    destruct (@Exceptions.exec_each_total text [openingBracePattern] eq_refl)
      as (ms & Hms).
    eexists. eexists. split; [|split].
    - unfold processExceptions, openingBraceRule. cbn [exceptions].
      rewrite Hems. reflexivity.
    - unfold regexRule, processExceptions, openingBraceRule at 1 2.
      cbn [exceptions rePatterns]. rewrite Hems, Hms. cbn [bind].
      rewrite Exceptions.flat_map_filter. reflexivity.
    - intros f r o Hf Hr Ho Hin.
      apply in_map_iff in Hf. destruct Hf as (pm & <- & Hpm).
      apply filter_In in Hpm. destruct Hpm as [Hpm Hkeep].
      apply in_map_iff in Hr. destruct Hr as (em & <- & Hem).
      apply Exceptions.exec_each_Forall in Hems, Hms.
      rewrite Forall_forall in Hems, Hms.
      destruct (Hems em Hem) as (re1 & li1 & [<-|[]] & He).
      destruct (Hms pm Hpm) as (re2 & li2 & [<-|[]] & Hp).
      pose proof (Exceptions.matched_length _ _ _ He) as Hle.
      pose proof (Exceptions.matched_length _ _ _ Hp) as Hlp.
      pose proof (@RegExpFacts.exec_lastIndex _ _ _ _ He) as [He1 _].
      pose proof (@RegExpFacts.exec_lastIndex _ _ _ _ Hp) as [Hp1 _].
      unfold last_offset, finding_of in Ho. cbn [raw_index raw_code number_add] in Ho.
      inversion Ho; subst o. clear Ho.
      unfold in_range_of in Hin. cbn [range_start range_end] in Hin.
      rewrite Hle, Hlp in Hin.
      destruct (@Exceptions.header_covers text em pm li1 li2 He Hp) as [H1 H2];
        [lia|].
      apply negb_true_iff in Hkeep.
      assert (Htrue : regexException (Z.of_nat (index pm))
                (map (fun mr =>
                        mkRange (Z.of_nat (index mr))
                          (Z.of_nat (index mr)
                           + Z.of_nat (length (matched text mr)))) ems) = true).
      { apply Exceptions.regexException_iff.
        eexists. split; [apply in_map; exact Hem|].
        unfold in_range_of. cbn [range_start range_end]. rewrite Hle. lia. }
      congruence. }
  split; [repeat split; vm_compute; reflexivity|].
  split; vm_compute; reflexivity.
Qed.

Lemma exception_suppression_witness :
  regexException 10
    [mkRange 0 12] = true
  /\ exists ranges findings,
       processExceptions multiline_if (exceptions openingBraceRule) = Ok ranges
       /\ regexRule multiline_if openingBraceRule = Ok findings
       /\ forall f r o,
            In f findings -> In r ranges -> last_offset f = Num o ->
            ~ in_range_of o r.
Proof.
  split.
  - apply (proj1 exception_suppression 10%Z [mkRange 0 12]).
    exists (mkRange 0 12). split; [left; reflexivity|].
    unfold in_range_of. simpl. lia.
  - exact (proj1 (proj2 (proj2 exception_suppression)) multiline_if).
Defined.

(* ------------------------------------------------------------------ *)
(** ** Cyclomatic complexity *)

Module Complexity.

Import RegExpFacts.

Lemma string_eqb_refl a : string_eqb a a = true.
Proof. induction a as [|x a IH]; simpl; [reflexivity|]. rewrite N.eqb_refl. exact IH. Qed.

Lemma string_eqb_sym a b : string_eqb a b = string_eqb b a.
Proof.
  revert b. induction a as [|x a IH]; intros [|y b]; simpl; try reflexivity.
  rewrite N.eqb_sym, IH. reflexivity.
Qed.

Lemma string_eqb_trans a b c :
  string_eqb a b = true -> string_eqb b c = true -> string_eqb a c = true.
Proof.
  intros H1 H2. apply Parameters.string_eqb_eq in H1, H2. subst.
  apply string_eqb_refl.
Qed.

Lemma increment_has_key key key' kc :
  has_key key (increment key' kc) = has_key key kc.
Proof.
  induction kc as [|[k n] rest IH]; simpl; [reflexivity|].
  destruct (string_eqb k key'); simpl; [reflexivity | rewrite IH; reflexivity].
Qed.

(** an increment adds one to the count of its key and leaves the others *)
Lemma lookup_increment key key' kc :
  lookup key (increment key' kc)
  = (lookup key kc
     + if (string_eqb key' key && has_key key kc)%bool then 1 else 0)%Z.
Proof.
  induction kc as [|[k n] rest IH]; simpl.
  - rewrite andb_false_r. reflexivity.
  - destruct (string_eqb k key') eqn:E1; simpl.
    + apply Parameters.string_eqb_eq in E1. subst k.
      destruct (string_eqb key' key) eqn:E2; simpl; lia.
    + destruct (string_eqb k key) eqn:E2; simpl.
      * assert (string_eqb key' key = false) as ->.
        { apply Parameters.string_eqb_eq in E2. subst k.
          rewrite string_eqb_sym. exact E1. }
        simpl. lia.
      * exact IH.
Qed.

Lemma lookup_fold funcBody key ms :
  forall kc,
    has_key key kc = true ->
    lookup key
      (fold_left (fun kc mr => increment (matched funcBody mr) kc) ms kc)
    = (lookup key kc
       + Z.of_nat (length (filter (fun mr => string_eqb (matched funcBody mr) key)
                             ms)))%Z.
Proof.
  induction ms as [|mr ms IH]; intros kc Hkey; simpl; [lia|].
  rewrite IH by (rewrite increment_has_key; exact Hkey).
  rewrite lookup_increment, Hkey, andb_true_r.
  destruct (string_eqb (matched funcBody mr) key); simpl length; lia.
Qed.

Lemma keyRegex_total funcBody :
  exec_all funcBody keyRegex = Ok (matches_of keyRegex funcBody).
Proof.
  unfold matches_of.
  destruct (@exec_all_total funcBody keyRegex eq_refl) as (ms & ->).
  reflexivity.
Qed.

(** the counts of the loop are the matches of each keyword *)
Lemma countKeywords_matches funcBody :
  exists kc,
    countKeywords funcBody = Ok kc
    /\ forall k, In k keywords -> count_of kc k = match_count k funcBody.
Proof.
  unfold countKeywords. rewrite keyRegex_total. cbn [bind].
  eexists. split; [reflexivity|].
  intros k Hk. unfold count_of, match_count.
  assert (Hinit : has_key (str k) keywordCount_init = true
                  /\ lookup (str k) keywordCount_init = 0%Z).
  { simpl in Hk.
    repeat (destruct Hk as [<-|Hk]; [split; reflexivity|]). contradiction. }
  destruct Hinit as [Hkey Hzero].
  rewrite lookup_fold by exact Hkey. rewrite Hzero. lia.
Qed.

(** *** What [keyRegex] matches at an offset *)

Lemma m_Lits_cons s c0 k x c :
  m s (Lits (c0 :: k)) x c
  = match_char s (N.eqb c0) x (fun y => m s (Lits k) y c).
Proof. destruct k; reflexivity. Qed.

(** a literal word is read when the input continues with it *)
Lemma m_Lits s k :
  forall x c,
    m s (Lits k) x c
    = if JSString.starts_with k (skipn (endIndex x) s)
      then c (mkState (endIndex x + length k) (captures x))
      else None.
Proof.
  induction k as [|c0 k IH]; intros x c.
  - destruct x as [e caps]. simpl. rewrite Nat.add_0_r. reflexivity.
  - rewrite m_Lits_cons. unfold match_char, char_at.
    destruct (skipn (endIndex x) s) as [|ch rest] eqn:E.
    + rewrite (Bodies.skipn_nil_nth _ _ E). reflexivity.
    + destruct (Bodies.skipn_cons_nth _ _ E) as [-> Hrest].
      cbn [JSString.starts_with].
      destruct (N.eqb c0 ch); [|reflexivity]. cbn [andb].
      rewrite IH. cbn [advance endIndex captures]. rewrite Hrest.
      cbn [length]. rewrite Nat.add_succ_r. reflexivity.
Qed.

Lemma m_Alts_Lits s x c k ks :
  m s (Alts (map Lits (k :: ks))) x c = first_alt s x c (k :: ks).
Proof.
  revert k. induction ks as [|k' ks IH]; intros k.
  - simpl. destruct (m s (Lits k) x c); reflexivity.
  - change (Alts (map Lits (k :: k' :: ks)))
      with (Alt (Lits k) (Alts (map Lits (k' :: ks)))).
    cbn [m first_alt]. rewrite IH. reflexivity.
Qed.

(** the words tried in turn, each followed by a word boundary *)
Lemma first_alt_find s x ks :
  first_alt s x
    (fun y => if at_word_boundary s (endIndex y)
              then Some (set_capture 1 (Some (endIndex x, endIndex y)) y)
              else None) ks
  = option_map
      (fun k => mkState (endIndex x + length k)
                  (set_nth 1 (Some (endIndex x, endIndex x + length k))
                     (captures x)))
      (find (fun k => (JSString.starts_with k (skipn (endIndex x) s)
                       && at_word_boundary s (endIndex x + length k))%bool)
            ks).
Proof.
  induction ks as [|k ks IH]; [reflexivity|].
  cbn [first_alt find]. rewrite m_Lits. cbn [endIndex captures].
  destruct (JSString.starts_with k (skipn (endIndex x) s)); cbn [andb];
    [|exact IH].
  destruct (at_word_boundary s (endIndex x + length k)); [reflexivity|exact IH].
Qed.

Lemma m_keyRegex s x :
  m s keyRegex x Some
  = option_map
      (fun k => mkState (endIndex x + length k)
                  (set_nth 1 (Some (endIndex x, endIndex x + length k))
                     (captures x)))
      (keyword_at s (endIndex x)).
Proof.
  unfold keyword_at.
  change (m s keyRegex x Some) with
    (if at_word_boundary s (endIndex x)
     then m s (Alts (map Lits (map str keywords))) x
            (fun y => if at_word_boundary s (endIndex y)
                      then Some (set_capture 1 (Some (endIndex x, endIndex y)) y)
                      else None)
     else None).
  destruct (at_word_boundary s (endIndex x)); [|reflexivity].
  change (map str keywords) with (str "if" :: tl (map str keywords)).
  rewrite m_Alts_Lits. apply first_alt_find.
Qed.

Lemma exec_from_keyRegex s fuel :
  forall i,
    exec_from s keyRegex fuel i
    = option_map
        (fun pk => mkResult (fst pk)
                     (mkState (fst pk + length (snd pk))
                        [None; Some (fst pk, fst pk + length (snd pk))]))
        (first_keyword s fuel i).
Proof.
  induction fuel as [|fuel IH]; intros i; [reflexivity|].
  cbn [exec_from first_keyword]. rewrite m_keyRegex.
  unfold initial. cbn [endIndex captures].
  destruct (keyword_at s i) as [k|]; [reflexivity|]. cbn [option_map].
  apply IH.
Qed.

Lemma first_keyword_None s fuel :
  forall i p,
    first_keyword s fuel i = None -> i <= p < i + fuel ->
    keyword_at s p = None.
Proof.
  induction fuel as [|fuel IH]; intros i p H Hp; [lia|].
  cbn [first_keyword] in H. destruct (keyword_at s i) as [k|] eqn:E;
    [discriminate|].
  destruct (Nat.eq_dec p i) as [->|Hne]; [exact E|].
  apply (IH (S i)); [exact H | lia].
Qed.

Lemma first_keyword_Some s fuel :
  forall i p k,
    first_keyword s fuel i = Some (p, k) ->
    i <= p < i + fuel /\ keyword_at s p = Some k
    /\ forall q, i <= q < p -> keyword_at s q = None.
Proof.
  induction fuel as [|fuel IH]; intros i p k H; [discriminate|].
  cbn [first_keyword] in H. destruct (keyword_at s i) as [k'|] eqn:E.
  - inv H. repeat split; [lia | lia | exact E | intros q Hq; lia].
  - apply IH in H. destruct H as (Hp & Hk & Hbefore).
    repeat split; [lia | lia | exact Hk |].
    intros q Hq. destruct (Nat.eq_dec q i) as [->|Hne]; [exact E|].
    apply Hbefore. lia.
Qed.

(** *** Keywords are whole words *)

Lemma starts_with_nth k :
  forall l j c,
    JSString.starts_with k l = true -> nth_error k j = Some c ->
    nth_error l j = Some c.
Proof.
  induction k as [|c0 k IH]; intros [|c1 l] j c H Hj;
    try (destruct j; discriminate).
  simpl in H. apply andb_true_iff in H. destruct H as [H1 H2].
  apply N.eqb_eq in H1. subst c1.
  destruct j as [|j]; [exact Hj|]. simpl in *. eapply IH; eauto.
Qed.

Lemma starts_with_length k :
  forall l, JSString.starts_with k l = true -> length k <= length l.
Proof.
  induction k as [|c0 k IH]; intros [|c1 l] H; simpl in *; try lia;
    try discriminate.
  apply andb_true_iff in H. destruct H as [_ H]. apply IH in H. lia.
Qed.

Lemma starts_with_firstn k :
  forall l, JSString.starts_with k l = true -> firstn (length k) l = k.
Proof.
  induction k as [|c0 k IH]; intros [|c1 l] H; simpl in *; try reflexivity;
    try discriminate.
  apply andb_true_iff in H. destruct H as [H1 H2].
  apply N.eqb_eq in H1. subst c1. rewrite (IH _ H2). reflexivity.
Qed.

Lemma nth_error_skipn {A} (l : list A) p j :
  nth_error (skipn p l) j = nth_error l (p + j).
Proof.
  revert l. induction p as [|p IH]; intros [|a l]; simpl; auto.
  destruct j; reflexivity.
Qed.

(** the characters of a word read at [p] are word characters of [s] *)
Lemma word_inside s k p j :
  JSString.starts_with k (skipn p s) = true ->
  forallb is_word k = true ->
  j < length k ->
  word_at s (p + j) = true.
Proof.
  intros Hstart Hword Hj.
  destruct (nth_error k j) as [c|] eqn:E;
    [|apply nth_error_None in E; lia].
  pose proof (@starts_with_nth k _ j c Hstart E) as Hn.
  rewrite nth_error_skipn in Hn.
  unfold word_at, char_at. rewrite Hn.
  rewrite forallb_forall in Hword. apply Hword.
  eapply nth_error_In; eauto.
Qed.

Lemma keywords_are_words k :
  In k (map str keywords) -> 0 < length k /\ forallb is_word k = true.
Proof.
  intros Hin.
  assert (Hall : forallb a_word (map str keywords) = true)
    by (vm_compute; reflexivity).
  rewrite forallb_forall in Hall. specialize (Hall k Hin).
  unfold a_word in Hall. apply andb_true_iff in Hall. destruct Hall as [H1 H2].
  apply negb_true_iff, Nat.eqb_neq in H1. split; [lia | exact H2].
Qed.

Lemma keyword_at_Some s p k :
  keyword_at s p = Some k ->
  In k (map str keywords)
  /\ at_word_boundary s p = true
  /\ JSString.starts_with k (skipn p s) = true
  /\ at_word_boundary s (p + length k) = true.
Proof.
  unfold keyword_at. destruct (at_word_boundary s p); [|discriminate].
  intros H. apply find_some in H. destruct H as [Hin H].
  apply andb_true_iff in H. tauto.
Qed.

(** a keyword read at [p] has no word character before or after it, and
    lies in the input *)
Lemma keyword_at_word s p k :
  keyword_at s p = Some k ->
  0 < length k /\ p + length k <= length s
  /\ forallb is_word k = true
  /\ JSString.starts_with k (skipn p s) = true
  /\ word_before s p = false
  /\ word_at s (p + length k) = false.
Proof.
  intros H. apply keyword_at_Some in H. destruct H as (Hin & Hb1 & Hstart & Hb2).
  destruct (@keywords_are_words k Hin) as [Hlen Hword].
  pose proof (@starts_with_length k _ Hstart) as Hfit.
  rewrite length_skipn in Hfit.
  pose proof (@word_inside s k p 0 Hstart Hword Hlen) as Hfirst.
  pose proof (@word_inside s k p (length k - 1) Hstart Hword) as Hlast.
  rewrite Nat.add_0_r in Hfirst.
  unfold at_word_boundary in Hb1, Hb2. fold (word_before s p) in Hb1.
  rewrite Hfirst in Hb1.
  destruct (p + length k) as [|e] eqn:Ee; [lia|].
  replace (p + (length k - 1)) with e in Hlast by lia.
  rewrite Hlast in Hb2 by lia.
  repeat split; try assumption; try lia.
  - destruct (word_before s p); [discriminate | reflexivity].
  - destruct (word_at s (S e)); [discriminate | reflexivity].
Qed.

(** no keyword starts inside a keyword *)
Lemma keyword_inside s p k q :
  keyword_at s p = Some k -> p < q < p + length k -> keyword_at s q = None.
Proof.
  intros H Hq. apply keyword_at_word in H.
  destruct H as (_ & _ & Hword & Hstart & _ & _).
  unfold keyword_at.
  assert (Hb : at_word_boundary s q = false).
  { unfold at_word_boundary. destruct q as [|q']; [lia|].
    replace q' with (p + (q' - p)) by lia.
    rewrite (@word_inside s k p (q' - p) Hstart Hword) by lia.
    replace (S (p + (q' - p))) with (p + (S q' - p)) by lia.
    rewrite (@word_inside s k p (S q' - p) Hstart Hword) by lia.
    reflexivity. }
  rewrite Hb. reflexivity.
Qed.

(** *** The matches of the loop are the whole-word occurrences *)

Lemma flat_map_nil {A B} (f : A -> list B) l :
  (forall a, In a l -> f a = []) -> flat_map f l = [].
Proof.
  induction l as [|a l IH]; intros H; simpl; [reflexivity|].
  rewrite (H a) by (left; reflexivity). apply IH.
  intros; apply H; right; assumption.
Qed.

Lemma matched_keyword s p k :
  keyword_at s p = Some k ->
  matched s (mkResult p (mkState (p + length k)
                           [None; Some (p, p + length k)])) = k.
Proof.
  intros H. apply keyword_at_word in H.
  destruct H as (_ & _ & _ & Hstart & _ & _).
  unfold matched, lastIndex, JSString.slice. cbn [final index endIndex].
  replace (p + length k - p) with (length k) by lia.
  apply starts_with_firstn. exact Hstart.
Qed.

(** the loop over [keyRegex] collects the keywords of the input, offset by
    offset *)
Lemma exec_loop_keyRegex s fuel :
  forall li,
    li <= length s -> length s - li < fuel ->
    exists ms,
      exec_loop s keyRegex fuel li = Ok ms
      /\ map (fun mr => (index mr, matched s mr)) ms
         = flat_map (keyword_here s) (seq li (S (length s - li))).
Proof.
  induction fuel as [|fuel IH]; intros li Hli Hfuel; [lia|].
  cbn [exec_loop]. unfold exec.
  destruct (Nat.ltb (length s) li) eqn:E; [apply Nat.ltb_lt in E; lia|].
  rewrite exec_from_keyRegex.
  destruct (first_keyword s (S (length s - li)) li) as [[p k]|] eqn:Hfirst.
  - apply first_keyword_Some in Hfirst.
    destruct Hfirst as (Hp & Hk & Hbefore).
    pose proof (keyword_at_word _ _ Hk) as (Hlen & Hfit & _).
    cbn [option_map fst snd]. unfold lastIndex at 1. cbn [final endIndex].
    destruct (IH (p + length k)) as (ms & Hms & Hmap); [lia | lia |].
    rewrite Hms. cbn [bind]. eexists. split; [reflexivity|].
    cbn [map index]. rewrite (matched_keyword _ _ Hk), Hmap.
    replace (S (length s - li))
      with ((p - li) + (1 + ((length k - 1) + S (length s - (p + length k)))))
      by lia.
    rewrite !seq_app, !flat_map_app.
    replace (li + (p - li)) with p by lia.
    replace (p + 1 + (length k - 1)) with (p + length k) by lia.
    rewrite (@flat_map_nil _ _ (keyword_here s) (seq li (p - li))).
    2:{ intros q Hq. apply in_seq in Hq. unfold keyword_here.
        rewrite Hbefore by lia. reflexivity. }
    rewrite (@flat_map_nil _ _ (keyword_here s) (seq (p + 1) (length k - 1))).
    2:{ intros q Hq. apply in_seq in Hq. unfold keyword_here.
        rewrite (@keyword_inside s p k q Hk) by lia. reflexivity. }
    change (flat_map (keyword_here s) (seq p 1)) with (keyword_here s p ++ []).
    replace (keyword_here s p) with [(p, k)]
      by (unfold keyword_here; rewrite Hk; reflexivity).
    reflexivity.
  - cbn [option_map]. eexists. split; [reflexivity|].
    cbn [map]. symmetry. apply flat_map_nil.
    intros q Hq. apply in_seq in Hq. unfold keyword_here.
    rewrite (@first_keyword_None s _ li q Hfirst) by lia. reflexivity.
Qed.

(** two whole words read at the same offset are the same word *)
Lemma whole_word_unique s p k k' :
  JSString.starts_with k (skipn p s) = true ->
  JSString.starts_with k' (skipn p s) = true ->
  forallb is_word k = true -> forallb is_word k' = true ->
  word_at s (p + length k) = false ->
  word_at s (p + length k') = false ->
  k = k'.
Proof.
  intros Hs Hs' Hw Hw' He He'.
  destruct (Nat.lt_trichotomy (length k) (length k')) as [Hlt|[Heq|Hgt]].
  - rewrite (@word_inside s k' p (length k) Hs' Hw' Hlt) in He. discriminate.
  - rewrite <- (starts_with_firstn _ _ Hs), <- (starts_with_firstn _ _ Hs').
    rewrite Heq. reflexivity.
  - rewrite (@word_inside s k p (length k') Hs Hw Hgt) in He'. discriminate.
Qed.

(** the keyword at an offset is [k0] exactly when [k0] occurs there as a
    whole word *)
Lemma keyword_at_occurs s p k0 :
  In k0 (map str keywords) ->
  match keyword_at s p with
  | Some k => string_eqb k k0
  | None => false
  end = occurs_at s k0 p.
Proof.
  intros Hin. destruct (@keywords_are_words k0 Hin) as [Hlen0 Hword0].
  destruct (occurs_at s k0 p) eqn:Hocc.
  - unfold occurs_at in Hocc.
    apply andb_true_iff in Hocc. destruct Hocc as [Hocc Hafter].
    apply andb_true_iff in Hocc. destruct Hocc as [Hbefore Hstart].
    apply negb_true_iff in Hbefore, Hafter.
    destruct (keyword_at s p) as [k|] eqn:Hk.
    + apply keyword_at_word in Hk.
      destruct Hk as (_ & _ & Hword & Hstartk & _ & Hafterk).
      rewrite (@whole_word_unique s p k k0) by assumption.
      apply string_eqb_refl.
    + exfalso. unfold keyword_at in Hk.
      assert (Hb : at_word_boundary s p = true).
      { unfold at_word_boundary. fold (word_before s p). rewrite Hbefore.
        pose proof (@word_inside s k0 p 0 Hstart Hword0 Hlen0) as Hf.
        rewrite Nat.add_0_r in Hf. rewrite Hf. reflexivity. }
      rewrite Hb in Hk.
      apply (find_none _ _ Hk) in Hin. rewrite Hstart in Hin. cbn [andb] in Hin.
      unfold at_word_boundary in Hin.
      destruct (p + length k0) as [|e] eqn:Ee; [lia|].
      pose proof (@word_inside s k0 p (length k0 - 1) Hstart Hword0) as Hl.
      replace (p + (length k0 - 1)) with e in Hl by lia.
      rewrite Hl, Hafter in Hin by lia. discriminate.
  - destruct (keyword_at s p) as [k|] eqn:Hk; [|reflexivity].
    destruct (string_eqb k k0) eqn:Heq; [|reflexivity].
    apply Parameters.string_eqb_eq in Heq. subst k0.
    apply keyword_at_word in Hk.
    destruct Hk as (_ & _ & _ & Hstart & Hbefore & Hafter).
    unfold occurs_at in Hocc. rewrite Hbefore, Hstart, Hafter in Hocc.
    discriminate.
Qed.

Lemma filter_keyword_here s k0 l :
  In k0 (map str keywords) ->
  length (filter (fun pk => string_eqb (snd pk) k0)
            (flat_map (keyword_here s) l))
  = length (filter (occurs_at s k0) l).
Proof.
  intros Hin. induction l as [|p l IH]; [reflexivity|].
  cbn [flat_map]. rewrite filter_app, length_app, IH. cbn [filter].
  rewrite <- (@keyword_at_occurs s p k0 Hin). unfold keyword_here.
  destruct (keyword_at s p) as [k|]; [|reflexivity].
  cbn [filter snd]. destruct (string_eqb k k0); reflexivity.
Qed.

Lemma filter_map_length {A B} (f : A -> B) (p : B -> bool) l :
  length (filter (fun a => p (f a)) l) = length (filter p (map f l)).
Proof.
  induction l as [|a l IH]; [reflexivity|]. simpl.
  destruct (p (f a)); simpl; rewrite IH; reflexivity.
Qed.

(** the matches of [keyRegex] that are a keyword are its occurrences as a
    whole word *)
Lemma match_count_occurrences k funcBody :
  In k keywords -> match_count k funcBody = occurrences k funcBody.
Proof.
  intros Hk. assert (Hin : In (str k) (map str keywords)) by (apply in_map; exact Hk).
  unfold match_count, occurrences, matches_of, exec_all.
  destruct (@exec_loop_keyRegex funcBody (length funcBody + 2) 0)
    as (ms & -> & Hmap); [lia | lia |].
  f_equal.
  rewrite (@filter_map_length _ _ (fun mr => (index mr, matched funcBody mr))
             (fun pk => string_eqb (snd pk) (str k))).
  rewrite Hmap, (@filter_keyword_here funcBody (str k) _ Hin).
  rewrite Nat.sub_0_r.
  replace (S (length funcBody)) with (length funcBody + 1) by lia.
  rewrite seq_app, filter_app, length_app. cbn [seq filter Nat.add].
  assert (Hend : occurs_at funcBody (str k) (length funcBody) = false).
  { unfold occurs_at. rewrite skipn_all.
    destruct (@keywords_are_words _ Hin) as [Hlen _].
    destruct (str k); [simpl in Hlen; lia|].
    cbn [JSString.starts_with]. rewrite andb_false_r. reflexivity. }
  rewrite Hend. cbn [length]. lia.
Qed.

(** the counts of the loop are the occurrences of each keyword *)
Lemma countKeywords_spec funcBody :
  exists kc,
    countKeywords funcBody = Ok kc
    /\ forall k, In k keywords -> count_of kc k = occurrences k funcBody.
Proof.
  destruct (countKeywords_matches funcBody) as (kc & Hkc & Hcount).
  exists kc. split; [exact Hkc|].
  intros k Hk. rewrite (Hcount k Hk). apply match_count_occurrences. exact Hk.
Qed.

Lemma complexityOf_spec funcBody kc :
  (forall k, In k keywords -> count_of kc k = occurrences k funcBody) ->
  complexityOf kc = spec_complexity funcBody.
Proof.
  intros H. unfold complexityOf, spec_complexity.
  rewrite !H by (simpl; tauto).
  rewrite Z.gtb_ltb.
  destruct (0 <? occurrences "switch" funcBody)%Z; simpl; [|lia].
  rewrite Z.gtb_ltb.
  destruct (0 <? occurrences "case" funcBody
                 - occurrences "fallthrough" funcBody)%Z; lia.
Qed.

Lemma cyclomaticComplexityError_spec f :
  cyclomaticComplexityError f (spec_complexity (code f))
  = spec_complexityError f.
Proof.
  unfold cyclomaticComplexityError, spec_complexityError, spec_severity,
    complexityMessage.
  rewrite !Z.gtb_ltb.
  destruct (10 <? spec_complexity (code f))%Z eqn:E10;
    destruct (20 <? spec_complexity (code f))%Z eqn:E20; try reflexivity.
  apply Z.ltb_lt in E20. apply Z.ltb_ge in E10. lia.
Qed.

Lemma cyclomaticComplexityRule_spec text functions :
  cyclomaticComplexityRule text functions
  = Ok (flat_map spec_complexityError functions).
Proof.
  induction functions as [|f rest IH]; [reflexivity|].
  cbn [cyclomaticComplexityRule flat_map].
  destruct (countKeywords_spec (code f)) as (kc & -> & Hkc).
  cbn [bind]. rewrite IH. cbn [bind].
  rewrite (@complexityOf_spec (code f) kc Hkc), cyclomaticComplexityError_spec.
  reflexivity.
Qed.

End Complexity.

(** C3: for every list of extracted functions the complexity rule returns,
    function by function, the finding of the score of its code (which
    starts with the function's own [func]): the occurrences, as whole
    words, of [if], [func], [while], [for] and [guard], plus the
    occurrences of [case] minus those of [fallthrough] when [switch] occurs
    and that difference is positive; a warning above 10, an error above 20,
    nothing up to 10.  A function whose code holds 11 such keywords and no
    [switch] yields a warning, 21 an error, 10 no finding. *)
Theorem complexity_score_and_thresholds :
  (forall text functions,
     cyclomaticComplexityRule text functions
     = Ok (flat_map spec_complexityError functions))
  /\ (forall score,
        spec_severity score
        = if (20 <? score)%Z then Some error
          else if (10 <? score)%Z then Some warning else None)
  /\ (forall text f,
        occurrences "switch" (code f) = 0%Z ->
        let n := (occurrences "if" (code f) + occurrences "func" (code f)
                  + occurrences "while" (code f) + occurrences "for" (code f)
                  + occurrences "guard" (code f))%Z in
        (n = 11%Z ->
         cyclomaticComplexityRule text [f]
         = Ok [mkRaw (code f) (fnIndex f) warning (complexityMessage f 11)])
        /\ (n = 21%Z ->
            cyclomaticComplexityRule text [f]
            = Ok [mkRaw (code f) (fnIndex f) error (complexityMessage f 21)])
        /\ (n = 10%Z -> cyclomaticComplexityRule text [f] = Ok []))
  /\ (spec_complexity (function_with_ifs 10) = 11%Z
      /\ complexitySeverities (function_with_ifs 10) = Ok [warning])
  /\ (spec_complexity (function_with_ifs 20) = 21%Z
      /\ complexitySeverities (function_with_ifs 20) = Ok [error])
  /\ (spec_complexity (function_with_ifs 9) = 10%Z
      /\ complexitySeverities (function_with_ifs 9) = Ok []).
Proof.
  split; [exact Complexity.cyclomaticComplexityRule_spec|].
  split; [reflexivity|].
  split.
  { intros text f Hswitch n.
    assert (Hscore : spec_complexity (code f) = n).
    { unfold spec_complexity. rewrite Hswitch. simpl. fold n. lia. }
    rewrite Complexity.cyclomaticComplexityRule_spec.
    cbn [flat_map]. rewrite app_nil_r. unfold spec_complexityError.
    rewrite Hscore.
    split; [|split]; intros ->; reflexivity. }
  repeat split; vm_compute; reflexivity.
Qed.

(** the instances of the general part for the three functions above *)
Lemma complexity_score_and_thresholds_witness :
  cyclomaticComplexityRule []
    [mkBody (function_with_ifs 10) (VStr (str "f")) 0 (str "func") 2 None
       VUndefined]
  = Ok [mkRaw (function_with_ifs 10) (Num 0) warning
          (complexityMessage
             (mkBody (function_with_ifs 10) (VStr (str "f")) 0 (str "func") 2
                None VUndefined) 11)].
Proof.
  apply (proj1 (proj2 (proj2 complexity_score_and_thresholds)) []
           (mkBody (function_with_ifs 10) (VStr (str "f")) 0 (str "func") 2
              None VUndefined)).
  - vm_compute. reflexivity.
  - vm_compute. reflexivity.
Defined.

(* ------------------------------------------------------------------ *)
(** ** No exception and no endless loop *)

Module Totality.

Import RegExpFacts.

(** when [paramRegex] matches, [match[1]] is a string *)
Lemma paramRegex_group code li mr :
  exec code paramRegex li = Some mr ->
  exists functionInfo, group code mr 1 = VStr functionInfo.
Proof.
  intros He.
  pose proof (@exec_captures_length code _ _ _ He) as Hlen.
  apply exec_sound in He. destruct He as (_ & _ & H).
  destruct mr as [i y]. cbn [final index] in *.
  change (slots paramRegex) with 2 in Hlen.
  remember (initial paramRegex i) as x0 eqn:Hx0. clear Hx0.
  unfold paramRegex, L in H.
  cbn [Seqs Word Lits str map list_ascii_of_string] in H.
  inv_matches. unfold group. cbn [final advance set_capture captures] in *.
  rewrite length_set_nth in Hlen.
  rewrite nth_set_nth by lia. eauto.
Qed.

Lemma getFunctionParameters_total functionObj :
  exists f, getFunctionParameters functionObj = Ok f.
Proof.
  unfold getFunctionParameters.
  destruct (test (code functionObj) noParamRegex); [eauto|].
  destruct (exec (code functionObj) paramRegex 0) as [mr|] eqn:He; [|eauto].
  destruct (paramRegex_group _ _ He) as (functionInfo & ->).
  destruct (countParameters functionInfo). eauto.
Qed.

Lemma mapM_total {A B} (f : A -> outcome B) l :
  (forall a, exists b, f a = Ok b) -> exists bs, mapM f l = Ok bs.
Proof.
  intros Hf. induction l as [|a l (bs & IH)]; simpl; [eauto|].
  destruct (Hf a) as (b & ->). rewrite IH. simpl. eauto.
Qed.

Lemma concatM_total {A B} (f : A -> outcome (list B)) l :
  (forall a, In a l -> exists bs, f a = Ok bs) ->
  exists bs, concatM f l = Ok bs.
Proof.
  induction l as [|a l IH]; intros Hf; simpl; [eauto|].
  destruct (Hf a) as (b & ->); [left; reflexivity|].
  destruct IH as (bs & ->); [intros; apply Hf; right; assumption|].
  simpl. eauto.
Qed.

Lemma foldM_total {A B} (f : A -> B -> outcome A) l :
  (forall a b, In b l -> exists a', f a b = Ok a') ->
  forall a, exists r, foldM f l a = Ok r.
Proof.
  induction l as [|b l IH]; intros Hf a; simpl; [eauto|].
  destruct (Hf a b) as (a' & ->); [left; reflexivity|]. simpl.
  apply IH. intros; apply Hf; right; assumption.
Qed.

Lemma getVariablesFromTuples_total tuple tupleIndex staticImmutable :
  exists vs, getVariablesFromTuples tuple tupleIndex staticImmutable = Ok vs.
Proof.
  unfold getVariablesFromTuples.
  destruct (@exec_all_total (ToString tuple) varRegex eq_refl) as (ms & ->).
  simpl. eauto.
Qed.

Lemma slice_nonempty text a b :
  a < b -> b <= length text -> exists c s, JSString.slice text a b = c :: s.
Proof.
  intros Hab Hb. unfold JSString.slice.
  destruct (firstn (b - a) (skipn a text)) as [|c s] eqn:E; [|eauto].
  apply (f_equal (@length _)) in E.
  rewrite length_firstn, length_skipn in E. simpl in E. lia.
Qed.

(** when [variableRegex] matches, [matchText] is a string *)
Lemma variableRegex_matchText text li mr :
  exec text variableRegex li = Some mr ->
  exists matchText,
    (if truthy (group text mr 4) then group text mr 4 else group text mr 3)
    = VStr matchText.
Proof.
  intros He.
  pose proof (@exec_captures_length text _ _ _ He) as Hlen.
  pose proof (@exec_lastIndex text _ _ _ He) as [_ Hlast].
  apply exec_sound in He. destruct He as (_ & _ & H).
  destruct mr as [i y]. unfold lastIndex in Hlast. cbn [final index] in *.
  change (slots variableRegex) with 5 in Hlen.
  remember (initial variableRegex i) as x0 eqn:Hx0. clear Hx0.
  unfold variableRegex, L in H.
  cbn [Seqs Word Lits str map list_ascii_of_string] in H.
  repeat match goal with
         | HS : Matches _ (Seq _ _) _ _ |- _ => inv HS
         end.
  match goal with
  | HA : Matches _ (Alt (Grp 3 _) _) _ _ |- _ => inv HA
  end.
  - (* a single name: group 3 is set *)
    match goal with
    | HG : Matches _ (Grp 3 _) _ _ |- _ => inv HG
    end.
    cbn [set_capture captures] in *.
    rewrite length_set_nth in Hlen.
    match goal with
    | |- exists _, (if truthy ?g4 then _ else ?g3) = _ =>
        assert (Hg3 : exists s, g3 = VStr s)
          by (unfold group; cbn [final set_capture captures];
              rewrite nth_set_nth by lia; eauto);
        destruct Hg3 as (s3 & ->);
        destruct g4 as [| |[|c s]]; simpl; eauto
    end.
  - (* a tuple: group 4 is set and is not empty *)
    repeat match goal with
           | HS : Matches _ (Seq _ _) _ _ |- _ => inv HS
           | HL : Matches _ (Lit _) _ _ |- _ => inv HL
           end.
    match goal with
    | HG : Matches _ (Grp 4 _) _ _ |- _ => inv HG
    end.
    cbn [advance set_capture captures endIndex] in *.
    rewrite length_set_nth in Hlen.
    match goal with
    | HR : Matches _ (Plus _) (advance _) _ |- _ =>
        pose proof (@Matches_progress _ _ _ _ HR eq_refl) as Hprog
    end.
    cbn [advance endIndex] in Hprog.
    unfold group. cbn [final advance set_capture captures].
    rewrite nth_set_nth by lia.
    match goal with
    | |- context [JSString.slice text ?a ?b] =>
        destruct (@slice_nonempty text a b) as (c & s & ->); [lia | lia |]
    end.
    simpl. eauto.
Qed.

Lemma declaredVariables_total text li mr :
  exec text variableRegex li = Some mr ->
  exists vs, declaredVariables text mr = Ok vs.
Proof.
  intros He. unfold declaredVariables.
  destruct (variableRegex_matchText _ _ He) as (matchText & ->).
  destruct (string_eqb (JSString.charAt matchText 0) (str "_"));
    destruct (truthy (group text mr 4));
    try apply getVariablesFromTuples_total; eauto.
Qed.

Lemma variableNameRule_total text functions :
  exists errs, variableNameRule text functions = Ok errs.
Proof.
  unfold variableNameRule.
  destruct (@exec_all_total text variableRegex eq_refl) as (ms & Hms).
  rewrite Hms. cbn [bind].
  destruct (@concatM_total _ _ (declaredVariables text) ms) as (declared & ->).
  { apply exec_all_Forall in Hms. rewrite Forall_forall in Hms.
    intros mr Hin. destruct (Hms mr Hin) as (li & He).
    eapply declaredVariables_total; eauto. }
  cbn [bind].
  destruct (@concatM_total _ _ parameterVariables functions) as (ps & ->).
  { intros f _. apply getVariablesFromTuples_total. }
  cbn [bind]. eauto.
Qed.

Lemma typeNameRule_total text types :
  exists errs, typeNameRule text types = Ok errs.
Proof.
  unfold typeNameRule.
  destruct (@exec_all_total text typealiasRegex eq_refl) as (ms & ->).
  cbn [bind]. eauto.
Qed.

Lemma regexRule_total text rule :
  In rule allRegexRules -> exists errs, regexRule text rule = Ok errs.
Proof.
  intros Hin.
  assert (Hall : forallb consuming allRegexRules = true) by (vm_compute; reflexivity).
  rewrite forallb_forall in Hall. specialize (Hall rule Hin).
  unfold consuming in Hall. apply andb_true_iff in Hall.
  destruct Hall as [Hp He].
  unfold regexRule, processExceptions.
  destruct (exceptions rule) as [es|].
  - destruct (Exceptions.exec_each_total text es He) as (ems & ->). cbn [bind].
    destruct (Exceptions.exec_each_total text _ Hp) as (ms & ->). cbn [bind].
    eauto.
  - cbn [bind].
    destruct (Exceptions.exec_each_total text _ Hp) as (ms & ->). cbn [bind].
    eauto.
Qed.

Lemma extractBodies_total text type :
  exists bodies, extractBodies text type = Ok bodies.
Proof.
  unfold extractBodies.
  destruct (@exec_all_total text (searchRegex type)
              (Bodies.searchRegex_not_nullable type)) as (bodyDecs & ->).
  cbn [bind].
  destruct (Bodies.captureBodies_spec text type bodyDecs) as (bodies & -> & _).
  eauto.
Qed.

Lemma extractTypes_total text : exists types, extractTypes text = Ok types.
Proof.
  unfold extractTypes.
  destruct (extractBodies_total text (str "enum")) as (enums & ->).
  destruct (extractBodies_total text (str "struct")) as (structs & ->).
  destruct (extractBodies_total text (str "class")) as (classes & ->).
  cbn [bind]. eauto.
Qed.

Section Lint.
Variables Options Editor : Type.

Lemma functionRule_total g text structures (opts : Options) (cm : Editor) rule :
  In rule (allFunctionRules Options Editor) ->
  exists results, rule g text structures opts cm = Ok results.
Proof.
  unfold allFunctionRules, declared2, declared2_pure, declared1_global.
  intros [<-|[<-|[<-|[<-|[<-|[<-|[]]]]]]]; eauto.
  - rewrite Complexity.cyclomaticComplexityRule_spec. eauto.
  - apply variableNameRule_total.
Qed.

Lemma typeRule_total g text structures (opts : Options) (cm : Editor) rule :
  In rule (allTypeRules Options Editor) ->
  exists results, rule g text structures opts cm = Ok results.
Proof.
  unfold allTypeRules, declared2, declared2_pure.
  intros [<-|[<-|[<-|[]]]]; eauto.
  apply typeNameRule_total.
Qed.

(** a fold of [applyRule] that ends keeps the errors found so far and adds
    the processed errors of every rule *)
Lemma foldM_applyRule g text structures (opts : Options) (cm : Editor) rules :
  forall foundErrors res,
    foldM (applyRuleBuilder g text structures opts cm) rules foundErrors
    = Ok res ->
    exists added,
      res = foundErrors ++ added
      /\ forall rule results,
           In rule rules ->
           rule g text structures opts cm = Ok results ->
           incl (processRawErrors g results) added.
Proof.
  induction rules as [|rule rules IH]; intros foundErrors res H; simpl in H.
  - inv H. exists []. rewrite app_nil_r. split; [reflexivity|].
    intros rule results [].
  - unfold applyRuleBuilder at 1 in H.
    destruct (rule g text structures opts cm) as [results| |] eqn:Hr;
      try discriminate.
    cbn [bind] in H. apply IH in H. destruct H as (added & -> & Hadded).
    exists (processRawErrors g results ++ added).
    rewrite app_assoc. split; [reflexivity|].
    intros rule' results' [<-|Hin] Hr'.
    + rewrite Hr in Hr'. inv Hr'. apply incl_appl, incl_refl.
    + apply incl_appr. eapply Hadded; eauto.
Qed.

(** [swiftLint] returns, and what it returns holds the processed errors of
    every function-based rule *)
Lemma swiftLint_spec g0 text (opts : Options) (cm : Editor) :
  exists allFunctions ds,
    swiftLint g0 text opts cm = Ok ds
    /\ forall rule results,
         In rule (allFunctionRules Options Editor) ->
         rule (obtainLineNumbers g0 text) text allFunctions opts cm
         = Ok results ->
         incl (processRawErrors (obtainLineNumbers g0 text) results) ds.
Proof.
  unfold swiftLint, extractFunctions.
  destruct (extractBodies_total text (str "func")) as (fs & ->). cbn [bind].
  destruct (@mapM_total _ _ getFunctionParameters fs getFunctionParameters_total)
    as (allFunctions & ->).
  cbn [bind].
  destruct (extractTypes_total text) as (allTypes & ->). cbn [bind].
  set (g := obtainLineNumbers g0 text).
  destruct (@foldM_total _ _ (applyRegexRule g text) allRegexRules) with (a := @nil LintError)
    as (e1 & He1).
  { intros a rule Hin. unfold applyRegexRule.
    destruct (@regexRule_total text rule Hin) as (errs & ->). cbn [bind]. eauto. }
  rewrite He1. cbn [bind].
  destruct (@foldM_total _ _ (applyRuleBuilder g text allFunctions opts cm)
              (allFunctionRules Options Editor)) with (a := e1) as (e2 & He2).
  { intros a rule Hin. unfold applyRuleBuilder.
    destruct (@functionRule_total g text allFunctions opts cm rule Hin)
      as (results & ->).
    cbn [bind]. eauto. }
  rewrite He2. cbn [bind].
  destruct (@foldM_total _ _ (applyRuleBuilder g text allTypes opts cm)
              (allTypeRules Options Editor)) with (a := e2) as (e3 & He3).
  { intros a rule Hin. unfold applyRuleBuilder.
    destruct (@typeRule_total g text allTypes opts cm rule Hin) as (results & ->).
    cbn [bind]. eauto. }
  rewrite He3. cbn [bind].
  exists allFunctions, e3. split; [reflexivity|].
  intros rule results Hin Hr.
  apply foldM_applyRule in He2. destruct He2 as (a2 & -> & Ha2).
  apply foldM_applyRule in He3. destruct He3 as (a3 & -> & _).
  apply incl_appl, incl_appr. eapply Ha2; eauto.
Qed.

End Lint.

End Totality.

(* ------------------------------------------------------------------ *)
(** ** The main linting function *)

Lemma processRawErrors_app g raws1 raws2 :
  processRawErrors g (raws1 ++ raws2)
  = processRawErrors g raws1 ++ processRawErrors g raws2.
Proof.
  induction raws1 as [|r raws1 IH]; simpl; [reflexivity|].
  rewrite IH, app_assoc. reflexivity.
Qed.

Module Handlers.

Section Run.
Variables Options Editor : Type.





End Run.

End Handlers.




(** C10: the errors [swiftLint] returns depend on the text only: any two
    options values (and any two editors and any two contents of the globals
    before the call) give the same result. *)
Theorem options_do_not_matter (Options Editor : Type) (text : jsstring)
  (g1 g2 : Globals) (opts1 opts2 : Options) (cm1 cm2 : Editor) :
  swiftLint g1 text opts1 cm1 = swiftLint g2 text opts2 cm2.
Proof.
  unfold swiftLint.
  (* [obtainLineNumbers] overwrites both globals *)
  change (obtainLineNumbers g2 text) with (obtainLineNumbers g1 text).
  (* every rule of the two lists is declared without [opts] and [cm] *)
  unfold allFunctionRules, allTypeRules, applyRuleBuilder, declared2,
    declared2_pure, declared1_global.
  cbn [foldM]. reflexivity.
Qed.

Lemma options_do_not_matter_witness :
  swiftLint initial_globals (str "let x = 1;") true tt
  = swiftLint (mkGlobals [0%Z; 7%Z] 9) (str "let x = 1;") false tt.
Proof.
  exact (@options_do_not_matter bool unit (str "let x = 1;") initial_globals
           (mkGlobals [0%Z; 7%Z] 9) true false tt tt).
Defined.

(* ------------------------------------------------------------------ *)
(** ** The line-length rule *)

Module LineLength.

Import PositionIndex.

Lemma lineNumbers_nth lines :
  forall start i line,
    nth_error lines i = Some line ->
    nth_error (lineNumbers_loop lines start) i
    = Some (start + line_offset lines i)%Z.
Proof.
  induction lines as [|l ls IH]; intros start [|i] line H; try discriminate.
  - simpl. f_equal. lia.
  - simpl in *. rewrite (IH _ _ _ H). f_equal. lia.
Qed.

Lemma lineNumbers_nth_None lines start i :
  nth_error lines i = None -> nth_error (lineNumbers_loop lines start) i = None.
Proof.
  intros H. apply nth_error_None. rewrite lineNumbers_loop_length.
  apply nth_error_None. exact H.
Qed.

Lemma line_offset_S lines i line :
  nth_error lines i = Some line ->
  line_offset lines (S i) = (line_offset lines i + Z.of_nat (length line) + 1)%Z.
Proof.
  revert i. induction lines as [|l ls IH]; intros [|i] H; try discriminate.
  - simpl in H. inversion H; subst. destruct ls; simpl; lia.
  - simpl in H. cbn [line_offset]. rewrite (IH _ H). cbn [line_offset]. lia.
Qed.

Lemma line_offset_lt lines j i line :
  nth_error lines i = Some line -> j < i ->
  (line_offset lines j < line_offset lines i)%Z.
Proof.
  revert line. induction i as [|i IH]; intros line Hi Hj; [lia|].
  assert (Hsome : exists l, nth_error lines i = Some l).
  { destruct (nth_error lines i) eqn:E; [eauto|].
    apply nth_error_None in E.
    assert (S i < length lines) by (apply nth_error_Some; congruence). lia. }
  destruct Hsome as (l & Hl).
  rewrite (line_offset_S _ _ Hl).
  destruct (Nat.eq_dec j i) as [->|Hne]; [lia|].
  specialize (IH l Hl). lia.
Qed.

(** the pieces of [split] and their line breaks make up the text *)
Lemma split_aux_total sep s :
  forall cur,
    line_offset (JSString.split_aux sep s cur)
      (length (JSString.split_aux sep s cur))
    = (Z.of_nat (length cur) + Z.of_nat (length s) + 1)%Z.
Proof.
  induction s as [|c s IH]; intros cur; cbn [JSString.split_aux].
  - cbn [length line_offset]. rewrite length_rev. lia.
  - destruct (N.eqb c sep).
    + cbn [length line_offset]. rewrite IH, length_rev.
      cbn [length]. lia.
    + rewrite IH. cbn [length]. lia.
Qed.

Section Resolve.
Variables (g0 : Globals) (text : jsstring).
Let g := obtainLineNumbers g0 text.
Let lines := JSString.split text LF.

Lemma LINE_NUMBERS_nth i line :
  nth_error lines i = Some line ->
  nth_error (LINE_NUMBERS g) i = Some (line_offset lines i).
Proof.
  intros H. unfold g, obtainLineNumbers. cbn [LINE_NUMBERS].
  fold lines. rewrite (lineNumbers_nth _ 0 _ H). reflexivity.
Qed.

Lemma line_number_nth i line :
  nth_error lines i = Some line ->
  line_number g (Z.of_nat i) = Num (line_offset lines i).
Proof.
  intros H. unfold line_number.
  destruct (Z.of_nat i <? 0)%Z eqn:E; [apply Z.ltb_lt in E; lia|].
  rewrite Nat2Z.id, (LINE_NUMBERS_nth _ H). reflexivity.
Qed.

(** an offset inside line [i], or at its line break, resolves to line [i] *)
Lemma getLinePos_in_line i line o :
  nth_error lines i = Some line ->
  (line_offset lines i <= o <= line_offset lines i + Z.of_nat (length line))%Z ->
  getLinePos g (Num o)
  = Some (mkPos (Z.of_nat i) (Num (o - line_offset lines i))).
Proof.
  intros Hi Ho. unfold getLinePos.
  assert (Hloop : forall rest pre,
    LINE_NUMBERS g = pre ++ rest -> length pre <= i ->
    getLinePos_loop g o (Z.of_nat (length pre)) rest
    = Some (mkPos (Z.of_nat i) (Num (o - line_offset lines i)))).
  { induction rest as [|h rest IH]; intros pre Heq Hpre.
    - rewrite app_nil_r in Heq.
      pose proof (LINE_NUMBERS_nth _ Hi) as Hn.
      assert (i < length (LINE_NUMBERS g)) by (apply nth_error_Some; congruence).
      rewrite Heq in H. lia.
    - assert (Hh : nth_error (LINE_NUMBERS g) (length pre) = Some h).
      { rewrite Heq, nth_error_app2 by lia. rewrite Nat.sub_diag. reflexivity. }
      assert (Hn : length (LINE_NUMBERS g) = length pre + S (length rest)).
      { rewrite Heq, length_app. reflexivity. }
      cbn [getLinePos_loop].
      destruct (Nat.eq_dec (length pre) i) as [Hat|Hbefore].
      + (* the iteration of line i *)
        rewrite Hat in *. rewrite (LINE_NUMBERS_nth _ Hi) in Hh.
        inversion Hh; subst h. clear Hh.
        destruct (o <? line_offset lines i)%Z eqn:E1;
          [apply Z.ltb_lt in E1; lia|].
        rewrite (line_number_nth _ Hi). cbn [number_sub].
        destruct (o =? line_offset lines i)%Z eqn:E2; [reflexivity|].
        destruct rest as [|h' rest'].
        * (* the last line *)
          assert (Hlast : S i = length lines).
          { unfold g, obtainLineNumbers in Hn. cbn [LINE_NUMBERS] in Hn.
            rewrite lineNumbers_loop_length in Hn. fold lines in Hn.
            cbn [length] in Hn. lia. }
          assert (Htotal : (line_offset lines (S i)
                            = Z.of_nat (length text) + 1)%Z).
          { rewrite Hlast. unfold lines, JSString.split.
            rewrite split_aux_total. simpl. lia. }
          rewrite (line_offset_S _ _ Hi) in Htotal.
          replace (Z.of_nat i =? Z.of_nat (length (LINE_NUMBERS g)) - 1)%Z
            with true by (symmetry; apply Z.eqb_eq; cbn [length] in Hn; lia).
          replace (o <=? TEXT_LENGTH g)%Z with true
            by (symmetry; apply Z.leb_le; unfold g; simpl; lia).
          reflexivity.
        * (* the next iteration finds the offset before its line *)
          replace (Z.of_nat i =? Z.of_nat (length (LINE_NUMBERS g)) - 1)%Z
            with false by (symmetry; apply Z.eqb_neq; cbn [length] in Hn; lia).
          cbn [andb getLinePos_loop].
          assert (Hnext : nth_error (LINE_NUMBERS g) (S i) = Some h').
          { rewrite Heq, nth_error_app2 by lia.
            replace (S i - length pre) with 1 by lia. reflexivity. }
          assert (Hline' : exists line', nth_error lines (S i) = Some line').
          { destruct (nth_error lines (S i)) eqn:E; [eauto|].
            apply nth_error_None in E.
            unfold g, obtainLineNumbers in Hn. cbn [LINE_NUMBERS] in Hn.
            rewrite lineNumbers_loop_length in Hn. fold lines in Hn.
            cbn [length] in Hn. lia. }
          destruct Hline' as (line' & Hline').
          rewrite (LINE_NUMBERS_nth _ Hline') in Hnext.
          inversion Hnext; subst h'.
          rewrite (line_offset_S _ _ Hi).
          replace (o <? line_offset lines i + Z.of_nat (length line) + 1)%Z
            with true by (symmetry; apply Z.ltb_lt; lia).
          replace (Z.of_nat i + 1 - 1)%Z with (Z.of_nat i) by lia.
          rewrite (line_number_nth _ Hi). reflexivity.
      + (* an earlier line *)
        assert (Hlt : length pre < i) by lia.
        assert (Hline' : exists l', nth_error lines (length pre) = Some l').
        { destruct (nth_error lines (length pre)) eqn:E; [eauto|].
          apply nth_error_None in E.
          assert (i < length lines) by (apply nth_error_Some; congruence).
          lia. }
        destruct Hline' as (l' & Hl').
        rewrite (LINE_NUMBERS_nth _ Hl') in Hh. inversion Hh; subst h.
        pose proof (line_offset_lt _ Hi Hlt) as Hmono.
        replace (o <? line_offset lines (length pre))%Z with false
          by (symmetry; apply Z.ltb_ge; lia).
        replace (o =? line_offset lines (length pre))%Z with false
          by (symmetry; apply Z.eqb_neq; lia).
        replace (Z.of_nat (length pre)
                 =? Z.of_nat (length (LINE_NUMBERS g)) - 1)%Z
          with false.
        2:{ symmetry. apply Z.eqb_neq.
            assert (i < length (LINE_NUMBERS g)).
            { apply nth_error_Some. rewrite (LINE_NUMBERS_nth _ Hi). congruence. }
            lia. }
        cbn [andb].
        specialize (IH (pre ++ [line_offset lines (length pre)])).
        rewrite length_app in IH. simpl in IH.
        replace (Z.of_nat (length pre + 1)) with (Z.of_nat (length pre) + 1)%Z
          in IH by lia.
        apply IH; [rewrite <- app_assoc; exact Heq | lia]. }
  apply (Hloop (LINE_NUMBERS g) []); [reflexivity | simpl; lia].
Qed.

(** the raw error of a long line *)
Lemma lineLength_loop_In rest :
  forall i0 k line,
    nth_error rest k = Some line ->
    100 < length line ->
    In (mkRaw line (line_number g (Z.of_nat (i0 + k)))
          (if 200 <? length line then error else warning)
          (lineLengthMessage (Z.of_nat (length line))))
       (lineLength_loop g rest (Z.of_nat i0)).
Proof.
  induction rest as [|l rest IH]; intros i0 [|k] line H Hlong; try discriminate.
  - simpl in H. inversion H; subst l. cbn [lineLength_loop].
    apply in_or_app. left.
    replace (Z.of_nat (length line) >? 100)%Z with true
      by (symmetry; apply Z.gtb_lt; lia).
    left. rewrite Nat.add_0_r. f_equal.
    destruct (Nat.ltb_spec 200 (length line)).
    + replace (Z.of_nat (length line) >? 200)%Z with true
        by (symmetry; apply Z.gtb_lt; lia). reflexivity.
    + replace (Z.of_nat (length line) >? 200)%Z with false; [reflexivity|].
      symmetry. rewrite Z.gtb_ltb. apply Z.ltb_ge. lia.
  - simpl in H. cbn [lineLength_loop]. apply in_or_app. right.
    replace (Z.of_nat i0 + 1)%Z with (Z.of_nat (S i0)) by lia.
    replace (i0 + S k) with (S i0 + k) by lia.
    apply IH; assumption.
Qed.

Lemma processRawErrors_In raws raw errPos errPosEnd :
  In raw raws ->
  getLinePos g (raw_index raw) = Some errPos ->
  getLinePos g (number_add (raw_index raw)
                  (Num (Z.of_nat (length (raw_code raw))))) = Some errPosEnd ->
  In (mkLint (raw_severity raw) (raw_message raw) errPos errPosEnd)
     (processRawErrors g raws).
Proof.
  intros Hin H1 H2. induction raws as [|r raws IH]; [contradiction|].
  cbn [processRawErrors]. apply in_or_app. destruct Hin as [->|Hin].
  - left. unfold processRawError. rewrite H1, H2. left. reflexivity.
  - right. auto.
Qed.

(** the processed errors of the line-length rule hold the error of every
    long line *)
Lemma lineLengthRule_reports i line :
  nth_error lines i = Some line ->
  100 < length line ->
  In (lineLengthError i (length line))
     (processRawErrors g (lineLengthRule g text)).
Proof.
  intros Hi Hlong.
  pose proof (@lineLength_loop_In lines 0 i line Hi Hlong) as Hraw.
  cbn [Nat.add Z.of_nat] in Hraw. fold (lineLengthRule g text) in Hraw.
  rewrite (line_number_nth _ Hi) in Hraw.
  eapply processRawErrors_In in Hraw.
  - exact Hraw.
  - cbn [raw_index]. rewrite (@getLinePos_in_line i line) by (auto; lia).
    rewrite Z.sub_diag. reflexivity.
  - cbn [raw_index raw_code number_add].
    rewrite (@getLinePos_in_line i line) by (auto; lia).
    do 3 f_equal. lia.
Qed.

End Resolve.

End LineLength.

(** C9: the line-length rule is one of the function-based rules, and for
    every text each line longer than 100 characters has, among the errors
    [swiftLint] returns, an error from the start of that line to its end,
    a warning up to 200 characters and an error above. *)
Theorem long_lines_are_reported (Options Editor : Type) (g0 : Globals)
  (text : jsstring) (opts : Options) (cm : Editor) (i : nat)
  (currentLine : jsstring) :
  nth_error (JSString.split text LF) i = Some currentLine ->
  100 < length currentLine ->
  In (@declared1_global Options Editor lineLengthRule)
     (allFunctionRules Options Editor)
  /\ exists ds,
       swiftLint g0 text opts cm = Ok ds
       /\ In (lineLengthError i (length currentLine)) ds.
Proof.
  intros Hline Hlong. split.
  - unfold allFunctionRules. simpl. tauto.
  - destruct (Totality.swiftLint_spec g0 text opts cm) as (fs & ds & Hds & Hincl).
    exists ds. split; [exact Hds|].
    apply (Hincl (@declared1_global Options Editor lineLengthRule)
             (lineLengthRule (obtainLineNumbers g0 text) text)).
    + unfold allFunctionRules. simpl. tauto.
    + reflexivity.
    + apply LineLength.lineLengthRule_reports; assumption.
Qed.

Lemma long_lines_are_reported_witness :
  exists ds,
    swiftLint initial_globals text_with_long_line tt tt = Ok ds
    /\ In (lineLengthError 1 101) ds.
Proof.
  apply (@long_lines_are_reported unit unit initial_globals
           text_with_long_line tt tt 1 (repeat_string 101 (str "x"))).
  - vm_compute. reflexivity.
  - vm_compute. lia.
Defined.

(* ================================================================== *)
(** * Further properties *)

(* ------------------------------------------------------------------ *)
(** ** The line starts and the offsets they resolve *)

Module LineIndex.

Import PositionIndex LineLength.

Lemma line_offset_nonneg lines i : (0 <= line_offset lines i)%Z.
Proof.
  revert i. induction lines as [|l ls IH]; intros [|i]; cbn [line_offset]; try lia.
  specialize (IH i). lia.
Qed.

(** the pieces of [split]: where each one lies in the string *)
Lemma split_aux_pieces sep s :
  forall cur i line,
    Forall (fun c => c <> sep) cur ->
    nth_error (JSString.split_aux sep s cur) i = Some line ->
    exists pre post,
      rev cur ++ s = pre ++ line ++ post
      /\ Z.of_nat (length pre) = line_offset (JSString.split_aux sep s cur) i
      /\ Forall (fun c => c <> sep) line
      /\ (i = 0 -> pre = [])
      /\ (0 < i -> exists pre', pre = pre' ++ [sep])
      /\ (S i < length (JSString.split_aux sep s cur) ->
          exists post', post = sep :: post')
      /\ (S i = length (JSString.split_aux sep s cur) -> post = []).
Proof.
  induction s as [|c s IH]; intros cur i line Hcur H; cbn [JSString.split_aux] in *.
  - destruct i as [|i]; [|destruct i; discriminate].
    simpl in H. inversion H; subst line. exists [], [].
    repeat split; try (intros; simpl in *; lia).
    + apply Forall_rev. exact Hcur.
  - destruct (N.eqb c sep) eqn:E.
    + apply N.eqb_eq in E. subst c. destruct i as [|i].
      * simpl in H. inversion H; subst line. exists [], (sep :: s).
        repeat split; try (intros; simpl in *; lia).
        -- apply Forall_rev. exact Hcur.
        -- intros _. eauto.
        -- intros Hl. simpl in Hl.
           pose proof (@split_aux_nonempty sep s []) as Hne.
           destruct (JSString.split_aux sep s []); [congruence|simpl in Hl; lia].
      * simpl in H.
        destruct (IH [] i line (Forall_nil _) H)
          as (pre & post & Heq & Hlen & Hline & H0 & Hpos & Hmore & Hlast).
        simpl in Heq.
        exists (rev cur ++ sep :: pre), post.
        split; [rewrite Heq, <- app_assoc; reflexivity|].
        split.
        { cbn [line_offset]. rewrite <- Hlen, length_app, length_rev.
          cbn [length]. lia. }
        split; [exact Hline|].
        split; [intros; lia|].
        split.
        { intros _. destruct i as [|i].
          - rewrite (H0 eq_refl). exists (rev cur). reflexivity.
          - destruct Hpos as (pre' & ->); [lia|].
            exists (rev cur ++ sep :: pre').
            rewrite <- app_assoc. reflexivity. }
        split.
        { intros Hl. apply Hmore. simpl in Hl. lia. }
        { intros Hl. apply Hlast. simpl in Hl. lia. }
    + assert (Hcur' : Forall (fun c0 => c0 <> sep) (c :: cur)).
      { constructor; [|exact Hcur]. intros ->. rewrite N.eqb_refl in E.
        discriminate. }
      destruct (IH (c :: cur) i line Hcur' H)
        as (pre & post & Heq & Hrest).
      exists pre, post. split; [|exact Hrest].
      rewrite <- Heq. simpl. rewrite <- app_assoc. reflexivity.
Qed.

Lemma split_aux_length sep s :
  forall cur,
    length (JSString.split_aux sep s cur) = S (count_occ N.eq_dec s sep).
Proof.
  induction s as [|c s IH]; intros cur; cbn [JSString.split_aux count_occ].
  - reflexivity.
  - destruct (N.eqb_spec c sep) as [->|Hne].
    + destruct (N.eq_dec sep sep); [|congruence]. cbn [length].
      rewrite IH. reflexivity.
    + destruct (N.eq_dec c sep); [congruence|]. apply IH.
Qed.

(** every offset of the text lies in a line or on its line break *)
Lemma line_offset_cover lines :
  forall o,
    (0 <= o < line_offset lines (length lines))%Z ->
    exists i line,
      nth_error lines i = Some line
      /\ (line_offset lines i <= o
          <= line_offset lines i + Z.of_nat (length line))%Z.
Proof.
  induction lines as [|l ls IH]; intros o Ho.
  - simpl in Ho. lia.
  - cbn [length line_offset] in Ho.
    destruct (Z_le_gt_dec o (Z.of_nat (length l))) as [Hin|Hout].
    + exists 0, l. simpl. split; [reflexivity|lia].
    + destruct (IH (o - Z.of_nat (length l) - 1)%Z) as (i & line & Hi & Hr);
        [lia|].
      exists (S i), line. split; [exact Hi|]. cbn [line_offset]. lia.
Qed.

Lemma LINE_NUMBERS_le g0 text ln :
  In ln (LINE_NUMBERS (obtainLineNumbers g0 text)) ->
  (0 <= ln <= Z.of_nat (length text))%Z.
Proof.
  intros Hin. apply In_nth_error in Hin. destruct Hin as (i & Hi).
  set (lines := JSString.split text LF) in *.
  destruct (nth_error lines i) as [line|] eqn:El.
  - rewrite (@LINE_NUMBERS_nth g0 text i line El) in Hi.
    inversion Hi; subst ln. fold lines.
    pose proof (line_offset_nonneg lines i).
    assert (Htotal : (line_offset lines (length lines)
                      = Z.of_nat (length text) + 1)%Z).
    { unfold lines, JSString.split. rewrite split_aux_total. simpl. lia. }
    assert (Hlt : i < length lines) by (apply nth_error_Some; congruence).
    pose proof (line_offset_S _ _ El) as HS.
    destruct (Nat.eq_dec (S i) (length lines)) as [He|Hne].
    + rewrite He in HS. lia.
    + assert (Hex : exists l', nth_error lines (length lines - 1) = Some l').
      { destruct (nth_error lines (length lines - 1)) eqn:E; [eauto|].
        apply nth_error_None in E. lia. }
      destruct Hex as (l' & Hl').
      pose proof (@line_offset_lt lines i (length lines - 1) l' Hl') as Hm.
      pose proof (line_offset_S _ _ Hl') as HS'.
      replace (S (length lines - 1)) with (length lines) in HS' by lia.
      lia.
  - unfold obtainLineNumbers in Hi. cbn [LINE_NUMBERS] in Hi.
    fold lines in Hi. rewrite (lineNumbers_nth_None _ 0 _ El) in Hi.
    discriminate.
Qed.

Lemma getLinePos_loop_beyond g o :
  (TEXT_LENGTH g < o)%Z ->
  forall rest i,
    Forall (fun ln => (ln < o)%Z) rest ->
    getLinePos_loop g o i rest = None.
Proof.
  intros Ho. induction rest as [|ln rest IH]; intros i Hall; [reflexivity|].
  inversion Hall; subst. cbn [getLinePos_loop].
  replace (o <? ln)%Z with false by (symmetry; apply Z.ltb_ge; lia).
  replace (o =? ln)%Z with false by (symmetry; apply Z.eqb_neq; lia).
  replace (o <=? TEXT_LENGTH g)%Z with false
    by (symmetry; apply Z.leb_gt; lia).
  rewrite andb_false_r. apply IH. assumption.
Qed.

End LineIndex.

(** X1: [obtainLineNumbers] keeps one line start for each line of the
    text, that is one more than the text has line feeds, and the length of
    the text.  The start of line [i] is the offset at which that line stands
    in the text: the text read from there gives the line, which holds no
    line feed; the first line starts at 0 and every later line right after a
    line feed; a line feed follows every line but the last, which ends the
    text. *)
Theorem line_starts_locate_lines (g0 : Globals) (text : jsstring) :
  let g := obtainLineNumbers g0 text in
  let lines := JSString.split text LF in
  length (LINE_NUMBERS g) = length lines
  /\ length lines = S (count_occ N.eq_dec text LF)
  /\ TEXT_LENGTH g = Z.of_nat (length text)
  /\ forall i line,
       nth_error lines i = Some line ->
       exists s,
         nth_error (LINE_NUMBERS g) i = Some (Z.of_nat s)
         /\ JSString.slice text s (s + length line) = line
         /\ Forall (fun c => c <> LF) line
         /\ (i = 0 -> s = 0)
         /\ (0 < i -> nth_error text (s - 1) = Some LF)
         /\ (S i < length lines -> nth_error text (s + length line) = Some LF)
         /\ (S i = length lines -> s + length line = length text).
Proof.
  intros g lines.
  split; [apply PositionIndex.lineNumbers_loop_length|].
  split; [apply LineIndex.split_aux_length|].
  split; [reflexivity|].
  intros i line Hi.
  destruct (@LineIndex.split_aux_pieces LF text [] i line (Forall_nil _) Hi)
    as (pre & post & Heq & Hlen & Hline & H0 & Hpos & Hmore & Hlast).
  simpl in Heq. fold (JSString.split text LF) in Hlen, Hmore, Hlast.
  fold lines in Hlen, Hmore, Hlast.
  exists (length pre).
  split.
  { rewrite Hlen. apply (@LineLength.LINE_NUMBERS_nth g0 text i line Hi). }
  split.
  { unfold JSString.slice. rewrite Heq.
    rewrite skipn_app, skipn_all, Nat.sub_diag. simpl.
    replace (length pre + length line - length pre) with (length line) by lia.
    rewrite firstn_app, firstn_all, Nat.sub_diag. simpl.
    apply app_nil_r. }
  split; [exact Hline|].
  split; [intros Hz; rewrite (H0 Hz); reflexivity|].
  split.
  { intros Hp. destruct (Hpos Hp) as (pre' & ->). rewrite Heq.
    rewrite length_app. simpl.
    replace (length pre' + 1 - 1) with (length pre') by lia.
    rewrite <- app_assoc. rewrite nth_error_app2 by lia.
    rewrite Nat.sub_diag. reflexivity. }
  split.
  { intros Hm. destruct (Hmore Hm) as (post' & ->). rewrite Heq.
    rewrite app_assoc, nth_error_app2 by (rewrite length_app; lia).
    rewrite length_app, Nat.sub_diag. reflexivity. }
  { intros Hl. rewrite (Hlast Hl) in Heq. rewrite Heq, app_nil_r, length_app.
    reflexivity. }
Qed.

(** X2: with the line starts of a text, [getLinePos] resolves every
    offset from 0 up to the length of the text, that length included, to a
    line of the text and to the column of the offset in that line: the
    offset minus the start of the line, between 0 and the length of the
    line. *)
Theorem offset_resolves_to_its_line (g0 : Globals) (text : jsstring) (o : Z) :
  (0 <= o <= Z.of_nat (length text))%Z ->
  let g := obtainLineNumbers g0 text in
  let lines := JSString.split text LF in
  exists i line,
    nth_error lines i = Some line
    /\ getLinePos g (Num o)
       = Some (mkPos (Z.of_nat i) (Num (o - line_offset lines i)))
    /\ (0 <= o - line_offset lines i <= Z.of_nat (length line))%Z.
Proof.
  intros Ho g lines.
  assert (Htotal : (line_offset lines (length lines)
                    = Z.of_nat (length text) + 1)%Z).
  { unfold lines, JSString.split. rewrite LineLength.split_aux_total.
    simpl. lia. }
  destruct (@LineIndex.line_offset_cover lines o) as (i & line & Hi & Hr);
    [lia|].
  exists i, line. split; [exact Hi|]. split; [|lia].
  apply (@LineLength.getLinePos_in_line g0 text i line o Hi Hr).
Qed.

Lemma offset_resolves_to_its_line_witness :
  exists i line,
    nth_error (JSString.split (str "ab" ++ [LF] ++ str "cd") LF) i = Some line
    /\ getLinePos (obtainLineNumbers initial_globals (str "ab" ++ [LF] ++ str "cd"))
         (Num 4)
       = Some (mkPos (Z.of_nat i)
                 (Num (4 - line_offset
                            (JSString.split (str "ab" ++ [LF] ++ str "cd") LF) i)))
    /\ (0 <= 4 - line_offset (JSString.split (str "ab" ++ [LF] ++ str "cd") LF) i
        <= Z.of_nat (length line))%Z.
Proof.
  apply (@offset_resolves_to_its_line initial_globals
           (str "ab" ++ [LF] ++ str "cd") 4).
  vm_compute. split; discriminate.
Defined.

(** X3: a negative offset resolves to the line -1 with a column that is
    not a number; an offset beyond the length of the text resolves to
    nothing, and so does an offset that is not a number; with the globals
    as they are before [obtainLineNumbers] has run, no offset resolves. *)
Theorem offsets_outside_the_text (g0 : Globals) (text : jsstring) (o : Z) :
  let g := obtainLineNumbers g0 text in
  ((o < 0)%Z -> getLinePos g (Num o) = Some (mkPos (-1) NaN))
  /\ ((Z.of_nat (length text) < o)%Z -> getLinePos g (Num o) = None)
  /\ getLinePos g NaN = None
  /\ getLinePos initial_globals (Num o) = None.
Proof.
  intros g. split; [|split; [|split; reflexivity]].
  - intros Ho. unfold getLinePos.
    destruct (PositionIndex.lineNumbers_first text g0) as (rest & Hrest).
    fold g in Hrest. rewrite Hrest. cbn [getLinePos_loop].
    replace (o <? 0)%Z with true by (symmetry; apply Z.ltb_lt; lia).
    reflexivity.
  - intros Ho. unfold getLinePos.
    apply LineIndex.getLinePos_loop_beyond; [exact Ho|].
    apply Forall_forall. intros ln Hin.
    apply LineIndex.LINE_NUMBERS_le in Hin. lia.
Qed.

Lemma offsets_outside_the_text_witness :
  getLinePos (obtainLineNumbers initial_globals (str "ab")) (Num (-1))
  = Some (mkPos (-1) NaN)
  /\ getLinePos (obtainLineNumbers initial_globals (str "ab")) (Num 3) = None.
Proof.
  split.
  - apply (proj1 (@offsets_outside_the_text initial_globals (str "ab") (-1))).
    reflexivity.
  - apply (proj1 (proj2 (@offsets_outside_the_text initial_globals (str "ab") 3))).
    reflexivity.
Defined.

(* ------------------------------------------------------------------ *)
(** ** Raw errors and findings within the text *)

Module Findings.

Import RegExpFacts Exceptions.

Lemma getLinePos_within g0 text (o : nat) :
  o <= length text ->
  exists p, getLinePos (obtainLineNumbers g0 text) (Num (Z.of_nat o)) = Some p.
Proof.
  intros Ho.
  assert (Hr : (0 <= Z.of_nat o <= Z.of_nat (length text))%Z) by lia.
  assert (Htotal : (line_offset (JSString.split text LF)
                      (length (JSString.split text LF))
                    = Z.of_nat (length text) + 1)%Z).
  { unfold JSString.split. rewrite LineLength.split_aux_total. simpl. lia. }
  destruct (@LineIndex.line_offset_cover (JSString.split text LF) (Z.of_nat o))
    as (i & line & Hi & Hin); [lia|].
  rewrite (@LineLength.getLinePos_in_line g0 text i line _ Hi Hin). eauto.
Qed.

Lemma processRawErrors_within g0 text raws :
  Forall (within_text (length text)) raws ->
  Forall2 (processed_from (obtainLineNumbers g0 text)) raws
    (processRawErrors (obtainLineNumbers g0 text) raws).
Proof.
  induction 1 as [|r raws (i & Hi & Hlen) _ IH]; cbn [processRawErrors].
  - constructor.
  - unfold processRawError. rewrite Hi. cbn [number_add].
    destruct (@getLinePos_within g0 text i) as (p & Hp); [lia|].
    destruct (@getLinePos_within g0 text (i + length (raw_code r)))
      as (q & Hq); [lia|].
    rewrite Nat2Z.inj_add in Hq. rewrite Hp, Hq. cbn [app].
    constructor; [|exact IH].
    unfold processed_from. cbn [severity message from to].
    rewrite Hi. cbn [number_add]. auto.
Qed.

(** what [exec] returns lies within the input *)
Lemma finding_within text rule re li mr :
  exec text re li = Some mr ->
  within_text (length text) (finding_of text rule mr)
  /\ JSString.slice text (index mr) (index mr + length (matched text mr))
     = matched text mr.
Proof.
  intros H. pose proof (exec_lastIndex _ _ _ H) as (H1 & H2).
  pose proof (matched_length _ _ _ H) as Hl.
  split.
  - exists (index mr). cbn [finding_of raw_index raw_code]. split; [reflexivity|].
    lia.
  - rewrite Hl. unfold matched.
    replace (index mr + (lastIndex mr - index mr)) with (lastIndex mr) by lia.
    reflexivity.
Qed.

Lemma regexRule_inv text rule findings :
  regexRule text rule = Ok findings ->
  exists ranges ms,
    processExceptions text (exceptions rule) = Ok ranges
    /\ exec_each text (rePatterns rule) = Ok ms
    /\ findings
       = map (finding_of text rule)
           (filter (fun mr => negb (regexException (Z.of_nat (index mr)) ranges))
              ms).
Proof.
  unfold regexRule. intros H.
  destruct (processExceptions text (exceptions rule)) as [ranges| |];
    try discriminate.
  cbn [bind] in H.
  destruct (exec_each text (rePatterns rule)) as [ms| |]; try discriminate.
  cbn [bind] in H. inversion H; subst findings.
  exists ranges, ms. split; [reflexivity|]. split; [reflexivity|].
  apply (flat_map_filter (finding_of text rule)
           (fun mr => negb (regexException (Z.of_nat (index mr)) ranges))).
Qed.

Lemma regexRule_findings text rule findings :
  regexRule text rule = Ok findings ->
  Forall (fun f =>
            within_text (length text) f
            /\ (exists i : nat,
                  raw_index f = Num (Z.of_nat i)
                  /\ JSString.slice text i (i + length (raw_code f)) = raw_code f)
            /\ raw_severity f = rule_severity rule
            /\ raw_message f = rule_message rule
            /\ (consuming rule = true -> raw_code f <> []))
         findings.
Proof.
  intros H. destruct (regexRule_inv _ _ H) as (ranges & ms & _ & Hms & ->).
  pose proof (exec_each_Forall _ _ Hms) as Hall.
  apply Forall_forall. intros f Hin.
  apply in_map_iff in Hin. destruct Hin as (mr & <- & Hin).
  apply filter_In in Hin. destruct Hin as (Hin & _).
  rewrite Forall_forall in Hall.
  destruct (Hall mr Hin) as (re & li & Hre & Hexec).
  destruct (@finding_within text rule re li mr Hexec) as (Hw & Hs).
  split; [exact Hw|].
  split; [exists (index mr); split; [reflexivity|exact Hs]|].
  split; [reflexivity|]. split; [reflexivity|].
  intros Hc. unfold consuming in Hc. apply andb_prop in Hc.
  destruct Hc as (Hc & _). rewrite forallb_forall in Hc.
  specialize (Hc re Hre). apply negb_true_iff in Hc.
  pose proof (@exec_progress text re li mr Hc Hexec) as Hp.
  pose proof (matched_length _ _ _ Hexec) as Hl.
  cbn [finding_of raw_code]. intros Hnil. rewrite Hnil in Hl. simpl in Hl. lia.
Qed.

(** the matches of an [exec] loop come one after the other *)
Lemma exec_loop_sorted text r fuel :
  forall li ms,
    exec_loop text r fuel li = Ok ms ->
    Forall (fun mr => li <= index mr) ms
    /\ StronglySorted (fun a b => lastIndex a <= index b) ms.
Proof.
  induction fuel as [|fuel IH]; intros li ms H; [discriminate|].
  cbn [exec_loop] in H.
  destruct (exec text r li) as [mr|] eqn:E.
  - destruct (exec_loop text r fuel (lastIndex mr)) as [rest| |] eqn:Er;
      try discriminate.
    cbn [bind] in H. inversion H; subst ms.
    destruct (IH _ _ Er) as (Hall & Hs).
    pose proof (exec_sound _ _ _ E) as (Hli & _).
    pose proof (exec_lastIndex _ _ _ E) as (Hle & _).
    split.
    + constructor; [exact Hli|].
      eapply Forall_impl; [|exact Hall]. cbn beta. intros; lia.
    + constructor; [exact Hs|exact Hall].
  - inversion H; subst ms. split; constructor.
Qed.

Lemma StronglySorted_filter {A} (R : A -> A -> Prop) p l :
  StronglySorted R l -> StronglySorted R (filter p l).
Proof.
  induction 1 as [|a l Hs IH Hall]; cbn [filter]; [constructor|].
  destruct (p a); [|exact IH].
  constructor; [exact IH|].
  apply Forall_forall. intros b Hb. apply filter_In in Hb.
  rewrite Forall_forall in Hall. apply Hall. tauto.
Qed.

Lemma StronglySorted_map {A B} (R : A -> A -> Prop) (R' : B -> B -> Prop)
  (f : A -> B) l :
  (forall a b, In a l -> In b l -> R a b -> R' (f a) (f b)) ->
  StronglySorted R l -> StronglySorted R' (map f l).
Proof.
  intros HR Hs. induction Hs as [|a l Hs IH Hall]; cbn [map]; [constructor|].
  constructor.
  - apply IH. intros x y Hx Hy. apply HR; right; assumption.
  - apply Forall_forall. intros b Hb. apply in_map_iff in Hb.
    destruct Hb as (y & <- & Hy). rewrite Forall_forall in Hall.
    apply HR; [left; reflexivity|right; exact Hy|apply Hall; exact Hy].
Qed.

Lemma regexRule_sorted text rule re findings :
  rePatterns rule = [re] ->
  regexRule text rule = Ok findings ->
  StronglySorted ends_before findings.
Proof.
  intros Hre H. destruct (regexRule_inv _ _ H) as (ranges & ms & _ & Hms & ->).
  rewrite Hre in Hms. cbn [exec_each] in Hms.
  destruct (exec_all text re) as [ms0| |] eqn:E; try discriminate.
  cbn [bind] in Hms. inversion Hms; subst ms. rewrite app_nil_r.
  destruct (exec_loop_sorted _ _ _ _ E) as (_ & Hs).
  pose proof (exec_all_Forall _ _ E) as Hall. rewrite Forall_forall in Hall.
  apply (@StronglySorted_map _ _ (fun a b => lastIndex a <= index b)).
  - intros a b Ha Hb Hab. apply filter_In in Ha. destruct Ha as (Ha & _).
    destruct (Hall a Ha) as (li & Hexec).
    pose proof (matched_length _ _ _ Hexec) as Hl.
    pose proof (exec_lastIndex _ _ _ Hexec) as (Hle & _).
    exists (index a), (index b). cbn [finding_of raw_index raw_code].
    split; [reflexivity|]. split; [reflexivity|]. lia.
  - apply StronglySorted_filter. exact Hs.
Qed.

Lemma Forall2_length_eq {A B} (R : A -> B -> Prop) l l' :
  Forall2 R l l' -> length l = length l'.
Proof. induction 1; simpl; congruence. Qed.

End Findings.

(** X4: [processRawErrors] keeps every raw error whose code lies within
    the text, in order: the processed errors are as many as the raw ones,
    and each has the severity and the message of its raw error, the position
    of its index as [from] and the position of the end of its code as
    [to]. *)
Theorem findings_within_the_text_are_kept (g0 : Globals) (text : jsstring)
  (rawErrors : list RawError) :
  Forall (within_text (length text)) rawErrors ->
  let g := obtainLineNumbers g0 text in
  Forall2 (processed_from g) rawErrors (processRawErrors g rawErrors)
  /\ length (processRawErrors g rawErrors) = length rawErrors.
Proof.
  intros H g.
  pose proof (@Findings.processRawErrors_within g0 text rawErrors H) as HF.
  split; [exact HF|]. symmetry. apply (Findings.Forall2_length_eq HF).
Qed.

Lemma findings_within_the_text_are_kept_witness :
  length (processRawErrors (obtainLineNumbers initial_globals (str "a;"))
            [mkRaw (str ";") (Num 1) warning (str "m")])
  = 1.
Proof.
  apply (@findings_within_the_text_are_kept initial_globals (str "a;")
           [mkRaw (str ";") (Num 1) warning (str "m")]).
  constructor; [|constructor].
  exists 1. split; [reflexivity|]. simpl. lia.
Defined.

(** X5: every finding of [regexRule] has a code that lies within the text
    and stands in the text at the index of the finding, and it has the
    severity and the message of the rule; its code is not empty when no
    pattern of the rule matches the empty string. *)
Theorem regex_findings_quote_the_text (text : jsstring) (rule : RegexRule)
  (findings : list RawError) :
  regexRule text rule = Ok findings ->
  Forall (fun f =>
            within_text (length text) f
            /\ (exists i : nat,
                  raw_index f = Num (Z.of_nat i)
                  /\ JSString.slice text i (i + length (raw_code f)) = raw_code f)
            /\ raw_severity f = rule_severity rule
            /\ raw_message f = rule_message rule
            /\ (consuming rule = true -> raw_code f <> []))
         findings.
Proof. apply Findings.regexRule_findings. Qed.

Lemma regex_findings_quote_the_text_witness :
  Forall (fun f =>
            within_text 9 f
            /\ (exists i : nat,
                  raw_index f = Num (Z.of_nat i)
                  /\ JSString.slice (str "x as! Int") i (i + length (raw_code f))
                     = raw_code f)
            /\ raw_severity f = error
            /\ raw_message f = str "Force casts should be avoided."
            /\ (consuming forceCastRule = true -> raw_code f <> []))
    [mkRaw (str "as!") (Num 2) error (str "Force casts should be avoided.")].
Proof.
  apply (@regex_findings_quote_the_text (str "x as! Int") forceCastRule).
  vm_compute. reflexivity.
Defined.

(** X6: the findings of a rule with a single pattern come in the order of
    the text and do not overlap: each ends before the next one starts. *)
Theorem regex_findings_in_text_order (text : jsstring) (rule : RegexRule)
  (re : regex) (findings : list RawError) :
  rePatterns rule = [re] ->
  regexRule text rule = Ok findings ->
  StronglySorted ends_before findings.
Proof. apply Findings.regexRule_sorted. Qed.

Lemma regex_findings_in_text_order_witness :
  StronglySorted ends_before
    [mkRaw (str "try!") (Num 0) error (str "Force tries should be avoided.");
     mkRaw (str "try!") (Num 7) error (str "Force tries should be avoided.")].
Proof.
  apply (@regex_findings_in_text_order (str "try! a try! b") forceTryRule
           (Word "try!")).
  - reflexivity.
  - vm_compute. reflexivity.
Defined.

(* ------------------------------------------------------------------ *)
(** ** The nesting depth of a body *)

Module Nesting.

Import RegExpFacts Bodies.

Lemma deepest_app a :
  forall d m b,
    deepest d m (a ++ b) = deepest (d + brace_depth a) (deepest d m a) b.
Proof.
  induction a as [|c a IH]; intros d m b; cbn [app deepest brace_depth].
  - f_equal. lia.
  - rewrite IH. f_equal. lia.
Qed.

Lemma deepest_free u :
  Forall (fun c => is_brace c = false) u ->
  forall d m, (d <= m)%Z -> deepest d m u = m.
Proof.
  induction 1 as [|c u Hc _ IH]; intros d m Hd; [reflexivity|].
  cbn [deepest].
  assert (H0 : brace_delta c = 0%Z).
  { unfold is_brace in Hc. apply orb_false_iff in Hc. destruct Hc as [H1 H2].
    unfold brace_delta. rewrite H1, H2. reflexivity. }
  rewrite H0, IH by lia. lia.
Qed.

Lemma deepest_ge s : forall d m, (m <= deepest d m s)%Z.
Proof.
  induction s as [|c s IH]; intros d m; cbn [deepest]; [lia|].
  specialize (IH (d + brace_delta c)%Z (Z.max m (d + brace_delta c))). lia.
Qed.

(** [deepest] is the largest depth a prefix reaches *)
Lemma deepest_prefixes s :
  forall d m,
    (forall k, 0 < k <= length s ->
               (d + brace_depth (firstn k s) <= deepest d m s)%Z)
    /\ (deepest d m s = m
        \/ exists k, 0 < k <= length s
                     /\ deepest d m s = (d + brace_depth (firstn k s))%Z).
Proof.
  induction s as [|c s IH]; intros d m.
  - split; [simpl; intros; lia|left; reflexivity].
  - destruct (IH (d + brace_delta c)%Z (Z.max m (d + brace_delta c)))
      as (Hle & Hex).
    cbn [deepest]. split.
    + intros [|k] Hk; [lia|]. cbn [firstn brace_depth length] in *.
      destruct k as [|k].
      * simpl.
        pose proof (deepest_ge s (d + brace_delta c)
                      (Z.max m (d + brace_delta c))). lia.
      * specialize (Hle (S k)). cbn [firstn brace_depth] in *.
        assert (0 < S k <= length s) by lia. specialize (Hle H). lia.
    + destruct Hex as [He|(k & Hk & He)].
      * rewrite He. destruct (Z.max_spec m (d + brace_delta c)) as [(_ & ->)|(_ & ->)].
        -- right. exists 1. cbn [length firstn brace_depth]. split; [lia|].
           simpl. lia.
        -- left. reflexivity.
      * right. exists (S k). cbn [length firstn brace_depth]. split; [lia|].
        rewrite He. lia.
Qed.

Lemma max_brace_depth_spec s :
  (forall k, (brace_depth (firstn k s) <= max_brace_depth s)%Z)
  /\ exists k, k <= length s /\ max_brace_depth s = brace_depth (firstn k s).
Proof.
  unfold max_brace_depth. destruct (deepest_prefixes s 0 0) as (Hle & Hex).
  split.
  - intros k. destruct (Nat.eq_dec k 0) as [->|Hk].
    + simpl. apply deepest_ge.
    + destruct (Nat.le_gt_cases k (length s)) as [Hin|Hout].
      * specialize (Hle k). simpl in Hle. apply Hle. lia.
      * rewrite firstn_all2 by lia.
        destruct s as [|c s]; [simpl; lia|].
        specialize (Hle (length (c :: s))). rewrite firstn_all in Hle.
        simpl in Hle. simpl. apply Hle. lia.
  - destruct Hex as [He|(k & Hk & He)].
    + exists 0. split; [lia|]. rewrite He. reflexivity.
    + exists k. split; [lia|]. rewrite He. lia.
Qed.

Section Loop.
Variable input : jsstring.

(** the loop of [extractBodies] keeps, for the code read so far, its depth
    and the deepest nesting of its prefixes *)
Lemma brace_loop_deepest fuel :
  forall li depth md res,
    li <= length input ->
    brace_loop input fuel li depth (firstn li input) md = Ok res ->
    depth = brace_depth (firstn li input) ->
    md = max_brace_depth (firstn li input) ->
    exists n,
      n <= length input
      /\ res = (brace_depth (firstn n input), firstn n input,
                max_brace_depth (firstn n input)).
Proof.
  induction fuel as [|fuel IH]; intros li depth md res Hli H Hd Hmd;
    [discriminate|].
  cbn [brace_loop] in H.
  destruct (exec input braceRegex li) as [mr|] eqn:He.
  - destruct (@brace_step input li mr Hli He)
      as (u & b & Hlast & Hbound & Hm & Hu & Hb & Hfirst & Hnth).
    rewrite Hm, last_char_snoc in H.
    destruct (@depth_update b depth Hb) as [Hupd Hdelta].
    rewrite Hupd in H. rewrite <- Hfirst in H.
    assert (Hd1 : brace_depth (firstn (lastIndex mr) input)
                  = (depth + brace_delta b)%Z).
    { rewrite Hfirst, !brace_depth_app, (@brace_depth_free u Hu), <- Hd.
      simpl. lia. }
    assert (Hle : (depth <= md)%Z).
    { rewrite Hd, Hmd.
      pose proof (proj1 (max_brace_depth_spec (firstn li input))
                    (length (firstn li input))) as Hk.
      rewrite firstn_all in Hk. exact Hk. }
    assert (Hmd1 : max_brace_depth (firstn (lastIndex mr) input)
                   = if (depth + brace_delta b >? md)%Z
                     then (depth + brace_delta b)%Z else md).
    { unfold max_brace_depth. rewrite Hfirst, !deepest_app.
      fold (max_brace_depth (firstn li input)). rewrite <- Hmd.
      rewrite Z.add_0_l, <- Hd.
      rewrite (@deepest_free u Hu depth md Hle).
      rewrite (@brace_depth_free u Hu). cbn [deepest].
      rewrite Z.add_0_r.
      destruct (depth + brace_delta b >? md)%Z eqn:E.
      - apply Z.gtb_lt in E. lia.
      - rewrite Z.gtb_ltb in E. apply Z.ltb_ge in E. lia. }
    rewrite <- Hmd1, <- Hd1 in H.
    destruct (brace_depth (firstn (lastIndex mr) input) <=? 0)%Z.
    + inversion H; subst res. exists (lastIndex mr). split; [exact Hbound|].
      reflexivity.
    + apply (IH _ _ _ _ Hbound H); reflexivity.
  - inversion H; subst res. exists li. split; [exact Hli|].
    rewrite <- Hd, <- Hmd. reflexivity.
Qed.

End Loop.

Lemma captureBody_deepest text ty dec bs :
  captureBody text ty dec = Ok bs ->
  forall b, In b bs ->
    maxDepth b = max_brace_depth (code b)
    /\ brace_depth (code b) = 0%Z
    /\ body_index b = index dec
    /\ type b = ty
    /\ name b = group text dec 1
    /\ paramCount b = None /\ params b = VUndefined.
Proof.
  unfold captureBody.
  set (s := JSString.substring_from text (Z.of_nat (index dec))).
  intros H b Hb.
  destruct (brace_loop s (S (length s)) 0 0 [] 0) as [res| |] eqn:E;
    try discriminate.
  cbn [bind] in H.
  destruct (@brace_loop_deepest s (S (length s)) 0 0%Z 0%Z res) as (n & Hn & ->);
    try reflexivity; try lia; [exact E|].
  destruct ((brace_depth (firstn n s) =? 0)%Z
            && negb (string_eqb (firstn n s) []))%bool eqn:Ec.
  - inversion H; subst bs. destruct Hb as [<-|[]].
    cbn [maxDepth code body_index type name paramCount params].
    apply andb_true_iff in Ec. destruct Ec as (Ec & _).
    apply Z.eqb_eq in Ec. auto 10.
  - inversion H; subst bs. destruct Hb.
Qed.

Lemma captureBodies_deepest text ty decs :
  forall bodies,
    captureBodies text ty decs = Ok bodies ->
    forall b, In b bodies ->
      maxDepth b = max_brace_depth (code b)
      /\ type b = ty /\ paramCount b = None /\ params b = VUndefined
      /\ exists dec, In dec decs /\ body_index b = index dec
                     /\ name b = group text dec 1.
Proof.
  induction decs as [|dec decs IH]; intros bodies H b Hb;
    cbn [captureBodies] in H.
  - inversion H; subst bodies. destruct Hb.
  - destruct (captureBody text ty dec) as [bs| |] eqn:E1; try discriminate.
    cbn [bind] in H.
    destruct (captureBodies text ty decs) as [bs'| |] eqn:E2; try discriminate.
    cbn [bind] in H. inversion H; subst bodies.
    apply in_app_or in Hb. destruct Hb as [Hb|Hb].
    + destruct (captureBody_deepest _ _ _ E1 b Hb)
        as (H1 & _ & H2 & H3 & H4 & H5 & H6).
      repeat (split; [assumption|]). exists dec. split; [left; reflexivity|].
      auto.
    + destruct (IH _ eq_refl b Hb) as (H1 & H2 & H3 & H4 & dec' & Hd & H5).
      repeat (split; [assumption|]). exists dec'. split; [right; exact Hd|].
      exact H5.
Qed.

Lemma extractBodies_deepest text ty bodies :
  extractBodies text ty = Ok bodies ->
  forall b, In b bodies ->
    maxDepth b = max_brace_depth (code b) /\ type b = ty.
Proof.
  unfold extractBodies. intros H b Hb.
  destruct (exec_all text (searchRegex ty)) as [decs| |]; try discriminate.
  cbn [bind] in H.
  destruct (captureBodies_deepest _ _ _ H b Hb) as (H1 & H2 & _). auto.
Qed.

(** [getFunctionParameters] changes [paramCount] and [params] only *)
Lemma getFunctionParameters_keeps f f' :
  getFunctionParameters f = Ok f' ->
  code f' = code f /\ name f' = name f /\ body_index f' = body_index f
  /\ type f' = type f /\ maxDepth f' = maxDepth f.
Proof.
  unfold getFunctionParameters. intros H.
  destruct (test (code f) noParamRegex).
  - inversion H; subst f'. cbn. auto.
  - destruct (exec (code f) paramRegex 0) as [mr|].
    + destruct (group (code f) mr 1) as [| |functionInfo]; try discriminate.
      destruct (countParameters functionInfo) as (pc & pe).
      inversion H; subst f'. cbn. auto.
    + inversion H; subst f'. auto.
Qed.

Lemma mapM_Forall2 {A B} (f : A -> outcome B) (R : A -> B -> Prop) l :
  (forall a b, f a = Ok b -> R a b) ->
  forall bs, mapM f l = Ok bs -> Forall2 R l bs.
Proof.
  intros HR. induction l as [|a l IH]; intros bs H; cbn [mapM] in H.
  - inversion H. constructor.
  - destruct (f a) as [b| |] eqn:E; try discriminate. cbn [bind] in H.
    destruct (mapM f l) as [bs'| |]; try discriminate. cbn [bind] in H.
    inversion H; subst bs. constructor; auto.
Qed.

Lemma Forall2_In_r {A B} (R : A -> B -> Prop) l l' b :
  Forall2 R l l' -> In b l' -> exists a, In a l /\ R a b.
Proof.
  induction 1 as [|x y l l' Hxy _ IH]; intros Hin; [destruct Hin|].
  destruct Hin as [<-|Hin].
  - exists x. split; [left; reflexivity|exact Hxy].
  - destruct (IH Hin) as (a & Ha & HR). exists a. split; [right; exact Ha|exact HR].
Qed.

Lemma allFunctionsOf_deepest text fs :
  allFunctionsOf text = Ok fs ->
  forall f, In f fs -> maxDepth f = max_brace_depth (code f).
Proof.
  unfold allFunctionsOf, extractFunctions. intros H f Hf.
  destruct (extractBodies text (str "func")) as [fs0| |] eqn:E;
    try discriminate.
  cbn [bind] in H.
  pose proof (@mapM_Forall2 _ _ getFunctionParameters _ fs0
                getFunctionParameters_keeps fs H) as HF.
  destruct (@Forall2_In_r _ _ _ _ _ f HF Hf) as (f0 & Hf0 & Hc & _ & _ & _ & Hm).
  rewrite Hc, Hm. apply (extractBodies_deepest _ _ E f0 Hf0).
Qed.

Lemma allFunctionsOf_total text : exists fs, allFunctionsOf text = Ok fs.
Proof.
  unfold allFunctionsOf, extractFunctions.
  destruct (Totality.extractBodies_total text (str "func")) as (fs0 & ->).
  cbn [bind].
  apply Totality.mapM_total. apply Totality.getFunctionParameters_total.
Qed.

Lemma extractTypes_inv text ts :
  extractTypes text = Ok ts ->
  exists enums structs classes,
    extractBodies text (str "enum") = Ok enums
    /\ extractBodies text (str "struct") = Ok structs
    /\ extractBodies text (str "class") = Ok classes
    /\ ts = (enums ++ structs) ++ classes.
Proof.
  unfold extractTypes. intros H.
  destruct (extractBodies text (str "enum")) as [es| |]; try discriminate.
  cbn [bind] in H.
  destruct (extractBodies text (str "struct")) as [ss| |]; try discriminate.
  cbn [bind] in H.
  destruct (extractBodies text (str "class")) as [cs| |]; try discriminate.
  cbn [bind] in H. inversion H. eauto 10.
Qed.

Lemma extractTypes_deepest text ts :
  extractTypes text = Ok ts ->
  forall t, In t ts -> maxDepth t = max_brace_depth (code t).
Proof.
  intros H t Ht.
  destruct (extractTypes_inv _ H) as (es & ss & cs & He & Hs & Hc & ->).
  apply in_app_or in Ht. destruct Ht as [Ht|Ht];
    [apply in_app_or in Ht; destruct Ht as [Ht|Ht]|].
  - apply (extractBodies_deepest _ _ He t Ht).
  - apply (extractBodies_deepest _ _ Hs t Ht).
  - apply (extractBodies_deepest _ _ Hc t Ht).
Qed.

Lemma flat_map_ext_in {A B} (f g : A -> list B) l :
  (forall a, In a l -> f a = g a) -> flat_map f l = flat_map g l.
Proof.
  induction l as [|a l IH]; intros H; [reflexivity|]. cbn [flat_map].
  rewrite (H a) by (left; reflexivity). f_equal. apply IH.
  intros x Hx. apply H. right. exact Hx.
Qed.

End Nesting.

(** X7: for each of the keywords [func], [enum], [struct] and [class],
    [extractBodies] returns for every text, and the [maxDepth] of each body
    is the deepest brace nesting that its code reaches: no prefix of the
    code is nested deeper, and some prefix is nested that deep. *)
Theorem maxDepth_is_the_deepest_nesting (text type : jsstring) :
  In type declaration_keywords ->
  exists bodies,
    extractBodies text type = Ok bodies
    /\ forall b, In b bodies ->
         maxDepth b = max_brace_depth (code b)
         /\ (forall k, (brace_depth (firstn k (code b)) <= maxDepth b)%Z)
         /\ (exists k, k <= length (code b)
                       /\ brace_depth (firstn k (code b)) = maxDepth b).
Proof.
  intros _.
  destruct (Totality.extractBodies_total text type) as (bodies & H).
  exists bodies. split; [exact H|]. intros b Hb.
  destruct (Nesting.extractBodies_deepest _ _ H b Hb) as (Hm & _).
  rewrite Hm. split; [reflexivity|].
  destruct (Nesting.max_brace_depth_spec (code b)) as (Hle & k & Hk & He).
  split; [exact Hle|]. exists k. split; [exact Hk|]. symmetry. exact He.
Qed.

Lemma maxDepth_is_the_deepest_nesting_witness :
  exists bodies,
    extractBodies (str "class A { func run() { if x { } } }") (str "class")
    = Ok bodies
    /\ forall b, In b bodies ->
         maxDepth b = max_brace_depth (code b)
         /\ (forall k, (brace_depth (firstn k (code b)) <= maxDepth b)%Z)
         /\ (exists k, k <= length (code b)
                       /\ brace_depth (firstn k (code b)) = maxDepth b).
Proof.
  apply (@maxDepth_is_the_deepest_nesting
           (str "class A { func run() { if x { } } }") (str "class")).
  right. right. right. left. reflexivity.
Defined.

(** X8: on the functions and the types of a text, [nestingFuncRule]
    reports the functions whose code nests braces deeper than 5 and
    [nestingTypeRule] the types whose code nests braces deeper than 1, in
    the order of the list, each with a warning that names that depth. *)
Theorem nesting_rules_report_deep_braces (text : jsstring) :
  exists allFunctions allTypes,
    allFunctionsOf text = Ok allFunctions
    /\ extractTypes text = Ok allTypes
    /\ nestingFuncRule text allFunctions
       = map nestingFuncError
           (filter (fun f => (5 <? max_brace_depth (code f))%Z) allFunctions)
    /\ nestingTypeRule text allTypes
       = map nestingTypeError
           (filter (fun t => (1 <? max_brace_depth (code t))%Z) allTypes).
Proof.
  destruct (Nesting.allFunctionsOf_total text) as (fs & Hfs).
  destruct (Totality.extractTypes_total text) as (ts & Hts).
  exists fs, ts. split; [exact Hfs|]. split; [exact Hts|]. split.
  - rewrite <- Exceptions.flat_map_filter. unfold nestingFuncRule.
    apply Nesting.flat_map_ext_in. intros f Hf.
    rewrite (Nesting.allFunctionsOf_deepest _ Hfs f Hf).
    rewrite Z.gtb_ltb. reflexivity.
  - rewrite <- Exceptions.flat_map_filter. unfold nestingTypeRule.
    apply Nesting.flat_map_ext_in. intros t Ht.
    rewrite (Nesting.extractTypes_deepest _ Hts t Ht).
    rewrite Z.gtb_ltb. reflexivity.
Qed.

(* ------------------------------------------------------------------ *)
(** ** Greedy quantifiers and the words of a tuple *)

Module Greedy.

Import RegExpFacts Bodies.

Lemma state_eta x k :
  k = endIndex x -> mkState k (captures x) = x.
Proof. intros ->. destruct x; reflexivity. Qed.

Lemma take_max_S max run :
  is_zero_max max = false ->
  take_max max (S run) = S (take_max (pred_max max) run).
Proof.
  destruct max as [[|k]|]; cbn; try discriminate; reflexivity.
Qed.

Lemma take_max_0 max : take_max max 0 = 0.
Proof. destruct max; cbn; [apply Nat.min_0_r|reflexivity]. Qed.

Lemma take_max_zero max run : is_zero_max max = true -> take_max max run = 0.
Proof. destruct max as [[|k]|]; cbn; try discriminate; reflexivity. Qed.

Section Run.
Variable input : jsstring.

(** a greedy quantifier over a class takes the whole run (up to its upper
    bound) when the continuation accepts that *)
Lemma greedy_run neg atoms :
  forall rest fuel min max x c z,
    skipn (endIndex x) input = rest ->
    length rest < fuel ->
    min <= take_max max (run_length (class_matches neg atoms) rest) ->
    c (mkState
         (endIndex x + take_max max (run_length (class_matches neg atoms) rest))
         (captures x)) = Some z ->
    RepeatMatcher (m input (Cls neg atoms)) [] fuel min max true x c = Some z.
Proof.
  induction rest as [|ch rest IH]; intros fuel min max x c z Hskip Hfuel Hmin Hc;
    (destruct fuel as [|fuel]; [simpl in Hfuel; lia|]).
  - cbn [run_length] in *. rewrite take_max_0 in *.
    assert (min = 0) by lia. subst min.
    rewrite Nat.add_0_r, state_eta in Hc by reflexivity.
    apply skipn_nil_nth in Hskip.
    cbn [RepeatMatcher Nat.eqb negb].
    destruct (is_zero_max max); [exact Hc|].
    unfold clear_captures. cbn [fold_left m].
    unfold match_char, char_at. rewrite Hskip. exact Hc.
  - apply skipn_cons_nth in Hskip. destruct Hskip as [Hnth Hrest].
    cbn [RepeatMatcher].
    destruct (is_zero_max max) eqn:Hz.
    { rewrite (take_max_zero _ _ Hz) in Hc.
      rewrite Nat.add_0_r, state_eta in Hc by reflexivity. exact Hc. }
    unfold clear_captures. cbn [fold_left m].
    unfold match_char, char_at. rewrite Hnth.
    cbn [run_length] in Hmin, Hc.
    destruct (class_matches neg atoms ch) eqn:Hp.
    + rewrite (take_max_S _ _ Hz) in Hmin, Hc.
      cbn [advance endIndex].
      replace (Nat.eqb (S (endIndex x)) (endIndex x)) with false
        by (symmetry; apply Nat.eqb_neq; lia).
      rewrite andb_false_r.
      assert (Hrec :
        RepeatMatcher (m input (Cls neg atoms)) [] fuel (pred min)
          (pred_max max) true (advance x) c = Some z).
      { apply (IH fuel (pred min) (pred_max max) (advance x) c z).
        - exact Hrest.
        - simpl in Hfuel. lia.
        - lia.
        - cbn [advance endIndex captures].
          replace (S (endIndex x)
                   + take_max (pred_max max)
                       (run_length (class_matches neg atoms) rest))
            with (endIndex x
                  + S (take_max (pred_max max)
                         (run_length (class_matches neg atoms) rest)))
            by lia.
          exact Hc. }
      match goal with
      | |- (if _ then ?X else _) = _ =>
          assert (HX : X = Some z) by exact Hrec; rewrite HX
      end.
      destruct (negb (Nat.eqb min 0)); reflexivity.
    + rewrite take_max_0 in Hmin, Hc.
      assert (min = 0) by lia. subst min. cbn [Nat.eqb negb].
      rewrite Nat.add_0_r, state_eta in Hc by reflexivity. exact Hc.
Qed.

Lemma m_greedy_run neg atoms min max x c z :
  endIndex x <= length input ->
  min <= take_max max
           (run_length (class_matches neg atoms) (skipn (endIndex x) input)) ->
  c (mkState
       (endIndex x
        + take_max max
            (run_length (class_matches neg atoms) (skipn (endIndex x) input)))
       (captures x)) = Some z ->
  m input (Rep (Cls neg atoms) min max true) x c = Some z.
Proof.
  intros Hx Hmin Hc. cbn [m groups].
  apply (@greedy_run neg atoms (skipn (endIndex x) input)); auto.
  rewrite length_skipn. lia.
Qed.

(** with a lower bound of at least one, nothing matches where the class
    does not *)
Lemma m_class_none neg atoms min max g x c :
  0 < min ->
  run_length (class_matches neg atoms) (skipn (endIndex x) input) = 0 ->
  is_zero_max max = false ->
  m input (Rep (Cls neg atoms) min max g) x c = None.
Proof.
  intros Hmin Hrun Hz. cbn [m groups RepeatMatcher]. rewrite Hz.
  replace (Nat.eqb min 0) with false by (symmetry; apply Nat.eqb_neq; lia).
  cbn [negb]. unfold clear_captures. cbn [fold_left m].
  unfold match_char, char_at.
  destruct (skipn (endIndex x) input) as [|ch rest] eqn:Hs.
  - apply skipn_nil_nth in Hs. rewrite Hs. reflexivity.
  - apply skipn_cons_nth in Hs. destruct Hs as [Hnth _]. rewrite Hnth.
    cbn [run_length] in Hrun.
    destruct (class_matches neg atoms ch); [discriminate|reflexivity].
Qed.

Lemma run_length_le p s : run_length p s <= length s.
Proof.
  induction s as [|c s IH]; cbn [run_length length]; [lia|].
  destruct (p c); lia.
Qed.

Lemma run_length_firstn p s : forallb p (firstn (run_length p s) s) = true.
Proof.
  induction s as [|c s IH]; cbn [run_length]; [reflexivity|].
  destruct (p c) eqn:E; [|reflexivity]. cbn [firstn forallb]. rewrite E. exact IH.
Qed.

Lemma run_length_stop p s :
  run_length p (skipn (run_length p s) s) = 0.
Proof.
  induction s as [|c s IH]; cbn [run_length]; [reflexivity|].
  destruct (p c) eqn:E; [exact IH|]. cbn [skipn run_length]. rewrite E.
  reflexivity.
Qed.

Lemma run_length_all p s : forallb p s = true -> run_length p s = length s.
Proof.
  induction s as [|c s IH]; cbn [forallb run_length length]; [reflexivity|].
  intros H. apply andb_prop in H. destruct H as (-> & H). rewrite (IH H).
  reflexivity.
Qed.

End Run.

End Greedy.

Module Words.

Import RegExpFacts Bodies Greedy.

Lemma words_from_run s :
  forall i j acc,
    words_from s i (Some (j, acc))
    = (j, rev acc ++ firstn (run_length is_word s) s)
      :: words_from (skipn (run_length is_word s) s)
           (i + run_length is_word s) None.
Proof.
  induction s as [|c s IH]; intros i j acc; cbn [words_from run_length].
  - cbn [firstn skipn words_from]. rewrite app_nil_r. reflexivity.
  - destruct (is_word c) eqn:E.
    + rewrite IH. cbn [firstn skipn rev].
      rewrite <- app_assoc. cbn [app].
      replace (S i + run_length is_word s) with (i + S (run_length is_word s))
        by lia.
      reflexivity.
    + cbn [firstn skipn words_from]. rewrite E, app_nil_r, Nat.add_0_r.
      reflexivity.
Qed.

Section Tokens.
Variable text : jsstring.

(** [varRegex] at an offset: the run of word characters that starts there *)
Lemma m_varRegex i :
  i <= length text ->
  m text varRegex (initial varRegex i) Some
  = if Nat.eqb (run_length is_word (skipn i text)) 0 then None
    else Some (mkState (i + run_length is_word (skipn i text)) [None]).
Proof.
  intros Hi.
  assert (Hcls : forall c, class_matches false [CWord] c = is_word c).
  { intros c. unfold class_matches. cbn [existsb atom_matches xorb].
    rewrite orb_false_r. reflexivity. }
  assert (Hrun : forall s, run_length (class_matches false [CWord]) s
                           = run_length is_word s).
  { induction s as [|c s IH]; cbn [run_length]; [reflexivity|].
    rewrite Hcls, IH. reflexivity. }
  destruct (Nat.eqb (run_length is_word (skipn i text)) 0) eqn:E.
  - apply Nat.eqb_eq in E. unfold varRegex, Plus, word.
    apply m_class_none; [lia| |reflexivity].
    unfold initial. cbn [endIndex]. rewrite Hrun. exact E.
  - apply Nat.eqb_neq in E. unfold varRegex, Plus, word.
    apply m_greedy_run; unfold initial; cbn [endIndex captures take_max];
      rewrite ?Hrun; [exact Hi|lia|reflexivity].
Qed.

Lemma exec_from_varRegex n :
  forall i,
    i + n = S (length text) ->
    (exec_from text varRegex n i = None
     /\ words_from (skipn i text) i None = [])
    \/ exists p,
         i <= p /\ 0 < run_length is_word (skipn p text)
         /\ exec_from text varRegex n i
            = Some (mkResult p
                      (mkState (p + run_length is_word (skipn p text)) [None]))
         /\ words_from (skipn i text) i None
            = (p, firstn (run_length is_word (skipn p text)) (skipn p text))
              :: words_from
                   (skipn (p + run_length is_word (skipn p text)) text)
                   (p + run_length is_word (skipn p text)) None.
Proof.
  induction n as [|n IH]; intros i Hn.
  - left. split; [reflexivity|]. rewrite skipn_all2 by lia. reflexivity.
  - cbn [exec_from]. rewrite m_varRegex by lia.
    destruct (skipn i text) as [|c rest] eqn:Hs.
    + cbn [run_length Nat.eqb].
      assert (Hlen : length text <= i).
      { apply skipn_nil_nth in Hs. apply nth_error_None in Hs. exact Hs. }
      assert (n = 0) by lia. subst n. left. split; reflexivity.
    + pose proof (skipn_cons_nth _ _ Hs) as (Hnth & Hrest).
      cbn [run_length words_from].
      destruct (is_word c) eqn:E.
      * cbn [Nat.eqb]. right. exists i. rewrite Hs. cbn [run_length].
        rewrite E. split; [lia|]. split; [lia|]. split; [reflexivity|].
        rewrite words_from_run. cbn [rev app firstn].
        replace (S i + run_length is_word rest)
          with (i + S (run_length is_word rest)) by lia.
        rewrite <- Hrest, skipn_skipn.
        replace (run_length is_word (skipn (S i) text) + S i)
          with (i + S (run_length is_word (skipn (S i) text))) by lia.
        reflexivity.
      * cbn [Nat.eqb]. rewrite <- Hrest.
        destruct (IH (S i)) as [(H1 & H2)|(p & Hp & Hr & H1 & H2)]; [lia| |].
        -- left. split; assumption.
        -- right. exists p. split; [lia|]. split; [exact Hr|].
           split; assumption.
Qed.

Lemma exec_loop_varRegex fuel :
  forall li,
    li <= length text -> length text - li < fuel ->
    exists ms,
      exec_loop text varRegex fuel li = Ok ms
      /\ map (fun mr => (index mr, matched text mr)) ms
         = words_from (skipn li text) li None.
Proof.
  induction fuel as [|fuel IH]; intros li Hli Hfuel; [lia|].
  cbn [exec_loop]. unfold exec.
  destruct (Nat.ltb (length text) li) eqn:E; [apply Nat.ltb_lt in E; lia|].
  destruct (@exec_from_varRegex (S (length text - li)) li)
    as [(H1 & H2)|(p & Hp & Hr & H1 & H2)]; [lia| |].
  - rewrite H1, H2. exists []. split; reflexivity.
  - rewrite H1, H2. unfold lastIndex. cbn [final endIndex].
    pose proof (run_length_le is_word (skipn p text)) as Hle.
    rewrite length_skipn in Hle.
    destruct (IH (p + run_length is_word (skipn p text))) as (ms & Hms & Hmap);
      [lia|lia|].
    rewrite Hms. cbn [bind]. eexists. split; [reflexivity|].
    cbn [map index]. rewrite Hmap. f_equal. f_equal.
    unfold matched, lastIndex, JSString.slice. cbn [index final endIndex].
    f_equal. lia.
Qed.

Lemma exec_all_varRegex :
  exists ms,
    exec_all text varRegex = Ok ms
    /\ map (fun mr => (index mr, matched text mr)) ms = words text.
Proof.
  unfold exec_all, words.
  destruct (@exec_loop_varRegex (length text + 2) 0) as (ms & H1 & H2);
    [lia|lia|].
  exists ms. split; [exact H1|exact H2].
Qed.

End Tokens.

Lemma getVariablesFromTuples_words tuple tupleIndex staticImmutable :
  getVariablesFromTuples tuple tupleIndex staticImmutable
  = Ok (map (fun jw => mkVar (snd jw) staticImmutable
                         (Z.of_nat (fst jw) + tupleIndex))
          (words (ToString tuple))).
Proof.
  unfold getVariablesFromTuples.
  destruct (exec_all_varRegex (ToString tuple)) as (ms & -> & <-).
  cbn [bind]. rewrite map_map. reflexivity.
Qed.

(** the words are runs of word characters that cannot be extended *)
Lemma words_from_spec s :
  forall i jw,
    In jw (words_from s i None) ->
    i <= fst jw /\ fst jw + length (snd jw) <= i + length s
    /\ snd jw <> []
    /\ forallb is_word (snd jw) = true
    /\ firstn (length (snd jw)) (skipn (fst jw - i) s) = snd jw
    /\ run_length is_word (skipn (fst jw - i + length (snd jw)) s) = 0
    /\ (i < fst jw ->
        exists c, nth_error s (fst jw - i - 1) = Some c /\ is_word c = false).
Proof.
  remember (length s) as n eqn:Hn. revert s Hn.
  induction n as [n IH] using lt_wf_ind. intros s Hn i jw Hin.
  destruct s as [|c s]; [destruct Hin|].
  cbn [words_from] in Hin. cbn [length] in Hn.
  destruct (is_word c) eqn:E.
  - rewrite words_from_run in Hin. cbn [rev app] in Hin.
    pose proof (run_length_le is_word s) as Hle.
    destruct Hin as [<-|Hin].
    + cbn [fst snd]. rewrite Nat.sub_diag. cbn [skipn length].
      rewrite firstn_length_le by exact Hle.
      split; [lia|]. split; [lia|]. split; [discriminate|].
      split; [cbn [forallb]; rewrite E; apply run_length_firstn|].
      split; [reflexivity|].
      split; [cbn [Nat.add skipn]; apply run_length_stop|].
      intros; lia.
    + assert (Hlt : length (skipn (run_length is_word s) s) < n).
      { rewrite length_skipn. lia. }
      destruct (IH _ Hlt _ eq_refl _ _ Hin)
        as (H1 & H2 & H3 & H4 & H5 & H6 & H7).
      rewrite length_skipn in H2.
      split; [lia|]. split; [lia|]. split; [exact H3|].
      split; [exact H4|].
      rewrite skipn_skipn in H5, H6.
      replace (fst jw - i) with (S (fst jw - (S i + run_length is_word s)
                                    + run_length is_word s)) by lia.
      cbn [skipn]. split; [exact H5|].
      split.
      { replace (S (fst jw - (S i + run_length is_word s)
                    + run_length is_word s) + length (snd jw))
          with (S (fst jw - (S i + run_length is_word s) + length (snd jw)
                   + run_length is_word s)) by lia.
        cbn [skipn]. exact H6. }
      intros _.
      destruct (Nat.eq_dec (fst jw) (S i + run_length is_word s)) as [He|Hne].
      * pose proof (run_length_stop is_word s) as Hstop.
        destruct (skipn (run_length is_word s) s) as [|c' s'] eqn:Hs.
        { destruct Hin. }
        cbn [run_length] in Hstop.
        (* a word cannot start right at the end of the run *)
        exfalso.
        rewrite He in H5. rewrite Nat.sub_diag in H5.
        cbn [Nat.add] in H5. rewrite Hs in H5.
        destruct (snd jw) as [|w ws] eqn:Hw; [congruence|].
        cbn [length firstn] in H5. inversion H5; subst w.
        cbn [forallb] in H4.
        destruct (is_word c'); discriminate.
      * destruct H7 as (c' & Hc' & Hw'); [lia|].
        exists c'. split; [|exact Hw'].
        rewrite nth_error_skipn in Hc'.
        match goal with
        | |- nth_error _ ?k = _ =>
            replace k
              with (S (run_length is_word s
                       + (fst jw - (S i + run_length is_word s) - 1))) by lia
        end.
        exact Hc'.
  - assert (Hlt : length s < n) by lia.
    destruct (IH _ Hlt _ eq_refl _ _ Hin)
      as (H1 & H2 & H3 & H4 & H5 & H6 & H7).
    split; [lia|]. split; [lia|]. split; [exact H3|].
    split; [exact H4|].
    replace (fst jw - i) with (S (fst jw - S i)) by lia.
    cbn [skipn Nat.add]. split; [exact H5|]. split; [exact H6|].
    intros _. destruct (Nat.eq_dec (fst jw) (S i)) as [He|Hne].
    + exists c. split; [|exact E].
      match goal with
      | |- nth_error _ ?k = _ => replace k with 0 by lia
      end.
      reflexivity.
    + destruct H7 as (c' & Hc' & Hw'); [lia|].
      exists c'. split; [|exact Hw'].
      match goal with
      | |- nth_error _ ?k = _ => replace k with (S (fst jw - S i - 1)) by lia
      end.
      exact Hc'.
Qed.

End Words.

(* ------------------------------------------------------------------ *)
(** ** The shapes of names *)

Module NameShapes.

Import RegExpFacts Bodies Exceptions Greedy.

Lemma class_alnum c :
  class_matches false
    [CRange (chr "A") (chr "Z"); CRange (chr "a") (chr "z");
     CRange (chr "0") (chr "9")] c = is_alnum c.
Proof.
  unfold class_matches, is_alnum, is_upper, is_lower, is_digit.
  cbn [existsb atom_matches xorb]. rewrite orb_false_r, orb_assoc.
  reflexivity.
Qed.

Lemma class_letter c :
  class_matches false [CRange (chr "A") (chr "Z"); CRange (chr "a") (chr "z")] c
  = (is_upper c || is_lower c)%bool.
Proof.
  unfold class_matches, is_upper, is_lower.
  cbn [existsb atom_matches xorb]. rewrite orb_false_r. reflexivity.
Qed.

Lemma class_lower c :
  class_matches false [CRange (chr "a") (chr "z")] c = is_lower c.
Proof.
  unfold class_matches, is_lower.
  cbn [existsb atom_matches xorb]. rewrite orb_false_r. reflexivity.
Qed.

Lemma class_upper c :
  class_matches false [CRange (chr "A") (chr "Z")] c = is_upper c.
Proof.
  unfold class_matches, is_upper.
  cbn [existsb atom_matches xorb]. rewrite orb_false_r. reflexivity.
Qed.

Lemma class_capital_digit c :
  class_matches false [CRange (chr "A") (chr "Z"); CRange (chr "0") (chr "9")] c
  = (is_upper c || is_digit c)%bool.
Proof.
  unfold class_matches, is_upper, is_digit.
  cbn [existsb atom_matches xorb]. rewrite orb_false_r. reflexivity.
Qed.

Lemma forallb_ext_eq {A} (p q : A -> bool) l :
  (forall a, p a = q a) -> forallb p l = forallb q l.
Proof.
  intros H. induction l as [|a l IH]; cbn [forallb]; [reflexivity|].
  rewrite H, IH. reflexivity.
Qed.

Lemma run_length_ext p q s :
  (forall c, p c = q c) -> run_length p s = run_length q s.
Proof.
  intros H. induction s as [|c s IH]; cbn [run_length]; [reflexivity|].
  rewrite H, IH. reflexivity.
Qed.

Lemma not_underscore c :
  (is_upper c || is_lower c || is_digit c)%bool = true ->
  N.eqb c (chr "_") = false.
Proof.
  intros H. destruct (N.eqb_spec c (chr "_")) as [->|]; [|reflexivity].
  vm_compute in H. discriminate.
Qed.

Section Shapes.
Variable s : jsstring.

Lemma chars_forallb (p : char -> bool) a :
  (forall j, a <= j < length s ->
             exists c, char_at s j = Some c /\ p c = true) ->
  forallb p (skipn a s) = true.
Proof.
  intros H. apply forallb_forall. intros c Hin.
  apply In_nth_error in Hin. destruct Hin as (j & Hj).
  assert (Hlt : j < length (skipn a s)) by (apply nth_error_Some; congruence).
  rewrite length_skipn in Hlt.
  rewrite Complexity.nth_error_skipn in Hj.
  destruct (H (a + j)) as (c' & Hc' & Hp); [lia|].
  unfold char_at in Hc'. congruence.
Qed.

(** how many characters a quantified class takes *)
Lemma Matches_Rep_count neg atoms r0 x y :
  Matches s r0 x y ->
  forall min max g,
    r0 = Rep (Cls neg atoms) min max g ->
    (forall k, max = Some k -> min <= k) ->
    min <= endIndex y - endIndex x
    /\ endIndex x <= endIndex y
    /\ forall k, max = Some k -> endIndex y - endIndex x <= k.
Proof.
  induction 1; intros min' max' g' Heq Hmax; try discriminate.
  - inv Heq. destruct max' as [[|k]|]; try discriminate.
    specialize (Hmax 0 eq_refl). split; [lia|]. split; [lia|].
    intros k Hk. lia.
  - inv Heq. split; [lia|]. split; [lia|]. intros k Hk. lia.
  - inv Heq. inv H0. unfold clear_captures in *.
    cbn [groups fold_left advance endIndex] in *.
    destruct (IHMatches2 (pred min') (pred_max max') g' eq_refl)
      as (Hlo & Hmono & Hup).
    { intros k Hk. destruct max' as [k'|]; [|discriminate].
      cbn in Hk. inv Hk. specialize (Hmax k' eq_refl). lia. }
    cbn [advance endIndex] in *.
    split; [lia|]. split; [lia|].
    intros k Hk. subst max'. destruct k as [|k]; [discriminate|].
    specialize (Hup k eq_refl). lia.
Qed.

Lemma Matches_Opt_Lit ch x y :
  Matches s (Opt (Lit ch)) x y ->
  endIndex y = endIndex x
  \/ (char_at s (endIndex x) = Some ch /\ endIndex y = S (endIndex x)).
Proof.
  unfold Opt. intros H. inv H.
  - discriminate.
  - left. reflexivity.
  - right. unfold clear_captures in *. cbn [groups fold_left] in *.
    match goal with
    | HL : Matches _ (Lit _) _ _ |- _ => inv HL
    end.
    match goal with
    | HR : Matches _ (Rep _ _ _ _) _ _ |- _ => inv HR
    end; try discriminate; cbn [advance endIndex]; auto.
Qed.

(** taking the optional character, or not *)
Lemma accepts_Opt_take ch r x c :
  char_at s (endIndex x) = Some ch ->
  accepts s r (advance x) c ->
  accepts s (Seq (Opt (Lit ch)) r) x c.
Proof.
  intros Hch (z & Hr). exists z. unfold Opt. cbn [m groups Nat.add].
  pose proof (char_at_lt _ _ Hch) as Hlt.
  destruct (length s - endIndex x) as [|n] eqn:En; [lia|].
  cbn [RepeatMatcher is_zero_max Nat.eqb negb pred pred_max].
  unfold clear_captures. cbn [fold_left].
  unfold match_char at 1. rewrite Hch, N.eqb_refl.
  cbn [advance endIndex andb].
  replace (Nat.eqb (S (endIndex x)) (endIndex x)) with false
    by (symmetry; apply Nat.eqb_neq; lia).
  rewrite Hr. reflexivity.
Qed.

Lemma accepts_Opt_skip ch r x c :
  accepts s r x c -> accepts s (Seq (Opt (Lit ch)) r) x c.
Proof.
  intros (z & Hr). unfold accepts, Opt. cbn [m groups Nat.add].
  cbn [RepeatMatcher is_zero_max Nat.eqb negb].
  match goal with
  | |- exists z', match ?X with Some _ => _ | None => _ end = _ =>
      destruct X as [z0|]
  end; [eauto|]. rewrite Hr. eauto.
Qed.

Lemma accepts_class neg atoms r x c ch :
  char_at s (endIndex x) = Some ch ->
  class_matches neg atoms ch = true ->
  accepts s r (advance x) c ->
  accepts s (Seq (Cls neg atoms) r) x c.
Proof.
  intros Hch Hp (z & Hr). exists z. cbn [m]. unfold match_char.
  rewrite Hch, Hp. exact Hr.
Qed.

Lemma accepts_Alt_l r1 r2 r x c :
  accepts s (Seq r1 r) x c -> accepts s (Seq (Alt r1 r2) r) x c.
Proof.
  intros (z & Hz). exists z. cbn [m] in *. rewrite Hz. reflexivity.
Qed.

Lemma accepts_Alt_r r1 r2 r x c :
  accepts s (Seq r2 r) x c -> accepts s (Seq (Alt r1 r2) r) x c.
Proof.
  intros (z & Hz). unfold accepts. cbn [m] in *.
  match goal with
  | |- exists z', match ?X with Some _ => _ | None => _ end = _ =>
      destruct X as [z0|]
  end; eauto.
Qed.

Lemma accepts_assoc r1 r2 r x c :
  accepts s (Seq r1 (Seq r2 r)) x c -> accepts s (Seq (Seq r1 r2) r) x c.
Proof. intros (z & Hz). exists z. exact Hz. Qed.

Lemma exec_from_anchored r n :
  forall i, 0 < i -> exec_from s (Seq Bol r) n i = None.
Proof.
  induction n as [|n IH]; intros i Hi; [reflexivity|].
  cbn [exec_from m]. unfold initial. cbn [endIndex].
  destruct i as [|i]; [lia|]. cbn [Nat.eqb]. apply IH. lia.
Qed.

Lemma test_anchored r :
  test s (Seq Bol r) = true <-> accepts s r (initial (Seq Bol r) 0) Some.
Proof.
  unfold accepts, test, exec. cbn [Nat.ltb Nat.leb exec_from m].
  unfold initial. cbn [endIndex Nat.eqb].
  destruct (m s r {| endIndex := 0;
                     captures := repeat None (slots (Seq Bol r)) |} Some)
    as [z|].
  - split; [eauto|reflexivity].
  - rewrite exec_from_anchored by lia.
    split; [discriminate|intros (z & Hz); discriminate].
Qed.

(** a greedy quantified class before the end of the input: it takes what
    is left when that is all of the class and within the bounds *)
Lemma accepts_class_to_end neg atoms min max x :
  endIndex x <= length s ->
  forallb (class_matches neg atoms) (skipn (endIndex x) s) = true ->
  min <= length s - endIndex x ->
  (forall k, max = Some k -> length s - endIndex x <= k) ->
  accepts s (Seq (Rep (Cls neg atoms) min max true) Eol) x Some.
Proof.
  intros Hx Hall Hmin Hmax.
  pose proof (run_length_all _ _ Hall) as Hrun. rewrite length_skipn in Hrun.
  assert (Htake : take_max max
                    (run_length (class_matches neg atoms) (skipn (endIndex x) s))
                  = length s - endIndex x).
  { rewrite Hrun. destruct max as [k|]; cbn [take_max]; [|reflexivity].
    specialize (Hmax k eq_refl). lia. }
  eexists. cbn [m]. apply m_greedy_run; [exact Hx|rewrite Htake; exact Hmin|].
  rewrite Htake. cbn [endIndex].
  replace (endIndex x + (length s - endIndex x)) with (length s) by lia.
  rewrite Nat.eqb_refl. reflexivity.
Qed.

End Shapes.

Lemma char_at_0 s c : char_at s 0 = Some c -> exists rest, s = c :: rest.
Proof. destruct s as [|c' rest]; cbn; [discriminate|]. intros H. inv H. eauto. Qed.

Lemma char_at_1 s c0 rest c :
  s = c0 :: rest -> char_at s 1 = Some c -> exists rest', rest = c :: rest'.
Proof.
  intros -> H. cbn in H. destruct rest as [|c' rest']; [discriminate|].
  cbn in H. inv H. eauto.
Qed.

(** [mutableTest] accepts the names of [mutableTest_shape], and no other *)
Lemma mutableTest_exact name :
  test name mutableTest = mutableTest_shape name.
Proof.
  apply eq_true_iff_eq. unfold mutableTest. cbn [Seqs].
  rewrite test_anchored.
  set (x0 := initial _ 0). split.
  - intros (z & Hz).
    destruct (m_sound _ _ _ _ Hz) as (y & HM & Hy). inv Hy.
    unfold L, Star, alnum in HM. inv_matches.
    match goal with
    | HO : Matches _ (Opt _) _ ?y |- _ => rename HO into HM1; rename y into y1
    end.
    match goal with
    | HS : Matches _ (Rep _ _ _ _) _ _ |- _ => rename HS into HM3
    end.
    match goal with
    | He : endIndex _ = length name |- _ => rename He into Eend
    end.
    apply Matches_Opt_Lit in HM1.
    assert (Hrest : forallb is_alnum (skipn (S (endIndex y1)) name) = true).
    { apply chars_forallb. intros j Hj.
      destruct (@Matches_Rep_class name false _ _ _ _ HM3 0 None true eq_refl j)
        as (c & Hc & Hp); [cbn [advance endIndex]; lia|].
      rewrite class_alnum in Hp. eauto. }
    match goal with
    | Hc : char_at name (endIndex y1) = Some ?c,
      Hp : class_matches _ _ ?c = true |- _ =>
        rewrite class_letter in Hp; rename Hc into Hch; rename Hp into Hletter;
        rename c into ch
    end.
    unfold mutableTest_shape, without_underscore.
    unfold x0, initial in HM1. cbn [endIndex] in HM1.
    destruct HM1 as [He|(Hu & He)]; rewrite He in *.
    + destruct (char_at_0 _ Hch) as (rest & ->).
      rewrite (not_underscore ch) by (rewrite Hletter; reflexivity).
      cbn [skipn] in Hrest. rewrite Hletter, Hrest. reflexivity.
    + destruct (char_at_0 _ Hu) as (rest & Hn).
      destruct (char_at_1 Hn Hch) as (rest' & ->). subst name.
      rewrite N.eqb_refl. cbn [skipn] in Hrest. rewrite Hletter, Hrest.
      reflexivity.
  - unfold mutableTest_shape, without_underscore. intros H.
    destruct name as [|c0 rest0]; [discriminate|].
    destruct (N.eqb c0 (chr "_")) eqn:Eu.
    + apply N.eqb_eq in Eu. subst c0.
      destruct rest0 as [|c rest]; [discriminate|].
      apply andb_prop in H. destruct H as (Hl & Hr).
      apply accepts_Opt_take; [reflexivity|].
      apply (@accepts_class _ _ _ _ _ _ c);
        [reflexivity|rewrite class_letter; exact Hl|].
      apply accepts_class_to_end; cbn [advance endIndex x0 initial skipn length];
        try lia; [|discriminate].
      rewrite (forallb_ext_eq _ is_alnum _ class_alnum). exact Hr.
    + apply andb_prop in H. destruct H as (Hl & Hr).
      apply accepts_Opt_skip.
      apply (@accepts_class _ _ _ _ _ _ c0);
        [reflexivity|rewrite class_letter; exact Hl|].
      apply accepts_class_to_end; cbn [advance endIndex x0 initial skipn length];
        try lia; [|discriminate].
      rewrite (forallb_ext_eq _ is_alnum _ class_alnum). exact Hr.
Qed.

(** [immutableTest] accepts the names of [immutableTest_shape], and no
    other *)
Lemma immutableTest_exact name :
  test name immutableTest = immutableTest_shape name.
Proof.
  apply eq_true_iff_eq. unfold immutableTest. cbn [Seqs].
  rewrite test_anchored.
  set (x0 := initial _ 0). split.
  - intros (z & Hz).
    destruct (m_sound _ _ _ _ Hz) as (y & HM & Hy). inv Hy.
    unfold L, Star, Plus, alnum in HM. inv_matches;
      match goal with
      | HO : Matches _ (Opt _) _ ?y |- _ =>
          rename HO into HM1; rename y into y1
      end;
      match goal with
      | HS : Matches _ (Rep _ _ _ _) _ _ |- _ => rename HS into HM3
      end;
      match goal with
      | He : endIndex _ = length name |- _ => rename He into Eend
      end;
      apply Matches_Opt_Lit in HM1;
      unfold x0, initial in HM1; cbn [endIndex] in HM1;
      unfold immutableTest_shape, without_underscore.
    + (* a lowercase letter, then letters and digits *)
      assert (Hrest : forallb is_alnum (skipn (S (endIndex y1)) name) = true).
      { apply chars_forallb. intros j Hj.
        destruct (@Matches_Rep_class name false _ _ _ _ HM3 0 None true
                    eq_refl j) as (c & Hc & Hp); [cbn [advance endIndex]; lia|].
        rewrite class_alnum in Hp. eauto. }
      match goal with
      | Hc : char_at name (endIndex y1) = Some ?c,
        Hp : class_matches _ _ ?c = true |- _ =>
          rewrite class_lower in Hp; rename Hc into Hch;
          rename Hp into Hletter; rename c into ch
      end.
      destruct HM1 as [He|(Hu & He)]; rewrite He in *.
      * destruct (char_at_0 _ Hch) as (rest & ->).
        rewrite (not_underscore ch)
          by (rewrite Hletter; rewrite orb_true_r; reflexivity).
        cbn [skipn] in Hrest. rewrite Hletter, Hrest. reflexivity.
      * destruct (char_at_0 _ Hu) as (rest & Hn).
        destruct (char_at_1 Hn Hch) as (rest' & ->). subst name.
        rewrite N.eqb_refl. cbn [skipn] in Hrest. rewrite Hletter, Hrest.
        reflexivity.
    + (* capitals and digits *)
      assert (Hall : forallb (fun c => is_upper c || is_digit c)
                       (skipn (endIndex y1) name) = true).
      { apply chars_forallb. intros j Hj.
        destruct (@Matches_Rep_class name false _ _ _ _ HM3 1 None true
                    eq_refl j) as (c & Hc & Hp); [lia|].
        rewrite class_capital_digit in Hp. eauto. }
      pose proof (@Matches_progress name _ _ _ HM3 eq_refl) as Hprog.
      destruct HM1 as [He|(Hu & He)]; rewrite He in *.
      * destruct name as [|c rest]; [simpl in *; lia|].
        cbn [skipn] in Hall. pose proof Hall as Hall'.
        cbn [forallb] in Hall'. apply andb_prop in Hall'.
        destruct Hall' as (Hc & _).
        rewrite (not_underscore c).
        2:{ destruct (is_upper c); [reflexivity|]. cbn [orb] in *.
            rewrite Hc. apply orb_true_r. }
        rewrite Hall. apply orb_true_r.
      * destruct (char_at_0 _ Hu) as (rest & Hn). subst name.
        rewrite N.eqb_refl. cbn [skipn] in Hall.
        destruct rest as [|c rest]; [simpl in *; lia|].
        rewrite Hall. apply orb_true_r.
  - unfold immutableTest_shape, without_underscore. intros H.
    assert (Hshape : forall x c rest,
      skipn (endIndex x) name = c :: rest ->
      (is_lower c && forallb is_alnum rest
       || forallb (fun c => is_upper c || is_digit c) (c :: rest))%bool = true ->
      accepts name
        (Seq (Alt (Seq (Cls false [CRange (chr "a") (chr "z")]) (Star alnum))
                  (Plus (Cls false [CRange (chr "A") (chr "Z");
                                    CRange (chr "0") (chr "9")])))
             Eol) x Some).
    { intros x c rest Hs Hc.
      pose proof (skipn_cons_nth _ _ Hs) as (Hnth & Hrest).
      assert (Hlen : endIndex x < length name)
        by (apply nth_error_Some; congruence).
      assert (Hl : length (skipn (endIndex x) name) = S (length rest))
        by (rewrite Hs; reflexivity).
      rewrite length_skipn in Hl.
      destruct (is_lower c && forallb is_alnum rest)%bool eqn:E1.
      - apply andb_prop in E1. destruct E1 as (Hlow & Hal).
        apply accepts_Alt_l. apply accepts_assoc.
        apply (@accepts_class _ _ _ _ _ _ c);
          [exact Hnth|rewrite class_lower; exact Hlow|].
        apply accepts_class_to_end; cbn [advance endIndex]; try lia;
          [|discriminate].
        rewrite Hrest, (forallb_ext_eq _ is_alnum _ class_alnum). exact Hal.
      - cbn [orb] in Hc. apply accepts_Alt_r.
        apply accepts_class_to_end; try lia; [|discriminate].
        rewrite Hs, (forallb_ext_eq _ _ _ class_capital_digit). exact Hc. }
    destruct name as [|c0 rest0]; [discriminate|].
    destruct (N.eqb c0 (chr "_")) eqn:Eu.
    + apply N.eqb_eq in Eu. subst c0.
      destruct rest0 as [|c rest]; [discriminate|].
      apply accepts_Opt_take; [reflexivity|].
      apply (Hshape _ c rest); [reflexivity|exact H].
    + apply accepts_Opt_skip.
      apply (Hshape _ c0 rest0); [reflexivity|exact H].
Qed.

(** [typeNameRegex] accepts the names of [typeName_shape], and no other *)
Lemma typeNameRegex_exact name :
  test name typeNameRegex = typeName_shape name.
Proof.
  apply eq_true_iff_eq. unfold typeNameRegex. cbn [Seqs].
  rewrite test_anchored.
  set (x0 := initial _ 0). split.
  - intros (z & Hz).
    destruct (m_sound _ _ _ _ Hz) as (y & HM & Hy). inv Hy.
    unfold Between, alnum in HM. inv_matches.
    match goal with
    | HS : Matches _ (Rep _ _ _ _) _ _ |- _ => rename HS into HM3
    end.
    match goal with
    | He : endIndex _ = length name |- _ => rename He into Eend
    end.
    match goal with
    | Hc : char_at name _ = Some ?c,
      Hp : class_matches _ _ ?c = true |- _ =>
        rewrite class_upper in Hp; rename Hc into Hch;
        rename Hp into Hup; rename c into ch
    end.
    unfold x0, initial in *. cbn [endIndex advance] in *.
    destruct (char_at_0 _ Hch) as (rest & ->).
    assert (Hrest : forallb is_alnum (skipn 1 (ch :: rest)) = true).
    { apply chars_forallb. intros j Hj.
      destruct (@Matches_Rep_class (ch :: rest) false _ _ _ _ HM3 2 (Some 39)
                  true eq_refl j) as (c & Hc & Hp);
        [cbn [advance endIndex]; lia|].
      rewrite class_alnum in Hp. eauto. }
    destruct (@Matches_Rep_count (ch :: rest) false _ _ _ _ HM3 2 (Some 39)
                true eq_refl) as (Hlo & _ & Hhi).
    { intros k Hk. inv Hk. lia. }
    specialize (Hhi 39 eq_refl). cbn [advance endIndex length] in *.
    unfold typeName_shape. cbn [skipn] in Hrest. rewrite Hup, Hrest.
    cbn [andb].
    replace (2 <=? length rest) with true
      by (symmetry; apply Nat.leb_le; lia).
    replace (length rest <=? 39) with true
      by (symmetry; apply Nat.leb_le; lia).
    reflexivity.
  - unfold typeName_shape. intros H.
    destruct name as [|c rest]; [discriminate|].
    apply andb_prop in H. destruct H as (H & Hhi).
    apply andb_prop in H. destruct H as (H & Hlo).
    apply andb_prop in H. destruct H as (Hup & Hal).
    apply Nat.leb_le in Hhi, Hlo.
    apply (@accepts_class _ _ _ _ _ _ c);
      [reflexivity|rewrite class_upper; exact Hup|].
    apply accepts_class_to_end; cbn [advance endIndex x0 initial skipn length];
      try lia.
    + rewrite (forallb_ext_eq _ is_alnum _ class_alnum). exact Hal.
    + intros k Hk. inv Hk. lia.
Qed.

End NameShapes.

(** X9: the two regexes of [testVariableName] accept exactly these names:
    [mutableTest] a name that, after one optional leading underscore, is a
    letter followed by letters and digits; [immutableTest] a name that,
    after one optional leading underscore, is a lowercase letter followed by
    letters and digits, or is capitals and digits only. *)
Theorem naming_tests_accept_exactly (name : jsstring) :
  test name mutableTest = mutableTest_shape name
  /\ test name immutableTest = immutableTest_shape name.
Proof.
  split; [apply NameShapes.mutableTest_exact|apply NameShapes.immutableTest_exact].
Qed.

(** X10: [testVariableName] passes a variable exactly when its name has 3
    to 40 characters and the shape of its test, [mutableTest] for a static
    immutable variable and [immutableTest] otherwise.  A finding quotes the
    name at the index of the variable; it is an error exactly when the name
    has fewer than 2 or more than 60 characters; it carries the too-short
    message exactly below 3 characters and the too-long message exactly
    above 40. *)
Theorem variable_name_verdicts (variable : Variable_) :
  let len := length (var_name variable) in
  let shape :=
    if staticImmutable variable then mutableTest_shape
    else immutableTest_shape in
  (testVariableName variable = None
   <-> 3 <= len <= 40 /\ shape (var_name variable) = true)
  /\ forall r,
       testVariableName variable = Some r ->
       raw_code r = var_name variable
       /\ raw_index r = Num (var_index variable)
       /\ (raw_severity r = error <-> len < 2 \/ 60 < len)
       /\ (raw_message r = tooShortMessage <-> len < 3)
       /\ (raw_message r = tooLongMessage <-> 40 < len).
Proof.
  intros len shape. unfold testVariableName. fold len.
  rewrite NameShapes.mutableTest_exact, NameShapes.immutableTest_exact.
  destruct (Nat.ltb_spec len 3) as [Hs|Hs].
  { split.
    - split; [discriminate|intros (Hl & _); lia].
    - intros r Hr. inversion Hr; subst r. cbn [raw_code raw_index raw_severity
        raw_message].
      split; [reflexivity|]. split; [reflexivity|].
      split; [|split].
      + destruct (Nat.ltb_spec len 2); split; try discriminate; try lia; auto.
      + split; [intros; lia|reflexivity].
      + split; [discriminate|intros; lia]. }
  destruct (Nat.ltb_spec 40 len) as [Hl|Hl].
  { split.
    - split; [discriminate|intros (Hl' & _); lia].
    - intros r Hr. inversion Hr; subst r. cbn [raw_code raw_index raw_severity
        raw_message].
      split; [reflexivity|]. split; [reflexivity|].
      split; [|split].
      + destruct (Nat.ltb_spec 60 len); split; try discriminate; try lia; auto.
      + split; [discriminate|intros; lia].
      + split; [intros; lia|reflexivity]. }
  unfold shape.
  destruct (staticImmutable variable); cbn [negb].
  - destruct (mutableTest_shape (var_name variable)); cbn [negb].
    + split; [split; [intros; split; [lia|reflexivity]|reflexivity]|].
      intros r Hr. discriminate.
    + split; [split; [discriminate|intros (_ & Hf); discriminate]|].
      intros r Hr. inversion Hr; subst r. cbn [raw_code raw_index raw_severity
        raw_message].
      split; [reflexivity|]. split; [reflexivity|].
      split; [split; [discriminate|lia]|].
      split; (split; [discriminate|intros; lia]).
  - destruct (immutableTest_shape (var_name variable)); cbn [negb].
    + split; [split; [intros; split; [lia|reflexivity]|reflexivity]|].
      intros r Hr. discriminate.
    + split; [split; [discriminate|intros (_ & Hf); discriminate]|].
      intros r Hr. inversion Hr; subst r. cbn [raw_code raw_index raw_severity
        raw_message].
      split; [reflexivity|]. split; [reflexivity|].
      split; [split; [discriminate|lia]|].
      split; (split; [discriminate|intros; lia]).
Qed.

(** X11: [typeNameRegex] accepts exactly a capital followed by 2 to 39
    letters and digits, and [typeNameRule] returns one warning for each
    type of the list, and then for each typealias of the text, whose name
    is not of that shape. *)
Theorem type_names_checked_by_shape (text : jsstring) (types : list Body) :
  (forall typeName, test typeName typeNameRegex = typeName_shape typeName)
  /\ typeNameRule text types
     = Ok (map typeNameError
             (filter (fun t => negb (typeName_shape (ToString (named_name t))))
                (map (fun t => mkNamed (code t) (body_index t) (name t)) types
                 ++ map (fun mr => mkNamed (matched text mr) (index mr)
                                     (group text mr 1))
                      (matches_of typealiasRegex text)))).
Proof.
  split; [apply NameShapes.typeNameRegex_exact|].
  unfold typeNameRule, matches_of.
  destruct (@RegExpFacts.exec_all_total text typealiasRegex eq_refl) as (ms & ->).
  cbn [bind]. f_equal.
  rewrite <- Exceptions.flat_map_filter.
  apply Nesting.flat_map_ext_in. intros t _.
  rewrite NameShapes.typeNameRegex_exact. reflexivity.
Qed.

(* ------------------------------------------------------------------ *)
(** ** The header of a declaration *)

Module Headers.

Import RegExpFacts Bodies Exceptions Greedy Complexity.

Lemma exec_from_m input r fuel :
  forall i mr,
    exec_from input r fuel i = Some mr ->
    m input r (initial r (index mr)) Some = Some (final mr).
Proof.
  induction fuel as [|fuel IH]; intros i mr H; [discriminate|].
  cbn [exec_from] in H.
  destruct (m input r (initial r i) Some) as [y|] eqn:E.
  - inv H. exact E.
  - apply (IH _ _ H).
Qed.

Lemma exec_m input r li mr :
  exec input r li = Some mr ->
  m input r (initial r (index mr)) Some = Some (final mr).
Proof.
  unfold exec. destruct (Nat.ltb (length input) li); [discriminate|].
  apply exec_from_m.
Qed.

Lemma class_space c : class_matches false [CSpace] c = is_space c.
Proof.
  unfold class_matches. cbn [existsb atom_matches xorb].
  apply orb_false_r.
Qed.

Lemma class_word c : class_matches false [CWord] c = is_word c.
Proof.
  unfold class_matches. cbn [existsb atom_matches xorb].
  apply orb_false_r.
Qed.

Lemma starts_with_split k :
  forall l, JSString.starts_with k l = true -> l = k ++ skipn (length k) l.
Proof.
  induction k as [|a k IH]; intros l H; [reflexivity|].
  destruct l as [|b l]; [discriminate|]. cbn [JSString.starts_with] in H.
  apply andb_prop in H. destruct H as (Hab & H). apply N.eqb_eq in Hab.
  subst b. cbn [app length skipn]. f_equal. apply IH. exact H.
Qed.

Lemma skipn_split {A} (l : list A) a b :
  a <= b -> skipn a l = firstn (b - a) (skipn a l) ++ skipn b l.
Proof.
  intros Hab. rewrite <- (firstn_skipn (b - a) (skipn a l)) at 1.
  rewrite skipn_skipn. replace (b - a + a) with b by lia. reflexivity.
Qed.

Lemma groups_Lits k : groups (Lits k) = [].
Proof.
  induction k as [|a k IH]; [reflexivity|].
  destruct k as [|b k]; [reflexivity|]. cbn [Lits groups app] in *. exact IH.
Qed.

Lemma slots_searchRegex ty : slots (searchRegex ty) = 2.
Proof.
  unfold slots, searchRegex. cbn [Seqs groups]. rewrite groups_Lits.
  reflexivity.
Qed.

Section Header.
Variable text : jsstring.

(** what a match of [searchRegex] reads: the keyword, whitespace, and as
    the name the whole run of word characters *)
Lemma searchRegex_match ty li dec :
  exec text (searchRegex ty) li = Some dec ->
  exists ws n,
    header_of ty (skipn (index dec) text) ws n
    /\ group text dec 1 = VStr n
    /\ lastIndex dec = index dec + length ty + length ws + length n
    /\ (index dec = 0 \/ at_word_boundary text (index dec) = true).
Proof.
  intros Hexec.
  pose proof (exec_sound _ _ _ Hexec) as (_ & Hidx & _).
  pose proof (exec_m _ _ _ Hexec) as Hm.
  set (x0 := initial (searchRegex ty) (index dec)) in *.
  unfold searchRegex in Hm. cbn [Seqs] in Hm.
  (* the anchor *)
  destruct (@m_sound text (Alt Bol WordB) x0
              (fun y => m text (Seq (Lits ty)
                                  (Seq (Plus space) (Grp 1 (Plus word)))) y Some)
              (final dec) Hm) as (y1 & HM1 & Hm1).
  assert (Hy1 : y1 = x0 /\ (index dec = 0
                            \/ at_word_boundary text (index dec) = true)).
  { inv HM1; inv_matches; unfold x0, initial in *; cbn [endIndex] in *; auto. }
  destruct Hy1 as (-> & Hanchor). clear HM1.
  (* the keyword *)
  cbn [m] in Hm1. fold (m text) in Hm1.
  change (m text (Lits ty) x0
            (fun y => m text (Seq (Plus space) (Grp 1 (Plus word))) y Some)
          = Some (final dec)) in Hm1.
  rewrite m_Lits in Hm1.
  destruct (JSString.starts_with ty (skipn (endIndex x0) text)) eqn:Hty;
    [|discriminate].
  unfold x0, initial in Hty, Hm1. cbn [endIndex captures] in Hty, Hm1.
  set (y2 := mkState (index dec + length ty)
               (repeat None (slots (Seqs [Alt Bol WordB; Lits ty; Plus space;
                                          Grp 1 (Plus word)])))) in *.
  (* the whitespace *)
  destruct (@m_sound text (Plus space) y2
              (fun y => m text (Grp 1 (Plus word)) y Some)
              (final dec) Hm1) as (y3 & HM3 & Hm3).
  pose proof (@Matches_progress text _ _ _ HM3 eq_refl) as Hprog.
  pose proof (Matches_captures_length HM3) as Hcap.
  assert (Hy2len : endIndex y2 <= length text).
  { pose proof (starts_with_length _ _ Hty) as Hl. rewrite length_skipn in Hl.
    unfold y2. cbn [endIndex]. lia. }
  pose proof (Matches_bound HM3 Hy2len) as Hy3len.
  assert (Hws : forallb is_space
                  (firstn (endIndex y3 - endIndex y2) (skipn (endIndex y2) text))
                = true).
  { apply forallb_forall. intros c Hin. apply In_nth_error in Hin.
    destruct Hin as (j & Hj).
    assert (Hjlt : j < endIndex y3 - endIndex y2).
    { assert (j < length (firstn (endIndex y3 - endIndex y2)
                            (skipn (endIndex y2) text)))
        by (apply nth_error_Some; congruence).
      rewrite length_firstn in H. lia. }
    rewrite nth_error_firstn in Hj.
    destruct (Nat.ltb_spec j (endIndex y3 - endIndex y2)); [|lia].
    rewrite nth_error_skipn in Hj.
    destruct (@Matches_Rep_class text false [CSpace] _ _ _ HM3 1 None true
                eq_refl (endIndex y2 + j)) as (c' & Hc' & Hp); [lia|].
    rewrite class_space in Hp. unfold char_at in Hc'. congruence. }
  (* the name *)
  cbn [m] in Hm3. fold (m text) in Hm3.
  set (run := run_length is_word (skipn (endIndex y3) text)) in *.
  assert (Hrun : run_length (class_matches false [CWord])
                   (skipn (endIndex y3) text) = run).
  { apply NameShapes.run_length_ext. apply class_word. }
  destruct (Nat.eq_dec run 0) as [Hz|Hnz].
  { exfalso. unfold Plus, word in Hm3.
    rewrite (@m_class_none text false [CWord] 1 None true y3) in Hm3;
      [discriminate|lia|rewrite Hrun; exact Hz|reflexivity]. }
  assert (Hfinal : final dec
                   = set_capture 1 (Some (endIndex y3, endIndex y3 + run))
                       (mkState (endIndex y3 + run) (captures y3))).
  { unfold Plus, word in Hm3.
    erewrite (@m_greedy_run text false [CWord] 1 None y3) in Hm3.
    - inv Hm3. reflexivity.
    - exact Hy3len.
    - cbn [take_max]. rewrite Hrun. lia.
    - cbn [take_max]. rewrite Hrun. cbn [endIndex]. reflexivity. }
  exists (firstn (endIndex y3 - endIndex y2) (skipn (endIndex y2) text)),
         (firstn run (skipn (endIndex y3) text)).
  pose proof (run_length_le is_word (skipn (endIndex y3) text)) as Hrle.
  fold run in Hrle. rewrite length_skipn in Hrle.
  assert (Hlen_ws : length (firstn (endIndex y3 - endIndex y2)
                              (skipn (endIndex y2) text))
                    = endIndex y3 - endIndex y2).
  { rewrite length_firstn, length_skipn. lia. }
  assert (Hlen_n : length (firstn run (skipn (endIndex y3) text)) = run).
  { rewrite length_firstn, length_skipn. lia. }
  split; [|split; [|split]].
  - exists (skipn run (skipn (endIndex y3) text)).
    split.
    + rewrite (starts_with_split _ _ Hty) at 1. f_equal.
      rewrite skipn_skipn.
      replace (length ty + index dec) with (endIndex y2)
        by (unfold y2; cbn [endIndex]; lia).
      rewrite (@skipn_split _ text (endIndex y2) (endIndex y3)) at 1 by lia.
      f_equal. symmetry. apply firstn_skipn.
    + split.
      { intros Hnil. rewrite Hnil in Hlen_ws. cbn [length] in Hlen_ws. lia. }
      split; [exact Hws|].
      split.
      { intros Hnil. rewrite Hnil in Hlen_n. cbn [length] in Hlen_n. lia. }
      split; [apply run_length_firstn|apply run_length_stop].
  - unfold group. rewrite Hfinal. cbn [set_capture captures].
    rewrite nth_set_nth.
    + unfold JSString.slice.
      replace (endIndex y3 + run - endIndex y3) with run by lia. reflexivity.
    + rewrite Hcap. unfold y2. cbn [captures]. rewrite repeat_length.
      fold (searchRegex ty). rewrite slots_searchRegex. lia.
  - unfold lastIndex. rewrite Hfinal. cbn [set_capture endIndex].
    rewrite Hlen_ws, Hlen_n. unfold y2 in *. cbn [endIndex] in *. lia.
  - exact Hanchor.
Qed.

End Header.

Lemma exec_all_increasing text r ms :
  nullable r = false ->
  exec_all text r = Ok ms ->
  StronglySorted (fun a b => index a < index b) ms.
Proof.
  intros Hn H.
  destruct (Findings.exec_loop_sorted _ _ _ _ H) as (_ & Hs).
  pose proof (exec_all_Forall _ _ H) as Hall. rewrite Forall_forall in Hall.
  clear H. induction Hs as [|a l Hs IH Ha]; constructor.
  - apply IH. intros x Hx. apply Hall. right. exact Hx.
  - destruct (Hall a (or_introl eq_refl)) as (li & Hexec).
    pose proof (@exec_progress text r li a Hn Hexec) as Hp.
    eapply Forall_impl; [|exact Ha]. cbn beta. intros b Hb. lia.
Qed.

Lemma captureBody_at_most_one text ty dec bs :
  captureBody text ty dec = Ok bs -> bs = [] \/ exists b, bs = [b].
Proof.
  unfold captureBody. intros H.
  destruct (brace_loop _ _ _ _ _ _) as [[[d c] md]| |]; try discriminate.
  cbn [bind] in H.
  destruct ((d =? 0)%Z && negb (string_eqb c []))%bool; inv H; eauto.
Qed.

Lemma captureBodies_increasing text ty decs :
  StronglySorted (fun a b => index a < index b) decs ->
  forall bodies,
    captureBodies text ty decs = Ok bodies ->
    StronglySorted (fun a b => body_index a < body_index b) bodies.
Proof.
  induction 1 as [|dec decs Hs IH Hdec]; intros bodies H;
    cbn [captureBodies] in H.
  - inv H. constructor.
  - destruct (captureBody text ty dec) as [bs| |] eqn:E1; try discriminate.
    cbn [bind] in H.
    destruct (captureBodies text ty decs) as [bs'| |] eqn:E2; try discriminate.
    cbn [bind] in H. inv H. specialize (IH _ eq_refl).
    destruct (captureBody_at_most_one _ _ _ E1) as [->|(b & ->)]; [exact IH|].
    cbn [app]. constructor; [exact IH|].
    apply Forall_forall. intros b' Hb'.
    destruct (Nesting.captureBodies_deepest _ _ _ E2 b' Hb')
      as (_ & _ & _ & _ & dec' & Hd' & Hi' & _).
    destruct (Nesting.captureBody_deepest _ _ _ E1 b (or_introl eq_refl))
      as (_ & _ & Hi & _).
    rewrite Hi, Hi'. rewrite Forall_forall in Hdec. apply Hdec. exact Hd'.
Qed.

Lemma space_not_brace c : is_space c = true -> is_brace c = false.
Proof.
  intros H. unfold is_brace.
  destruct (N.eqb_spec c (chr "{")) as [->|_]; [vm_compute in H; discriminate|].
  destruct (N.eqb_spec c (chr "}")) as [->|_]; [vm_compute in H; discriminate|].
  reflexivity.
Qed.

Lemma word_not_brace c : is_word c = true -> is_brace c = false.
Proof.
  intros H. unfold is_brace.
  destruct (N.eqb_spec c (chr "{")) as [->|_]; [vm_compute in H; discriminate|].
  destruct (N.eqb_spec c (chr "}")) as [->|_]; [vm_compute in H; discriminate|].
  reflexivity.
Qed.

Lemma forallb_Forall_impl {A} (p : A -> bool) (Q : A -> Prop) l :
  (forall a, p a = true -> Q a) -> forallb p l = true -> Forall Q l.
Proof.
  intros H Hl. apply Forall_forall. intros a Ha.
  rewrite forallb_forall in Hl. auto.
Qed.

(** a prefix that ends with a brace, after a header without braces, holds
    the header *)
Lemma code_holds_header (P rest : jsstring) k b :
  Forall (fun c => is_brace c = false) P ->
  0 < k ->
  nth_error (P ++ rest) (k - 1) = Some b -> is_brace b = true ->
  firstn k (P ++ rest) = P ++ firstn (k - length P) rest.
Proof.
  intros HP Hk Hnth Hb.
  assert (Hlen : length P <= k - 1).
  { destruct (Nat.le_gt_cases (length P) (k - 1)) as [H|H]; [exact H|].
    rewrite nth_error_app1 in Hnth by exact H.
    apply nth_error_In in Hnth. rewrite Forall_forall in HP.
    rewrite (HP b Hnth) in Hb. discriminate. }
  rewrite firstn_app. rewrite firstn_all2 by lia. reflexivity.
Qed.

Lemma run_length_firstn_0 p k (s : jsstring) :
  run_length p s = 0 -> run_length p (firstn k s) = 0.
Proof.
  destruct s as [|c s]; [rewrite firstn_nil; trivial|].
  destruct k as [|k]; [reflexivity|]. cbn [run_length firstn].
  destruct (p c); [discriminate|reflexivity].
Qed.

Lemma extractBodies_headers text ty bodies :
  Forall (fun c => is_brace c = false) ty ->
  extractBodies text ty = Ok bodies ->
  StronglySorted (fun a b => body_index a < body_index b) bodies
  /\ forall b, In b bodies ->
       exists ws n body,
         header_of ty (skipn (body_index b) text) ws n
         /\ name b = VStr n
         /\ code b = ty ++ ws ++ n ++ body
         /\ (body_index b = 0 \/ at_word_boundary text (body_index b) = true)
         /\ header_of ty (code b) ws n.
Proof.
  intros Hty H. unfold extractBodies in H.
  destruct (exec_all text (searchRegex ty)) as [decs| |] eqn:E;
    try discriminate.
  cbn [bind] in H.
  pose proof (@exec_all_increasing text (searchRegex ty) decs
                (searchRegex_not_nullable ty) E) as Hs.
  split; [apply (@captureBodies_increasing text ty decs Hs bodies H)|].
  intros b Hb.
  destruct (Nesting.captureBodies_deepest _ _ _ H b Hb)
    as (_ & _ & _ & _ & dec & Hd & Hi & Hname).
  pose proof (exec_all_Forall _ _ E) as Hall. rewrite Forall_forall in Hall.
  destruct (Hall dec Hd) as (li & Hexec).
  destruct (@searchRegex_match text ty li dec Hexec)
    as (ws & n & Hh & Hg & _ & Hanchor).
  pose proof (exec_sound _ _ _ Hexec) as (_ & Hidx & _).
  destruct (captureBodies_spec text ty decs) as (bodies' & Hb' & Hspec).
  rewrite H in Hb'. inv Hb'.
  destruct (Hspec b Hb) as (Hcode & (Hk & _ & c & Hc & Hbrace) & _).
  assert (Hsub : JSString.substring_from text (Z.of_nat (body_index b))
                 = skipn (body_index b) text).
  { unfold JSString.substring_from, JSString.clamp. rewrite Nat2Z.id.
    rewrite Nat.min_l by lia. reflexivity. }
  rewrite Hsub in *. rewrite Hi in *.
  destruct Hh as (rest & Hs' & Hws0 & Hws & Hn0 & Hn & Hstop).
  assert (HP : Forall (fun c => is_brace c = false) (ty ++ ws ++ n)).
  { apply Forall_app. split; [exact Hty|]. apply Forall_app. split.
    - apply (@forallb_Forall_impl _ is_space _ ws space_not_brace Hws).
    - apply (@forallb_Forall_impl _ is_word _ n word_not_brace Hn). }
  exists ws, n, (firstn (length (code b) - length (ty ++ ws ++ n)) rest).
  split; [exists rest; auto 10|].
  split; [rewrite Hname; exact Hg|].
  assert (Hcb : code b
                = ty ++ ws ++ n
                  ++ firstn (length (code b) - length (ty ++ ws ++ n)) rest).
  { rewrite Hcode at 1. rewrite Hs' in Hc |- *.
    replace (ty ++ ws ++ n ++ rest) with ((ty ++ ws ++ n) ++ rest) in Hc |- *
      by (rewrite <- !app_assoc; reflexivity).
    rewrite (@code_holds_header _ _ _ c HP (proj1 Hk) Hc Hbrace).
    rewrite <- !app_assoc. reflexivity. }
  split; [exact Hcb|]. split; [exact Hanchor|].
  exists (firstn (length (code b) - length (ty ++ ws ++ n)) rest).
  split; [exact Hcb|].
  repeat (split; [assumption|]). apply run_length_firstn_0. exact Hstop.
Qed.

End Headers.

(** X12: for each of the keywords [func], [enum], [struct] and [class],
    [extractBodies] returns the declarations in the order of the text, at
    increasing offsets.  At the
    offset of each, the text reads the keyword, whitespace and the name,
    which is the whole run of word characters there; the code starts with
    these; and the keyword starts the text or stands at a word boundary. *)
Theorem declarations_start_with_their_header (text type : jsstring) :
  In type declaration_keywords ->
  exists bodies,
    extractBodies text type = Ok bodies
    /\ StronglySorted (fun a b => body_index a < body_index b) bodies
    /\ forall b, In b bodies ->
         exists ws n body,
           header_of type (skipn (body_index b) text) ws n
           /\ name b = VStr n
           /\ code b = type ++ ws ++ n ++ body
           /\ (body_index b = 0
               \/ at_word_boundary text (body_index b) = true).
Proof.
  intros Hkw.
  assert (Hty : Forall (fun c => is_brace c = false) type)
    by (destruct Hkw as [<-|[<-|[<-|[<-|[]]]]]; repeat constructor).
  destruct (Totality.extractBodies_total text type) as (bodies & H).
  exists bodies. split; [exact H|].
  destruct (@Headers.extractBodies_headers text type bodies Hty H) as (Hs & Hb).
  split; [exact Hs|]. intros b Hin.
  destruct (Hb b Hin) as (ws & n & body & H1 & H2 & H3 & H4 & _).
  exists ws, n, body. auto.
Qed.

Lemma declarations_start_with_their_header_witness :
  exists bodies,
    extractBodies (str "class A { func run() { } }") (str "func") = Ok bodies
    /\ StronglySorted (fun a b => body_index a < body_index b) bodies
    /\ forall b, In b bodies ->
         exists ws n body,
           header_of (str "func")
             (skipn (body_index b) (str "class A { func run() { } }")) ws n
           /\ name b = VStr n
           /\ code b = str "func" ++ ws ++ n ++ body
           /\ (body_index b = 0
               \/ at_word_boundary (str "class A { func run() { } }")
                    (body_index b) = true).
Proof.
  apply (@declarations_start_with_their_header
           (str "class A { func run() { } }") (str "func")).
  left. reflexivity.
Defined.

(* ------------------------------------------------------------------ *)
(** ** The parameter text of a header *)

Module ParamsText.

Import RegExpFacts Bodies Parameters.

Lemma indexOf_from_spec p s :
  forall i,
    (JSString.indexOf_from p s i = (-1)%Z
     /\ forall j, j <= length s -> JSString.starts_with p (skipn j s) = false)
    \/ exists j,
         JSString.indexOf_from p s i = Z.of_nat (i + j)
         /\ j <= length s
         /\ JSString.starts_with p (skipn j s) = true
         /\ forall j', j' < j -> JSString.starts_with p (skipn j' s) = false.
Proof.
  induction s as [|c s IH]; intros i; cbn [JSString.indexOf_from].
  - destruct (JSString.starts_with p []) eqn:E.
    + right. exists 0. rewrite Nat.add_0_r. cbn [skipn length].
      split; [reflexivity|]. split; [lia|]. split; [exact E|]. intros; lia.
    + left. split; [reflexivity|]. intros j Hj. cbn [length] in Hj.
      assert (j = 0) by lia. subst j. exact E.
  - destruct (JSString.starts_with p (c :: s)) eqn:E.
    + right. exists 0. rewrite Nat.add_0_r. cbn [skipn].
      split; [reflexivity|]. split; [lia|]. split; [exact E|]. intros; lia.
    + destruct (IH (S i)) as [(H1 & H2)|(j & H1 & H2 & H3 & H4)].
      * left. split; [exact H1|]. intros [|j] Hj; [exact E|].
        cbn [skipn]. apply H2. cbn [length] in Hj. lia.
      * right. exists (S j). split; [rewrite H1; f_equal; lia|].
        cbn [length skipn]. split; [lia|]. split; [exact H3|].
        intros [|j'] Hj'; [exact E|]. cbn [skipn]. apply H4. lia.
Qed.

(** where [indexOf] finds a single character *)
Lemma indexOf_char s ch :
  (JSString.indexOf s [ch] = (-1)%Z /\ ~ In ch s)
  \/ exists j,
       JSString.indexOf s [ch] = Z.of_nat j
       /\ nth_error s j = Some ch
       /\ ~ In ch (firstn j s).
Proof.
  assert (Hsw : forall l, JSString.starts_with [ch] l = true
                          <-> exists l', l = ch :: l').
  { intros [|a l]; cbn [JSString.starts_with].
    - split; [discriminate|intros (l' & H); discriminate].
    - rewrite andb_true_r. split.
      + intros H. apply N.eqb_eq in H. subst a. eauto.
      + intros (l' & H). inv H. apply N.eqb_refl. }
  unfold JSString.indexOf.
  destruct (indexOf_from_spec [ch] s 0) as [(H1 & H2)|(j & H1 & H2 & H3 & H4)].
  - left. split; [exact H1|]. intros Hin. apply In_nth_error in Hin.
    destruct Hin as (j & Hj).
    assert (Hlt : j < length s) by (apply nth_error_Some; congruence).
    specialize (H2 j (Nat.lt_le_incl _ _ Hlt)).
    assert (Hs : JSString.starts_with [ch] (skipn j s) = true).
    { apply Hsw. destruct (skipn j s) as [|a l] eqn:E.
      - apply skipn_nil_nth in E. congruence.
      - apply skipn_cons_nth in E. destruct E as (E & _).
        rewrite Hj in E. inv E. eauto. }
    congruence.
  - right. exists j. split; [exact H1|].
    apply Hsw in H3. destruct H3 as (l' & Hl').
    apply skipn_cons_nth in Hl'. destruct Hl' as (Hnth & _).
    split; [exact Hnth|].
    intros Hin. apply In_nth_error in Hin. destruct Hin as (j' & Hj').
    assert (Hlt : j' < length (firstn j s)) by (apply nth_error_Some; congruence).
    rewrite length_firstn in Hlt.
    rewrite nth_error_firstn in Hj'.
    destruct (Nat.ltb_spec j' j); [|lia].
    specialize (H4 j' H).
    assert (Hs : JSString.starts_with [ch] (skipn j' s) = true).
    { apply Hsw. destruct (skipn j' s) as [|a l] eqn:E.
      - apply skipn_nil_nth in E. congruence.
      - apply skipn_cons_nth in E. destruct E as (E & _).
        rewrite Hj' in E. inv E. eauto. }
    congruence.
Qed.

Lemma first_zero_lt ds k : first_zero ds = Some k -> k < length ds.
Proof.
  revert k. induction ds as [|d ds IH]; intros k H; [discriminate|].
  cbn [first_zero] in H. destruct (d =? 0)%Z.
  - inv H. simpl. lia.
  - destruct (first_zero ds) as [k'|]; [|discriminate]. inv H.
    specialize (IH k' eq_refl). simpl. lia.
Qed.

Lemma depths_length d visit : length (depths d visit) = length visit.
Proof.
  revert d. induction visit as [|c visit IH]; intros d; [reflexivity|].
  cbn [depths length]. rewrite IH. reflexivity.
Qed.

(** the [params] and [paramCount] the counting loop leaves *)
Lemma params_of_functionInfo functionInfo :
  let paramStartIndex := JSString.indexOf functionInfo (str "(") in
  let '(paramCount, paramEndIndex) := countParameters functionInfo in
  JSString.substring functionInfo (paramStartIndex + 1) (paramEndIndex - 1)
  = params_text functionInfo
  /\ (1 <= paramCount)%Z
  /\ ((paramStartIndex < 0)%Z -> paramCount = 1%Z).
Proof.
  cbv zeta. unfold countParameters, params_text.
  rewrite param_loop_spec.
  set (start := JSString.indexOf functionInfo (str "(")).
  split; [|split].
  - destruct (indexOf_char functionInfo (chr "(")) as [(H1 & H2)|(j & H1 & H2 & H3)];
      change (JSString.indexOf functionInfo [chr "("]) with start in H1;
      rewrite H1.
    + (* no parenthesis: the loop reads charAt(-1) and stops *)
      cbn [Z.ltb Z.compare visited depths first_zero].
      change (paren_delta []) with 0%Z. cbn [Z.add Z.eqb first_zero].
      reflexivity.
    + replace (Z.of_nat j <? 0)%Z with false
        by (symmetry; apply Z.ltb_ge; lia).
      rewrite Nat2Z.id.
      assert (Hj : j < length functionInfo)
        by (apply nth_error_Some; congruence).
      destruct (first_zero (depths 0 (visited functionInfo (Z.of_nat j))))
        as [k|] eqn:Ek.
      * pose proof (first_zero_lt _ Ek) as Hk.
        rewrite depths_length in Hk. unfold visited in Hk.
        replace (Z.of_nat j <? 0)%Z with false in Hk
          by (symmetry; apply Z.ltb_ge; lia).
        rewrite length_map, length_skipn, Nat2Z.id in Hk.
        unfold JSString.substring, JSString.clamp.
        replace (Z.to_nat (Z.of_nat j + 1)) with (j + 1) by lia.
        replace (Z.to_nat (Z.of_nat j + Z.of_nat k + 1 - 1)) with (j + k) by lia.
        rewrite (Nat.min_l (j + 1)) by lia.
        rewrite (Nat.min_l (j + k)) by lia.
        destruct (Nat.le_gt_cases (j + 1) (j + k)) as [Hle|Hgt].
        -- rewrite Nat.min_l, Nat.max_r by lia. reflexivity.
        -- (* the parenthesis itself cannot close the scan *)
           exfalso. assert (k = 0) by lia. subst k.
           unfold visited in Ek.
           replace (Z.of_nat j <? 0)%Z with false in Ek
             by (symmetry; apply Z.ltb_ge; lia).
           rewrite Nat2Z.id in Ek.
           destruct (skipn j functionInfo) as [|a l] eqn:Es;
             [simpl in Ek; discriminate|].
           apply skipn_cons_nth in Es. destruct Es as (Es & _).
           rewrite H2 in Es. inv Es.
           cbn [map depths first_zero] in Ek.
           change (paren_delta [chr "("]) with 1%Z in Ek.
           cbn [Z.add Z.eqb] in Ek.
           destruct (first_zero _) in Ek; discriminate.
      * unfold JSString.substring, JSString.clamp.
        replace (Z.to_nat (Z.of_nat j + 1)) with (j + 1) by lia.
        replace (Z.to_nat (-1 - 1)) with 0 by reflexivity.
        rewrite (Nat.min_l (j + 1)) by lia.
        cbn [Nat.min]. rewrite Nat.min_0_r, Nat.max_0_r.
        unfold JSString.slice. cbn [skipn]. rewrite Nat.sub_0_r. reflexivity.
  - lia.
  - intros Hneg.
    destruct (indexOf_char functionInfo (chr "(")) as [(H1 & H2)|(j & H1 & H2 & H3)];
      change (JSString.indexOf functionInfo [chr "("]) with start in H1; [|lia].
    rewrite H1. cbn [Z.ltb Z.compare visited scanned depths first_zero].
    change (paren_delta []) with 0%Z. cbn [Z.add Z.eqb first_zero].
    reflexivity.
Qed.

End ParamsText.

(* ------------------------------------------------------------------ *)
(** ** The header of a function *)

Module Quantifiers.

Import RegExpFacts Bodies Greedy.

Section Run.
Variable input : jsstring.

(** a greedy quantifier fails when the continuation refuses every number
    of characters it may take *)
Lemma greedy_none neg atoms :
  forall rest fuel min x c,
    skipn (endIndex x) input = rest ->
    length rest < fuel ->
    (forall k, min <= k <= run_length (class_matches neg atoms) rest ->
               c (mkState (endIndex x + k) (captures x)) = None) ->
    RepeatMatcher (m input (Cls neg atoms)) [] fuel min None true x c = None.
Proof.
  induction rest as [|ch rest IH]; intros fuel min x c Hskip Hfuel Hc;
    (destruct fuel as [|fuel]; [simpl in Hfuel; lia|]).
  - cbn [run_length] in Hc. apply skipn_nil_nth in Hskip.
    cbn [RepeatMatcher is_zero_max].
    unfold clear_captures. cbn [fold_left m].
    unfold match_char, char_at. rewrite Hskip.
    destruct min as [|min]; cbn [Nat.eqb negb]; [|reflexivity].
    specialize (Hc 0). rewrite Nat.add_0_r, state_eta in Hc by reflexivity.
    apply Hc. lia.
  - apply skipn_cons_nth in Hskip. destruct Hskip as [Hnth Hrest].
    cbn [RepeatMatcher is_zero_max].
    unfold clear_captures. cbn [fold_left m].
    unfold match_char, char_at. rewrite Hnth.
    cbn [run_length] in Hc.
    destruct (class_matches neg atoms ch) eqn:Hp.
    + cbn [advance endIndex].
      replace (Nat.eqb (S (endIndex x)) (endIndex x)) with false
        by (symmetry; apply Nat.eqb_neq; lia).
      rewrite andb_false_r.
      assert (Hrec :
        RepeatMatcher (m input (Cls neg atoms)) [] fuel (pred min) None true
          (advance x) c = None).
      { apply (IH fuel (pred min) (advance x) c).
        - exact Hrest.
        - simpl in Hfuel. lia.
        - intros k Hk. cbn [advance endIndex captures].
          replace (S (endIndex x) + k) with (endIndex x + S k) by lia.
          apply Hc. lia. }
      match goal with
      | |- (if _ then ?X else _) = _ =>
          assert (HX : X = None) by exact Hrec; rewrite HX
      end.
      destruct min as [|min]; cbn [Nat.eqb negb]; [|reflexivity].
      specialize (Hc 0). rewrite Nat.add_0_r, state_eta in Hc by reflexivity.
      apply Hc. lia.
    + destruct min as [|min]; cbn [Nat.eqb negb]; [|reflexivity].
      specialize (Hc 0). rewrite Nat.add_0_r, state_eta in Hc by reflexivity.
      apply Hc. lia.
Qed.

(** a greedy quantifier whose continuation refuses every shorter run gives
    what the continuation gives on the whole run *)
Lemma m_greedy_whole neg atoms min x c :
  endIndex x <= length input ->
  (forall k, min <= k
             < run_length (class_matches neg atoms) (skipn (endIndex x) input) ->
             c (mkState (endIndex x + k) (captures x)) = None) ->
  m input (Rep (Cls neg atoms) min None true) x c
  = if min <=? run_length (class_matches neg atoms) (skipn (endIndex x) input)
    then c (mkState
              (endIndex x
               + run_length (class_matches neg atoms) (skipn (endIndex x) input))
              (captures x))
    else None.
Proof.
  intros Hx Hshort.
  set (run := run_length (class_matches neg atoms) (skipn (endIndex x) input))
    in *.
  assert (Hfuel : length (skipn (endIndex x) input)
                  < S (min + (length input - endIndex x))).
  { rewrite length_skipn. lia. }
  destruct (Nat.leb_spec min run) as [Hle|Hgt].
  - destruct (c (mkState (endIndex x + run) (captures x))) as [z|] eqn:Ec.
    + apply m_greedy_run; [exact Hx|cbn [take_max]; exact Hle|exact Ec].
    + cbn [m groups].
      apply (@greedy_none neg atoms (skipn (endIndex x) input));
        [reflexivity|exact Hfuel|].
      intros k Hk. fold run in Hk.
      destruct (Nat.eq_dec k run) as [->|Hne]; [exact Ec|].
      apply Hshort. lia.
  - cbn [m groups].
    apply (@greedy_none neg atoms (skipn (endIndex x) input));
      [reflexivity|exact Hfuel|].
    intros k Hk. fold run in Hk. lia.
Qed.

(** a lazy quantifier over single characters stops at the first state the
    continuation accepts *)
Lemma lazy_run (p : char -> bool) :
  forall rest fuel x c,
    skipn (endIndex x) input = rest ->
    length rest < fuel ->
    RepeatMatcher (match_char input p) [] fuel 0 None false x c
    = lazy_first p c rest x.
Proof.
  induction rest as [|ch rest IH]; intros fuel x c Hskip Hfuel;
    (destruct fuel as [|fuel]; [simpl in Hfuel; lia|]).
  - apply skipn_nil_nth in Hskip.
    cbn [RepeatMatcher is_zero_max Nat.eqb negb lazy_first].
    destruct (c x); [reflexivity|].
    unfold clear_captures. cbn [fold_left].
    unfold match_char, char_at. rewrite Hskip. reflexivity.
  - apply skipn_cons_nth in Hskip. destruct Hskip as [Hnth Hrest].
    cbn [RepeatMatcher is_zero_max Nat.eqb negb lazy_first].
    destruct (c x); [reflexivity|].
    unfold clear_captures. cbn [fold_left].
    unfold match_char at 1. unfold char_at. rewrite Hnth.
    destruct (p ch); [|reflexivity].
    cbn [advance endIndex andb].
    replace (Nat.eqb (S (endIndex x)) (endIndex x)) with false
      by (symmetry; apply Nat.eqb_neq; lia).
    cbn [pred pred_max].
    apply (IH fuel (advance x) c); [exact Hrest|simpl in Hfuel; lia].
Qed.

End Run.

End Quantifiers.

Module FunctionHeader.

Import RegExpFacts Bodies Greedy Quantifiers Complexity Headers.

Lemma word_bounds c : is_word c = true -> (48 <= c <= 122)%N.
Proof.
  unfold is_word, in_range.
  change (chr "a") with 97%N. change (chr "z") with 122%N.
  change (chr "A") with 65%N. change (chr "Z") with 90%N.
  change (chr "0") with 48%N. change (chr "9") with 57%N.
  change (chr "_") with 95%N.
  intros H.
  repeat (apply orb_prop in H; destruct H as [H|H]);
    try (apply andb_prop in H; destruct H as (H1 & H2);
         apply N.leb_le in H1, H2; lia).
  apply N.eqb_eq in H. lia.
Qed.

Lemma word_not_space c : is_word c = true -> is_space c = false.
Proof.
  intros H. apply word_bounds in H. unfold is_space, in_range.
  repeat match goal with
         | |- (_ || _)%bool = false => apply orb_false_intro
         end;
    try (apply N.eqb_neq; lia);
    apply andb_false_iff.
  - right. apply N.leb_gt. lia.
  - left. apply N.leb_gt. lia.
Qed.

Lemma space_not_word c : is_space c = true -> is_word c = false.
Proof.
  intros H. destruct (is_word c) eqn:E; [|reflexivity].
  rewrite (word_not_space _ E) in H. discriminate.
Qed.

Lemma word_not_char c (d : char) :
  is_word d = false -> is_word c = true -> N.eqb c d = false.
Proof.
  intros Hd Hc. destruct (N.eqb_spec c d) as [->|]; [congruence|reflexivity].
Qed.

Lemma space_not_char c (d : char) :
  is_space d = false -> is_space c = true -> N.eqb c d = false.
Proof.
  intros Hd Hc. destruct (N.eqb_spec c d) as [->|]; [congruence|reflexivity].
Qed.

Lemma word_not_terminator c : is_word c = true -> is_line_terminator c = false.
Proof.
  intros H. apply word_bounds in H. unfold is_line_terminator.
  repeat match goal with
         | |- (_ || _)%bool = false => apply orb_false_intro
         end; apply N.eqb_neq; lia.
Qed.

Lemma run_length_app p a b :
  forallb p a = true -> run_length p (a ++ b) = length a + run_length p b.
Proof.
  induction a as [|c a IH]; intros H; [reflexivity|].
  cbn [forallb] in H. apply andb_prop in H. destruct H as (Hc & H).
  cbn [app run_length length]. rewrite Hc, (IH H). reflexivity.
Qed.

Lemma header_end_shift rest :
  forall k, header_end rest k = option_map (fun q => k + q) (header_end rest 0).
Proof.
  induction rest as [|ch rest IH]; intros k; [reflexivity|].
  cbn [header_end]. destruct (N.eqb ch (chr "{")).
  - cbn. f_equal. lia.
  - destruct (is_line_terminator ch); [reflexivity|].
    rewrite (IH (S k)), (IH 1).
    destruct (header_end rest 0) as [q|]; cbn; [f_equal; lia|reflexivity].
Qed.

Lemma header_end_words w rest :
  forallb is_word w = true ->
  forall k, header_end (w ++ rest) k = header_end rest (k + length w).
Proof.
  induction w as [|c w IH]; intros H k.
  - cbn. rewrite Nat.add_0_r. reflexivity.
  - cbn [forallb] in H. apply andb_prop in H. destruct H as (Hc & H).
    cbn [app header_end length].
    rewrite (@word_not_char c (chr "{") eq_refl Hc).
    rewrite (word_not_terminator _ Hc), (IH H).
    f_equal. lia.
Qed.

Section Scan.
Variable code : jsstring.

(** the lazy [(.*?)] of [paramRegex] with the brace after it: it ends at
    the first opening brace, unless a line terminator comes first *)
Lemma lazy_first_header e0 :
  forall rest x,
    skipn (endIndex x) code = rest ->
    lazy_first (fun ch => negb (is_line_terminator ch))
      (fun y => m code (L "{")
                  (set_capture 1 (Some (e0, endIndex y)) y) Some)
      rest x
    = option_map
        (fun q => mkState (S q) (set_nth 1 (Some (e0, q)) (captures x)))
        (header_end rest (endIndex x)).
Proof.
  induction rest as [|ch rest IH]; intros x Hs.
  - apply skipn_nil_nth in Hs. cbn [lazy_first header_end option_map].
    unfold L. cbn [m]. unfold match_char, char_at.
    cbn [set_capture endIndex]. rewrite Hs. reflexivity.
  - apply skipn_cons_nth in Hs. destruct Hs as (Hnth & Hrest).
    cbn [lazy_first header_end]. unfold L. cbn [m].
    unfold match_char, char_at. cbn [set_capture endIndex]. rewrite Hnth.
    rewrite (N.eqb_sym (chr "{") ch).
    destruct (N.eqb ch (chr "{")); [reflexivity|].
    destruct (is_line_terminator ch); cbn [negb]; [reflexivity|].
    apply (IH (advance x)). exact Hrest.
Qed.

Lemma m_header_scan x :
  endIndex x <= length code ->
  m code (Seq (Grp 1 (StarLazy Dot)) (L "{")) x Some
  = option_map
      (fun q => mkState (S q) (set_nth 1 (Some (endIndex x, q)) (captures x)))
      (header_end (skipn (endIndex x) code) (endIndex x)).
Proof.
  intros Hx. unfold StarLazy. cbn [m groups Nat.add].
  change (fun (x0 : MatchState) (c : Cont) =>
            match_char code (fun ch => negb (is_line_terminator ch)) x0 c)
    with (match_char code (fun ch => negb (is_line_terminator ch))).
  rewrite (@lazy_run code _ (skipn (endIndex x) code));
    [|reflexivity|rewrite length_skipn; lia].
  apply (@lazy_first_header (endIndex x) (skipn (endIndex x) code) x).
  reflexivity.
Qed.

End Scan.

Lemma m_Seq s r1 r2 x c :
  m s (Seq r1 r2) x c = m s r1 x (fun y => m s r2 y c).
Proof. reflexivity. Qed.

Lemma run_space s :
  run_length (class_matches false [CSpace]) s = run_length is_space s.
Proof. apply NameShapes.run_length_ext. apply class_space. Qed.

Lemma run_word s :
  run_length (class_matches false [CWord]) s = run_length is_word s.
Proof. apply NameShapes.run_length_ext. apply class_word. Qed.

Lemma m_Lit_at s ch r e caps c :
  m s (Seq (Lit ch) r) (mkState e caps) c
  = match skipn e s with
    | a :: _ => if N.eqb a ch then m s r (mkState (S e) caps) c else None
    | [] => None
    end.
Proof.
  cbn [m]. unfold match_char, char_at. cbn [endIndex advance captures].
  destruct (skipn e s) as [|a l] eqn:E.
  - apply skipn_nil_nth in E. rewrite E. reflexivity.
  - apply skipn_cons_nth in E. destruct E as (E & _). rewrite E.
    rewrite (N.eqb_sym ch a). reflexivity.
Qed.

Lemma m_Lit_last s ch e caps :
  m s (Lit ch) (mkState e caps) Some
  = match skipn e s with
    | a :: _ => if N.eqb a ch then Some (mkState (S e) caps) else None
    | [] => None
    end.
Proof.
  cbn [m]. unfold match_char, char_at. cbn [endIndex advance captures].
  destruct (skipn e s) as [|a l] eqn:E.
  - apply skipn_nil_nth in E. rewrite E. reflexivity.
  - apply skipn_cons_nth in E. destruct E as (E & _). rewrite E.
    rewrite (N.eqb_sym ch a). reflexivity.
Qed.

Section Function.
Variables code ws n rest : jsstring.
Hypothesis Hcode : code = str "func" ++ ws ++ n ++ rest.
Hypothesis Hws0 : ws <> [].
Hypothesis Hws : forallb is_space ws = true.
Hypothesis Hn0 : n <> [].
Hypothesis Hn : forallb is_word n = true.
Hypothesis Hstop : run_length is_word rest = 0.

Let e1 := 4 + length ws.
Let e2 := 4 + length ws + length n.

Lemma code_length : length code = e2 + length rest.
Proof. rewrite Hcode, !length_app. unfold e2. cbn. lia. Qed.

Lemma skipn_in_ws k :
  k <= length ws -> skipn (4 + k) code = skipn k ws ++ n ++ rest.
Proof.
  intros Hk. rewrite Hcode. cbn [Nat.add]. cbn [str map list_ascii_of_string
    app skipn]. rewrite skipn_app.
  replace (k - length ws) with 0 by lia. reflexivity.
Qed.

Lemma skipn_in_name j :
  j <= length n -> skipn (e1 + j) code = skipn j n ++ rest.
Proof.
  intros Hj. unfold e1.
  replace (4 + length ws + j) with (4 + (length ws + j)) by lia.
  rewrite Hcode. cbn [Nat.add]. cbn [str map list_ascii_of_string app skipn].
  rewrite skipn_app, skipn_all2 by lia. cbn [app].
  replace (length ws + j - length ws) with j by lia.
  rewrite skipn_app. replace (j - length n) with 0 by lia. reflexivity.
Qed.

Lemma skipn_rest k : skipn (e2 + k) code = skipn k rest.
Proof.
  unfold e2. replace (4 + length ws + length n + k)
    with (e1 + (length n + k)) by (unfold e1; lia).
  unfold e1.
  replace (4 + length ws + (length n + k))
    with (4 + (length ws + (length n + k))) by lia.
  rewrite Hcode. cbn [Nat.add]. cbn [str map list_ascii_of_string app skipn].
  rewrite skipn_app, skipn_all2 by lia. cbn [app].
  replace (length ws + (length n + k) - length ws) with (length n + k) by lia.
  rewrite skipn_app, skipn_all2 by lia. cbn [app].
  replace (length n + k - length n) with k by lia. reflexivity.
Qed.

Lemma forallb_skipn {A} (p : A -> bool) k l :
  forallb p l = true -> forallb p (skipn k l) = true.
Proof.
  intros H. apply forallb_forall. intros a Ha.
  rewrite forallb_forall in H. apply H.
  rewrite <- (firstn_skipn k l). apply in_or_app. right. exact Ha.
Qed.

Lemma name_head : exists c n', n = c :: n' /\ is_word c = true.
Proof.
  destruct n as [|c n']; [congruence|]. exists c, n'.
  split; [reflexivity|]. cbn [forallb] in Hn. apply andb_prop in Hn. tauto.
Qed.

Lemma run_space_in_ws k :
  k <= length ws ->
  run_length is_space (skipn (4 + k) code) = length ws - k.
Proof.
  intros Hk. rewrite (skipn_in_ws Hk).
  rewrite run_length_app by (apply forallb_skipn; exact Hws).
  rewrite length_skipn.
  destruct name_head as (c & n' & -> & Hc). cbn [app run_length].
  rewrite (word_not_space _ Hc). lia.
Qed.

Lemma run_word_in_ws k :
  k < length ws -> run_length is_word (skipn (4 + k) code) = 0.
Proof.
  intros Hk. rewrite (skipn_in_ws (Nat.lt_le_incl _ _ Hk)).
  destruct (skipn k ws) as [|c l] eqn:E.
  - assert (length (skipn k ws) = 0) by (rewrite E; reflexivity).
    rewrite length_skipn in H. lia.
  - cbn [app run_length].
    assert (Hc : is_space c = true).
    { pose proof (forallb_skipn is_space k _ Hws) as Hf. rewrite E in Hf.
      cbn [forallb] in Hf. apply andb_prop in Hf. tauto. }
    rewrite (space_not_word _ Hc). reflexivity.
Qed.

Lemma run_word_in_name j :
  j <= length n ->
  run_length is_word (skipn (e1 + j) code) = length n - j.
Proof.
  intros Hj. rewrite (skipn_in_name Hj).
  rewrite run_length_app by (apply forallb_skipn; exact Hn).
  rewrite length_skipn, Hstop. lia.
Qed.

Lemma name_char j :
  j < length n ->
  exists c l, skipn (e1 + j) code = c :: l /\ is_word c = true.
Proof.
  intros Hj. rewrite (skipn_in_name (Nat.lt_le_incl _ _ Hj)).
  destruct (skipn j n) as [|c l] eqn:E.
  - assert (length (skipn j n) = 0) by (rewrite E; reflexivity).
    rewrite length_skipn in H. lia.
  - exists c, (l ++ rest). split; [reflexivity|].
    pose proof (forallb_skipn is_word j _ Hn) as Hf. rewrite E in Hf.
    cbn [forallb] in Hf. apply andb_prop in Hf. tauto.
Qed.

Lemma space_char (s : jsstring) k :
  k < run_length is_space s ->
  exists c l, skipn k s = c :: l /\ is_space c = true.
Proof.
  revert k. induction s as [|a s IH]; intros k Hk; cbn [run_length] in Hk;
    [lia|].
  destruct (is_space a) eqn:E; [|lia].
  destruct k as [|k]; [exists a, s; auto|].
  cbn [skipn]. apply IH. lia.
Qed.

Lemma run_space_start : run_length is_space (skipn 4 code) = length ws.
Proof.
  pose proof (@run_space_in_ws 0) as H. cbn [Nat.add] in H.
  rewrite Nat.sub_0_r in H. apply H. lia.
Qed.

Lemma run_word_start : run_length is_word (skipn e1 code) = length n.
Proof.
  pose proof (@run_word_in_name 0) as H.
  rewrite Nat.add_0_r, Nat.sub_0_r in H. apply H. lia.
Qed.

(** the state after [func], the whitespace and the name: the name is read
    whole when what follows accepts that, or refuses every shorter name *)
Lemma m_through_name r caps c :
  (m code r (mkState e2 caps) c = None ->
   forall j, 1 <= j < length n ->
             m code r (mkState (e1 + j) caps) c = None) ->
  m code (Seq (Word "func") (Seq (Plus space) (Seq (Plus word) r)))
    (mkState 0 caps) c
  = m code r (mkState e2 caps) c.
Proof.
  intros Hshort.
  rewrite m_Seq. unfold Word. rewrite m_Lits. cbn [endIndex captures skipn].
  replace (JSString.starts_with (str "func") code) with true
    by (rewrite Hcode; reflexivity).
  cbn [Nat.add]. change (length (str "func")) with 4.
  rewrite m_Seq. unfold Plus, space, word.
  pose proof code_length as Hlen.
  assert (Hn1 : 1 <= length n) by (destruct n; [congruence|simpl; lia]).
  assert (Hw1 : 1 <= length ws) by (destruct ws; [congruence|simpl; lia]).
  rewrite m_greedy_whole; cbn [endIndex captures].
  - rewrite run_space, run_space_start.
    replace (1 <=? length ws) with true by (symmetry; apply Nat.leb_le; lia).
    rewrite m_Seq. fold e1.
    destruct (m code r (mkState e2 caps) c) as [z|] eqn:Ez.
    + apply m_greedy_run; cbn [endIndex captures take_max];
        rewrite ?run_word, ?run_word_start.
      * unfold e1, e2 in *. lia.
      * exact Hn1.
      * replace (e1 + length n) with e2 by (unfold e1, e2; lia). exact Ez.
    + rewrite m_greedy_whole; cbn [endIndex captures].
      * rewrite run_word, run_word_start.
        replace (1 <=? length n) with true
          by (symmetry; apply Nat.leb_le; lia).
        replace (e1 + length n) with e2 by (unfold e1, e2; lia).
        exact Ez.
      * unfold e1, e2 in *. lia.
      * rewrite run_word, run_word_start. intros j Hj.
        apply (Hshort eq_refl). lia.
  - unfold e2 in *. lia.
  - rewrite run_space, run_space_start. intros k Hk.
    rewrite m_Seq. apply m_class_none; cbn [endIndex]; [lia| |reflexivity].
    rewrite run_word. apply run_word_in_ws. lia.
Qed.

(** [test] and [exec] at offset 0 on a pattern anchored at the start *)
Lemma exec_anchored r :
  exec code (Seq Bol r) 0
  = option_map (mkResult 0) (m code r (initial (Seq Bol r) 0) Some).
Proof.
  unfold exec. cbn [Nat.ltb Nat.leb exec_from m].
  unfold initial. cbn [endIndex Nat.eqb].
  destruct (m code r _ Some); [reflexivity|].
  cbn [option_map]. apply NameShapes.exec_from_anchored. lia.
Qed.

(** where the parentheses of a function without parameters stand *)
Lemma m_empty_parentheses caps :
  m code (Seq (Star space) (Seq (L "(") (Seq (Star space) (L ")"))))
    (mkState e2 caps) Some = None
  <-> empty_parentheses rest = false.
Proof.
  pose proof code_length as Hlen.
  rewrite m_Seq. unfold Star, space.
  rewrite m_greedy_whole; cbn [endIndex captures].
  2:{ lia. }
  2:{ rewrite run_space. intros k Hk.
      replace e2 with (e2 + 0) in Hk by lia. rewrite skipn_rest in Hk.
      cbn [skipn] in Hk. unfold L. rewrite m_Lit_at, skipn_rest.
      destruct (@space_char rest k) as (c & l & -> & Hc); [lia|].
      rewrite (@space_not_char c (chr "(") eq_refl Hc). reflexivity. }
  cbn [Nat.leb]. rewrite run_space.
  replace (skipn e2 code) with rest
    by (replace e2 with (e2 + 0) by lia; rewrite skipn_rest; reflexivity).
  unfold L. rewrite m_Lit_at, skipn_rest.
  unfold empty_parentheses, skip_spaces.
  destruct (skipn (run_length is_space rest) rest) as [|a r1] eqn:E1;
    [tauto|].
  destruct (N.eqb a (chr "(")); cbn [andb]; [|tauto].
  assert (Hr1 : forall k, skipn (S (e2 + run_length is_space rest) + k) code
                          = skipn k r1).
  { intros k.
    replace (S (e2 + run_length is_space rest) + k)
      with (e2 + (S k + run_length is_space rest)) by lia.
    rewrite skipn_rest, <- skipn_skipn, E1. reflexivity. }
  rewrite m_Seq. rewrite m_greedy_whole; cbn [endIndex captures].
  2:{ rewrite <- (firstn_skipn (run_length is_space rest) rest), E1,
        length_app in Hlen. cbn [length] in Hlen.
      pose proof (run_length_le is_space rest).
      rewrite length_firstn in Hlen. lia. }
  2:{ rewrite run_space. intros k Hk.
      replace (S (e2 + run_length is_space rest))
        with (S (e2 + run_length is_space rest) + 0) in Hk by lia.
      rewrite Hr1 in Hk. cbn [skipn] in Hk.
      rewrite m_Lit_last, Hr1.
      destruct (@space_char r1 k) as (c & l & -> & Hc); [lia|].
      rewrite (@space_not_char c (chr ")") eq_refl Hc). reflexivity. }
  cbn [Nat.leb]. rewrite run_space.
  replace (skipn (S (e2 + run_length is_space rest)) code) with r1
    by (pose proof (Hr1 0) as H0; rewrite Nat.add_0_r in H0; rewrite H0;
        reflexivity).
  rewrite m_Lit_last, Hr1.
  destruct (skipn (run_length is_space r1) r1) as [|c' l]; [tauto|].
  destruct (N.eqb c' (chr ")")); split; intros H; try reflexivity;
    discriminate.
Qed.

Lemma test_noParamRegex : test code noParamRegex = empty_parentheses rest.
Proof.
  unfold test, noParamRegex. cbn [Seqs]. rewrite exec_anchored.
  unfold initial. set (caps := repeat None _).
  rewrite m_through_name.
  - destruct (m_empty_parentheses caps) as (H1 & H2).
    destruct (empty_parentheses rest).
    + destruct (m code _ (mkState e2 _) Some); [reflexivity|].
      discriminate (H1 eq_refl).
    + rewrite (H2 eq_refl). reflexivity.
  - intros _ j Hj. rewrite m_Seq. unfold Star, space.
    pose proof code_length as Hlen.
    destruct (@name_char j) as (c & l & Hs & Hc); [lia|].
    rewrite m_greedy_whole; cbn [endIndex captures].
    + rewrite run_space, Hs. cbn [run_length].
      rewrite (word_not_space _ Hc). cbn [Nat.leb].
      rewrite Nat.add_0_r. unfold L. rewrite m_Lit_at, Hs.
      rewrite (@word_not_char c (chr "(") eq_refl Hc). reflexivity.
    + unfold e1 in *. lia.
    + rewrite run_space, Hs. cbn [run_length].
      rewrite (word_not_space _ Hc). intros; lia.
Qed.

(** [paramRegex] on the code: [functionInfo] is what stands between the
    name and the first opening brace, when no line terminator stands
    there *)
Lemma exec_paramRegex :
  exec code paramRegex 0
  = option_map
      (fun q => mkResult 0
                  (mkState (S (e2 + q)) [None; Some (e2, e2 + q)]))
      (header_end rest 0).
Proof.
  unfold paramRegex. cbn [Seqs]. rewrite exec_anchored.
  unfold initial.
  change (repeat None _) with [@None (nat * nat); None].
  pose proof code_length as Hlen.
  assert (Hscan : forall j, j <= length n ->
            m code (Seq (Grp 1 (StarLazy Dot)) (L "{"))
              (mkState (e1 + j) [None; None]) Some
            = option_map
                (fun q => mkState (S q) [None; Some (e1 + j, q)])
                (header_end rest e2)).
  { intros j Hj. rewrite m_header_scan by (cbn [endIndex]; unfold e1 in *; lia).
    cbn [endIndex captures]. rewrite (skipn_in_name Hj).
    rewrite header_end_words by (apply forallb_skipn; exact Hn).
    rewrite length_skipn.
    replace (e1 + j + (length n - j)) with e2 by (unfold e1, e2; lia).
    reflexivity. }
  rewrite m_through_name.
  - replace e2 with (e1 + length n) at 1 by (unfold e1, e2; lia).
    rewrite Hscan by lia.
    replace (e1 + length n) with e2 by (unfold e1, e2; lia).
    rewrite (header_end_shift rest e2).
    destruct (header_end rest 0); reflexivity.
  - intros Hnone j Hj.
    replace e2 with (e1 + length n) in Hnone at 1 by (unfold e1, e2; lia).
    rewrite Hscan in Hnone by lia. rewrite Hscan by lia.
    destruct (header_end rest e2); [discriminate|reflexivity].
Qed.

End Function.

Lemma header_rest ty s ws n :
  header_of ty s ws n ->
  s = ty ++ ws ++ n ++ skipn (length ty + length ws + length n) s
  /\ ws <> [] /\ forallb is_space ws = true
  /\ n <> [] /\ forallb is_word n = true
  /\ run_length is_word (skipn (length ty + length ws + length n) s) = 0.
Proof.
  intros (rest & Hs & H). assert (Hr : skipn (length ty + length ws + length n) s
                                       = rest).
  { rewrite Hs at 1.
    replace (ty ++ ws ++ n ++ rest) with ((ty ++ ws ++ n) ++ rest)
      by (rewrite <- !app_assoc; reflexivity).
    replace (length ty + length ws + length n) with (length (ty ++ ws ++ n))
      by (rewrite !length_app; lia).
    rewrite skipn_app, skipn_all, Nat.sub_diag. reflexivity. }
  rewrite Hr. split; [exact Hs|exact H].
Qed.

Lemma getFunctionParameters_header functionObj ws n :
  header_of (str "func") (code functionObj) ws n ->
  getFunctionParameters functionObj
  = Ok (parameters_of_header functionObj
          (skipn (4 + length ws + length n) (code functionObj))).
Proof.
  intros Hh. apply header_rest in Hh.
  change (length (str "func")) with 4 in Hh.
  set (rest := skipn (4 + length ws + length n) (code functionObj)) in *.
  destruct Hh as (Hcode & Hws0 & Hws & Hn0 & Hn & Hstop).
  unfold getFunctionParameters, parameters_of_header.
  rewrite (@test_noParamRegex (code functionObj) ws n rest Hcode Hws0 Hws Hn0 Hn
             Hstop).
  destruct (empty_parentheses rest); [reflexivity|].
  rewrite (@exec_paramRegex (code functionObj) ws n rest Hcode Hws0 Hws Hn0 Hn
             Hstop).
  destruct (header_end rest 0) as [q|] eqn:Eq; [|reflexivity].
  cbn [option_map group final captures nth].
  unfold JSString.slice.
  replace (4 + length ws + length n + q - (4 + length ws + length n)) with q
    by lia.
  fold rest.
  pose proof (ParamsText.params_of_functionInfo (firstn q rest)) as Hp.
  cbv zeta in Hp.
  destruct (countParameters (firstn q rest)) as (pc & pe).
  destruct Hp as (Hp & _). rewrite Hp. reflexivity.
Qed.

End FunctionHeader.

(* ------------------------------------------------------------------ *)
(** ** The parameter count of a function *)

Module ParameterCounts.

Import RegExpFacts Bodies.

Lemma allFunctionsOf_headers text fs :
  allFunctionsOf text = Ok fs ->
  forall f, In f fs ->
    exists f0 ws n,
      header_of (str "func") (code f0) ws n
      /\ paramCount f0 = None /\ params f0 = VUndefined
      /\ f = parameters_of_header f0
               (skipn (4 + length ws + length n) (code f0)).
Proof.
  unfold allFunctionsOf, extractFunctions. intros H f Hf.
  destruct (extractBodies text (str "func")) as [fs0| |] eqn:E;
    try discriminate.
  cbn [bind] in H.
  pose proof (@Nesting.mapM_Forall2 _ _ getFunctionParameters
                (fun a b => getFunctionParameters a = Ok b) fs0
                (fun a b Hab => Hab) fs H) as HF.
  destruct (@Nesting.Forall2_In_r _ _ _ _ _ f HF Hf) as (f0 & Hf0 & Hget).
  assert (Hty : Forall (fun c => is_brace c = false) (str "func"))
    by (repeat constructor).
  destruct (@Headers.extractBodies_headers text (str "func") fs0 Hty E)
    as (_ & Hb).
  destruct (Hb f0 Hf0) as (ws & n & body & _ & _ & _ & _ & Hh).
  exists f0, ws, n. split; [exact Hh|].
  unfold extractBodies in E.
  destruct (exec_all text (searchRegex (str "func"))) as [decs| |];
    try discriminate.
  cbn [bind] in E.
  destruct (Nesting.captureBodies_deepest _ _ _ E f0 Hf0)
    as (_ & _ & Hpc & Hps & _).
  split; [exact Hpc|]. split; [exact Hps|].
  rewrite (FunctionHeader.getFunctionParameters_header f0 Hh) in Hget.
  inv Hget. reflexivity.
Qed.

Lemma paramCount_parameters_of_header f0 rest :
  paramCount f0 = None ->
  paramCount (parameters_of_header f0 rest) = paramCount_of_header rest.
Proof.
  intros H0. unfold parameters_of_header, paramCount_of_header.
  destruct (empty_parentheses rest); [reflexivity|].
  destruct (header_end rest 0); [reflexivity|exact H0].
Qed.

Lemma code_parameters_of_header f0 rest :
  code (parameters_of_header f0 rest) = code f0.
Proof.
  unfold parameters_of_header.
  destruct (empty_parentheses rest); [reflexivity|].
  destruct (header_end rest 0); reflexivity.
Qed.

End ParameterCounts.

(** X13: for a function whose code reads [func], whitespace, the name and
    then [rest], [getFunctionParameters] returns the function with no
    parameter ([paramCount] 0 and [params] null) when [rest] starts with an
    empty pair of parentheses; else, when an opening brace comes in [rest]
    before any line terminator, with the count and the parameter text of
    what precedes that brace; else the function as it was. *)
Theorem parameters_read_from_the_header (functionObj : Body)
  (ws n : jsstring) :
  header_of (str "func") (code functionObj) ws n ->
  getFunctionParameters functionObj
  = Ok (parameters_of_header functionObj
          (skipn (4 + length ws + length n) (code functionObj))).
Proof. apply FunctionHeader.getFunctionParameters_header. Qed.

Lemma parameters_read_from_the_header_witness :
  getFunctionParameters example_function
  = Ok (parameters_of_header example_function
          (skipn (4 + length (str " ") + length (str "f"))
             (code example_function))).
Proof.
  apply (@parameters_read_from_the_header example_function (str " ") (str "f")).
  exists (str "(a: Int, b: (Int, Int) -> Int, c: String) { }").
  split; [reflexivity|]. split; [discriminate|]. split; [reflexivity|].
  split; [discriminate|]. split; reflexivity.
Defined.

(** X14: on a header [functionInfo], the parameter text that
    [getFunctionParameters] takes is what stands between the first opening
    parenthesis and the parenthesis that closes it, or the start of the
    header up to that opening parenthesis when none closes it; the count is
    at least 1; without any parenthesis the count is 1 and the text is
    empty. *)
Theorem parameter_count_edges (functionInfo : jsstring) :
  let paramStartIndex := JSString.indexOf functionInfo (str "(") in
  JSString.substring functionInfo (paramStartIndex + 1)
    (snd (countParameters functionInfo) - 1)
  = params_text functionInfo
  /\ (1 <= fst (countParameters functionInfo))%Z
  /\ ((paramStartIndex < 0)%Z ->
      fst (countParameters functionInfo) = 1%Z
      /\ params_text functionInfo = []).
Proof.
  intros paramStartIndex.
  pose proof (ParamsText.params_of_functionInfo functionInfo) as H.
  cbv zeta in H. fold paramStartIndex in H.
  destruct (countParameters functionInfo) as (pc & pe). cbn [fst snd].
  destruct H as (H1 & H2 & H3). split; [exact H1|]. split; [exact H2|].
  intros Hneg. split; [exact (H3 Hneg)|].
  unfold params_text. fold paramStartIndex.
  replace (paramStartIndex <? 0)%Z with true
    by (symmetry; apply Z.ltb_lt; exact Hneg).
  reflexivity.
Qed.

(** X15: every function of a text starts with its header, and its
    [paramCount] is the one of that header: 0 after empty parentheses, else
    the count of what precedes the opening brace when that brace comes
    before any line terminator, else absent; a function without
    [paramCount] is not reported by [functionParameterCountRule].  A function
    of nine parameters is an error when its header stands on one line and
    is not reported when its parameter list is broken over two lines. *)
Theorem parameter_counts_of_a_text (text : jsstring) :
  (exists allFunctions,
     allFunctionsOf text = Ok allFunctions
     /\ forall f, In f allFunctions ->
          exists ws n,
            header_of (str "func") (code f) ws n
            /\ paramCount f
               = paramCount_of_header
                   (skipn (4 + length ws + length n) (code f))
            /\ (paramCount f = None ->
                functionParameterCountRule text [f] = []))
  /\ parameterCountSeverities nine_parameters = Ok [error]
  /\ parameterCountSeverities nine_parameters_two_lines = Ok [].
Proof.
  split; [|split; vm_compute; reflexivity].
  destruct (Nesting.allFunctionsOf_total text) as (fs & Hfs).
  exists fs. split; [exact Hfs|]. intros f Hf.
  destruct (ParameterCounts.allFunctionsOf_headers _ Hfs f Hf)
    as (f0 & ws & n & Hh & Hpc & _ & ->).
  exists ws, n.
  rewrite ParameterCounts.code_parameters_of_header.
  split; [exact Hh|].
  split; [apply ParameterCounts.paramCount_parameters_of_header; exact Hpc|].
  intros Hnone. unfold functionParameterCountRule. cbn [flat_map].
  rewrite Hnone. reflexivity.
Qed.

(* ------------------------------------------------------------------ *)
(** ** Parameters as variables, body lengths, leading whitespace *)

Module Tokens.

Import RegExpFacts Bodies Greedy Words.

(** every word character of the string lies in one of its words *)
Lemma words_from_cover s :
  forall i k c,
    nth_error s k = Some c -> is_word c = true ->
    exists jw,
      In jw (words_from s i None)
      /\ fst jw <= i + k < fst jw + length (snd jw).
Proof.
  remember (length s) as len eqn:Hlen. revert s Hlen.
  induction len as [len IH] using lt_wf_ind. intros s Hlen i k c Hk Hc.
  destruct s as [|c0 s]; [destruct k; discriminate|].
  cbn [length] in Hlen. cbn [words_from].
  destruct (is_word c0) eqn:E0.
  - rewrite words_from_run. cbn [rev app].
    pose proof (run_length_le is_word s) as Hle.
    destruct (Nat.le_gt_cases k (run_length is_word s)) as [Hin|Hout].
    + eexists. split; [left; reflexivity|]. cbn [fst snd length].
      rewrite firstn_length_le by exact Hle. lia.
    + destruct k as [|k]; [lia|]. cbn [nth_error] in Hk.
      assert (Hk' : nth_error (skipn (run_length is_word s) s)
                      (k - run_length is_word s) = Some c).
      { rewrite Complexity.nth_error_skipn.
        replace (run_length is_word s + (k - run_length is_word s)) with k
          by lia.
        exact Hk. }
      assert (Hlt : length (skipn (run_length is_word s) s) < len)
        by (rewrite length_skipn; lia).
      destruct (IH _ Hlt _ eq_refl (S i + run_length is_word s) _ _ Hk' Hc)
        as (jw & Hjw & Hr).
      exists jw. split; [right; exact Hjw|]. lia.
  - destruct k as [|k]; [cbn in Hk; inv Hk; congruence|].
    cbn [nth_error] in Hk.
    assert (Hlt : length s < len) by lia.
    destruct (IH _ Hlt _ eq_refl (S i) _ _ Hk Hc) as (jw & Hjw & Hr).
    exists jw. split; [exact Hjw|]. lia.
Qed.

Lemma words_spec s jw :
  In jw (words s) ->
  snd jw <> []
  /\ forallb is_word (snd jw) = true
  /\ firstn (length (snd jw)) (skipn (fst jw) s) = snd jw
  /\ fst jw + length (snd jw) <= length s
  /\ run_length is_word (skipn (fst jw + length (snd jw)) s) = 0
  /\ (0 < fst jw ->
      exists c, nth_error s (fst jw - 1) = Some c /\ is_word c = false).
Proof.
  intros H. destruct (words_from_spec _ _ _ H)
    as (_ & H2 & H3 & H4 & H5 & H6 & H7).
  rewrite Nat.sub_0_r in *. auto 10.
Qed.

Lemma concatM_inv {A B} (f : A -> outcome (list B)) l :
  forall bs,
    concatM f l = Ok bs ->
    forall a bs', In a l -> f a = Ok bs' -> incl bs' bs.
Proof.
  induction l as [|a0 l IH]; intros bs H a bs' Hin Hf; [destruct Hin|].
  cbn [concatM] in H.
  destruct (f a0) as [b0| |] eqn:E0; try discriminate. cbn [bind] in H.
  destruct (concatM f l) as [bl| |] eqn:El; try discriminate.
  cbn [bind] in H. inv H. destruct Hin as [->|Hin].
  - rewrite E0 in Hf. inv Hf. apply incl_appl, incl_refl.
  - apply incl_appr. apply (IH _ eq_refl a bs' Hin Hf).
Qed.

Lemma variableNameRule_parameters text functions errs f v e :
  variableNameRule text functions = Ok errs ->
  In f functions ->
  (exists vs, parameterVariables f = Ok vs /\ In v vs) ->
  testVariableName v = Some e ->
  In e errs.
Proof.
  unfold variableNameRule. intros H Hf (vs & Hvs & Hv) He.
  destruct (exec_all text variableRegex) as [ms| |]; try discriminate.
  cbn [bind] in H.
  destruct (concatM (declaredVariables text) ms) as [declared| |];
    try discriminate.
  cbn [bind] in H.
  destruct (concatM parameterVariables functions) as [ps| |] eqn:Eps;
    try discriminate.
  cbn [bind] in H. inv H.
  apply in_flat_map. exists v. split.
  - apply in_or_app. right. apply (concatM_inv _ _ Eps f Hf Hvs). exact Hv.
  - rewrite He. left. reflexivity.
Qed.

End Tokens.

Module BodyLength.

Lemma split_line_count s :
  Z.of_nat (length (JSString.split s LF)) = line_count s.
Proof.
  unfold line_count, JSString.split. rewrite LineIndex.split_aux_length.
  reflexivity.
Qed.

End BodyLength.

Module LeadingWhitespace.

Import RegExpFacts Bodies Greedy.

Lemma exec_after_start text r li :
  0 < li -> exec text (Seq Bol r) li = None.
Proof.
  intros Hli. unfold exec. destruct (Nat.ltb (length text) li); [reflexivity|].
  apply NameShapes.exec_from_anchored. exact Hli.
Qed.

Lemma exec_at_start text r :
  exec text (Seq Bol r) 0
  = option_map (mkResult 0) (m text r (initial (Seq Bol r) 0) Some).
Proof.
  unfold exec. cbn [Nat.ltb Nat.leb exec_from m].
  unfold initial. cbn [endIndex Nat.eqb].
  destruct (m text r _ Some); [reflexivity|].
  cbn [option_map]. apply NameShapes.exec_from_anchored. lia.
Qed.

Lemma exec_leading text :
  exec text (Seq Bol (Plus (Cls false [CSpace]))) 0
  = if Nat.eqb (run_length is_space text) 0 then None
    else Some (mkResult 0 (mkState (run_length is_space text) [None])).
Proof.
  rewrite exec_at_start. unfold initial.
  change (repeat None _) with [@None (nat * nat)].
  unfold Plus.
  destruct (Nat.eqb (run_length is_space text) 0) eqn:E.
  - apply Nat.eqb_eq in E.
    rewrite m_class_none; [reflexivity|lia| |reflexivity].
    cbn [endIndex skipn]. rewrite FunctionHeader.run_space. exact E.
  - apply Nat.eqb_neq in E.
    erewrite m_greedy_run; [reflexivity|cbn; lia| |];
      cbn [endIndex captures take_max skipn];
      rewrite FunctionHeader.run_space; [lia|reflexivity].
Qed.

Lemma exec_all_leading text :
  exec_all text (Seq Bol (Plus (Cls false [CSpace])))
  = Ok (if Nat.eqb (run_length is_space text) 0 then []
        else [mkResult 0 (mkState (run_length is_space text) [None])]).
Proof.
  unfold exec_all. replace (length text + 2) with (S (S (length text))) by lia.
  cbn [exec_loop]. rewrite exec_leading.
  destruct (Nat.eqb (run_length is_space text) 0) eqn:E; [reflexivity|].
  apply Nat.eqb_neq in E. unfold lastIndex. cbn [final endIndex].
  rewrite exec_after_start by lia. reflexivity.
Qed.

End LeadingWhitespace.

(** X16: [getVariablesFromTuples] returns one variable for each maximal
    run of word characters of its argument, read as a string, in order, at
    the offset of the run plus [tupleIndex].  Each run is not empty, is made
    of word characters, stands in the string at its offset and cannot be
    extended to the right or to the left; every word character of the string
    lies in one of the runs. *)
Theorem tuple_variables_are_the_words (tuple : jsval) (tupleIndex : Z)
  (staticImmutable : bool) :
  let s := ToString tuple in
  getVariablesFromTuples tuple tupleIndex staticImmutable
  = Ok (map (fun jw => mkVar (snd jw) staticImmutable
                         (Z.of_nat (fst jw) + tupleIndex))
          (words s))
  /\ (forall jw,
        In jw (words s) ->
        snd jw <> []
        /\ forallb is_word (snd jw) = true
        /\ firstn (length (snd jw)) (skipn (fst jw) s) = snd jw
        /\ fst jw + length (snd jw) <= length s
        /\ run_length is_word (skipn (fst jw + length (snd jw)) s) = 0
        /\ (0 < fst jw ->
            exists c, nth_error s (fst jw - 1) = Some c /\ is_word c = false))
  /\ (forall k c,
        nth_error s k = Some c -> is_word c = true ->
        exists jw,
          In jw (words s) /\ fst jw <= k < fst jw + length (snd jw)).
Proof.
  intros s. split; [apply Words.getVariablesFromTuples_words|].
  split; [apply Tokens.words_spec|].
  intros k c Hk Hc.
  destruct (@Tokens.words_from_cover s 0 k c Hk Hc) as (jw & Hjw & Hr).
  exists jw. split; [exact Hjw|exact Hr].
Qed.

(** X17: [variableNameRule] tests every word of the parameter text of
    every function as an ordinary variable, at its offset after the opening
    parenthesis of the function: when the test of such a word gives a
    finding, the finding is among those the rule returns.  The type names
    written in a parameter list are such words. *)
Theorem parameter_words_are_tested (text : jsstring) (functions : list Body)
  (currentFunc : Body) (j : nat) (w : jsstring) (e : RawError) :
  In currentFunc functions ->
  In (j, w) (words (ToString (params currentFunc))) ->
  testVariableName (mkVar w false (Z.of_nat j + paramsIndex_of currentFunc))
  = Some e ->
  exists errs, variableNameRule text functions = Ok errs /\ In e errs.
Proof.
  intros Hf Hw He.
  destruct (Totality.variableNameRule_total text functions) as (errs & Herrs).
  exists errs. split; [exact Herrs|].
  apply (@Tokens.variableNameRule_parameters text functions errs currentFunc
           (mkVar w false (Z.of_nat j + paramsIndex_of currentFunc)) e
           Herrs Hf); [|exact He].
  unfold parameterVariables. rewrite Words.getVariablesFromTuples_words.
  eexists. split; [reflexivity|].
  apply in_map_iff. exists (j, w). split; [reflexivity|exact Hw].
Qed.

Lemma parameter_words_are_tested_witness :
  exists errs,
    variableNameRule (str "func run(count: Int) { }")
      [mkBody (str "func run(count: Int) { }") (VStr (str "run")) 0
         (str "func") 1 (Some 1%Z) (VStr (str "count: Int"))]
    = Ok errs
    /\ In (mkRaw (str "Int") (Num 16) warning malformedMessage) errs.
Proof.
  apply (@parameter_words_are_tested (str "func run(count: Int) { }")
           [mkBody (str "func run(count: Int) { }") (VStr (str "run")) 0
              (str "func") 1 (Some 1%Z) (VStr (str "count: Int"))]
           (mkBody (str "func run(count: Int) { }") (VStr (str "run")) 0
              (str "func") 1 (Some 1%Z) (VStr (str "count: Int")))
           7 (str "Int")).
  - left. reflexivity.
  - vm_compute. right. left. reflexivity.
  - vm_compute. reflexivity.
Defined.

(** X18: for a function whose [params] is null or undefined, the
    parameters that [variableNameRule] reads are one variable, named after
    that value, and it passes the test. *)
Theorem phantom_parameters_pass (currentFunc : Body) :
  params currentFunc = VNull \/ params currentFunc = VUndefined ->
  exists v,
    parameterVariables currentFunc = Ok [v]
    /\ var_name v = ToString (params currentFunc)
    /\ testVariableName v = None.
Proof.
  intros [H|H]; unfold parameterVariables; rewrite H;
    rewrite Words.getVariablesFromTuples_words;
    eexists; (split; [reflexivity|]); split; reflexivity.
Qed.

Lemma phantom_parameters_pass_witness :
  exists v,
    parameterVariables
      (mkBody (str "func f() { }") (VStr (str "f")) 0 (str "func") 1
         (Some 0%Z) VNull)
    = Ok [v]
    /\ var_name v = str "null"
    /\ testVariableName v = None.
Proof.
  apply (@phantom_parameters_pass
           (mkBody (str "func f() { }") (VStr (str "f")) 0 (str "func") 1
              (Some 0%Z) VNull)).
  left. reflexivity.
Defined.

(** X19: [functionBodyLengthRule] reports the functions whose code has
    more than 40 lines, the lines being one more than the line feeds of the
    code, as an error above 100 lines; [typeBodyLengthRule] reports the
    types of more than 200 lines, as an error above 350; both in the order
    of the list and with the number of lines in the message. *)
Theorem body_length_counts_line_breaks (text : jsstring)
  (functions types : list Body) :
  functionBodyLengthRule text functions
  = map functionBodyLengthError
      (filter (fun f => (40 <? line_count (code f))%Z) functions)
  /\ typeBodyLengthRule text types
     = map typeBodyLengthError
         (filter (fun t => (200 <? line_count (code t))%Z) types).
Proof.
  split.
  - rewrite <- Exceptions.flat_map_filter. unfold functionBodyLengthRule.
    apply Nesting.flat_map_ext_in. intros f _.
    rewrite BodyLength.split_line_count, !Z.gtb_ltb. reflexivity.
  - rewrite <- Exceptions.flat_map_filter. unfold typeBodyLengthRule.
    apply Nesting.flat_map_ext_in. intros t _.
    rewrite BodyLength.split_line_count, !Z.gtb_ltb. reflexivity.
Qed.

(** X20: [leadingWhitespaceRule] gives no finding for a text that does not
    start with whitespace, and otherwise exactly one warning, at offset 0,
    whose code is all the whitespace the text starts with. *)
Theorem leading_whitespace_is_one_finding (text : jsstring) :
  regexRule text leadingWhitespaceRule
  = Ok (if Nat.eqb (length (leading_whitespace text)) 0 then []
        else [mkRaw (leading_whitespace text) (Num 0) warning
                (rule_message leadingWhitespaceRule)]).
Proof.
  unfold regexRule, leadingWhitespaceRule.
  cbn [exceptions processExceptions bind rePatterns exec_each].
  rewrite LeadingWhitespace.exec_all_leading. cbn [bind].
  unfold leading_whitespace.
  rewrite firstn_length_le by apply Greedy.run_length_le.
  destruct (Nat.eqb (run_length is_space text) 0); [reflexivity|].
  cbn [app flat_map regexException negb index Z.of_nat].
  unfold finding_of, matched, lastIndex, JSString.slice.
  cbn [index final endIndex skipn rule_severity rule_message Z.of_nat].
  rewrite Nat.sub_0_r. reflexivity.
Qed.

(* ------------------------------------------------------------------ *)
(** ** The variables of a declaration *)

Module Captures.

Import RegExpFacts.

Lemma caps_in_weaken lo hi hi' caps :
  hi <= hi' -> caps_in lo hi caps -> caps_in lo hi' caps.
Proof.
  intros Hle. unfold caps_in. apply Forall_impl.
  intros [(a, b)|]; [lia|auto].
Qed.

Lemma caps_in_set_nth lo hi v caps :
  match v with
  | Some (a, b) => lo <= a /\ a <= b /\ b <= hi
  | None => True
  end ->
  caps_in lo hi caps ->
  forall n, caps_in lo hi (set_nth n v caps).
Proof.
  intros Hv. induction 1 as [|c caps Hc Hcaps IH]; intros [|n];
    cbn [set_nth]; try constructor; auto.
  apply IH.
Qed.

Lemma caps_in_clear lo hi gs :
  forall x,
    caps_in lo hi (captures x) ->
    caps_in lo hi (captures (clear_captures gs x)).
Proof.
  unfold clear_captures.
  induction gs as [|g gs IH]; intros x H; cbn [fold_left]; [exact H|].
  apply IH. cbn [set_capture captures]. apply caps_in_set_nth; [exact I|exact H].
Qed.

(** a match leaves every capture between the start of the search and the
    place it has reached *)
Lemma Matches_caps input lo r x y :
  Matches input r x y ->
  lo <= endIndex x ->
  caps_in lo (endIndex x) (captures x) ->
  caps_in lo (endIndex y) (captures y).
Proof.
  induction 1; intros Hlo Hc; cbn [advance endIndex captures];
    try exact Hc;
    try (apply caps_in_weaken with (endIndex x); [lia|exact Hc]).
  - (* Seq *)
    apply IHMatches2; [|apply IHMatches1; assumption].
    apply Matches_mono in H. lia.
  - apply IHMatches; assumption.
  - apply IHMatches; assumption.
  - (* a further iteration *)
    assert (Hy : caps_in lo (endIndex y) (captures y)).
    { apply IHMatches1.
      - rewrite endIndex_clear_captures. exact Hlo.
      - rewrite endIndex_clear_captures. apply caps_in_clear. exact Hc. }
    apply IHMatches2; [|exact Hy].
    match goal with
    | HM : Matches _ _ (clear_captures _ _) _ |- _ =>
        apply Matches_mono in HM; rewrite endIndex_clear_captures in HM; lia
    end.
  - (* Grp *)
    cbn [set_capture endIndex captures].
    pose proof (Matches_mono H) as Hm.
    apply caps_in_set_nth; [lia|]. apply IHMatches; assumption.
Qed.

(** a group that took part in a match is a piece of the matched text *)
Lemma exec_group_within text r li mr n s :
  exec text r li = Some mr ->
  0 < n ->
  group text mr n = VStr s ->
  exists a b,
    s = JSString.slice text a b
    /\ index mr <= a /\ a <= b /\ b <= lastIndex mr
    /\ lastIndex mr <= length text.
Proof.
  intros He Hn Hg.
  pose proof (exec_lastIndex _ _ _ He) as (_ & Hlast).
  apply exec_sound in He. destruct He as (_ & _ & HM).
  pose proof (@Matches_caps text (index mr) _ _ _ HM) as Hc.
  unfold initial in Hc. cbn [endIndex captures] in Hc.
  specialize (Hc (le_n _)).
  assert (H0 : caps_in (index mr) (index mr)
                 (repeat (@None (nat * nat)) (slots r))).
  { unfold caps_in. apply Forall_forall. intros c Hin.
    apply repeat_spec in Hin. subst c. exact I. }
  specialize (Hc H0). unfold group in Hg. destruct n as [|n]; [lia|].
  destruct (nth (S n) (captures (final mr)) None) as [(a, b)|] eqn:E;
    [|discriminate].
  inv Hg. exists a, b. split; [reflexivity|].
  destruct (nth_in_or_default (S n) (captures (final mr)) None) as [Hin|Hd];
    [|congruence].
  rewrite E in Hin. unfold caps_in in Hc. rewrite Forall_forall in Hc.
  specialize (Hc _ Hin). simpl in Hc. unfold lastIndex in *. lia.
Qed.

End Captures.

Module Declared.

Import RegExpFacts Totality.

Lemma firstn_starts_with k :
  forall l, k <= length l -> JSString.starts_with (firstn k l) l = true.
Proof.
  induction k as [|k IH]; intros [|a l] H; cbn [firstn JSString.starts_with];
    try reflexivity; cbn [length] in H; try lia.
  rewrite N.eqb_refl. cbn [andb]. apply IH. lia.
Qed.

Lemma starts_with_quote p l :
  JSString.starts_with p l = true -> firstn (length p) l = p.
Proof.
  intros H. apply Headers.starts_with_split in H. rewrite H at 1.
  rewrite firstn_app, Nat.sub_diag, firstn_all. cbn [firstn].
  apply app_nil_r.
Qed.

(** [indexOf] finds a string that occurs, at its first occurrence *)
Lemma indexOf_occurs s p j :
  j <= length s ->
  JSString.starts_with p (skipn j s) = true ->
  exists k,
    JSString.indexOf s p = Z.of_nat k /\ k <= j
    /\ JSString.starts_with p (skipn k s) = true.
Proof.
  intros Hj Hs. unfold JSString.indexOf.
  destruct (ParamsText.indexOf_from_spec p s 0)
    as [(_ & Hno)|(k & Hk & _ & Hsk & Hmin)].
  - rewrite (Hno j Hj) in Hs. discriminate.
  - exists k. split; [exact Hk|]. split; [|exact Hsk].
    destruct (Nat.le_gt_cases k j) as [Hle|Hgt]; [exact Hle|].
    rewrite (Hmin j Hgt) in Hs. discriminate.
Qed.

(** a piece of a piece of the text is a piece of the text *)
Lemma slice_of_slice text a n j k :
  j + k <= n ->
  firstn k (skipn j (firstn n (skipn a text)))
  = JSString.slice text (a + j) (a + j + k).
Proof.
  intros H. unfold JSString.slice.
  rewrite skipn_firstn_comm, firstn_firstn, skipn_skipn.
  replace (Nat.min k (n - j)) with k by lia.
  replace (a + j + k - (a + j)) with k by lia.
  replace (j + a) with (a + j) by lia. reflexivity.
Qed.

(** where [variableNameRule] locates the text of a declaration *)
Lemma matchText_located text li mr matchText :
  exec text variableRegex li = Some mr ->
  (if truthy (group text mr 4) then group text mr 4 else group text mr 3)
  = VStr matchText ->
  exists k,
    JSString.indexOf (JSString.substring_from text (Z.of_nat (index mr)))
      matchText = Z.of_nat k
    /\ index mr + k + length matchText <= lastIndex mr
    /\ lastIndex mr <= length text
    /\ firstn (length matchText) (skipn (index mr + k) text) = matchText.
Proof.
  intros He Hmt.
  assert (Hg : exists n, 0 < n /\ group text mr n = VStr matchText).
  { destruct (truthy (group text mr 4)); [exists 4|exists 3];
      (split; [lia|exact Hmt]). }
  destruct Hg as (n & Hn & Hg).
  destruct (@Captures.exec_group_within _ _ _ _ _ _ He Hn Hg)
    as (a & b & -> & Ha & Hab & Hb & Hlast).
  unfold JSString.substring_from, JSString.clamp.
  rewrite Nat2Z.id, Nat.min_l by lia.
  assert (Hlen : length (JSString.slice text a b) = b - a).
  { unfold JSString.slice. rewrite length_firstn, length_skipn. lia. }
  destruct (@indexOf_occurs (skipn (index mr) text)
              (JSString.slice text a b) (a - index mr))
    as (k & Hk & Hka & Hsk).
  - rewrite length_skipn. lia.
  - rewrite skipn_skipn. replace (a - index mr + index mr) with a by lia.
    unfold JSString.slice. apply firstn_starts_with.
    rewrite length_skipn. lia.
  - exists k. split; [exact Hk|]. split; [lia|]. split; [exact Hlast|].
    apply starts_with_quote in Hsk. rewrite skipn_skipn in Hsk.
    replace (k + index mr) with (index mr + k) in Hsk by lia. exact Hsk.
Qed.

Lemma quoted_in_words text lo hi i mt si :
  lo <= i -> i + length mt <= hi ->
  firstn (length mt) (skipn i text) = mt ->
  Forall (quoted_in text lo hi)
    (map (fun jw => mkVar (snd jw) si (Z.of_nat (fst jw) + Z.of_nat i))
       (words mt)).
Proof.
  intros Hlo Hhi Hq. apply Forall_forall. intros v Hv.
  apply in_map_iff in Hv. destruct Hv as ((j, w) & <- & Hjw).
  destruct (Tokens.words_spec _ _ Hjw) as (_ & _ & Hw & Hle & _).
  cbn [fst snd] in *. exists (i + j). cbn [var_index var_name].
  split; [lia|]. split; [lia|]. split; [lia|].
  rewrite <- (@slice_of_slice text i (length mt) j (length w)) by lia.
  rewrite Hq. exact Hw.
Qed.

(** the variables of a declaration stand in the text where the rule says *)
Lemma declaredVariables_quoted text li mr :
  exec text variableRegex li = Some mr ->
  exists vs,
    declaredVariables text mr = Ok vs
    /\ Forall (quoted_in text (index mr) (lastIndex mr)) vs
    /\ lastIndex mr <= length text.
Proof.
  intros He. unfold declaredVariables.
  destruct (variableRegex_matchText _ _ He) as (matchText & Hmt).
  destruct (matchText_located _ _ He Hmt) as (k & Hk & Hhi & Hlast & Hq).
  cbv zeta. rewrite Hmt. cbn [ToString]. rewrite Hk.
  assert (Hstrip :
    exists i mt,
      (if string_eqb (JSString.charAt matchText 0) (str "_")
       then (JSString.substring_from matchText 1,
             (Z.of_nat k + Z.of_nat (index mr) + 1)%Z)
       else (matchText, (Z.of_nat k + Z.of_nat (index mr))%Z))
      = (mt, Z.of_nat i)
      /\ index mr <= i /\ i + length mt <= lastIndex mr
      /\ firstn (length mt) (skipn i text) = mt).
  { destruct (string_eqb (JSString.charAt matchText 0) (str "_")) eqn:E.
    - destruct matchText as [|c mt]; [discriminate|].
      exists (index mr + k + 1), mt.
      unfold JSString.substring_from, JSString.clamp.
      cbn [length Z.to_nat Pos.to_nat Pos.iter_op Nat.add Nat.min skipn].
      split; [f_equal; lia|]. cbn [length] in Hhi. split; [lia|].
      split; [lia|].
      pose proof (@slice_of_slice text (index mr + k) (S (length mt)) 1
                    (length mt) ltac:(lia)) as Hs.
      cbn [length] in Hq. rewrite Hq in Hs. cbn [skipn] in Hs.
      rewrite firstn_all in Hs. unfold JSString.slice in Hs.
      replace (index mr + k + 1 + length mt - (index mr + k + 1))
        with (length mt) in Hs by lia.
      symmetry. exact Hs.
    - exists (index mr + k), matchText.
      split; [f_equal; lia|]. split; [lia|]. split; [lia|exact Hq]. }
  destruct Hstrip as (i & mt & -> & Hlo & Hhi' & Hq').
  destruct (truthy (group text mr 4)).
  - rewrite Words.getVariablesFromTuples_words. eexists.
    split; [reflexivity|]. split; [|exact Hlast].
    apply quoted_in_words; assumption.
  - eexists. split; [reflexivity|]. split; [|exact Hlast].
    constructor; [|constructor].
    exists i. cbn [var_index var_name]. split; [reflexivity|].
    split; [exact Hlo|]. split; [exact Hhi'|].
    unfold JSString.slice. replace (i + length mt - i) with (length mt) by lia.
    exact Hq'.
Qed.

End Declared.

(** X21: for each match of [variableRegex], [variableNameRule] declares
    variables that stand in the text inside the match: the text read at the
    index of a variable gives its name.  The index is where the name first
    occurs in the match, not where it was captured: in [var v = 1] the name
    [v] is captured at offset 4 and gets the index 0, the [v] of [var]. *)
Theorem declared_variables_quote_the_text :
  (forall text li mr,
     exec text variableRegex li = Some mr ->
     exists vs,
       declaredVariables text mr = Ok vs
       /\ Forall (quoted_in text (index mr) (lastIndex mr)) vs
       /\ lastIndex mr <= length text)
  /\ exec short_declaration variableRegex 0 = Some short_declaration_match
  /\ group short_declaration short_declaration_match 3 = VStr (str "v")
  /\ declaredVariables short_declaration short_declaration_match
     = Ok [mkVar (str "v") false 0].
Proof.
  split; [apply Declared.declaredVariables_quoted|].
  split; [vm_compute; reflexivity|]. split; vm_compute; reflexivity.
Qed.

(* ------------------------------------------------------------------ *)
(** ** The diagnostics of a text *)

Module Composition.

Import RegExpFacts Totality.

Lemma foldM_applyRegexRule g text rules :
  forall foundErrors,
    foldM (applyRegexRule g text) rules foundErrors
    = (results <- concatM (regexRule text) rules ;;
       Ok (foundErrors ++ processRawErrors g results)).
Proof.
  induction rules as [|rule rules IH]; intros foundErrors;
    cbn [foldM concatM bind].
  - cbn [processRawErrors]. rewrite app_nil_r. reflexivity.
  - unfold applyRegexRule at 1.
    destruct (regexRule text rule) as [raws| |]; cbn [bind]; try reflexivity.
    rewrite IH.
    destruct (concatM (regexRule text) rules) as [rest| |]; cbn [bind];
      try reflexivity.
    rewrite processRawErrors_app, app_assoc. reflexivity.
Qed.

Lemma concatM_Forall {A B} (f : A -> outcome (list B)) (P : B -> Prop) l :
  forall bs,
    concatM f l = Ok bs ->
    (forall a bs', In a l -> f a = Ok bs' -> Forall P bs') ->
    Forall P bs.
Proof.
  induction l as [|a l IH]; intros bs H HP; cbn [concatM] in H.
  - inv H. constructor.
  - destruct (f a) as [b0| |] eqn:E0; try discriminate. cbn [bind] in H.
    destruct (concatM f l) as [bl| |] eqn:El; try discriminate.
    cbn [bind] in H. inv H. apply Forall_app. split.
    + apply (HP a); [left; reflexivity|exact E0].
    + apply (IH _ eq_refl). intros a' bs' Hin. apply HP. right. exact Hin.
Qed.

Lemma Forall_flat_map {A B} (P : B -> Prop) (f : A -> list B) l :
  (forall a, In a l -> Forall P (f a)) -> Forall P (flat_map f l).
Proof.
  induction l as [|a l IH]; intros H; cbn [flat_map]; [constructor|].
  apply Forall_app. split; [apply H; left; reflexivity|].
  apply IH. intros a' Ha'. apply H. right. exact Ha'.
Qed.

Section Lint.
Variables Options Editor : Type.

(** the diagnostics of [swiftLint]: the processed raw errors of the rules,
    rule after rule *)
Lemma swiftLint_exact g0 text (opts : Options) (cm : Editor) :
  let g := obtainLineNumbers g0 text in
  exists regexErrors allFunctions allTypes complexity variables typeNames,
    concatM (regexRule text) allRegexRules = Ok regexErrors
    /\ allFunctionsOf text = Ok allFunctions
    /\ extractTypes text = Ok allTypes
    /\ cyclomaticComplexityRule text allFunctions = Ok complexity
    /\ variableNameRule text allFunctions = Ok variables
    /\ typeNameRule text allTypes = Ok typeNames
    /\ swiftLint g0 text opts cm
       = Ok (processRawErrors g
               (regexErrors
                ++ (complexity
                    ++ functionBodyLengthRule text allFunctions
                    ++ functionParameterCountRule text allFunctions
                    ++ lineLengthRule g text
                    ++ nestingFuncRule text allFunctions
                    ++ variables)
                ++ (nestingTypeRule text allTypes
                    ++ typeBodyLengthRule text allTypes
                    ++ typeNames))).
Proof.
  intros g.
  destruct (@concatM_total _ _ (regexRule text) allRegexRules)
    as (regexErrors & Hregex).
  { intros rule Hin. apply (@regexRule_total text rule Hin). }
  destruct (Nesting.allFunctionsOf_total text) as (allFunctions & Hfs).
  destruct (extractTypes_total text) as (allTypes & Hts).
  destruct (variableNameRule_total text allFunctions) as (variables & Hvn).
  destruct (typeNameRule_total text allTypes) as (typeNames & Htn).
  exists regexErrors, allFunctions, allTypes,
    (flat_map spec_complexityError allFunctions), variables, typeNames.
  split; [exact Hregex|]. split; [exact Hfs|]. split; [exact Hts|].
  split; [apply Complexity.cyclomaticComplexityRule_spec|].
  split; [exact Hvn|]. split; [exact Htn|].
  unfold swiftLint. unfold allFunctionsOf in Hfs.
  destruct (extractFunctions text) as [fs0| |]; try discriminate.
  cbn [bind] in Hfs |- *. rewrite Hfs. cbn [bind]. rewrite Hts. cbn [bind].
  fold g. rewrite foldM_applyRegexRule, Hregex. cbn [bind app].
  unfold allFunctionRules, allTypeRules.
  cbn [foldM]. unfold applyRuleBuilder, declared2, declared2_pure,
    declared1_global.
  rewrite Complexity.cyclomaticComplexityRule_spec, Hvn, Htn.
  cbn [bind]. rewrite !processRawErrors_app, <- !app_assoc. reflexivity.
Qed.

End Lint.

(** *** The raw errors of the rules carry offsets *)

Lemma within_has_offset len r : within_text len r -> has_offset r.
Proof. intros (i & Hi & _). exists i. exact Hi. Qed.

Lemma fnIndex_offset c f sev msg : has_offset (mkRaw c (fnIndex f) sev msg).
Proof. exists (body_index f). reflexivity. Qed.

Lemma regexErrors_within text regexErrors :
  concatM (regexRule text) allRegexRules = Ok regexErrors ->
  Forall (within_text (length text)) regexErrors.
Proof.
  intros H. apply (concatM_Forall _ _ H). intros rule raws _ Hr.
  apply Findings.regexRule_findings in Hr.
  apply (Forall_impl _ (fun r Hx => proj1 Hx) Hr).
Qed.

Lemma complexity_offsets fs :
  Forall has_offset (flat_map spec_complexityError fs).
Proof.
  apply Forall_flat_map. intros f _. unfold spec_complexityError.
  destruct (spec_severity _); repeat constructor. apply fnIndex_offset.
Qed.

Lemma functionBodyLength_offsets text fs :
  Forall has_offset (functionBodyLengthRule text fs).
Proof.
  apply Forall_flat_map. intros f _. cbv zeta.
  destruct (_ >? 40)%Z; repeat constructor. apply fnIndex_offset.
Qed.

Lemma functionParameterCount_offsets text fs :
  Forall has_offset (functionParameterCountRule text fs).
Proof.
  apply Forall_flat_map. intros f _.
  destruct (paramCount f) as [n|]; [|constructor].
  destruct (n >? 5)%Z; repeat constructor. apply fnIndex_offset.
Qed.

Lemma nestingFunc_offsets text fs : Forall has_offset (nestingFuncRule text fs).
Proof.
  apply Forall_flat_map. intros f _.
  destruct (maxDepth f >? 5)%Z; repeat constructor. apply fnIndex_offset.
Qed.

Lemma nestingType_offsets text ts : Forall has_offset (nestingTypeRule text ts).
Proof.
  apply Forall_flat_map. intros f _.
  destruct (maxDepth f >? 1)%Z; repeat constructor. apply fnIndex_offset.
Qed.

Lemma typeBodyLength_offsets text ts :
  Forall has_offset (typeBodyLengthRule text ts).
Proof.
  apply Forall_flat_map. intros f _. cbv zeta.
  destruct (_ >? 200)%Z; repeat constructor. apply fnIndex_offset.
Qed.

Lemma typeName_offsets text ts raws :
  typeNameRule text ts = Ok raws -> Forall has_offset raws.
Proof.
  unfold typeNameRule. intros H.
  destruct (exec_all text typealiasRegex) as [ms| |]; try discriminate.
  cbn [bind] in H. inv H. apply Forall_flat_map. intros t _.
  destruct (negb _); repeat constructor.
  exists (named_index t). reflexivity.
Qed.

Lemma lineLength_loop_offsets g0 text rest :
  forall pre,
    JSString.split text LF = pre ++ rest ->
    Forall has_offset
      (lineLength_loop (obtainLineNumbers g0 text) rest
         (Z.of_nat (length pre))).
Proof.
  induction rest as [|l rest IH]; intros pre Heq; cbn [lineLength_loop];
    [constructor|].
  apply Forall_app. split.
  - destruct (_ >? 100)%Z; repeat constructor.
    assert (Hn : nth_error (JSString.split text LF) (length pre) = Some l).
    { rewrite Heq, nth_error_app2 by lia. rewrite Nat.sub_diag. reflexivity. }
    unfold has_offset. cbn [raw_index].
    rewrite (@LineLength.line_number_nth g0 text _ _ Hn).
    exists (Z.to_nat (line_offset (JSString.split text LF) (length pre))).
    pose proof (LineIndex.line_offset_nonneg (JSString.split text LF)
                  (length pre)).
    f_equal. lia.
  - replace (Z.of_nat (length pre) + 1)%Z with (Z.of_nat (length (pre ++ [l])))
      by (rewrite length_app; cbn [length]; lia).
    apply IH. rewrite <- app_assoc. exact Heq.
Qed.

Lemma lineLength_offsets g0 text :
  Forall has_offset (lineLengthRule (obtainLineNumbers g0 text) text).
Proof. apply (@lineLength_loop_offsets g0 text _ []). reflexivity. Qed.

Lemma testVariableName_raw v e :
  testVariableName v = Some e ->
  raw_code e = var_name v /\ raw_index e = Num (var_index v).
Proof.
  unfold testVariableName. intros H.
  repeat match type of H with
         | (if ?b then _ else _) = _ => destruct b
         end;
    inv H; split; reflexivity.
Qed.

Lemma indexOf_ge s p : (-1 <= JSString.indexOf s p)%Z.
Proof.
  unfold JSString.indexOf.
  destruct (ParamsText.indexOf_from_spec p s 0) as [(H & _)|(j & H & _)];
    rewrite H; lia.
Qed.

Lemma variableName_offsets text fs raws :
  variableNameRule text fs = Ok raws -> Forall has_offset raws.
Proof.
  unfold variableNameRule. intros H.
  destruct (exec_all text variableRegex) as [ms| |] eqn:Ems; try discriminate.
  cbn [bind] in H.
  destruct (concatM (declaredVariables text) ms) as [declared| |] eqn:Ed;
    try discriminate.
  cbn [bind] in H.
  destruct (concatM parameterVariables fs) as [ps| |] eqn:Eps;
    try discriminate.
  cbn [bind] in H. inv H.
  assert (Hvars : Forall (fun v => (0 <= var_index v)%Z) (declared ++ ps)).
  { apply Forall_app. split.
    - apply (concatM_Forall _ _ Ed). intros mr vs Hin Hvs.
      apply exec_all_Forall in Ems. rewrite Forall_forall in Ems.
      destruct (Ems mr Hin) as (li & He).
      destruct (Declared.declaredVariables_quoted _ _ He) as (vs' & Hvs' & Hq & _).
      rewrite Hvs in Hvs'. inv Hvs'.
      apply (Forall_impl _ (fun v (Hx : quoted_in text _ _ v) =>
               match Hx with
               | ex_intro _ i (conj Hi _) =>
                   eq_ind_r (fun z => (0 <= z)%Z) (Nat2Z.is_nonneg i) Hi
               end) Hq).
    - apply (concatM_Forall _ _ Eps). intros f vs _ Hvs.
      unfold parameterVariables in Hvs.
      rewrite Words.getVariablesFromTuples_words in Hvs. inv Hvs.
      apply Forall_forall. intros v Hv. apply in_map_iff in Hv.
      destruct Hv as (jw & <- & _). cbn [var_index].
      pose proof (indexOf_ge (code f) (str "(")). lia. }
  apply Forall_flat_map. intros v Hv. rewrite Forall_forall in Hvars.
  specialize (Hvars v Hv).
  destruct (testVariableName v) as [e|] eqn:E; [|constructor].
  constructor; [|constructor].
  destruct (testVariableName_raw _ E) as (_ & Hi).
  exists (Z.to_nat (var_index v)). rewrite Hi. f_equal. lia.
Qed.

(** *** Offsets resolve to positions of the text *)

Lemma getLinePos_in_text g0 text (o : nat) p :
  getLinePos (obtainLineNumbers g0 text) (Num (Z.of_nat o)) = Some p ->
  in_text text p.
Proof.
  intros H.
  destruct (Nat.le_gt_cases o (length text)) as [Hle|Hgt].
  - assert (Htotal : (line_offset (JSString.split text LF)
                        (length (JSString.split text LF))
                      = Z.of_nat (length text) + 1)%Z).
    { unfold JSString.split. rewrite LineLength.split_aux_total. simpl. lia. }
    destruct (@LineIndex.line_offset_cover (JSString.split text LF)
                (Z.of_nat o)) as (i & l & Hi & Hin); [lia|].
    rewrite (@LineLength.getLinePos_in_line g0 text i l _ Hi Hin) in H.
    inv H. exists i, l,
      (Z.to_nat (Z.of_nat o - line_offset (JSString.split text LF) i)).
    split; [exact Hi|]. split; [|lia]. do 2 f_equal. lia.
  - exfalso. unfold getLinePos in H.
    rewrite LineIndex.getLinePos_loop_beyond in H; [discriminate| |].
    + cbn [obtainLineNumbers TEXT_LENGTH]. lia.
    + apply Forall_forall. intros ln Hin.
      apply LineIndex.LINE_NUMBERS_le in Hin. lia.
Qed.

Lemma processRawErrors_in_text g0 text raws :
  Forall has_offset raws ->
  Forall (fun e => in_text text (from e) /\ in_text text (to e))
    (processRawErrors (obtainLineNumbers g0 text) raws).
Proof.
  induction 1 as [|r raws (i & Hi) _ IH]; cbn [processRawErrors];
    [constructor|].
  apply Forall_app. split; [|exact IH].
  unfold processRawError. rewrite Hi. cbn [number_add].
  rewrite <- Nat2Z.inj_add.
  destruct (getLinePos _ (Num (Z.of_nat i))) as [p|] eqn:Ep; [|constructor].
  destruct (getLinePos _ (Num (Z.of_nat (i + _)))) as [q|] eqn:Eq;
    [|constructor].
  constructor; [|constructor]. cbn [from to].
  split; [apply (getLinePos_in_text _ _ _ Ep)|apply (getLinePos_in_text _ _ _ Eq)].
Qed.

End Composition.

(** X22: [swiftLint] returns the processed raw errors of the regex rules,
    in the order of [allRegexRules], then those of the function rules on the
    functions of the text (complexity, body length, parameter count, line
    length, nesting, variable names), then those of the type rules on its
    types (nesting, body length, type names); and every finding of a regex
    rule gives a diagnostic. *)
Theorem diagnostics_in_rule_order (Options Editor : Type) (g0 : Globals)
  (text : jsstring) (opts : Options) (cm : Editor) :
  let g := obtainLineNumbers g0 text in
  exists regexErrors allFunctions allTypes complexity variables typeNames,
    concatM (regexRule text) allRegexRules = Ok regexErrors
    /\ allFunctionsOf text = Ok allFunctions
    /\ extractTypes text = Ok allTypes
    /\ cyclomaticComplexityRule text allFunctions = Ok complexity
    /\ variableNameRule text allFunctions = Ok variables
    /\ typeNameRule text allTypes = Ok typeNames
    /\ swiftLint g0 text opts cm
       = Ok (processRawErrors g
               (regexErrors
                ++ (complexity
                    ++ functionBodyLengthRule text allFunctions
                    ++ functionParameterCountRule text allFunctions
                    ++ lineLengthRule g text
                    ++ nestingFuncRule text allFunctions
                    ++ variables)
                ++ (nestingTypeRule text allTypes
                    ++ typeBodyLengthRule text allTypes
                    ++ typeNames)))
    /\ length (processRawErrors g regexErrors) = length regexErrors.
Proof.
  intros g.
  destruct (@Composition.swiftLint_exact Options Editor g0 text opts cm)
    as (regexErrors & allFunctions & allTypes & complexity & variables
        & typeNames & H1 & H2 & H3 & H4 & H5 & H6 & H7).
  exists regexErrors, allFunctions, allTypes, complexity, variables, typeNames.
  repeat (split; [assumption|]).
  symmetry. apply (@Findings.Forall2_length_eq _ _ (processed_from g)).
  apply Findings.processRawErrors_within.
  apply Composition.regexErrors_within. exact H1.
Qed.

(** X23: for every text [swiftLint] returns diagnostics whose [from] and
    [to] are positions of the text: a line of the text, and a column from 0
    to the length of that line. *)
Theorem diagnostics_lie_in_the_text (Options Editor : Type) (g0 : Globals)
  (text : jsstring) (opts : Options) (cm : Editor) :
  exists foundErrors,
    swiftLint g0 text opts cm = Ok foundErrors
    /\ Forall (fun e => in_text text (from e) /\ in_text text (to e))
         foundErrors.
Proof.
  destruct (@Composition.swiftLint_exact Options Editor g0 text opts cm)
    as (regexErrors & allFunctions & allTypes & complexity & variables
        & typeNames & H1 & H2 & H3 & H4 & H5 & H6 & H7).
  eexists. split; [exact H7|].
  apply Composition.processRawErrors_in_text.
  rewrite Complexity.cyclomaticComplexityRule_spec in H4.
  injection H4 as <-.
  repeat (apply Forall_app; split).
  - apply (Forall_impl _ (@Composition.within_has_offset (length text))).
    apply Composition.regexErrors_within. exact H1.
  - apply Composition.complexity_offsets.
  - apply Composition.functionBodyLength_offsets.
  - apply Composition.functionParameterCount_offsets.
  - apply Composition.lineLength_offsets.
  - apply Composition.nestingFunc_offsets.
  - apply (Composition.variableName_offsets _ _ H5).
  - apply Composition.nestingType_offsets.
  - apply Composition.typeBodyLength_offsets.
  - apply (Composition.typeName_offsets _ _ H6).
Qed.

(* ------------------------------------------------------------------ *)
(** ** No match is passed over *)

Module Coverage.

Import RegExpFacts Exceptions.

Lemma exec_from_first text r fuel :
  forall i mr,
    exec_from text r fuel i = Some mr ->
    forall j, i <= j < index mr -> m text r (initial r j) Some = None.
Proof.
  induction fuel as [|fuel IH]; intros i mr H j Hj; [discriminate|].
  cbn [exec_from] in H.
  destruct (m text r (initial r i) Some) as [y|] eqn:E.
  - inv H. cbn [index] in Hj. lia.
  - destruct (Nat.eq_dec j i) as [->|Hne]; [exact E|].
    apply (IH _ _ H). lia.
Qed.

Lemma exec_from_none text r fuel :
  forall i,
    exec_from text r fuel i = None ->
    forall j, i <= j < i + fuel -> m text r (initial r j) Some = None.
Proof.
  induction fuel as [|fuel IH]; intros i H j Hj; [lia|].
  cbn [exec_from] in H.
  destruct (m text r (initial r i) Some) as [y|] eqn:E; [discriminate|].
  destruct (Nat.eq_dec j i) as [->|Hne]; [exact E|].
  apply (IH _ H). lia.
Qed.

(** the loop of [exec] passes over no place where the pattern matches *)
Lemma exec_loop_cover text r fuel :
  forall li ms,
    exec_loop text r fuel li = Ok ms ->
    forall i,
      li <= i <= length text ->
      matches_at text r i ->
      exists mr, In mr ms /\ index mr <= i < lastIndex mr.
Proof.
  induction fuel as [|fuel IH]; intros li ms H i Hi (y & Hy); [discriminate|].
  cbn [exec_loop] in H. unfold exec in H.
  replace (Nat.ltb (length text) li) with false in H
    by (symmetry; apply Nat.ltb_ge; lia).
  destruct (exec_from text r (S (length text - li)) li) as [mr|] eqn:E.
  - destruct (exec_loop text r fuel (lastIndex mr)) as [rest| |] eqn:Er;
      try discriminate.
    cbn [bind] in H. inv H.
    destruct (Nat.le_gt_cases (index mr) i) as [Hle|Hgt].
    + destruct (Nat.le_gt_cases (lastIndex mr) i) as [Hpast|Hin].
      * destruct (IH _ _ Er i ltac:(lia) (ex_intro _ y Hy))
          as (mr' & Hin' & Hr).
        exists mr'. split; [right; exact Hin'|exact Hr].
      * exists mr. split; [left; reflexivity|lia].
    + pose proof (@exec_from_sound _ _ _ _ _ E) as (Hlo & _).
      rewrite (@exec_from_first _ _ _ _ _ E i) in Hy by lia. discriminate.
  - rewrite (@exec_from_none _ _ _ _ E i) in Hy by lia. discriminate.
Qed.

Lemma exec_each_incl text re res :
  forall ms,
    In re res ->
    exec_each text res = Ok ms ->
    exists ms0, exec_all text re = Ok ms0 /\ incl ms0 ms.
Proof.
  induction res as [|r res IH]; intros ms Hin H; [destruct Hin|].
  cbn [exec_each] in H.
  destruct (exec_all text r) as [ms1| |] eqn:E1; try discriminate.
  cbn [bind] in H.
  destruct (exec_each text res) as [ms2| |] eqn:E2; try discriminate.
  cbn [bind] in H. inv H. destruct Hin as [->|Hin].
  - exists ms1. split; [exact E1|]. apply incl_appl, incl_refl.
  - destruct (IH _ Hin eq_refl) as (ms0 & H0 & Hincl).
    exists ms0. split; [exact H0|]. apply incl_appr. exact Hincl.
Qed.

Lemma regexRule_cover text rule findings re i :
  regexRule text rule = Ok findings ->
  In re (rePatterns rule) ->
  i <= length text ->
  matches_at text re i ->
  exists ranges mr,
    processExceptions text (exceptions rule) = Ok ranges
    /\ (exists li, exec text re li = Some mr)
    /\ index mr <= i < lastIndex mr
    /\ (regexException (Z.of_nat (index mr)) ranges = false ->
        In (finding_of text rule mr) findings).
Proof.
  intros H Hre Hi Hm.
  destruct (Findings.regexRule_inv _ _ H) as (ranges & ms & Hr & Hms & ->).
  destruct (@exec_each_incl _ _ _ _ Hre Hms) as (ms0 & H0 & Hincl).
  destruct (@exec_loop_cover text re _ 0 ms0 H0 i ltac:(lia) Hm)
    as (mr & Hin & Hcov).
  exists ranges, mr. split; [exact Hr|]. split; [|split; [exact Hcov|]].
  - pose proof (exec_all_Forall _ _ H0) as Hall.
    rewrite Forall_forall in Hall. apply (Hall mr Hin).
  - intros Hex. apply in_map. apply filter_In. split.
    + apply Hincl. exact Hin.
    + rewrite Hex. reflexivity.
Qed.

(** a rule none of whose patterns matches the empty string returns *)
Lemma regexRule_returns text rule :
  consuming rule = true -> exists findings, regexRule text rule = Ok findings.
Proof.
  unfold consuming. intros Hall. apply andb_true_iff in Hall.
  destruct Hall as [Hp He].
  unfold regexRule, processExceptions.
  destruct (exceptions rule) as [es|].
  - destruct (exec_each_total text es He) as (ems & ->). cbn [bind].
    destruct (exec_each_total text _ Hp) as (ms & ->). cbn [bind].
    eauto.
  - cbn [bind].
    destruct (exec_each_total text _ Hp) as (ms & ->). cbn [bind].
    eauto.
Qed.

End Coverage.

(** X24: a rule none of whose patterns matches the empty string returns
    its findings and passes over no match: wherever a pattern of the rule
    matches the text, a match of that pattern that the rule has found starts
    there or covers the place, and it is among the findings unless it starts
    within an exception range. *)
Theorem regex_findings_cover_every_match (text : jsstring) (rule : RegexRule)
  (re : regex) (i : nat) :
  consuming rule = true ->
  In re (rePatterns rule) ->
  i <= length text ->
  matches_at text re i ->
  exists findings ranges mr,
    regexRule text rule = Ok findings
    /\ processExceptions text (exceptions rule) = Ok ranges
    /\ (exists li, exec text re li = Some mr)
    /\ index mr <= i < lastIndex mr
    /\ (regexException (Z.of_nat (index mr)) ranges = false ->
        In (finding_of text rule mr) findings).
Proof.
  intros Hc Hre Hi Hm.
  destruct (@Coverage.regexRule_returns text rule Hc) as (findings & H).
  destruct (@Coverage.regexRule_cover text rule findings re i H Hre Hi Hm)
    as (ranges & mr & H1 & H2 & H3 & H4).
  exists findings, ranges, mr.
  split; [exact H|]. split; [exact H1|]. split; [exact H2|].
  split; [exact H3|exact H4].
Qed.

Lemma regex_findings_cover_every_match_witness :
  exists findings ranges mr,
    regexRule (str "x as! Y") forceCastRule = Ok findings
    /\ processExceptions (str "x as! Y") (exceptions forceCastRule) = Ok ranges
    /\ (exists li, exec (str "x as! Y") (Word "as!") li = Some mr)
    /\ index mr <= 2 < lastIndex mr
    /\ (regexException (Z.of_nat (index mr)) ranges = false ->
        In (finding_of (str "x as! Y") forceCastRule mr) findings).
Proof.
  apply (@regex_findings_cover_every_match (str "x as! Y") forceCastRule
           (Word "as!") 2).
  - vm_compute. reflexivity.
  - left. reflexivity.
  - vm_compute. lia.
  - eexists. vm_compute. reflexivity.
Defined.

(* ------------------------------------------------------------------ *)
(** ** The rules of the line ends *)

Module LineEnds.

Import RegExpFacts Exceptions.

Lemma class_blank c :
  class_matches true [CNonSpace; CChar LF] c
  = (is_space c && negb (N.eqb c LF))%bool.
Proof.
  unfold class_matches. cbn [existsb atom_matches].
  destruct (is_space c), (N.eqb c LF); reflexivity.
Qed.

(** a finding of a rule comes from a match of one of its patterns *)
Lemma reported_at_match text rule findings i :
  regexRule text rule = Ok findings ->
  reported_at findings i ->
  exists re li mr,
    In re (rePatterns rule) /\ exec text re li = Some mr /\ index mr = i.
Proof.
  intros H (f & Hf & Hi).
  destruct (Findings.regexRule_inv _ _ H) as (ranges & ms & _ & Hms & ->).
  apply in_map_iff in Hf. destruct Hf as (mr & <- & Hmr).
  apply filter_In in Hmr. destruct Hmr as (Hmr & _).
  cbn [finding_of raw_index] in Hi.
  assert (Hidx : index mr = i) by (injection Hi; lia).
  clear Hi H. revert ms Hms Hmr.
  induction (rePatterns rule) as [|re res IH]; intros ms Hms Hmr;
    cbn [exec_each] in Hms.
  - inv Hms. destruct Hmr.
  - destruct (exec_all text re) as [ms1| |] eqn:E1; try discriminate.
    cbn [bind] in Hms.
    destruct (exec_each text res) as [ms2| |] eqn:E2; try discriminate.
    cbn [bind] in Hms. inv Hms. apply in_app_or in Hmr.
    destruct Hmr as [Hmr|Hmr].
    + apply exec_all_Forall in E1. rewrite Forall_forall in E1.
      destruct (E1 mr Hmr) as (li & He).
      exists re, li, mr. split; [left; reflexivity|]. split; [exact He|].
      reflexivity.
    + destruct (IH _ eq_refl Hmr) as (re' & li & mr' & Hin & He & Hi).
      exists re', li, mr'. split; [right; exact Hin|]. split; assumption.
Qed.

Lemma semicolon_match text li mr :
  exec text (Alt (Seq (L ";") (Lit LF)) (Seq (L ";") Eol)) li = Some mr ->
  nth_error text (index mr) = Some (chr ";")
  /\ ends_line text (index mr)
  /\ lastIndex mr <= index mr + 2
  /\ (lastIndex mr = index mr + 2 ->
      nth_error text (S (index mr)) = Some LF).
Proof.
  intros He. apply exec_sound in He. destruct He as (_ & _ & H).
  unfold lastIndex. destruct mr as [i y]. cbn [index final] in *.
  remember (initial _ i) as x0 eqn:Hx0.
  assert (Hi : endIndex x0 = i) by (subst x0; reflexivity). clear Hx0.
  unfold L in H. inv_matches; cbn [advance endIndex] in *;
    unfold char_at, ends_line in *.
  - split; [assumption|]. split; [left; assumption|]. split; [lia|].
    intros _. assumption.
  - split; [assumption|]. split; [right; assumption|]. split; lia.
Qed.

Lemma semicolon_matches_at text i :
  nth_error text i = Some (chr ";") ->
  ends_line text i ->
  matches_at text (Alt (Seq (L ";") (Lit LF)) (Seq (L ";") Eol)) i.
Proof.
  intros Hc He. unfold matches_at, L. cbn [m].
  unfold match_char, char_at, initial. cbn [endIndex advance].
  rewrite Hc. rewrite N.eqb_refl.
  destruct He as [He|He].
  - rewrite He, N.eqb_refl. eauto.
  - destruct (nth_error text (S i)) as [c|] eqn:E.
    + assert (S i < length text) by (apply nth_error_Some; congruence). lia.
    + rewrite He, Nat.eqb_refl. eauto.
Qed.

Lemma blank_match text li mr :
  exec text (Seq (Cls true [CNonSpace; CChar LF]) (Alt (Lit LF) Eol)) li
  = Some mr ->
  (exists c, nth_error text (index mr) = Some c
             /\ is_space c = true /\ c <> LF)
  /\ ends_line text (index mr)
  /\ lastIndex mr <= index mr + 2
  /\ (lastIndex mr = index mr + 2 ->
      nth_error text (S (index mr)) = Some LF).
Proof.
  intros He. apply exec_sound in He. destruct He as (_ & _ & H).
  unfold lastIndex. destruct mr as [i y]. cbn [index final] in *.
  remember (initial _ i) as x0 eqn:Hx0.
  assert (Hi : endIndex x0 = i) by (subst x0; reflexivity). clear Hx0.
  inv_matches; cbn [advance endIndex] in *; unfold char_at, ends_line in *;
    match goal with
    | Hcls : class_matches _ _ ?ch = true |- _ =>
        rewrite class_blank in Hcls; apply andb_prop in Hcls;
        destruct Hcls as (Hsp & Hnl); apply negb_true_iff in Hnl;
        apply N.eqb_neq in Hnl
    end.
  - split; [eauto|]. split; [left; assumption|]. split; [lia|].
    intros _. assumption.
  - split; [eauto|]. split; [right; assumption|]. split; lia.
Qed.

Lemma blank_matches_at text i c :
  nth_error text i = Some c -> is_space c = true -> c <> LF ->
  ends_line text i ->
  matches_at text (Seq (Cls true [CNonSpace; CChar LF]) (Alt (Lit LF) Eol)) i.
Proof.
  intros Hc Hsp Hnl He. unfold matches_at. cbn [m].
  unfold match_char, char_at, initial. cbn [endIndex advance].
  rewrite Hc, class_blank, Hsp.
  replace (N.eqb c LF) with false by (symmetry; apply N.eqb_neq; exact Hnl).
  cbn [andb negb].
  destruct He as [He|He].
  - rewrite He, N.eqb_refl. eauto.
  - destruct (nth_error text (S i)) as [c'|] eqn:E.
    + assert (S i < length text) by (apply nth_error_Some; congruence). lia.
    + rewrite He, Nat.eqb_refl. eauto.
Qed.

End LineEnds.

(** X25: for every text [trailingSemicolonRule] returns its findings, and
    it reports at an offset exactly when a semicolon stands there and a line
    feed or the end of the text follows; [trailingWhitespaceRule] returns
    its findings, and it reports at an offset exactly when a whitespace
    character other than the line feed stands there and a line feed or the
    end of the text follows. *)
Theorem line_end_rules_report_exactly (text : jsstring) :
  (exists findings,
     regexRule text trailingSemicolonRule = Ok findings
     /\ forall i,
          reported_at findings i
          <-> nth_error text i = Some (chr ";") /\ ends_line text i)
  /\ (exists findings,
        regexRule text trailingWhitespaceRule = Ok findings
        /\ forall i,
             reported_at findings i
             <-> (exists c, nth_error text i = Some c
                            /\ is_space c = true /\ c <> LF)
                 /\ ends_line text i).
Proof.
  split;
    [destruct (@Coverage.regexRule_returns text trailingSemicolonRule eq_refl)
       as (findings & H)
    |destruct (@Coverage.regexRule_returns text trailingWhitespaceRule eq_refl)
       as (findings & H)];
    exists findings; (split; [exact H|]); intros i; split.
  - intros Hrep.
    destruct (@LineEnds.reported_at_match _ _ _ _ H Hrep)
      as (re & li & mr & [<-|[]] & He & <-).
    destruct (@LineEnds.semicolon_match _ _ _ He) as (H1 & H2 & _).
    split; assumption.
  - intros (Hc & He).
    assert (Hlt : i < length text) by (apply nth_error_Some; congruence).
    destruct (@Coverage.regexRule_cover text trailingSemicolonRule findings
                _ i H (or_introl eq_refl) (Nat.lt_le_incl _ _ Hlt)
                (@LineEnds.semicolon_matches_at _ _ Hc He))
      as (ranges & mr & Hr & (li & Hex) & Hcov & Hin).
    cbn [trailingSemicolonRule exceptions processExceptions] in Hr.
    injection Hr as <-. specialize (Hin eq_refl).
    destruct (@LineEnds.semicolon_match _ _ _ Hex) as (_ & _ & Hlen & Hlf).
    assert (Hi : index mr = i).
    { destruct (Nat.eq_dec (index mr) i) as [Heq|Hne]; [exact Heq|].
      assert (Hl : lastIndex mr = index mr + 2) by lia.
      specialize (Hlf Hl). replace (S (index mr)) with i in Hlf by lia.
      rewrite Hc in Hlf. discriminate. }
    exists (finding_of text trailingSemicolonRule mr).
    split; [exact Hin|]. cbn [finding_of raw_index]. rewrite Hi. reflexivity.
  - intros Hrep.
    destruct (@LineEnds.reported_at_match _ _ _ _ H Hrep)
      as (re & li & mr & [<-|[]] & He & <-).
    destruct (@LineEnds.blank_match _ _ _ He) as (H1 & H2 & _).
    split; assumption.
  - intros ((c & Hc & Hsp & Hnl) & He).
    assert (Hlt : i < length text) by (apply nth_error_Some; congruence).
    destruct (@Coverage.regexRule_cover text trailingWhitespaceRule findings
                _ i H (or_introl eq_refl) (Nat.lt_le_incl _ _ Hlt)
                (@LineEnds.blank_matches_at _ _ _ Hc Hsp Hnl He))
      as (ranges & mr & Hr & (li & Hex) & Hcov & Hin).
    cbn [trailingWhitespaceRule exceptions processExceptions] in Hr.
    injection Hr as <-. specialize (Hin eq_refl).
    destruct (@LineEnds.blank_match _ _ _ Hex) as (_ & _ & Hlen & Hlf).
    assert (Hi : index mr = i).
    { destruct (Nat.eq_dec (index mr) i) as [Heq|Hne]; [exact Heq|].
      assert (Hl : lastIndex mr = index mr + 2) by lia.
      specialize (Hlf Hl). replace (S (index mr)) with i in Hlf by lia.
      rewrite Hc in Hlf. injection Hlf as ->. congruence. }
    exists (finding_of text trailingWhitespaceRule mr).
    split; [exact Hin|]. cbn [finding_of raw_index]. rewrite Hi. reflexivity.
Qed.

(* ------------------------------------------------------------------ *)
(** ** The trailing newline *)

Module TrailingNewline.

Import RegExpFacts Bodies Exceptions.

Lemma class_not_LF c : class_matches true [CChar LF] c = negb (N.eqb c LF).
Proof.
  unfold class_matches. cbn [existsb atom_matches].
  rewrite orb_false_r. destruct (N.eqb c LF) eqn:E.
  - apply N.eqb_eq in E. subst c. reflexivity.
  - rewrite N.eqb_sym in E. unfold LF in *.
    destruct (N.eqb _ c) eqn:E'; [|reflexivity].
    rewrite N.eqb_sym in E'. congruence.
Qed.

(** what a quantified character takes *)
Lemma Matches_Rep_Lit text ch r0 x y :
  Matches text r0 x y ->
  forall min g,
    r0 = Rep (Lit ch) min None g ->
    endIndex x + min <= endIndex y
    /\ forall j, endIndex x <= j < endIndex y -> char_at text j = Some ch.
Proof.
  induction 1; intros min' g' Heq; try discriminate.
  - inv Heq. discriminate.
  - inv Heq. split; [lia|intros; lia].
  - inv Heq. inv H0. unfold clear_captures in *.
    cbn [groups fold_left advance endIndex] in *.
    destruct (IHMatches2 _ _ eq_refl) as (Hlo & Hch).
    cbn [advance endIndex] in *. split; [lia|].
    intros j Hj. destruct (Nat.eq_dec j (endIndex x)) as [->|Hne];
      [assumption|]. apply Hch. lia.
Qed.

Lemma m_Alt_eq text r1 r2 x c :
  m text (Alt r1 r2) x c
  = match m text r1 x c with
    | Some z => Some z
    | None => m text r2 x c
    end.
Proof. reflexivity. Qed.

Lemma m_Seq_eq text r1 r2 x c :
  m text (Seq r1 r2) x c = m text r1 x (fun y => m text r2 y c).
Proof. reflexivity. Qed.

(** a match of the pattern: the text ends without a line feed, or with
    two *)
Lemma trailing_match text li mr :
  exec text (Alt (Seq (Plus (Cls true [CChar LF])) Eol)
                 (Seq (AtLeast 2 (Lit LF)) Eol)) li = Some mr ->
  text <> [] /\ ~ single_trailing_newline text.
Proof.
  intros He. apply exec_sound in He. destruct He as (_ & _ & H).
  destruct mr as [i y]. cbn [index final] in *.
  remember (initial _ i) as x0 eqn:Hx0. clear Hx0.
  inv H.
  - match goal with HS : Matches _ (Seq _ _) _ _ |- _ => inv HS end.
    match goal with HE : Matches _ Eol _ _ |- _ => inv HE end.
    match goal with
    | HR : Matches _ (Plus _) _ _ |- _ =>
        pose proof (@NameShapes.Matches_Rep_count text true [CChar LF] _ _ _ HR
                      1 None true eq_refl ltac:(discriminate)) as (Hc & _);
        pose proof (@Matches_Rep_class text true [CChar LF] _ _ _ HR
                      1 None true eq_refl (length text - 1) ltac:(lia))
          as (c & Hch & Hcls)
    end.
    split; [intros ->; cbn [length] in *; lia|].
    intros (Hlast & _). unfold char_at in Hch. rewrite Hlast in Hch.
    inv Hch. rewrite class_not_LF, N.eqb_refl in Hcls. discriminate.
  - match goal with HS : Matches _ (Seq _ _) _ _ |- _ => inv HS end.
    match goal with HE : Matches _ Eol _ _ |- _ => inv HE end.
    match goal with
    | HR : Matches _ (AtLeast 2 _) _ _ |- _ =>
        destruct (@Matches_Rep_Lit text LF _ _ _ HR 2 true eq_refl)
          as (Hc & Hch)
    end.
    split; [intros ->; cbn [length] in *; lia|].
    intros (_ & Htwo). apply Htwo; [lia|].
    apply (Hch (length text - 2)). lia.
Qed.

(** the pattern matches near the end of a text that ends badly *)
Lemma trailing_matches_at text :
  text <> [] -> ~ single_trailing_newline text ->
  exists i,
    i < length text
    /\ matches_at text (Alt (Seq (Plus (Cls true [CChar LF])) Eol)
                            (Seq (AtLeast 2 (Lit LF)) Eol)) i.
Proof.
  intros Hne Hbad.
  assert (Hlen : 0 < length text) by (destruct text; [congruence|simpl; lia]).
  destruct (nth_error text (length text - 1)) as [c|] eqn:Ec;
    [|apply nth_error_None in Ec; lia].
  destruct (N.eqb c LF) eqn:Elf.
  - (* the last character is a line feed: so is the one before *)
    apply N.eqb_eq in Elf. subst c.
    assert (H2 : 2 <= length text
                 /\ nth_error text (length text - 2) = Some LF).
    { destruct (Nat.le_gt_cases 2 (length text)) as [Hle|Hgt].
      - split; [exact Hle|].
        destruct (nth_error text (length text - 2)) as [c|] eqn:E2;
          [|apply nth_error_None in E2; lia].
        destruct (N.eqb c LF) eqn:E; [apply N.eqb_eq in E; congruence|].
        apply N.eqb_neq in E.
        exfalso. apply Hbad. split; [exact Ec|].
        intros _ Heq. congruence.
      - exfalso. apply Hbad. split; [exact Ec|]. intros; lia. }
    destruct H2 as (Hle & E2).
    exists (length text - 2). split; [lia|].
    unfold matches_at, initial.
    set (caps := repeat None _).
    rewrite m_Alt_eq, !m_Seq_eq. unfold Plus.
    rewrite Greedy.m_class_none; [|lia| |reflexivity].
    2:{ cbn [endIndex].
        destruct (skipn (length text - 2) text) as [|a l] eqn:Es;
          [reflexivity|].
        apply skipn_cons_nth in Es. destruct Es as (Es & _).
        rewrite E2 in Es. injection Es as <-. cbn [run_length].
        rewrite class_not_LF, N.eqb_refl. reflexivity. }
    unfold AtLeast. cbn [m groups endIndex].
    replace (length text - (length text - 2)) with 2 by lia.
    cbn [Nat.add RepeatMatcher is_zero_max Nat.eqb negb pred pred_max andb].
    unfold clear_captures. cbn [fold_left].
    unfold match_char, char_at. cbn [endIndex advance].
    rewrite E2, N.eqb_refl.
    replace (S (length text - 2)) with (length text - 1) by lia.
    rewrite Ec, N.eqb_refl.
    replace (S (length text - 1)) with (length text) by lia.
    replace (nth_error text (length text)) with (@None char)
      by (symmetry; apply nth_error_None; lia).
    rewrite Nat.eqb_refl. eauto.
  - exists (length text - 1). split; [lia|].
    unfold matches_at.
    destruct (@NameShapes.accepts_class_to_end text true [CChar LF] 1 None
                (initial (Alt (Seq (Plus (Cls true [CChar LF])) Eol)
                              (Seq (AtLeast 2 (Lit LF)) Eol))
                   (length text - 1)))
      as (z & Hz).
    + cbn [initial endIndex]. lia.
    + cbn [initial endIndex].
      apply NameShapes.chars_forallb. intros j Hj.
      assert (j = length text - 1) by lia. subst j.
      exists c. split; [exact Ec|]. rewrite class_not_LF, Elf. reflexivity.
    + cbn [initial endIndex]. lia.
    + discriminate.
    + exists z. rewrite m_Alt_eq. unfold Plus in *. rewrite Hz. reflexivity.
Qed.

End TrailingNewline.

(** X26: for every text [trailingNewlineRule] returns its findings, and
    it has no finding exactly when the text is empty or ends with one line
    feed and not with two. *)
Theorem trailing_newline_verdict (text : jsstring) :
  exists findings,
    regexRule text trailingNewlineRule = Ok findings
    /\ (findings = [] <-> text = [] \/ single_trailing_newline text).
Proof.
  destruct (@Coverage.regexRule_returns text trailingNewlineRule eq_refl)
    as (findings & H).
  exists findings. split; [exact H|]. split.
  - intros ->.
    destruct text as [|c text]; [left; reflexivity|]. right.
    destruct (nth_error (c :: text) (length (c :: text) - 1)) as [c1|] eqn:E1;
      [|apply nth_error_None in E1; cbn [length] in E1; lia].
    assert (Hdec : single_trailing_newline (c :: text)
                   \/ ~ single_trailing_newline (c :: text)).
    { unfold single_trailing_newline. rewrite E1.
      destruct (N.eqb c1 LF) eqn:Ea.
      - apply N.eqb_eq in Ea. subst c1.
        destruct (nth_error (c :: text) (length (c :: text) - 2)) as [c2|] eqn:E2.
        + destruct (N.eqb c2 LF) eqn:Eb.
          * apply N.eqb_eq in Eb. subst c2.
            destruct (Nat.le_gt_cases 2 (length (c :: text))) as [Hle|Hgt].
            -- right. intros (_ & Hn). apply (Hn Hle). reflexivity.
            -- left. split; [reflexivity|]. intros; lia.
          * apply N.eqb_neq in Eb. left. split; [reflexivity|].
            intros _ Heq. congruence.
        + left. split; [reflexivity|]. intros _. discriminate.
      - apply N.eqb_neq in Ea. right. intros (Heq & _). congruence. }
    destruct Hdec as [Hok|Hbad]; [exact Hok|]. exfalso.
    destruct (@TrailingNewline.trailing_matches_at (c :: text)
                ltac:(discriminate) Hbad) as (i & Hi & Hm).
    destruct (@Coverage.regexRule_cover (c :: text) trailingNewlineRule []
                _ i H (or_introl eq_refl) (Nat.lt_le_incl _ _ Hi) Hm)
      as (ranges & mr & Hr & _ & _ & Hin).
    cbn [trailingNewlineRule exceptions processExceptions] in Hr.
    injection Hr as <-. apply (Hin eq_refl).
  - intros Hgood. destruct findings as [|f findings]; [reflexivity|].
    exfalso.
    assert (Hrep : reported_at (f :: findings)
                     (Z.to_nat match raw_index f with
                               | Num z => z
                               | NaN => 0%Z
                               end)).
    { pose proof (Findings.regexRule_findings _ _ H) as Hall.
      rewrite Forall_forall in Hall.
      destruct (Hall f (or_introl eq_refl)) as ((i & Hi & _) & _).
      exists f. split; [left; reflexivity|]. rewrite Hi. rewrite Nat2Z.id.
      reflexivity. }
    destruct (@LineEnds.reported_at_match _ _ _ _ H Hrep)
      as (re & li & mr & [<-|[]] & He & _).
    destruct (@TrailingNewline.trailing_match _ _ _ He) as (Hne & Hbad).
    destruct Hgood as [->|Hok]; [apply Hne; reflexivity|apply Hbad; exact Hok].
Qed.

(* ------------------------------------------------------------------ *)
(** ** Long lines and literal patterns *)

Module LongLines.

Import PositionIndex LineLength.

Lemma lineLength_loop_exact g0 text rest :
  forall pre,
    JSString.split text LF = pre ++ rest ->
    processRawErrors (obtainLineNumbers g0 text)
      (lineLength_loop (obtainLineNumbers g0 text) rest
         (Z.of_nat (length pre)))
    = map (fun il => lineLengthError (fst il) (length (snd il)))
        (filter (fun il => 100 <? length (snd il))
           (combine (seq (length pre) (length rest)) rest)).
Proof.
  induction rest as [|l rest IH]; intros pre Heq; [reflexivity|].
  cbn [lineLength_loop length seq combine filter snd fst].
  rewrite processRawErrors_app.
  replace (Z.of_nat (length pre) + 1)%Z with (Z.of_nat (length (pre ++ [l])))
    by (rewrite length_app; cbn [length]; lia).
  rewrite (IH (pre ++ [l])) by (rewrite <- app_assoc; exact Heq).
  replace (length (pre ++ [l])) with (S (length pre))
    by (rewrite length_app; cbn [length]; lia).
  assert (Hn : nth_error (JSString.split text LF) (length pre) = Some l).
  { rewrite Heq, nth_error_app2 by lia. rewrite Nat.sub_diag. reflexivity. }
  destruct (Nat.ltb_spec 100 (length l)) as [Hlong|Hshort].
  - replace (Z.of_nat (length l) >? 100)%Z with true
      by (symmetry; apply Z.gtb_lt; lia).
    cbn [map fst snd].
    match goal with
    | |- ?A ++ ?T = ?h :: ?T' =>
        assert (Hh : A = [h]); [|rewrite Hh; reflexivity]
    end.
    cbn [processRawErrors]. rewrite app_nil_r. unfold processRawError.
    cbn [raw_index raw_code raw_severity raw_message].
    rewrite (@line_number_nth g0 text _ _ Hn). cbn [number_add].
    pose proof (LineIndex.line_offset_nonneg (JSString.split text LF)
                  (length pre)) as Hnn.
    rewrite (@getLinePos_in_line g0 text _ l _ Hn) by lia.
    rewrite (@getLinePos_in_line g0 text _ l _ Hn) by lia.
    unfold lineLengthError. f_equal. f_equal.
    + destruct (Nat.ltb_spec 200 (length l)).
      * replace (Z.of_nat (length l) >? 200)%Z with true
          by (symmetry; apply Z.gtb_lt; lia). reflexivity.
      * replace (Z.of_nat (length l) >? 200)%Z with false; [reflexivity|].
        symmetry. rewrite Z.gtb_ltb. apply Z.ltb_ge. lia.
    + rewrite Z.sub_diag. reflexivity.
    + do 2 f_equal. lia.
  - replace (Z.of_nat (length l) >? 100)%Z with false
      by (symmetry; rewrite Z.gtb_ltb; apply Z.ltb_ge; lia).
    reflexivity.
Qed.

End LongLines.

Module Literals.

Import RegExpFacts.

(** a match of a literal pattern: the literal stands at its index *)
Lemma literal_match text k li mr :
  exec text (Lits k) li = Some mr ->
  stands_at k text (index mr) /\ lastIndex mr = index mr + length k.
Proof.
  intros He. apply Headers.exec_m in He.
  rewrite Complexity.m_Lits in He. unfold initial in He. cbn [endIndex] in He.
  unfold stands_at.
  destruct (JSString.starts_with k (skipn (index mr) text));
    [|discriminate].
  split; [reflexivity|]. unfold lastIndex. inv He. reflexivity.
Qed.

Lemma literal_matches_at text k i :
  stands_at k text i -> matches_at text (Lits k) i.
Proof.
  unfold stands_at, matches_at. intros H. rewrite Complexity.m_Lits.
  unfold initial. cbn [endIndex]. rewrite H. eauto.
Qed.

Lemma stands_at_nth k text i j c :
  stands_at k text i -> nth_error k j = Some c ->
  nth_error text (i + j) = Some c.
Proof.
  unfold stands_at. intros H Hj.
  rewrite <- Complexity.nth_error_skipn.
  apply (@Complexity.starts_with_nth _ _ _ _ H Hj).
Qed.

(** the findings of a rule whose pattern is a literal that does not overlap
    itself *)
Lemma literal_rule text rule k findings i :
  rePatterns rule = [Lits k] ->
  exceptions rule = None ->
  (forall a d c, 0 < d < length k -> nth_error k 0 = Some a ->
                 nth_error k d = Some c -> c <> a) ->
  k <> [] ->
  regexRule text rule = Ok findings ->
  (reported_at findings i <-> stands_at k text i).
Proof.
  intros Hre Hex Hfree Hne H. split.
  - intros Hrep.
    destruct (@LineEnds.reported_at_match _ _ _ _ H Hrep)
      as (re & li & mr & Hin & He & <-).
    rewrite Hre in Hin. destruct Hin as [<-|[]].
    apply (@literal_match _ _ _ _ He).
  - intros Hocc.
    destruct k as [|a k]; [congruence|].
    assert (Hi : i < length text).
    { apply nth_error_Some.
      rewrite <- (Nat.add_0_r i).
      rewrite (@stands_at_nth _ _ _ 0 a Hocc eq_refl). discriminate. }
    assert (Hin : In (Lits (a :: k)) (rePatterns rule))
      by (rewrite Hre; left; reflexivity).
    destruct (@Coverage.regexRule_cover text rule findings _ i H Hin
                (Nat.lt_le_incl _ _ Hi) (@literal_matches_at _ _ _ Hocc))
      as (ranges & mr & Hr & (li & Hexec) & Hcov & Hfind).
    rewrite Hex in Hr. cbn [processExceptions] in Hr. injection Hr as <-.
    specialize (Hfind eq_refl).
    destruct (@literal_match _ _ _ _ Hexec) as (Hocc' & Hlast).
    assert (Hidx : index mr = i).
    { destruct (Nat.eq_dec (index mr) i) as [Heq|Hneq]; [exact Heq|].
      exfalso.
      assert (Hd : 0 < i - index mr < length (a :: k)) by lia.
      destruct (nth_error (a :: k) (i - index mr)) as [c|] eqn:Ec;
        [|apply nth_error_None in Ec; lia].
      pose proof (@stands_at_nth _ _ _ _ _ Hocc' Ec) as H1.
      replace (index mr + (i - index mr)) with i in H1 by lia.
      pose proof (@stands_at_nth _ _ _ 0 a Hocc eq_refl) as H2.
      rewrite Nat.add_0_r in H2. rewrite H1 in H2. injection H2 as ->.
      apply (Hfree a (i - index mr) a Hd eq_refl Ec). reflexivity. }
    exists (finding_of text rule mr). split; [exact Hfind|].
    cbn [finding_of raw_index]. rewrite Hidx. reflexivity.
Qed.

End Literals.

(** X27: the processed errors of [lineLengthRule] are, in the order of
    the lines, one for each line of more than 100 characters and none for
    any other line: from the start of the line to its end, a warning up to
    200 characters and an error above. *)
Theorem only_long_lines_are_reported (g0 : Globals) (text : jsstring) :
  let g := obtainLineNumbers g0 text in
  processRawErrors g (lineLengthRule g text)
  = map (fun il => lineLengthError (fst il) (length (snd il)))
      (filter (fun il => 100 <? length (snd il)) (numbered_lines text)).
Proof.
  intros g. unfold lineLengthRule, numbered_lines.
  apply (@LongLines.lineLength_loop_exact g0 text _ []). reflexivity.
Qed.

(** X28: for every text [forceCastRule] returns its findings, and it
    reports at an offset exactly when [as!] stands there in the text;
    [forceTryRule] returns its findings, and it reports at an offset exactly
    when [try!] stands there; whatever comes before and after it. *)
Theorem force_rules_report_every_occurrence (text : jsstring) :
  (exists findings,
     regexRule text forceCastRule = Ok findings
     /\ forall i, reported_at findings i <-> stands_at (str "as!") text i)
  /\ (exists findings,
        regexRule text forceTryRule = Ok findings
        /\ forall i, reported_at findings i <-> stands_at (str "try!") text i).
Proof.
  split;
    [destruct (@Coverage.regexRule_returns text forceCastRule eq_refl)
       as (findings & H)
    |destruct (@Coverage.regexRule_returns text forceTryRule eq_refl)
       as (findings & H)];
    exists findings; (split; [exact H|]); intros i.
  - apply (@Literals.literal_rule text forceCastRule (str "as!") findings i);
      try reflexivity; try discriminate; try exact H.
    intros a d c Hd Ha Hc. cbn [length str list_ascii_of_string map] in Hd.
    injection Ha as <-.
    destruct d as [|[|[|d]]]; try lia; cbn in Hc; injection Hc as <-;
      discriminate.
  - apply (@Literals.literal_rule text forceTryRule (str "try!") findings i);
      try reflexivity; try discriminate; try exact H.
    intros a d c Hd Ha Hc. cbn [length str list_ascii_of_string map] in Hd.
    injection Ha as <-.
    destruct d as [|[|[|[|d]]]]; try lia; cbn in Hc; injection Hc as <-;
      discriminate.
Qed.
